(** * Flowgraph profile support (src/coreclr/jit/fgprofile.cpp)

    A shallow embedding of the profile-guided flow analysis of the JIT:
    profile data lookup, inlinee profile scale, instrumentation, block
    weight propagation, called count and the edge weight solver.

    Conventions of the embedding.
    - [BasicBlock::weight_t] is a C++ [float] (IEEE 754 binary32).  A
      weight is modelled by the rational number it denotes ([Q]); every
      arithmetic operation of the source on weights is the exact
      operation followed by the rounding of the format (to nearest, ties
      to even, 24 significant bits; 53 for the [double] of the inlinee
      scale), and every comparison is the comparison on [Q].  The
      exponent range of the formats is not modelled: results are taken to
      stay finite, so overflow to infinity and NaN do not occur.  (A sum
      of non-negative weights beyond [FLT_MAX] is infinite in the source
      and finite in the model; it compares with a finite weight the same
      way in both.)
    - A block is referenced by its position in the linear block list
      ([fgFirstBB] is position 0, [bbNext] of position [i] is [i+1]).
    - [assert] is the checked-build-only assertion: it documents an
      expectation and is not part of the modelled control flow.
      [noway_assert] is active in every build and is modelled as the
      [Abort] outcome.
*)

From stdpp Require Import base list.
From Stdlib Require Import ZArith QArith Qminmax Qround Qpower Qabs Lia Lqa Bool.
From Stdlib Require Strings.Byte.

Local Open Scope Q_scope.

(* ===================================================================== *)
(** * Part I: the program                                                 *)
(* ===================================================================== *)

(** ** Weights *)

Definition weight_t : Type := Q.

(** Modelled from the spec: the weight constants are declared in block.h,
    which is not part of the sources at hand.  [BB_MAX_WEIGHT] is the
    largest representable weight ([FLT_MAX]), [BB_ZERO_WEIGHT] is zero and
    [BB_UNITY_WEIGHT] is the weight of a block executed once per call. *)
Definition BB_ZERO_WEIGHT : weight_t := 0.
Definition BB_UNITY_WEIGHT : weight_t := 100.
Definition BB_MAX_WEIGHT : weight_t :=
  inject_Z 340282346638528859811704183484516925440.

(** *** Rounding

    The exponent of the leading binary digit of a positive rational: the
    [k] with [2^k <= q < 2^(k+1)]. *)
Definition ilog2 (q : Q) : Z :=
  let l := (Z.log2 (Qnum q) - Z.log2 (Zpos (Qden q)))%Z in
  if Qle_bool (2 ^ l) q then l else (l - 1)%Z.

(** The nearest integer, a tie going to the even one. *)
Definition roundHalfEven (s : Q) : Z :=
  let m := Qfloor s in
  match Qcompare (s - inject_Z m) (1 # 2) with
  | Lt => m
  | Gt => (m + 1)%Z
  | Eq => if Z.even m then m else (m + 1)%Z
  end.

(** A positive rational rounded to [prec] significant binary digits. *)
Definition roundMagnitude (prec : Z) (q : Q) : Q :=
  let e := (ilog2 q - (prec - 1))%Z in
  inject_Z (roundHalfEven (q / 2 ^ e)) * 2 ^ e.

(** A rational rounded to the nearest number with [prec] significant
    binary digits, ties to even; the result is in lowest terms. *)
Definition roundToPrecision (prec : Z) (q : Q) : Q :=
  let r := Qred q in
  match Qcompare r 0 with
  | Eq => 0
  | Gt => Qred (roundMagnitude prec r)
  | Lt => Qred (- roundMagnitude prec (- r))
  end.

(** The value a [float] and a [double] take for an exact result. *)
Definition roundToFloat (q : Q) : weight_t := roundToPrecision 24 q.
Definition roundToDouble (q : Q) : Q := roundToPrecision 53 q.

(** The arithmetic of the source on weights. *)
Definition w_add (a b : weight_t) : weight_t := roundToFloat (a + b).
Definition w_sub (a b : weight_t) : weight_t := roundToFloat (a - b).
Definition w_mul (a b : weight_t) : weight_t := roundToFloat (a * b).

(** [(BasicBlock::weight_t)n] for an unsigned integer [n]. *)
Definition w_of_unsigned (n : Z) : weight_t := roundToFloat (inject_Z n).

(** The comparison operators of the source on weights. *)
Definition w_le (a b : weight_t) : bool := Qle_bool a b.          (* a <= b *)
Definition w_ge (a b : weight_t) : bool := Qle_bool b a.          (* a >= b *)
Definition w_lt (a b : weight_t) : bool := negb (Qle_bool b a).   (* a <  b *)
Definition w_gt (a b : weight_t) : bool := negb (Qle_bool a b).   (* a >  b *)
Definition w_eq (a b : weight_t) : bool := Qeq_bool a b.          (* a == b *)
Definition w_ne (a b : weight_t) : bool := negb (Qeq_bool a b).   (* a != b *)

(** ** Flow edges (flowList) *)

Record flowList : Type := mkFlowList {
  flBlock : nat;                 (* getBlock(): the source block of the edge *)
  flEdgeWeightMin : weight_t;
  flEdgeWeightMax : weight_t;
  flDupCount : nat
}.

Definition edgeWeightMin (e : flowList) : weight_t := flEdgeWeightMin e.
Definition edgeWeightMax (e : flowList) : weight_t := flEdgeWeightMax e.

Definition set_flEdgeWeightMin (w : weight_t) (e : flowList) : flowList :=
  mkFlowList (flBlock e) w (flEdgeWeightMax e) (flDupCount e).
Definition set_flEdgeWeightMax (w : weight_t) (e : flowList) : flowList :=
  mkFlowList (flBlock e) (flEdgeWeightMin e) w (flDupCount e).

(** [flowList::setEdgeWeightMinChecked].  The edge is threaded through; the
    out-parameter [wbUsedSlop] (never null at the call sites of this file)
    is the boolean that is threaded next to it.  The result is
    (return value, edge afterwards, [*wbUsedSlop] afterwards). *)
Definition setEdgeWeightMinChecked
    (e : flowList) (newWeight slop : weight_t) (wbUsedSlop : bool)
    : bool * flowList * bool :=
  if w_le newWeight (flEdgeWeightMax e) && w_ge newWeight (flEdgeWeightMin e) then
    (true, set_flEdgeWeightMin newWeight e, wbUsedSlop)
  else if w_gt slop 0 then
    (* We allow for a small amount of inaccuracy in block weight counts. *)
    if w_lt (flEdgeWeightMax e) newWeight then
      if w_le newWeight (w_add (flEdgeWeightMax e) slop) then
        if w_ne (flEdgeWeightMax e) 0 then
          (* raise flEdgeWeightMin and Max towards newWeight *)
          (true,
           set_flEdgeWeightMax newWeight
             (set_flEdgeWeightMin (flEdgeWeightMax e) e),
           true)
        else (true, e, true)
      else (false, e, wbUsedSlop)
    else
      if w_ge (w_add newWeight slop) (flEdgeWeightMin e) then
        (* lower flEdgeWeightMin towards newWeight *)
        (true, set_flEdgeWeightMin newWeight e, true)
      else (false, e, wbUsedSlop)
  else (false, e, wbUsedSlop).

(** [flowList::setEdgeWeightMaxChecked]. *)
Definition setEdgeWeightMaxChecked
    (e : flowList) (newWeight slop : weight_t) (wbUsedSlop : bool)
    : bool * flowList * bool :=
  if w_ge newWeight (flEdgeWeightMin e) && w_le newWeight (flEdgeWeightMax e) then
    (true, set_flEdgeWeightMax newWeight e, wbUsedSlop)
  else if w_gt slop 0 then
    if w_lt (flEdgeWeightMax e) newWeight then
      if w_le newWeight (w_add (flEdgeWeightMax e) slop) then
        if w_ne (flEdgeWeightMax e) 0 then
          (* raise flEdgeWeightMax towards newWeight *)
          (true, set_flEdgeWeightMax newWeight e, true)
        else (true, e, true)
      else (false, e, wbUsedSlop)
    else
      if w_ge (w_add newWeight slop) (flEdgeWeightMin e) then
        (* lower flEdgeWeightMin and Max towards newWeight *)
        (true,
         set_flEdgeWeightMin newWeight
           (set_flEdgeWeightMax (flEdgeWeightMin e) e),
         true)
      else (false, e, wbUsedSlop)
  else (false, e, wbUsedSlop).

(** [flowList::setEdgeWeights]. *)
Definition setEdgeWeights (theMinWeight theMaxWeight : weight_t) (e : flowList)
    : flowList :=
  set_flEdgeWeightMax theMaxWeight (set_flEdgeWeightMin theMinWeight e).

(** ** Basic blocks *)

(** Modelled from the spec: the jump kinds of a block, declared in block.h,
    which is not part of the sources at hand. *)
Inductive BBjumpKinds : Type :=
| BBJ_EHFINALLYRET | BBJ_EHFILTERRET | BBJ_EHCATCHRET | BBJ_THROW | BBJ_RETURN
| BBJ_NONE | BBJ_ALWAYS | BBJ_CALLFINALLY | BBJ_COND | BBJ_SWITCH.

(** Modelled from the spec: the flag word [bbFlags], restricted to the bits
    this file tests or writes.  The bit positions are declared in block.h,
    which is not part of the sources at hand; the word is modelled by one
    boolean per named bit, so that [flags |= BBF_X] sets the field and
    [flags &= ~BBF_X] clears it. *)
Record BasicBlockFlags : Type := mkFlags {
  BBF_IMPORTED : bool;
  BBF_INTERNAL : bool;
  BBF_PROF_WEIGHT : bool;
  BBF_RUN_RARELY : bool;
  BBF_HAS_CLASS_PROFILE : bool
}.

Definition set_BBF_PROF_WEIGHT (v : bool) (f : BasicBlockFlags) : BasicBlockFlags :=
  mkFlags (BBF_IMPORTED f) (BBF_INTERNAL f) v (BBF_RUN_RARELY f)
          (BBF_HAS_CLASS_PROFILE f).
Definition set_BBF_RUN_RARELY (v : bool) (f : BasicBlockFlags) : BasicBlockFlags :=
  mkFlags (BBF_IMPORTED f) (BBF_INTERNAL f) (BBF_PROF_WEIGHT f) v
          (BBF_HAS_CLASS_PROFILE f).

(** *** IR trees

    The IR is declared in gentree.h, which is not part of the sources at
    hand; what follows models the part of it this file touches. *)

(** Modelled from the spec: the call types; only [CT_INDIRECT] is told
    apart here. *)
Inductive gtCallTypes : Type := CT_USER_FUNC | CT_HELPER | CT_INDIRECT.

(** Modelled from the spec: the virtual-call kind held in the call's
    flags, which [IsVirtual], [IsVirtualStub] and [IsVirtualVtable] test. *)
Inductive CallVirtKind : Type :=
| GTF_CALL_NONVIRT | GTF_CALL_VIRT_STUB | GTF_CALL_VIRT_VTABLE.

(** Modelled from the spec: the probe record attached to a call that is a
    class profile candidate. *)
Record ClassProfileCandidateInfo : Type := mkCandidateInfo {
  ilOffset : Z;
  probeIndex : Z;
  stubAddr : Z
}.

(** Modelled from the spec: the fields of a [GenTreeCall] this file reads
    or writes (its operands are in the tree).  The stub address and the
    probe record are two fields here, as the source names them. *)
Record CallHeader : Type := mkCallHeader {
  gtCallType : gtCallTypes;
  gtCallVirtKind : CallVirtKind;
  gtCallMethHnd : Z;
  gtStubCallStubAddr : Z;
  gtClassProfileCandidateInfo : ClassProfileCandidateInfo
}.

Definition set_gtStubCallStubAddr (a : Z) (h : CallHeader) : CallHeader :=
  mkCallHeader (gtCallType h) (gtCallVirtKind h) (gtCallMethHnd h) a
               (gtClassProfileCandidateInfo h).

(** Modelled from the spec: the tests on the virtual-call kind and on the
    call type that this file uses. *)
Definition IsVirtual (h : CallHeader) : bool :=
  match gtCallVirtKind h with GTF_CALL_NONVIRT => false | _ => true end.
Definition IsVirtualStub (h : CallHeader) : bool :=
  match gtCallVirtKind h with GTF_CALL_VIRT_STUB => true | _ => false end.
Definition IsVirtualVtable (h : CallHeader) : bool :=
  match gtCallVirtKind h with GTF_CALL_VIRT_VTABLE => true | _ => false end.
Definition is_CT_INDIRECT (h : CallHeader) : bool :=
  match gtCallType h with CT_INDIRECT => true | _ => false end.

(** Modelled from the spec: the operators of the nodes this file builds;
    every other operator is [GT_OTHER]. *)
Inductive genTreeOps : Type :=
| GT_NOP | GT_LCL_VAR | GT_CNS_INT | GT_IND | GT_ADD | GT_ASG | GT_COMMA
| GT_NE | GT_COLON | GT_QMARK | GT_OTHER.

#[local] Unset Elimination Schemes.
(** Modelled from the spec: an IR tree is a call with its header, [this]
    argument and arguments, or any other node with its operator, its
    immediate value (local number, constant) and its operands. *)
Inductive GenTree : Type :=
| GenTreeCall (h : CallHeader) (gtCallThisArg : option GenTree)
              (gtCallArgs : list GenTree)
| GenTreeOp (oper : genTreeOps) (val : Z) (operands : list GenTree).
#[local] Set Elimination Schemes.

(** A statement is given by its root node. *)
Definition Statement : Type := GenTree.

Record BasicBlock : Type := mkBasicBlock {
  bbWeight : weight_t;
  bbFlags : BasicBlockFlags;
  bbJumpKind : BBjumpKinds;
  bbJumpDest : option nat;
  bbCodeOffs : Z;
  bbRefs : nat;
  bbPreds : list flowList;
  bbStmts : list Statement
}.

Definition set_bbWeight (w : weight_t) (b : BasicBlock) : BasicBlock :=
  mkBasicBlock w (bbFlags b) (bbJumpKind b) (bbJumpDest b) (bbCodeOffs b)
               (bbRefs b) (bbPreds b) (bbStmts b).
Definition set_bbFlags (f : BasicBlockFlags) (b : BasicBlock) : BasicBlock :=
  mkBasicBlock (bbWeight b) f (bbJumpKind b) (bbJumpDest b) (bbCodeOffs b)
               (bbRefs b) (bbPreds b) (bbStmts b).
Definition set_bbPreds (p : list flowList) (b : BasicBlock) : BasicBlock :=
  mkBasicBlock (bbWeight b) (bbFlags b) (bbJumpKind b) (bbJumpDest b)
               (bbCodeOffs b) (bbRefs b) p (bbStmts b).
Definition set_bbStmts (s : list Statement) (b : BasicBlock) : BasicBlock :=
  mkBasicBlock (bbWeight b) (bbFlags b) (bbJumpKind b) (bbJumpDest b)
               (bbCodeOffs b) (bbRefs b) (bbPreds b) s.

(** Modelled from the spec: [BasicBlock::hasProfileWeight] is declared in
    block.h, which is not part of the sources at hand.  It tests the
    profile-weight flag. *)
Definition hasProfileWeight (b : BasicBlock) : bool := BBF_PROF_WEIGHT (bbFlags b).

(** Modelled from the spec: [BasicBlock::setBBProfileWeight] is declared in
    block.h, which is not part of the sources at hand.  It sets the
    profile-weight flag and the weight (the caller in this file updates
    the run-rarely flag itself). *)
Definition setBBProfileWeight (w : weight_t) (b : BasicBlock) : BasicBlock :=
  set_bbWeight w (set_bbFlags (set_BBF_PROF_WEIGHT true (bbFlags b)) b).

(** Modelled from the spec: [BasicBlock::countOfInEdges] is declared in
    block.h, which is not part of the sources at hand.  It is the block's
    in-edge count, kept in the block's reference count [bbRefs] (the
    method entry holds one reference for the call itself). *)
Definition countOfInEdges (b : BasicBlock) : nat := bbRefs b.

(** ** Profile data and compiler state *)

(** Modelled from the spec: the instrumentation kinds are declared in the
    Host interface (corjit.h), which is not part of the sources at hand. *)
Inductive PgoInstrumentationKind : Type :=
| BasicBlockIntCount | TypeHandleHistogramCount | TypeHandleHistogramTypeHandle.

Definition is_BasicBlockIntCount (k : PgoInstrumentationKind) : bool :=
  match k with BasicBlockIntCount => true | _ => false end.

(** Modelled from the spec: a schema entry of the Host interface
    ([ICorJitInfo::PgoInstrumentationSchema]); [Offset] is the byte offset
    into the counter buffer that the Host assigns. *)
Record PgoInstrumentationSchema : Type := mkSchema {
  Offset : Z;
  InstrumentationKind : PgoInstrumentationKind;
  ILOffset : Z;          (* int32 *)
  Count : Z;
  Other : Z
}.

(** Modelled from the spec: the state of the inlinee profile scale and the
    part of [InlineInfo] that [fgComputeProfileScale] uses, both declared
    outside the sources at hand. *)
Inductive ProfileScaleState : Type := UNDETERMINED | KNOWN | UNAVAILABLE.

Record InlineInfo : Type := mkInlineInfo {
  iciBlock : BasicBlock;
  profileScaleState : ProfileScaleState;
  profileScaleFactor : Q                     (* double *)
}.

(** The members of [Compiler] (options, method information, profile data,
    flow graph and results) that the functions of this file read or
    write. *)
Record Compiler : Type := mkCompiler {
  (* compilation kind and options *)
  compIsForImportOnly : bool;
  compIsForInlining : bool;
  OptimizationEnabled : bool;                (* opts.OptimizationEnabled() *)
  JIT_FLAG_PREJIT : bool;                    (* opts.jitFlags *)
  IsReadyToRun : bool;                       (* opts.IsReadyToRun() *)
  JitMinimalProfiling : Z;                   (* JitConfig *)
  JitClassProfiling : Z;                     (* JitConfig *)
  fgStressBBProf : Z;     (* stress seed, unsigned; 0 outside checked builds *)
  (* method info *)
  compMethodHash : Z;                        (* info.compMethodHash(), unsigned *)
  compMethodHnd : Z;                         (* info.compMethodHnd *)
  compClassProbeCount : Z;                   (* info.compClassProbeCount *)
  (* profile data *)
  fgPgoSchema : option (list PgoInstrumentationSchema);   (* None: nullptr *)
  fgPgoData : list Byte.byte;
  fgIsUsingProfileWeights : bool;
  impInlineInfo : InlineInfo;
  (* flow graph *)
  fgBBs : list BasicBlock;                   (* fgFirstBB and its bbNext chain *)
  fgFirstBBisScratch : bool;
  lvaCount : nat;
  (* results *)
  fgModified : bool;
  fgCalledCount : weight_t;
  fgEdgeCount : nat;
  fgHaveValidEdgeWeights : bool;
  fgEdgeWeightsComputed : bool;
  fgSlopUsedInEdgeWeights : bool;
  fgRangeUsedInEdgeWeights : bool
}.

Definition set_impInlineInfo (v : InlineInfo) (c : Compiler) : Compiler :=
  mkCompiler (compIsForImportOnly c) (compIsForInlining c) (OptimizationEnabled c)
    (JIT_FLAG_PREJIT c) (IsReadyToRun c) (JitMinimalProfiling c)
    (JitClassProfiling c) (fgStressBBProf c) (compMethodHash c) (compMethodHnd c)
    (compClassProbeCount c) (fgPgoSchema c) (fgPgoData c)
    (fgIsUsingProfileWeights c) v (fgBBs c) (fgFirstBBisScratch c) (lvaCount c)
    (fgModified c) (fgCalledCount c) (fgEdgeCount c) (fgHaveValidEdgeWeights c)
    (fgEdgeWeightsComputed c) (fgSlopUsedInEdgeWeights c)
    (fgRangeUsedInEdgeWeights c).

Definition set_fgBBs (v : list BasicBlock) (c : Compiler) : Compiler :=
  mkCompiler (compIsForImportOnly c) (compIsForInlining c) (OptimizationEnabled c)
    (JIT_FLAG_PREJIT c) (IsReadyToRun c) (JitMinimalProfiling c)
    (JitClassProfiling c) (fgStressBBProf c) (compMethodHash c) (compMethodHnd c)
    (compClassProbeCount c) (fgPgoSchema c) (fgPgoData c)
    (fgIsUsingProfileWeights c) (impInlineInfo c) v (fgFirstBBisScratch c)
    (lvaCount c) (fgModified c) (fgCalledCount c) (fgEdgeCount c)
    (fgHaveValidEdgeWeights c) (fgEdgeWeightsComputed c)
    (fgSlopUsedInEdgeWeights c) (fgRangeUsedInEdgeWeights c).

Definition set_lvaCount (v : nat) (c : Compiler) : Compiler :=
  mkCompiler (compIsForImportOnly c) (compIsForInlining c) (OptimizationEnabled c)
    (JIT_FLAG_PREJIT c) (IsReadyToRun c) (JitMinimalProfiling c)
    (JitClassProfiling c) (fgStressBBProf c) (compMethodHash c) (compMethodHnd c)
    (compClassProbeCount c) (fgPgoSchema c) (fgPgoData c)
    (fgIsUsingProfileWeights c) (impInlineInfo c) (fgBBs c)
    (fgFirstBBisScratch c) v (fgModified c) (fgCalledCount c) (fgEdgeCount c)
    (fgHaveValidEdgeWeights c) (fgEdgeWeightsComputed c)
    (fgSlopUsedInEdgeWeights c) (fgRangeUsedInEdgeWeights c).

Definition set_fgCalledCount (v : weight_t) (c : Compiler) : Compiler :=
  mkCompiler (compIsForImportOnly c) (compIsForInlining c) (OptimizationEnabled c)
    (JIT_FLAG_PREJIT c) (IsReadyToRun c) (JitMinimalProfiling c)
    (JitClassProfiling c) (fgStressBBProf c) (compMethodHash c) (compMethodHnd c)
    (compClassProbeCount c) (fgPgoSchema c) (fgPgoData c)
    (fgIsUsingProfileWeights c) (impInlineInfo c) (fgBBs c)
    (fgFirstBBisScratch c) (lvaCount c) (fgModified c) v (fgEdgeCount c)
    (fgHaveValidEdgeWeights c) (fgEdgeWeightsComputed c)
    (fgSlopUsedInEdgeWeights c) (fgRangeUsedInEdgeWeights c).

(** Writes the results of [fgComputeBlockAndEdgeWeights] and of
    [fgComputeEdgeWeights] (several fields at once). *)
Definition set_fgModified_valid (m valid : bool) (c : Compiler) : Compiler :=
  mkCompiler (compIsForImportOnly c) (compIsForInlining c) (OptimizationEnabled c)
    (JIT_FLAG_PREJIT c) (IsReadyToRun c) (JitMinimalProfiling c)
    (JitClassProfiling c) (fgStressBBProf c) (compMethodHash c) (compMethodHnd c)
    (compClassProbeCount c) (fgPgoSchema c) (fgPgoData c)
    (fgIsUsingProfileWeights c) (impInlineInfo c) (fgBBs c)
    (fgFirstBBisScratch c) (lvaCount c) m (fgCalledCount c) (fgEdgeCount c)
    valid (fgEdgeWeightsComputed c)
    (fgSlopUsedInEdgeWeights c) (fgRangeUsedInEdgeWeights c).

Definition set_fgEdgeCount (n : nat) (c : Compiler) : Compiler :=
  mkCompiler (compIsForImportOnly c) (compIsForInlining c) (OptimizationEnabled c)
    (JIT_FLAG_PREJIT c) (IsReadyToRun c) (JitMinimalProfiling c)
    (JitClassProfiling c) (fgStressBBProf c) (compMethodHash c) (compMethodHnd c)
    (compClassProbeCount c) (fgPgoSchema c) (fgPgoData c)
    (fgIsUsingProfileWeights c) (impInlineInfo c) (fgBBs c)
    (fgFirstBBisScratch c) (lvaCount c) (fgModified c) (fgCalledCount c) n
    (fgHaveValidEdgeWeights c) (fgEdgeWeightsComputed c)
    (fgSlopUsedInEdgeWeights c) (fgRangeUsedInEdgeWeights c).

Definition set_edgeWeightResults (slopUsed rangeUsed valid computed : bool)
    (c : Compiler) : Compiler :=
  mkCompiler (compIsForImportOnly c) (compIsForInlining c) (OptimizationEnabled c)
    (JIT_FLAG_PREJIT c) (IsReadyToRun c) (JitMinimalProfiling c)
    (JitClassProfiling c) (fgStressBBProf c) (compMethodHash c) (compMethodHnd c)
    (compClassProbeCount c) (fgPgoSchema c) (fgPgoData c)
    (fgIsUsingProfileWeights c) (impInlineInfo c) (fgBBs c)
    (fgFirstBBisScratch c) (lvaCount c) (fgModified c) (fgCalledCount c)
    (fgEdgeCount c) valid computed slopUsed rangeUsed.

(** ** ProfileData *)

(** [Compiler::fgHaveProfileData]. *)
Definition fgHaveProfileData (c : Compiler) : bool :=
  if compIsForImportOnly c then false
  else match fgPgoSchema c with Some _ => true | None => false end.

(** Unsigned 32-bit wrap-around. *)
Definition u32 (z : Z) : Z := (z mod 2 ^ 32)%Z.

(** The byte at [fgPgoData + i].  Reading outside the buffer is undefined
    in the source; the model reads zero there. *)
Definition pgo_byte (data : list Byte.byte) (i : Z) : Z :=
  match data !! Z.to_nat i with
  | Some b => Z.of_N (Byte.to_N b)
  | None => 0%Z
  end.

(** [*(uint32_t* )(fgPgoData + off)] on a little-endian target. *)
Definition read_uint32 (data : list Byte.byte) (off : Z) : Z :=
  Z.lor (pgo_byte data off)
    (Z.lor (Z.shiftl (pgo_byte data (off + 1)) 8)
       (Z.lor (Z.shiftl (pgo_byte data (off + 2)) 16)
              (Z.shiftl (pgo_byte data (off + 3)) 24))).

(** The schema scan of [fgGetProfileWeightForBasicBlock]: the counter of
    the first [BasicBlockIntCount] entry whose IL offset is [offset],
    converted to a weight. *)
Fixpoint scanPgoSchema (data : list Byte.byte) (schema : list PgoInstrumentationSchema)
    (offset : Z) : option weight_t :=
  match schema with
  | [] => None
  | e :: rest =>
      if is_BasicBlockIntCount (InstrumentationKind e)
         && (u32 (ILOffset e) =? offset)%Z
      then Some (w_of_unsigned (read_uint32 data (Offset e)))
      else scanPgoSchema data rest offset
  end.

(** The stress-mode branch of [fgGetProfileWeightForBasicBlock] (compiled
    in checked builds only), entered when the seed is not zero. *)
Definition stressWeight (methodHash hashSeed offset : Z) : weight_t :=
  let hash := Z.lxor (u32 (methodHash * hashSeed)) (u32 (offset * 1027)) in
  let weight :=
    if (hash mod 3 =? 0)%Z then 0
    else if (hash mod 11 =? 0)%Z then
      w_mul (w_mul (w_of_unsigned (hash mod 23)) (w_of_unsigned (hash mod 29)))
            (w_of_unsigned (hash mod 31))
    else w_mul (w_of_unsigned (hash mod 17)) (w_of_unsigned (hash mod 19)) in
  (* The first block is never given a weight of zero *)
  if (offset =? 0)%Z && w_eq weight 0
  then w_add 1 (w_of_unsigned (hash mod 5))
  else weight.

(** [Compiler::fgGetProfileWeightForBasicBlock].  [Some w]: returns true
    and writes [w] to [*weightWB]; [None]: returns false and leaves
    [*weightWB] alone. *)
Definition fgGetProfileWeightForBasicBlock (c : Compiler) (offset : Z)
    : option weight_t :=
  let hashSeed := fgStressBBProf c in
  if negb (hashSeed =? 0)%Z then
    Some (stressWeight (compMethodHash c) hashSeed offset)
  else if negb (fgHaveProfileData c) then None
  else
    match scanPgoSchema (fgPgoData c)
            (match fgPgoSchema c with Some s => s | None => [] end) offset with
    | Some w => Some w
    | None => Some 0
    end.

(** [Compiler::fgComputeProfileScale]. *)
Definition fgComputeProfileScale (c : Compiler) : Compiler :=
  let info := impInlineInfo c in
  let set_state st :=
    set_impInlineInfo (mkInlineInfo (iciBlock info) st (profileScaleFactor info)) c in
  (* Have we already determined the scale? *)
  match profileScaleState info with
  | UNDETERMINED =>
      let callSiteBlock := iciBlock info in
      if negb (hasProfileWeight callSiteBlock) then set_state UNAVAILABLE
      else
        let callSiteWeight := bbWeight callSiteBlock in
        if w_eq callSiteWeight 0 then set_state UNAVAILABLE
        else if negb (fgHaveProfileData c) then set_state UNAVAILABLE
        else
          match fgGetProfileWeightForBasicBlock c 0 with
          | None => set_state UNAVAILABLE
          | Some calleeWeight =>
              if w_lt calleeWeight callSiteWeight then set_state UNAVAILABLE
              else
                (* ((double)callSiteWeight) / calleeWeight *)
                let scale := roundToDouble (callSiteWeight / calleeWeight) in
                set_impInlineInfo (mkInlineInfo (iciBlock info) KNOWN scale) c
          end
  | _ => c
  end.

(** ** Control flow of the embedding *)

(** The outcome of a loop body or of a function that can leave early:
    [Continue] carries on with a state, [EarlyExit] is the jump to the
    function's early-exit label with the state reached, [Abort] is a failed
    [noway_assert] or a dereference of a null block or edge. *)
Inductive Flow (S : Type) : Type :=
| Continue (s : S)
| EarlyExit (s : S)
| Abort.
Arguments Continue {S} s.
Arguments EarlyExit {S} s.
Arguments Abort {S}.

(** [for i in idxs: body i], stopping at the first early exit or abort. *)
Fixpoint forEach {S : Type} (body : nat -> S -> Flow S) (idxs : list nat)
    (s : S) : Flow S :=
  match idxs with
  | [] => Continue s
  | i :: rest =>
      match body i s with
      | Continue s' => forEach body rest s'
      | EarlyExit s' => EarlyExit s'
      | Abort => Abort
      end
  end.

(** [for (b = fgFirstBB; b != nullptr; b = b->bbNext)]: the positions of
    the block list, in order. *)
Definition blockIndices (blocks : list BasicBlock) : list nat :=
  seq 0 (length blocks).

(** [b->bbNext] for the block at position [i]. *)
Definition bbNext (blocks : list BasicBlock) (i : nat) : option nat :=
  if (S i <? length blocks)%nat then Some (S i) else None.

Definition option_nat_eqb (a b : option nat) : bool :=
  match a, b with
  | Some x, Some y => (x =? y)%nat
  | None, None => true
  | _, _ => false
  end.

(** ** WeightPropagator *)

(** "Does this block flow into only one other block": the sole successor
    of the block at position [i], or null. *)
Definition bOnlyNextOf (blocks : list BasicBlock) (i : nat) (b : BasicBlock)
    : option nat :=
  match bbJumpKind b with
  | BBJ_NONE => bbNext blocks i
  | BBJ_ALWAYS => bbJumpDest b
  | _ => None
  end.

Definition isReturnOrThrow (b : BasicBlock) : bool :=
  match bbJumpKind b with
  | BBJ_RETURN | BBJ_THROW => true
  | _ => false
  end.

(** The state of one scan of [fgComputeMissingBlockWeights]. *)
Record MissingWeightsState : Type := mkMissingWeightsState {
  mw_blocks : list BasicBlock;
  mw_changed : bool;
  mw_modified : bool;
  mw_returnWeight : weight_t
}.

(** The weight the first rule proposes for [bDst] (position [i]), starting
    from [newWeight]: the weight of the only block that flows into it. *)
Definition newWeightFromOnlyPred (blocks : list BasicBlock) (i : nat)
    (bDst : BasicBlock) (newWeight : weight_t) : Flow weight_t :=
  if (countOfInEdges bDst =? 1)%nat then
    (* Only one block flows into bDst *)
    match bbPreds bDst with
    | [] => Abort
    | pred :: _ =>
        match blocks !! flBlock pred with
        | None => Abort
        | Some bSrc =>
            let bOnlyNext := bOnlyNextOf blocks (flBlock pred) bSrc in
            if option_nat_eqb bOnlyNext (Some i) && hasProfileWeight bSrc then
              (* We know the exact weight of bDst *)
              Continue (bbWeight bSrc)
            else Continue newWeight
        end
    end
  else Continue newWeight.

(** The weight the second rule proposes for [bDst]: the weight of its only
    successor, when [bDst] is the only block flowing into that one. *)
Definition newWeightFromOnlyNext (blocks : list BasicBlock) (i : nat)
    (bDst : BasicBlock) (newWeight : weight_t) : Flow weight_t :=
  match bOnlyNextOf blocks i bDst with
  | None => Continue newWeight
  | Some n =>
      match blocks !! n with
      | None => Abort
      | Some bOnlyNext =>
          match bbPreds bOnlyNext with
          | [] => Continue newWeight
          | pred :: _ =>
              (* Does only one block flow into bOnlyNext *)
              if (countOfInEdges bOnlyNext =? 1)%nat then
                if (flBlock pred =? i)%nat then
                  (* We know the exact weight of bDst *)
                  Continue (bbWeight bOnlyNext)
                else Abort        (* noway_assert *)
              else Continue newWeight
          end
      end
  end.

(** [bDst->bbWeight = newWeight] with the run-rarely flag kept in step. *)
Definition assignPropagatedWeight (newWeight : weight_t) (bDst : BasicBlock)
    : BasicBlock :=
  let b := set_bbWeight newWeight bDst in
  set_bbFlags (set_BBF_RUN_RARELY (w_eq newWeight 0) (bbFlags b)) b.

(** The first half of the scan body: the block at position [i] "does not
    have a profile derived weight" and has predecessors, so try the two
    rules and assign what they propose. *)
Definition fixupBlockWeight (i : nat) (bDst : BasicBlock)
    (st : MissingWeightsState) : Flow MissingWeightsState :=
  let blocks := mw_blocks st in
  if negb (hasProfileWeight bDst)
     && match bbPreds bDst with [] => false | _ => true end
  then
    match newWeightFromOnlyPred blocks i bDst BB_MAX_WEIGHT with
    | Continue newWeight1 =>
        match newWeightFromOnlyNext blocks i bDst newWeight1 with
        | Continue newWeight =>
            if w_ne newWeight BB_MAX_WEIGHT && w_ne (bbWeight bDst) newWeight
            then
              Continue
                (mkMissingWeightsState
                   (<[i := assignPropagatedWeight newWeight bDst]> blocks)
                   true true (mw_returnWeight st))
            else Continue st
        | _ => Abort
        end
    | _ => Abort
    end
  else Continue st.

(** The body of the scan of [fgComputeMissingBlockWeights] for the block at
    position [i]. *)
Definition missingWeightsBody (i : nat) (st : MissingWeightsState)
    : Flow MissingWeightsState :=
  match mw_blocks st !! i with
  | None => Abort
  | Some bDst =>
      match fixupBlockWeight i bDst st with
      | Continue st1 =>
          (* Sum up the weights of all of the return blocks and throw blocks *)
          match mw_blocks st1 !! i with
          | None => Abort
          | Some bDst1 =>
              if hasProfileWeight bDst1 && isReturnOrThrow bDst1 then
                Continue
                  (mkMissingWeightsState (mw_blocks st1) (mw_changed st1)
                     (mw_modified st1)
                     (w_add (mw_returnWeight st1) (bbWeight bDst1)))
              else Continue st1
          end
      | other => other
      end
  end.

(** The do-while loop of [fgComputeMissingBlockWeights]; [iterations] is
    the number of completed scans and [fuel] bounds the remaining ones
    (the loop leaves after the tenth scan at the latest). *)
Fixpoint missingWeightsLoop (fuel iterations : nat) (blocks : list BasicBlock)
    (modified : bool) : Flow MissingWeightsState :=
  match fuel with
  | O => Continue (mkMissingWeightsState blocks false modified 0)
  | S fuel' =>
      let iterations := S iterations in
      match forEach missingWeightsBody (blockIndices blocks)
              (mkMissingWeightsState blocks false modified 0) with
      | Continue st =>
          if mw_changed st && (iterations <? 10)%nat then
            missingWeightsLoop fuel' iterations (mw_blocks st) (mw_modified st)
          else Continue st
      | other => other
      end
  end.

(** [Compiler::fgComputeMissingBlockWeights]: the compiler afterwards and
    the returned sum of the weights of the return and throw blocks. *)
Definition fgComputeMissingBlockWeights (c : Compiler)
    : Flow (Compiler * weight_t) :=
  match missingWeightsLoop 10 0 (fgBBs c) false with
  | Continue st => Continue (set_fgBBs (mw_blocks st) c, mw_returnWeight st)
  | EarlyExit st => EarlyExit (set_fgBBs (mw_blocks st) c, mw_returnWeight st)
  | Abort => Abort
  end.

(** "Skip past any/all BBF_INTERNAL blocks that may have been added before
    the first real IL block."  [None]: the walk runs off the block list. *)
Fixpoint firstILBlockOf (blocks : list BasicBlock) : option BasicBlock :=
  match blocks with
  | [] => None
  | b :: rest =>
      if BBF_INTERNAL (bbFlags b) then firstILBlockOf rest else Some b
  end.

(** [Compiler::fgComputeCalledCount]. *)
Definition fgComputeCalledCount (c : Compiler) (returnWeight : weight_t)
    : Flow Compiler :=
  match firstILBlockOf (fgBBs c) with
  | None => Abort
  | Some firstILBlock =>
      let calledCount :=
        if (countOfInEdges firstILBlock =? 1)%nat || w_eq returnWeight 0
        then bbWeight firstILBlock
        else returnWeight in
      let c1 := set_fgCalledCount calledCount c in
      (* If we allocated a scratch block as the first BB then we need
         to set its profile-derived weight to be fgCalledCount *)
      if fgFirstBBisScratch c1 then
        match fgBBs c1 !! 0%nat with
        | None => Abort
        | Some fgFirstBB =>
            let b := setBBProfileWeight (fgCalledCount c1) fgFirstBB in
            let b' :=
              set_bbFlags (set_BBF_RUN_RARELY (w_eq (bbWeight b) 0) (bbFlags b)) b in
            Continue (set_fgBBs (<[0%nat := b']> (fgBBs c1)) c1)
        end
      else Continue c1
  end.

(** ** Instrumenter *)

(** Modelled from the spec: the status of the Host's allocator.  [HRESULT]
    is a signed 32-bit status, [SUCCEEDED] is non-negative and [E_NOTIMPL]
    is the NOT_IMPLEMENTED failure. *)
Definition HRESULT : Type := Z.
Definition SUCCEEDED (hr : HRESULT) : bool := (0 <=? hr)%Z.
Definition E_NOTIMPL : HRESULT := (-2147467263)%Z.        (* 0x80004001 *)

Section ClassProbeVisitor.
(** [ClassProbeVisitor<TFunctor>]: a pre-order walk that hands every
    virtual, non-indirect call to the functor.  The functor works on a
    state [S]; it answers with the state, the call's header afterwards
    and the node that replaces the call's [this] argument, given as a
    function of the old one.  The replacement built in this file wraps
    the old argument in nodes that are no virtual calls, so walking the
    call's operands after the functor ran visits the old argument's
    calls and no others: the walk below visits the old argument and
    wraps afterwards.  [None]: the functor dereferenced outside the
    schema. *)
Context {S : Type}.
Variable m_functor :
  S -> CallHeader -> option (S * CallHeader * (GenTree -> GenTree)).

Fixpoint WalkTree (s : S) (t : GenTree) {struct t} : option (S * GenTree) :=
  match t with
  | GenTreeCall h this args =>
      '(s1, h1, wrap) ←
        (if IsVirtual h && negb (is_CT_INDIRECT h) then m_functor s h
         else Some (s, h, fun x => x));
      '(s2, this') ←
        match this with
        | None => Some (s1, None)
        | Some x => '(s2, x') ← WalkTree s1 x; Some (s2, Some (wrap x'))
        end;
      '(s3, args') ←
        (fix walkList (s : S) (l : list GenTree) {struct l}
           : option (S * list GenTree) :=
           match l with
           | [] => Some (s, [])
           | x :: r =>
               '(s', x') ← WalkTree s x;
               '(s'', r') ← walkList s' r;
               Some (s'', x' :: r')
           end) s2 args;
      Some (s3, GenTreeCall h1 this' args')
  | GenTreeOp op v ops =>
      '(s1, ops') ←
        (fix walkList (s : S) (l : list GenTree) {struct l}
           : option (S * list GenTree) :=
           match l with
           | [] => Some (s, [])
           | x :: r =>
               '(s', x') ← WalkTree s x;
               '(s'', r') ← walkList s' r;
               Some (s'', x' :: r')
           end) s ops;
      Some (s1, GenTreeOp op v ops')
  end.

(** The operand walk of [WalkTree], by name. *)
Definition walkList : S -> list GenTree -> option (S * list GenTree) :=
  fix walkList (s : S) (l : list GenTree) {struct l} :=
    match l with
    | [] => Some (s, [])
    | x :: r =>
        '(s', x') ← WalkTree s x;
        '(s'', r') ← walkList s' r;
        Some (s'', x' :: r')
    end.

(** [for (Statement* stmt : block->Statements()) visitor.WalkTree(...)]. *)
Fixpoint WalkStatements (s : S) (stmts : list Statement)
    : option (S * list Statement) :=
  match stmts with
  | [] => Some (s, [])
  | x :: r =>
      '(s', x') ← WalkTree s x;
      '(s'', r') ← WalkStatements s' r;
      Some (s'', x' :: r')
  end.
End ClassProbeVisitor.

(** Modelled from the spec: the IR factory.  The node constructors are
    black boxes of the consumed IR-factory interface (gentree.cpp is not
    part of the sources at hand); each builds the node it is named after. *)
Definition gtNewIconNode (v : Z) : GenTree := GenTreeOp GT_CNS_INT v [].
Definition gtNewLclvNode (lclNum : nat) : GenTree :=
  GenTreeOp GT_LCL_VAR (Z.of_nat lclNum) [].
Definition gtNewOperNode (oper : genTreeOps) (op1 op2 : GenTree) : GenTree :=
  GenTreeOp oper 0 [op1; op2].
Definition gtNewHelperCallNode (helper : Z) (args : list GenTree) : GenTree :=
  GenTreeCall (mkCallHeader CT_HELPER GTF_CALL_NONVIRT helper 0
                 (mkCandidateInfo 0 0 0)) None args.
Definition gtNewIndOfIconHandleNode (addr : Z) : GenTree :=
  GenTreeOp GT_IND 0 [GenTreeOp GT_CNS_INT addr []].
Definition gtNewAssignNode (dst src : GenTree) : GenTree :=
  GenTreeOp GT_ASG 0 [dst; src].
Definition gtNewNothingNode : GenTree := GenTreeOp GT_NOP 0 [].
Definition gtNewQmarkNode (cond colon : GenTree) : GenTree :=
  GenTreeOp GT_QMARK 0 [cond; colon].

Section Instrumenter.
(** What the Host and the rest of the compiler provide.  The constants of
    [ICorJitInfo::ClassProfile], the helper numbers, [jitGetILoffs], the
    counter allocator of the Host (status, schema with the offsets
    filled in, address of the buffer), [fgEnsureFirstBBisScratch] and the
    two ways of embedding the method handle are declared outside the
    sources at hand and are parameters here. *)
Variables CLASS_FLAG INTERFACE_FLAG SIZE : Z.
Variables CORINFO_HELP_CLASSPROFILE CORINFO_HELP_BBT_FCN_ENTER : Z.
Variable jitGetILoffs : Z -> Z.
Variable allocPgoInstrumentationBySchema :
  Z -> list PgoInstrumentationSchema ->
  HRESULT * list PgoInstrumentationSchema * Z.
Variable fgEnsureFirstBBisScratch : Compiler -> Compiler.
Variable impTokenToHandle : Z -> GenTree.
Variable gtNewIconEmbMethHndNode : Z -> GenTree.

(** [BuildClassProbeSchemaGen::operator()]: two schema entries per call. *)
Definition BuildClassProbeSchemaGen (m_schema : list PgoInstrumentationSchema)
    (call : CallHeader)
    : option (list PgoInstrumentationSchema * CallHeader * (GenTree -> GenTree)) :=
  let other :=
    if IsVirtualStub call then Z.lor CLASS_FLAG INTERFACE_FLAG
    else CLASS_FLAG in
  let il := jitGetILoffs (ilOffset (gtClassProfileCandidateInfo call)) in
  Some (m_schema ++ [ mkSchema 0 TypeHandleHistogramCount il 1 other;
                      mkSchema 0 TypeHandleHistogramTypeHandle il SIZE other ],
        call, fun x => x).

(** The first walk over the blocks: the schema and [countOfBlocks]. *)
Fixpoint buildSchema (blocks : list BasicBlock)
    (schema : list PgoInstrumentationSchema) (countOfBlocks : Z)
    : option (list PgoInstrumentationSchema * Z) :=
  match blocks with
  | [] => Some (schema, countOfBlocks)
  | block :: rest =>
      (* We don't want to profile any un-imported blocks *)
      if negb (BBF_IMPORTED (bbFlags block)) then
        buildSchema rest schema countOfBlocks
      else
        '(schema1, _) ←
          (if BBF_HAS_CLASS_PROFILE (bbFlags block) then
             WalkStatements BuildClassProbeSchemaGen schema (bbStmts block)
           else Some (schema, bbStmts block));
        if BBF_INTERNAL (bbFlags block) then
          buildSchema rest schema1 countOfBlocks
        else
          buildSchema rest
            (schema1 ++ [mkSchema 0 BasicBlockIntCount (bbCodeOffs block) 1 0])
            (countOfBlocks + 1)%Z
  end.

(** The state the second walk threads: the members of
    [ClassProbeInserter] that change, and the local-variable count. *)
Record ProbeState : Type := mkProbeState {
  m_count : Z;
  m_currentSchemaIndex : nat;
  ps_lvaCount : nat
}.

(** [ClassProbeInserter::operator()]. *)
Definition ClassProbeInserter (m_schema : list PgoInstrumentationSchema)
    (m_profileMemory : Z) (m_instrument : bool)
    (s : ProbeState) (call : CallHeader)
    : option (ProbeState * CallHeader * (GenTree -> GenTree)) :=
  let restored :=
    (* Restore the stub address on the call, whether instrumenting or not. *)
    set_gtStubCallStubAddr (stubAddr (gtClassProfileCandidateInfo call)) call in
  if m_instrument then
    e ← m_schema !! m_currentSchemaIndex s;
    (* Figure out where the table is located. *)
    let classProfile := (Offset e + m_profileMemory)%Z in
    (* Grab a temp to hold the 'this' object as it will be used three times *)
    let tmpNum := ps_lvaCount s in
    let classProfileNode := gtNewIconNode classProfile in
    let helperCallNode :=
      gtNewHelperCallNode CORINFO_HELP_CLASSPROFILE
        [gtNewLclvNode tmpNum; classProfileNode] in
    let callCommaNode :=
      gtNewOperNode GT_COMMA helperCallNode (gtNewLclvNode tmpNum) in
    Some (mkProbeState (m_count s + 1)
            (m_currentSchemaIndex s + 2)   (* 2 schema entries per class probe *)
            (S (ps_lvaCount s)),
          restored,
          fun this =>
            gtNewOperNode GT_COMMA
              (gtNewOperNode GT_ASG (gtNewLclvNode tmpNum) this)
              callCommaNode)
  else
    Some (mkProbeState (m_count s + 1) (m_currentSchemaIndex s) (ps_lvaCount s),
          restored, fun x => x).

(** The state of the second walk over the blocks. *)
Record InstrumentState : Type := mkInstrumentState {
  is_currentSchemaIndex : nat;
  is_countOfCalls : Z;
  is_countOfBlocks : Z;
  is_addrOfFirstExecutionCount : Z;
  is_lvaCount : nat
}.

(** The second walk: class probes and block counters. *)
Fixpoint insertProbes (classProfiling : bool)
    (schema : list PgoInstrumentationSchema) (profileMemory : Z)
    (instrument : bool) (st : InstrumentState) (blocks : list BasicBlock)
    : option (InstrumentState * list BasicBlock) :=
  match blocks with
  | [] => Some (st, [])
  | block :: rest =>
      if negb (BBF_IMPORTED (bbFlags block)) then
        '(st', rest') ←
          insertProbes classProfiling schema profileMemory instrument st rest;
        Some (st', block :: rest')
      else
        '(st1, block1) ←
          (if classProfiling && BBF_HAS_CLASS_PROFILE (bbFlags block) then
             '(ps, stmts) ←
               WalkStatements
                 (ClassProbeInserter schema profileMemory instrument)
                 (mkProbeState 0 (is_currentSchemaIndex st) (is_lvaCount st))
                 (bbStmts block);
             Some (mkInstrumentState (m_currentSchemaIndex ps)
                     (is_countOfCalls st - m_count ps)%Z
                     (is_countOfBlocks st)
                     (is_addrOfFirstExecutionCount st) (ps_lvaCount ps),
                   set_bbStmts stmts block)
           else Some (st, block));
        '(st2, block2) ←
          (if BBF_INTERNAL (bbFlags block1) then Some (st1, block1)
           else
             (* One less block *)
             let st1' :=
               mkInstrumentState (is_currentSchemaIndex st1)
                 (is_countOfCalls st1) (is_countOfBlocks st1 - 1)%Z
                 (is_addrOfFirstExecutionCount st1) (is_lvaCount st1) in
             if instrument then
               e ← schema !! is_currentSchemaIndex st1';
               let addrOfCurrentExecutionCount := (Offset e + profileMemory)%Z in
               let first :=
                 if (is_addrOfFirstExecutionCount st1' =? 0)%Z
                 then addrOfCurrentExecutionCount
                 else is_addrOfFirstExecutionCount st1' in
               (* Read Basic-Block count value, increment by 1, write back *)
               let valueNode := gtNewIndOfIconHandleNode addrOfCurrentExecutionCount in
               let rhsNode := gtNewOperNode GT_ADD valueNode (gtNewIconNode 1) in
               let lhsNode := gtNewIndOfIconHandleNode addrOfCurrentExecutionCount in
               let asgNode := gtNewAssignNode lhsNode rhsNode in
               Some (mkInstrumentState (S (is_currentSchemaIndex st1'))
                       (is_countOfCalls st1') (is_countOfBlocks st1') first
                       (is_lvaCount st1'),
                     (* fgNewStmtAtBeg *)
                     set_bbStmts (asgNode :: bbStmts block1) block1)
             else Some (st1', block1));
        '(st', rest') ←
          insertProbes classProfiling schema profileMemory instrument st2 rest;
        Some (st', block2 :: rest')
  end.

(** "When prejitting, add the method entry callback node". *)
Definition addMethodEntryCallback (addrOfFirstExecutionCount : Z)
    (c : Compiler) : Flow Compiler :=
  let arg :=
    if IsReadyToRun c then impTokenToHandle (compMethodHnd c)
    else gtNewIconEmbMethHndNode (compMethodHnd c) in
  let call := gtNewHelperCallNode CORINFO_HELP_BBT_FCN_ENTER [arg] in
  let valueNode := gtNewIndOfIconHandleNode addrOfFirstExecutionCount in
  let relop := gtNewOperNode GT_NE valueNode (gtNewIconNode 0) in
  let colon := gtNewOperNode GT_COLON gtNewNothingNode call in
  let stmt := gtNewQmarkNode relop colon in
  let c1 := fgEnsureFirstBBisScratch c in
  match fgBBs c1 !! 0%nat with
  | None => Abort
  | Some fgFirstBB =>
      (* fgInsertStmtAtEnd *)
      Continue
        (set_fgBBs
           (<[0%nat := set_bbStmts (bbStmts fgFirstBB ++ [stmt]) fgFirstBB]>
              (fgBBs c1)) c1)
  end.

(** [Compiler::fgInstrumentMethod].  The first component lists the
    schemas handed to the Host's allocator, in call order; the second is
    the outcome, [Abort] being the fatal exit. *)
Definition fgInstrumentMethod (c : Compiler)
    : list (list PgoInstrumentationSchema) * Flow Compiler :=
  if compIsForInlining c then ([], Abort)               (* noway_assert *)
  else
    match buildSchema (fgBBs c) [] 0 with
    | None => ([], Abort)
    | Some (schema, countOfBlocks) =>
        (* We've already counted the number of class probes when importing. *)
        let countOfCalls := compClassProbeCount c in
        (* Optionally bail out, if there are less than three blocks and no
           call sites to profile. *)
        if (0 <? JitMinimalProfiling c)%Z && (countOfBlocks <? 3)%Z
           && (countOfCalls =? 0)%Z
        then ([], Continue c)
        else
          (* Allocate the profile buffer *)
          let '(res, schemaOut, profileMemory) :=
            allocPgoInstrumentationBySchema (compMethodHnd c) schema in
          let requests := [schema] in
          if negb (SUCCEEDED res) && negb (res =? E_NOTIMPL)%Z then
            (requests, Abort)                           (* noway_assert *)
          else
            let instrument := SUCCEEDED res in
            match insertProbes (0 <? JitClassProfiling c)%Z schemaOut
                    profileMemory instrument
                    (mkInstrumentState 0 countOfCalls countOfBlocks 0
                       (lvaCount c))
                    (fgBBs c) with
            | None => (requests, Abort)
            | Some (st, blocks) =>
                let c1 := set_lvaCount (is_lvaCount st) (set_fgBBs blocks c) in
                if negb instrument then (requests, Continue c1)
                else if negb (is_countOfBlocks st =? 0)%Z
                        || negb (is_countOfCalls st =? 0)%Z
                then (requests, Abort)                  (* noway_assert *)
                else if JIT_FLAG_PREJIT c1 then
                  (requests,
                   addMethodEntryCallback (is_addrOfFirstExecutionCount st) c1)
                else (requests, Continue c1)
            end
    end.
End Instrumenter.

(** ** EdgeSolver *)

(** [for (edge = bDst->bbPreds; edge != nullptr; edge = edge->flNext)] for
    a body that updates the edge it visits and an accumulator: the
    predecessor list afterwards.  On an early exit the edges not yet
    visited are as they were. *)
Fixpoint forEdges {A : Type} (body : flowList -> A -> Flow (flowList * A))
    (preds : list flowList) (a : A) : Flow (list flowList * A) :=
  match preds with
  | [] => Continue ([], a)
  | edge :: rest =>
      match body edge a with
      | Continue (edge', a') =>
          match forEdges body rest a' with
          | Continue (rest', a'') => Continue (edge' :: rest', a'')
          | EarlyExit (rest', a'') => EarlyExit (edge' :: rest', a'')
          | Abort => Abort
          end
      | EarlyExit (edge', a') => EarlyExit (edge' :: rest, a')
      | Abort => Abort
      end
  end.

(** The edge at position [k] of the predecessor list of block [i]. *)
Definition getEdge (blocks : list BasicBlock) (i k : nat) : option flowList :=
  b ← blocks !! i; bbPreds b !! k.

Definition setEdge (blocks : list BasicBlock) (i k : nat) (e : flowList)
    : list BasicBlock :=
  match blocks !! i with
  | Some b => <[i := set_bbPreds (<[k := e]> (bbPreds b)) b]> blocks
  | None => blocks
  end.

(** Modelled from the spec: [fgGetPredForBlock] is defined in the flow
    graph code outside the sources at hand.  It is the "pred-lookup": the
    first edge of [block]'s predecessor list whose source is [blockPred],
    or null.  The result is the position of that edge. *)
Fixpoint findPred (preds : list flowList) (blockPred : nat) (k : nat)
    : option nat :=
  match preds with
  | [] => None
  | e :: rest =>
      if (flBlock e =? blockPred)%nat then Some k
      else findPred rest blockPred (S k)
  end.
Definition fgGetPredForBlock (blocks : list BasicBlock) (block blockPred : nat)
    : option (nat * nat) :=
  b ← blocks !! block;
  k ← findPred (bbPreds b) blockPred 0;
  Some (block, k).

(** What [fgComputeEdgeWeights] keeps in locals next to the flow graph. *)
Record EdgeWeightsState : Type := mkEdgeWeightsState {
  ew_blocks : list BasicBlock;
  ew_usedSlop : bool;
  ew_numEdges : nat;
  ew_goodEdgeCountCurrent : nat;
  ew_hasIncompleteEdgeWeights : bool
}.

(** "We subtract out the called count so that bDstWeight is the sum of all
    edges that go into this block from this method." *)
Definition bDstWeightOf (calledCount : weight_t) (i : nat) (bDst : BasicBlock)
    : weight_t :=
  if (i =? 0)%nat then w_sub (bbWeight bDst) calledCount else bbWeight bDst.

Section EdgeSolver.
(** [BasicBlock::GetSlopFraction] is declared in block.h, outside the
    sources at hand, and is a parameter here. *)
Variable GetSlopFraction : BasicBlock -> BasicBlock -> weight_t.

(** "If the bSrc or bDst blocks do not have exact profile weights then we
    must reset any values that they currently have". *)
Definition resetUnprofiledEdge (bSrc bDst : BasicBlock) (edge : flowList)
    : flowList :=
  if negb (hasProfileWeight bSrc) || negb (hasProfileWeight bDst)
  then setEdgeWeights BB_ZERO_WEIGHT BB_MAX_WEIGHT edge
  else edge.

(** The switch on [bSrc->bbJumpKind] of the initialisation: the value of
    [assignOK], the edge and [usedSlop] afterwards; [None] is the failed
    [noway_assert] on an unexpected jump kind. *)
Definition initEdgeBySource (slop : weight_t) (bSrc : BasicBlock)
    (edge : flowList) (usedSlop : bool) : option (bool * flowList * bool) :=
  match bbJumpKind bSrc with
  | BBJ_ALWAYS | BBJ_EHCATCHRET | BBJ_NONE | BBJ_CALLFINALLY =>
      (* We know the exact edge weight *)
      let '(ok1, e1, us1) :=
        setEdgeWeightMinChecked edge (bbWeight bSrc) slop usedSlop in
      let '(ok2, e2, us2) :=
        setEdgeWeightMaxChecked e1 (bbWeight bSrc) slop us1 in
      Some (ok1 && ok2, e2, us2)
  | BBJ_COND | BBJ_SWITCH | BBJ_EHFINALLYRET | BBJ_EHFILTERRET =>
      if w_gt (edgeWeightMax edge) (bbWeight bSrc) then
        (* The maximum edge weight to block can't be greater than the
           weight of bSrc *)
        Some (setEdgeWeightMaxChecked edge (bbWeight bSrc) slop usedSlop)
      else Some (true, edge, usedSlop)
  | _ => None
  end.

(** "The maximum edge weight to block can't be greater than the weight of
    bDst". *)
Definition capEdgeByDest (slop bDstWeight : weight_t) (edge : flowList)
    (usedSlop : bool) : bool * flowList * bool :=
  if w_gt (edgeWeightMax edge) bDstWeight
  then setEdgeWeightMaxChecked edge bDstWeight slop usedSlop
  else (true, edge, usedSlop).

(** The initial range of one edge [bSrc -> bDst]; the accumulator is
    ([usedSlop], [numEdges]). *)
Definition initEdge (bSrc bDst : BasicBlock) (bDstWeight : weight_t)
    (edge : flowList) (acc : bool * nat) : Flow (flowList * (bool * nat)) :=
  let numEdges := S acc.2 in
  let edge0 := resetUnprofiledEdge bSrc bDst edge in
  let slop := w_add (GetSlopFraction bSrc bDst) 1 in
  match initEdgeBySource slop bSrc edge0 acc.1 with
  | None => Abort
  | Some (assignOK1, e1, us1) =>
      match capEdgeByDest slop bDstWeight e1 us1 with
      | (assignOK2, e2, us2) =>
          if assignOK1 && assignOK2 then Continue (e2, (us2, numEdges))
          else EarlyExit (e2, (us2, numEdges))  (* inconsistent profile data *)
      end
  end.

(** The body of an edge loop that first fetches [bSrc = edge->getBlock()]. *)
Definition withSource {A : Type} (blocks : list BasicBlock)
    (body : BasicBlock -> flowList -> A -> Flow (flowList * A))
    (edge : flowList) (a : A) : Flow (flowList * A) :=
  match blocks !! flBlock edge with
  | None => Abort
  | Some bSrc => body bSrc edge a
  end.

(** The initialisation for the block at position [i]. *)
Definition initBlock (calledCount : weight_t) (i : nat) (st : EdgeWeightsState)
    : Flow EdgeWeightsState :=
  let blocks := ew_blocks st in
  match blocks !! i with
  | None => Abort
  | Some bDst =>
      let bDstWeight := bDstWeightOf calledCount i bDst in
      let finish (r : list flowList * (bool * nat)) :=
        mkEdgeWeightsState (<[i := set_bbPreds r.1 bDst]> blocks) r.2.1 r.2.2
          (ew_goodEdgeCountCurrent st) (ew_hasIncompleteEdgeWeights st) in
      match forEdges
              (withSource blocks
                 (fun bSrc => initEdge bSrc bDst bDstWeight))
              (bbPreds bDst) (ew_usedSlop st, ew_numEdges st) with
      | Continue r => Continue (finish r)
      | EarlyExit r => EarlyExit (finish r)
      | Abort => Abort
      end
  end.

(** Runs a checked setter on the edge at ([i], [k]) and stores the edge
    back: the setter's return value and the state afterwards. *)
Definition applySetter (st : EdgeWeightsState) (i k : nat)
    (setter : flowList -> bool -> bool * flowList * bool)
    : option (bool * EdgeWeightsState) :=
  e ← getEdge (ew_blocks st) i k;
  let '(ok, e', us) := setter e (ew_usedSlop st) in
  Some (ok,
        mkEdgeWeightsState (setEdge (ew_blocks st) i k e') us (ew_numEdges st)
          (ew_goodEdgeCountCurrent st) (ew_hasIncompleteEdgeWeights st)).

(** "Adjust [raise]->flEdgeWeightMin up or adjust [lower]->flEdgeWeightMax
    down": with [diff = weight - (raise.min + lower.max)], a positive
    [diff] raises the minimum of the one edge and a negative [diff] lowers
    the maximum of the other.  The edges are given by their positions. *)
Definition adjustMinUpOrMaxDown (slop weight : weight_t) (raise lower : nat * nat)
    (st : EdgeWeightsState) : option (bool * EdgeWeightsState) :=
  raiseEdge ← getEdge (ew_blocks st) raise.1 raise.2;
  lowerEdge ← getEdge (ew_blocks st) lower.1 lower.2;
  let diff :=
    w_sub weight (w_add (edgeWeightMin raiseEdge) (edgeWeightMax lowerEdge)) in
  if w_gt diff 0 then
    applySetter st raise.1 raise.2
      (fun e => setEdgeWeightMinChecked e (w_add (edgeWeightMin raiseEdge) diff) slop)
  else if w_lt diff 0 then
    applySetter st lower.1 lower.2
      (fun e => setEdgeWeightMaxChecked e (w_add (edgeWeightMax lowerEdge) diff) slop)
  else Some (true, st).

(** The other edge out of the [BBJ_COND] block [bSrc] (at position [src]),
    seen from its edge into the block at position [i]. *)
Definition otherEdgeOf (blocks : list BasicBlock) (src : nat) (bSrc : BasicBlock)
    (i : nat) : option (nat * nat) :=
  if option_nat_eqb (bbNext blocks src) (Some i)
  then target ← bbJumpDest bSrc; fgGetPredForBlock blocks target src
  else target ← bbNext blocks src; fgGetPredForBlock blocks target src.

(** The reconciliation of the two edges leaving a [BBJ_COND] block, run
    when the edge at ([i], [k]) is visited. *)
Definition condEdge (i k : nat) (st : EdgeWeightsState) : Flow EdgeWeightsState :=
  let blocks := ew_blocks st in
  match blocks !! i with
  | None => Abort
  | Some bDst =>
  match bbPreds bDst !! k with
  | None => Abort
  | Some edge =>
  match blocks !! flBlock edge with
  | None => Abort
  | Some bSrc =>
      let slop := w_add (GetSlopFraction bSrc bDst) 1 in
      match bbJumpKind bSrc with
      | BBJ_COND =>
          match otherEdgeOf blocks (flBlock edge) bSrc i with
          | None => Abort
          | Some other =>
          match getEdge blocks other.1 other.2 with
          | None => Abort
          | Some otherEdge =>
              if negb (w_le (edgeWeightMin edge) (edgeWeightMax edge))
                 || negb (w_le (edgeWeightMin otherEdge) (edgeWeightMax otherEdge))
              then Abort                                    (* noway_assert *)
              else
                (* Adjust edge->flEdgeWeightMin up or adjust
                   otherEdge->flEdgeWeightMax down *)
                match adjustMinUpOrMaxDown slop (bbWeight bSrc) (i, k) other st with
                | None => Abort
                | Some (ok1, st1) =>
                    (* Adjust otherEdge->flEdgeWeightMin up or adjust
                       edge->flEdgeWeightMax down *)
                    match adjustMinUpOrMaxDown slop (bbWeight bSrc) other (i, k) st1 with
                    | None => Abort
                    | Some (ok2, st2) =>
                        if ok1 && ok2 then Continue st2
                        else EarlyExit st2     (* inconsistent profile data *)
                    end
                end
          end
          end
      | _ => Continue st
      end
  end end end.

(** The first half of a refinement pass, for the block at position [i]. *)
Definition condBlock (i : nat) (st : EdgeWeightsState) : Flow EdgeWeightsState :=
  match ew_blocks st !! i with
  | None => Abort
  | Some bDst =>
      forEach (condEdge i) (seq 0 (length (bbPreds bDst))) st
  end.

(** The sums of the maximum and of the minimum edge weights into a block,
    accumulated from zero in list order. *)
Definition maxEdgeWeightSumOf (preds : list flowList) : weight_t :=
  fold_left (fun acc e => w_add acc (edgeWeightMax e)) preds 0.
Definition minEdgeWeightSumOf (preds : list flowList) : weight_t :=
  fold_left (fun acc e => w_add acc (edgeWeightMin e)) preds 0.

(** The lower bound of the flow balance: "minWeightCalc is our minWeight
    when every other path to bDst takes it's flEdgeWeightMax value". *)
Definition raiseMinByOthers (slop bDstWeight otherMaxEdgesWeightSum : weight_t)
    (edge : flowList) (usedSlop : bool) : bool * flowList * bool :=
  if w_ge bDstWeight otherMaxEdgesWeightSum then
    let minWeightCalc := w_sub bDstWeight otherMaxEdgesWeightSum in
    if w_gt minWeightCalc (edgeWeightMin edge)
    then setEdgeWeightMinChecked edge minWeightCalc slop usedSlop
    else (true, edge, usedSlop)
  else (true, edge, usedSlop).

(** The upper bound of the flow balance: "maxWeightCalc is our maxWeight
    when every other path to bDst takes it's flEdgeWeightMin value". *)
Definition lowerMaxByOthers (slop bDstWeight otherMinEdgesWeightSum : weight_t)
    (edge : flowList) (usedSlop : bool) : bool * flowList * bool :=
  if w_ge bDstWeight otherMinEdgesWeightSum then
    let maxWeightCalc := w_sub bDstWeight otherMinEdgesWeightSum in
    if w_lt maxWeightCalc (edgeWeightMax edge)
    then setEdgeWeightMaxChecked edge maxWeightCalc slop usedSlop
    else (true, edge, usedSlop)
  else (true, edge, usedSlop).

(** The flow balance of one edge into [bDst]; the accumulator is
    ([usedSlop], [goodEdgeCountCurrent], [hasIncompleteEdgeWeights]). *)
Definition balanceEdge (bDst : BasicBlock)
    (bDstWeight maxEdgeWeightSum minEdgeWeightSum : weight_t)
    (bSrc : BasicBlock) (edge : flowList) (acc : bool * nat * bool)
    : Flow (flowList * (bool * nat * bool)) :=
  let slop := w_add (GetSlopFraction bSrc bDst) 1 in
  if negb (w_ge maxEdgeWeightSum (edgeWeightMax edge)) then Abort  (* noway_assert *)
  else
    let otherMaxEdgesWeightSum := w_sub maxEdgeWeightSum (edgeWeightMax edge) in
    if negb (w_ge minEdgeWeightSum (edgeWeightMin edge)) then Abort  (* noway_assert *)
    else
      let otherMinEdgesWeightSum := w_sub minEdgeWeightSum (edgeWeightMin edge) in
      match raiseMinByOthers slop bDstWeight otherMaxEdgesWeightSum edge acc.1.1 with
      | (ok1, e1, us1) =>
      match lowerMaxByOthers slop bDstWeight otherMinEdgesWeightSum e1 us1 with
      | (ok2, e2, us2) =>
          if negb (ok1 && ok2) then
            EarlyExit (e2, (us2, acc.1.2, acc.2))  (* inconsistent profile data *)
          else if w_eq (edgeWeightMin e2) (edgeWeightMax e2) then
            (* Count how many "good" edge weights we have *)
            Continue (e2, (us2, S acc.1.2, acc.2))
          else
            (* Remember that we have seen at least one "Bad" edge weight *)
            Continue (e2, (us2, acc.1.2, true))
      end end.

(** The second half of a refinement pass, for the block at position [i]. *)
Definition balanceBlock (calledCount : weight_t) (i : nat)
    (st : EdgeWeightsState) : Flow EdgeWeightsState :=
  let blocks := ew_blocks st in
  match blocks !! i with
  | None => Abort
  | Some bDst =>
      if w_eq (bbWeight bDst) BB_MAX_WEIGHT then
        EarlyExit st                              (* inconsistent profile data *)
      else
        let bDstWeight := bDstWeightOf calledCount i bDst in
        let maxEdgeWeightSum := maxEdgeWeightSumOf (bbPreds bDst) in
        let minEdgeWeightSum := minEdgeWeightSumOf (bbPreds bDst) in
        let finish (r : list flowList * (bool * nat * bool)) :=
          mkEdgeWeightsState (<[i := set_bbPreds r.1 bDst]> blocks) r.2.1.1
            (ew_numEdges st) r.2.1.2 r.2.2 in
        match forEdges
                (withSource blocks
                   (balanceEdge bDst bDstWeight maxEdgeWeightSum minEdgeWeightSum))
                (bbPreds bDst)
                (ew_usedSlop st, ew_goodEdgeCountCurrent st,
                 ew_hasIncompleteEdgeWeights st) with
        | Continue r => Continue (finish r)
        | EarlyExit r => EarlyExit (finish r)
        | Abort => Abort
        end
  end.

(** One pass of the do-while loop of [fgComputeEdgeWeights]. *)
Definition refineOnce (calledCount : weight_t) (st : EdgeWeightsState)
    : Flow EdgeWeightsState :=
  let st0 :=
    mkEdgeWeightsState (ew_blocks st) (ew_usedSlop st) (ew_numEdges st) 0 false in
  match forEach condBlock (blockIndices (ew_blocks st0)) st0 with
  | Continue st1 =>
      forEach (balanceBlock calledCount) (blockIndices (ew_blocks st1)) st1
  | other => other
  end.

(** The do-while loop; [iterations] counts the completed passes and [fuel]
    bounds the remaining ones (the loop leaves after the eighth pass at
    the latest). *)
Fixpoint refineLoop (calledCount : weight_t) (fuel iterations : nat)
    (st : EdgeWeightsState) : Flow EdgeWeightsState :=
  match fuel with
  | O => Continue st
  | S fuel' =>
      let iterations := S iterations in
      let goodEdgeCountPrevious := ew_goodEdgeCountCurrent st in
      match refineOnce calledCount st with
      | Continue st' =>
          if (ew_numEdges st' =? ew_goodEdgeCountCurrent st')%nat then
            if ew_hasIncompleteEdgeWeights st' then Abort     (* noway_assert *)
            else Continue st'
          else if ew_hasIncompleteEdgeWeights st'
                  && (goodEdgeCountPrevious <? ew_goodEdgeCountCurrent st')%nat
                  && (iterations <? 8)%nat
          then refineLoop calledCount fuel' iterations st'
          else Continue st'
      | other => other
      end
  end.

(** "See if any edge weight are expressed in [min..max] form". *)
Definition rangeUsedIn (blocks : list BasicBlock) : bool :=
  existsb (fun b => existsb (fun e => w_ne (edgeWeightMin e) (edgeWeightMax e))
                            (bbPreds b)) blocks.

(** [Compiler::fgComputeEdgeWeights]. *)
Definition fgComputeEdgeWeights (c : Compiler) : Flow Compiler :=
  if negb (OptimizationEnabled c) || negb (fgIsUsingProfileWeights c) then
    Continue c
  else
    let finish (inconsistentProfileData : bool) (st : EdgeWeightsState)
               (c : Compiler) :=
      set_edgeWeightResults (ew_usedSlop st) (rangeUsedIn (ew_blocks st))
        (negb inconsistentProfileData) true (set_fgBBs (ew_blocks st) c) in
    match forEach (initBlock (fgCalledCount c)) (blockIndices (fgBBs c))
            (mkEdgeWeightsState (fgBBs c) false 0 0 false) with
    | Abort => Abort
    | EarlyExit st => Continue (finish true st c)
    | Continue st =>
        let c1 := set_fgEdgeCount (ew_numEdges st) c in
        match refineLoop (fgCalledCount c) 8 0 st with
        | Abort => Abort
        | EarlyExit st' => Continue (finish true st' c1)
        | Continue st' => Continue (finish false st' c1)
        end
    end.

(** [Compiler::fgComputeBlockAndEdgeWeights]. *)
Definition fgComputeBlockAndEdgeWeights (c : Compiler) : Flow Compiler :=
  let usingProfileWeights := fgIsUsingProfileWeights c in
  let c0 :=
    set_fgCalledCount BB_UNITY_WEIGHT (set_fgModified_valid false false c) in
  match fgComputeMissingBlockWeights c0 with
  | Continue (c1, returnWeight) =>
      match (if usingProfileWeights then fgComputeCalledCount c1 returnWeight
             else Continue c1) with
      | Continue c2 => fgComputeEdgeWeights c2
      | other => other
      end
  | _ => Abort
  end.
End EdgeSolver.

(** ** ProfileChecker *)

(** The locals of [fgDebugCheckProfileData]; the three block counters are
    [unsigned] and wrap around at [2^32]. *)
Record ProfileCheckState : Type := mkProfileCheckState {
  pc_problemBlocks : Z;
  pc_unprofiledBlocks : Z;
  pc_profiledBlocks : Z;
  pc_entryProfiled : bool;
  pc_exitProfiled : bool;
  pc_entryWeight : weight_t;
  pc_exitWeight : weight_t
}.

(** [counter++] on an [unsigned]. *)
Definition bump (counter : Z) : Z := u32 (counter + 1).

(** The check of the incoming flow of a profiled block: [problemBlocks]
    afterwards. *)
Definition checkIncoming (block : BasicBlock) (problemBlocks : Z) : Z :=
  let blockWeight := bbWeight block in
  let incomingWeightMin := minEdgeWeightSumOf (bbPreds block) in
  let incomingWeightMax := maxEdgeWeightSumOf (bbPreds block) in
  match bbPreds block with
  | [] =>
      (* Might need to tone this down as we could see unreachable blocks? *)
      bump problemBlocks
  | _ :: _ =>
      if w_gt incomingWeightMin incomingWeightMax then bump problemBlocks
      else if w_lt blockWeight incomingWeightMin then bump problemBlocks
      else if w_gt blockWeight incomingWeightMax then bump problemBlocks
      else problemBlocks
  end.

(** The search for [succEdge]: the first edge of the successor's
    predecessor list whose source is the block at position [block]. *)
Fixpoint succEdgeOf (preds : list flowList) (block : nat) : option flowList :=
  match preds with
  | [] => None
  | edge :: rest =>
      if (flBlock edge =? block)%nat then Some edge else succEdgeOf rest block
  end.

(** The walk over the successors of the block at position [i]: the
    accumulator is ([missingEdges], [outgoingWeightMin],
    [outgoingWeightMax]).  [None]: a successor that is no block of the
    method. *)
Fixpoint outgoingWeights (blocks : list BasicBlock) (i : nat) (succs : list nat)
    (acc : Z * weight_t * weight_t) : option (Z * weight_t * weight_t) :=
  match succs with
  | [] => Some acc
  | s :: rest =>
      succBlock ← blocks !! s;
      match succEdgeOf (bbPreds succBlock) i with
      | None => outgoingWeights blocks i rest (acc.1.1 + 1, acc.1.2, acc.2)%Z
      | Some succEdge =>
          outgoingWeights blocks i rest
            (acc.1.1, w_add acc.1.2 (edgeWeightMin succEdge),
             w_add acc.2 (edgeWeightMax succEdge))
      end
  end.

Section ProfileChecker.
(** [BasicBlock::hasEHBoundaryIn], [hasEHBoundaryOut], [NumSucc] and
    [GetSucc] are declared in block.h, outside the sources at hand, and
    are parameters here; [successorsOf i block] lists
    [GetSucc(0)], ..., [GetSucc(NumSucc() - 1)] of the block at position
    [i].  So are [fgComputePredsDone] and [JitConfig.JitProfileChecks()],
    which no other function of this file reads. *)
Variables hasEHBoundaryIn hasEHBoundaryOut : BasicBlock -> bool.
Variable successorsOf : nat -> BasicBlock -> list nat.
Variable fgComputePredsDone : bool.
Variable JitProfileChecks : Z.

(** The check of the outgoing flow of the profiled block at position [i]:
    [problemBlocks] afterwards. *)
Definition checkOutgoing (blocks : list BasicBlock) (i : nat) (block : BasicBlock)
    (problemBlocks : Z) : option Z :=
  let blockWeight := bbWeight block in
  match successorsOf i block with
  | [] => Some (bump problemBlocks)                     (* numSuccs == 0 *)
  | succs =>
      '(missingEdges, outgoingWeightMin, outgoingWeightMax) ←
        outgoingWeights blocks i succs (0%Z, 0, 0);
      let problemBlocks :=
        if (0 <? missingEdges)%Z then bump problemBlocks else problemBlocks in
      Some (if w_gt outgoingWeightMin outgoingWeightMax then bump problemBlocks
            else if w_lt blockWeight outgoingWeightMin then bump problemBlocks
            else if w_gt blockWeight outgoingWeightMax then bump problemBlocks
            else problemBlocks)
  end.

(** "Verify each profiled block": the body of the block loop for the
    block at position [i]. *)
Definition checkBlock (blocks : list BasicBlock) (i : nat)
    (st : ProfileCheckState) : Flow ProfileCheckState :=
  match blocks !! i with
  | None => Abort
  | Some block =>
      if negb (hasProfileWeight block) then
        Continue
          (mkProfileCheckState (pc_problemBlocks st)
             (bump (pc_unprofiledBlocks st)) (pc_profiledBlocks st)
             (pc_entryProfiled st) (pc_exitProfiled st) (pc_entryWeight st)
             (pc_exitWeight st))
      else
        (* There is some profile data to check. *)
        let profiledBlocks := bump (pc_profiledBlocks st) in
        let blockWeight := bbWeight block in
        (* Entry blocks *)
        let isEntry := (i =? 0)%nat in
        let entryWeight :=
          if isEntry then w_add (pc_entryWeight st) blockWeight
          else pc_entryWeight st in
        let entryProfiled := if isEntry then true else pc_entryProfiled st in
        (* Exit blocks *)
        let isExit := isReturnOrThrow block in
        let exitWeight :=
          if isExit then w_add (pc_exitWeight st) blockWeight
          else pc_exitWeight st in
        let exitProfiled := if isExit then true else pc_exitProfiled st in
        (* Handler entries and handler exits *)
        let verifyIncoming := negb isEntry && negb (hasEHBoundaryIn block) in
        let verifyOutgoing := negb isExit && negb (hasEHBoundaryOut block) in
        let problemBlocks1 :=
          if verifyIncoming then checkIncoming block (pc_problemBlocks st)
          else pc_problemBlocks st in
        match (if verifyOutgoing
               then checkOutgoing blocks i block problemBlocks1
               else Some problemBlocks1) with
        | None => Abort
        | Some problemBlocks2 =>
            Continue
              (mkProfileCheckState problemBlocks2 (pc_unprofiledBlocks st)
                 profiledBlocks entryProfiled exitProfiled entryWeight
                 exitWeight)
        end
  end.

(** [Compiler::fgDebugCheckProfileData] (compiled in checked builds only,
    where [assert] is active: a failed [assert] is the [Abort] outcome).
    The result is what the function reports: the numbers of problems, of
    unprofiled and of profiled blocks, next to the entry and exit
    weights it compared. *)
Definition fgDebugCheckProfileData (c : Compiler) : Flow ProfileCheckState :=
  (* We can't check before we have pred lists built. *)
  if negb fgComputePredsDone then Abort
  else
    match forEach (checkBlock (fgBBs c)) (blockIndices (fgBBs c))
            (mkProfileCheckState 0 0 0 false false 0 0) with
    | Continue st =>
        (* Verify overall input-output balance. *)
        let problemBlocks :=
          if pc_entryProfiled st && pc_exitProfiled st
             && w_ne (pc_entryWeight st) (pc_exitWeight st)
          then bump (pc_problemBlocks st)
          else pc_problemBlocks st in
        if negb (problemBlocks =? 0)%Z && (JitProfileChecks =? 2)%Z
        then Abort                                  (* "Inconsistent profile" *)
        else
          Continue
            (mkProfileCheckState problemBlocks (pc_unprofiledBlocks st)
               (pc_profiledBlocks st) (pc_entryProfiled st)
               (pc_exitProfiled st) (pc_entryWeight st) (pc_exitWeight st))
    | other => other
    end.
End ProfileChecker.

(** ** Vocabulary of the properties *)

(** The range invariant of an edge. *)
Definition edge_range_ok (e : flowList) : Prop :=
  0 <= flEdgeWeightMin e /\ flEdgeWeightMin e <= flEdgeWeightMax e.

(** The post-condition asserted by both setters when they return true. *)
Definition setter_post (e : flowList) (newWeight : weight_t) : Prop :=
  flEdgeWeightMax e == 0 \/
  (flEdgeWeightMin e <= newWeight /\ newWeight <= flEdgeWeightMax e).

(** The entry the schema lookup answers from, in the words of the
    specification: the first entry of kind [BasicBlockIntCount] whose IL
    offset is the requested one. *)
Definition firstBlockCountEntry (schema : list PgoInstrumentationSchema)
    (offset : Z) : option PgoInstrumentationSchema :=
  List.find (fun e => is_BasicBlockIntCount (InstrumentationKind e)
                      && (u32 (ILOffset e) =? offset)%Z) schema.

(** The stress weight in the words of the specification: [raw] is the
    bucketed product for [hash], and offset 0 is floored to
    [1 + hash % 5] when [raw] is zero. *)
Definition stress_weight_spec (hash offset : Z) (w : weight_t) : Prop :=
  exists raw : Z,
    ((hash mod 3 = 0 -> raw = 0) /\
     (hash mod 3 <> 0 -> hash mod 11 = 0 ->
      raw = (hash mod 23) * (hash mod 29) * (hash mod 31)) /\
     (hash mod 3 <> 0 -> hash mod 11 <> 0 ->
      raw = (hash mod 17) * (hash mod 19)))%Z /\
    ((offset = 0 /\ raw = 0)%Z -> w == inject_Z (1 + hash mod 5)) /\
    (~ (offset = 0 /\ raw = 0)%Z -> w == inject_Z raw).

(** The state an outcome ends in, if any. *)
Definition flow_state {S : Type} (r : Flow S) : option S :=
  match r with
  | Continue s | EarlyExit s => Some s
  | Abort => None
  end.

(** The propagator assigned the weight of the block at position [i]:
    its weight after the propagation differs from its weight before. *)
Definition weightAssignedByPropagator (before after : list BasicBlock)
    (i : nat) : Prop :=
  exists b0 b1, before !! i = Some b0 /\ after !! i = Some b1 /\
                ~ bbWeight b0 == bbWeight b1.

(** The profile-weight flag after propagation ([c1]) and called count
    ([c2]), as the specification words it: set iff the weight was sourced
    from profile data (the flag was set on entry, [c]), assigned by the
    propagator, or assigned from the call count for the scratch entry. *)
Definition profileFlagIffAssigned (c c1 c2 : Compiler) : Prop :=
  forall (i : nat) (b2 : BasicBlock),
    fgBBs c2 !! i = Some b2 ->
    (hasProfileWeight b2 = true <->
     ((exists b, fgBBs c !! i = Some b /\ hasProfileWeight b = true) \/
      weightAssignedByPropagator (fgBBs c) (fgBBs c1) i \/
      (i = 0%nat /\ fgFirstBBisScratch c = true))).

(** The blocks that get a block count probe: imported and not internal. *)
Definition countedBlocks (blocks : list BasicBlock) : list BasicBlock :=
  List.filter (fun b => BBF_IMPORTED (bbFlags b) && negb (BBF_INTERNAL (bbFlags b)))
              blocks.

(** A call the class-probe visitor hands to its functor. *)
Definition isProbedCall (h : CallHeader) : bool :=
  IsVirtual h && negb (is_CT_INDIRECT h).

(** The tree with the header of every probed call renewed by [newHeader]
    and nothing else changed. *)
Fixpoint renewHeaders (newHeader : CallHeader -> CallHeader) (t : GenTree)
    : GenTree :=
  match t with
  | GenTreeCall h this args =>
      GenTreeCall (if isProbedCall h then newHeader h else h)
        (option_map (renewHeaders newHeader) this)
        (List.map (renewHeaders newHeader) args)
  | GenTreeOp op v ops => GenTreeOp op v (List.map (renewHeaders newHeader) ops)
  end.

(** Restoring the stub addresses, in the words of the specification: on
    every virtual, non-indirect call the stub address becomes the one the
    probe saved; nothing else changes. *)
Definition restoreStubs (t : GenTree) : GenTree :=
  renewHeaders
    (fun h => set_gtStubCallStubAddr (stubAddr (gtClassProfileCandidateInfo h)) h)
    t.

Definition restoreStubsInBlock (b : BasicBlock) : BasicBlock :=
  if BBF_IMPORTED (bbFlags b) && BBF_HAS_CLASS_PROFILE (bbFlags b)
  then set_bbStmts (List.map restoreStubs (bbStmts b)) b
  else b.

(** Every virtual, non-indirect call of the tree has its stub address equal
    to the one saved in its probe. *)
Fixpoint stubsRestored (t : GenTree) : bool :=
  match t with
  | GenTreeCall h this args =>
      (if isProbedCall h
       then (gtStubCallStubAddr h =? stubAddr (gtClassProfileCandidateInfo h))%Z
       else true)
      && match this with Some x => stubsRestored x | None => true end
      && forallb stubsRestored args
  | GenTreeOp _ _ ops => forallb stubsRestored ops
  end.

(** The tree with the stub address of every call blanked: two trees with
    the same image differ in stub addresses at most. *)
Fixpoint eraseStubs (t : GenTree) : GenTree :=
  match t with
  | GenTreeCall h this args =>
      GenTreeCall (set_gtStubCallStubAddr 0 h)
        (option_map eraseStubs this) (List.map eraseStubs args)
  | GenTreeOp op v ops => GenTreeOp op v (List.map eraseStubs ops)
  end.

(** The second block differs from the first in the stub addresses of the
    calls in its statements at most: no statement was added or removed and
    no operand of a call was replaced. *)
Definition sameButStubs (b b' : BasicBlock) : Prop :=
  set_bbStmts [] b' = set_bbStmts [] b /\
  List.map eraseStubs (bbStmts b') = List.map eraseStubs (bbStmts b).

(** The sums of the minimum and of the maximum weights of a list of edges. *)
Fixpoint sumEdgeWeightMin (es : list flowList) : weight_t :=
  match es with
  | [] => 0
  | e :: rest => flEdgeWeightMin e + sumEdgeWeightMin rest
  end.
Fixpoint sumEdgeWeightMax (es : list flowList) : weight_t :=
  match es with
  | [] => 0
  | e :: rest => flEdgeWeightMax e + sumEdgeWeightMax rest
  end.

(** The out-edges of the block at position [i]: the edges, in any
    predecessor list, whose source is that block. *)
Definition outEdges (blocks : list BasicBlock) (i : nat) : list flowList :=
  concat (List.map (fun b => List.filter (fun e => (flBlock e =? i)%nat) (bbPreds b))
                   blocks).

(** The range sums of the in-edges (of the out-edges) bound the weight. *)
Definition inFlowBounded (b : BasicBlock) : Prop :=
  sumEdgeWeightMin (bbPreds b) <= bbWeight b /\
  bbWeight b <= sumEdgeWeightMax (bbPreds b).
Definition outFlowBounded (blocks : list BasicBlock) (i : nat) (b : BasicBlock)
    : Prop :=
  sumEdgeWeightMin (outEdges blocks i) <= bbWeight b /\
  bbWeight b <= sumEdgeWeightMax (outEdges blocks i).

(** The jump kinds that pass all of the block's weight along one edge. *)
Definition isUnconditionalJump (k : BBjumpKinds) : bool :=
  match k with
  | BBJ_ALWAYS | BBJ_EHCATCHRET | BBJ_NONE | BBJ_CALLFINALLY => true
  | _ => false
  end.

(** A block without its predecessor edges: what the solver never writes. *)
Definition blockFrame (b : BasicBlock) : BasicBlock := set_bbPreds [] b.

(** The second edge is the first with its range narrowed. *)
Definition narrows (e e' : flowList) : Prop :=
  flBlock e' = flBlock e /\
  flEdgeWeightMin e <= flEdgeWeightMin e' /\
  flEdgeWeightMax e' <= flEdgeWeightMax e /\
  (flEdgeWeightMin e <= flEdgeWeightMax e ->
   flEdgeWeightMin e' <= flEdgeWeightMax e').

(** The weight is a whole number, as an execution count is. *)
Definition isWhole (q : weight_t) : bool := (Zpos (Qden (Qred q)) =? 1)%Z.

(** Both bounds of the edge are whole numbers. *)
Definition wholeEdge (e : flowList) : Prop :=
  isWhole (flEdgeWeightMin e) = true /\ isWhole (flEdgeWeightMax e) = true.

(** The called count, every block weight and every edge bound of the flow
    graph are whole numbers. *)
Definition wholeWeights (calledCount : weight_t) (blocks : list BasicBlock)
    : Prop :=
  isWhole calledCount = true /\
  forall i b, blocks !! i = Some b ->
    isWhole (bbWeight b) = true /\ Forall wholeEdge (bbPreds b).

(** Every edge of the flow graph has a range [0 <= min <= max]. *)
Definition validRanges (blocks : list BasicBlock) : Prop :=
  forall i b, blocks !! i = Some b -> Forall edge_range_ok (bbPreds b).

(** The weights up to which the sum of two is still computed without
    rounding: [2^23]. *)
Definition exactSumLimit : weight_t := 8388608.

(** What holds of every edge into the block at position [i] while the
    solver runs without slop: a proper range of non-negative bounds,
    capped by the weight of the destination, and exact when the source
    jumps unconditionally.  The block weights and jump kinds are read from
    the frame [F]. *)
Definition EdgeInv (F : list BasicBlock) (calledCount : weight_t) (i : nat)
    (e : flowList) : Prop :=
  (0 <= flEdgeWeightMin e /\ flEdgeWeightMin e <= flEdgeWeightMax e) /\
  (forall bDst, F !! i = Some bDst ->
     flEdgeWeightMax e <= bDstWeightOf calledCount i bDst) /\
  (forall bSrc, F !! flBlock e = Some bSrc ->
     isUnconditionalJump (bbJumpKind bSrc) = true ->
     flEdgeWeightMin e == bbWeight bSrc /\ flEdgeWeightMax e == bbWeight bSrc).

Definition StateInv (calledCount : weight_t) (blocks : list BasicBlock) : Prop :=
  forall i b, blocks !! i = Some b ->
    Forall (EdgeInv (blockFrame <$> blocks) calledCount i) (bbPreds b).

(** One step of a pass that ran without slop: the frame stays and the
    state invariant is kept. *)
Definition keepsInv (calledCount : weight_t) (st st' : EdgeWeightsState) : Prop :=
  blockFrame <$> ew_blocks st' = blockFrame <$> ew_blocks st /\
  (StateInv calledCount (ew_blocks st) -> StateInv calledCount (ew_blocks st')).

(** What the flow balance without slop makes of an edge into a block of
    (entry-adjusted) weight [W], for the sums [otherMax] and [otherMin] of
    the other edges: the range is narrowed; the minimum stays, being at
    least the difference of [W] and [otherMax] if that bound applies, or
    becomes that bound; the maximum stays, being at most the difference
    of [W] and [otherMin] if that bound applies, or becomes that bound. *)
Definition balanced (W otherMax otherMin : weight_t) (e e' : flowList) : Prop :=
  narrows e e' /\
  ((flEdgeWeightMin e' = flEdgeWeightMin e /\
    (otherMax <= W -> w_sub W otherMax <= flEdgeWeightMin e)) \/
   (otherMax <= W /\ flEdgeWeightMin e' = w_sub W otherMax)) /\
  ((flEdgeWeightMax e' = flEdgeWeightMax e /\
    (otherMin <= W -> flEdgeWeightMax e <= w_sub W otherMin)) \/
   (otherMin <= W /\ flEdgeWeightMax e' = w_sub W otherMin)).

(** What a refinement pass without slop leaves of the block at position
    [i] when all weights are whole numbers: if it is not the method
    entry, has a non-negative weight below [exactSumLimit] and one or two
    predecessor edges, the in-edge sums bound its weight. *)
Definition destPost (i : nat) (st : EdgeWeightsState) : Prop :=
  forall b, ew_blocks st !! i = Some b -> i <> 0%nat -> 0 <= bbWeight b ->
    bbWeight b < exactSumLimit ->
    (1 <= length (bbPreds b) <= 2)%nat -> inFlowBounded b.

(** Every edge has a proper range. *)
Definition properRanges (blocks : list BasicBlock) : Prop :=
  forall i b, blocks !! i = Some b ->
    Forall (fun e => flEdgeWeightMin e <= flEdgeWeightMax e) (bbPreds b).

(** The flow bounds of the specification on a flow graph: for every block
    other than the method entry with a predecessor edge the in-edge sums
    bound its weight, and for every block that neither returns nor throws
    the out-edge sums do. *)
Definition flowBoundsHold (blocks : list BasicBlock) : Prop :=
  (forall i b, i <> 0%nat -> blocks !! i = Some b -> bbPreds b <> [] ->
     inFlowBounded b) /\
  (forall i b, blocks !! i = Some b -> isReturnOrThrow b = false ->
     outFlowBounded blocks i b).

(** *** The acceptance window of the checked setters *)

(** [newWeight] lies in the range of the edge. *)
Definition inRange (e : flowList) (newWeight : weight_t) : bool :=
  w_le (flEdgeWeightMin e) newWeight && w_le newWeight (flEdgeWeightMax e).

(** [newWeight] lies outside the range of the edge but within the slop of
    it: the slop is positive, and [newWeight] is above the maximum and at
    most the maximum plus the slop, or below the minimum and the minimum
    is at most [newWeight] plus the slop; the sums are sums of weights,
    rounded as the source computes them. *)
Definition withinSlop (e : flowList) (newWeight slop : weight_t) : Prop :=
  0 < slop /\
  ((flEdgeWeightMax e < newWeight /\
    newWeight <= w_add (flEdgeWeightMax e) slop) \/
   (newWeight < flEdgeWeightMin e /\
    flEdgeWeightMin e <= w_add newWeight slop)).

(** *** What the weight propagation changes *)

(** [b1] is [b] after the propagation assigned it the weight it has: the
    run-rarely flag follows the weight and everything else is as in [b]. *)
Definition reweighted (b b1 : BasicBlock) : Prop :=
  b1 = assignPropagatedWeight (bbWeight b1) b.

(** The flow graph [after] is [before] with weights propagated: a block
    is as it was, or it had no profile weight and some predecessor edge,
    was given the weight that some block had before, and is otherwise
    as it was. *)
Definition propagatedFrom (before after : list BasicBlock) : Prop :=
  length after = length before /\
  forall i b b1, before !! i = Some b -> after !! i = Some b1 ->
    b1 = b \/
    (hasProfileWeight b = false /\ bbPreds b <> [] /\ reweighted b b1 /\
     exists j bj, before !! j = Some bj /\ bbWeight b1 = bbWeight bj).

(** The sum of the weights of the return and throw blocks that carry a
    profile weight, accumulated from zero in block order, every partial
    sum being rounded to a [float]. *)
Definition addReturnWeight (acc : weight_t) (b : BasicBlock) : weight_t :=
  if hasProfileWeight b && isReturnOrThrow b then w_add acc (bbWeight b) else acc.
Definition returnWeightOf (blocks : list BasicBlock) : weight_t :=
  fold_left addReturnWeight blocks 0.

(** What [fgComputeMissingBlockWeights] relies on, of every block: the
    source of its first predecessor edge is a block of the method, the
    target of its jump is one, and if its only successor has a single
    in-edge and a predecessor edge, the first such edge comes from the
    block itself. *)
Definition propagationPrecondition (blocks : list BasicBlock) : Prop :=
  forall i b, blocks !! i = Some b ->
    (forall pred rest, bbPreds b = pred :: rest ->
       (flBlock pred < length blocks)%nat) /\
    (forall d, bbJumpKind b = BBJ_ALWAYS -> bbJumpDest b = Some d ->
       (d < length blocks)%nat) /\
    (forall n bNext pred rest,
       bOnlyNextOf blocks i b = Some n -> blocks !! n = Some bNext ->
       bbPreds bNext = pred :: rest -> countOfInEdges bNext = 1%nat ->
       flBlock pred = i).

(** *** What the edge weight solver changes *)

(** The second edge is the first with another range: the same source and
    duplicate count, and a proper range if the first had one. *)
Definition rangeUpdated (e e' : flowList) : Prop :=
  flBlock e' = flBlock e /\ flDupCount e' = flDupCount e /\
  (flEdgeWeightMin e <= flEdgeWeightMax e ->
   flEdgeWeightMin e' <= flEdgeWeightMax e').

(** The flow graph [after] is [before] with edge ranges updated: the same
    blocks, each with the same edges up to their ranges. *)
Definition edgesUpdated (before after : list BasicBlock) : Prop :=
  length after = length before /\
  forall i b b', before !! i = Some b -> after !! i = Some b' ->
    blockFrame b' = blockFrame b /\
    Forall2 rangeUpdated (bbPreds b) (bbPreds b').

(** The number of predecessor edges of the flow graph, counted in block
    order. *)
Definition edgeCountOf (blocks : list BasicBlock) : nat :=
  fold_left (fun n b => (n + length (bbPreds b))%nat) blocks 0%nat.

(** *** What the instrumenter visits and builds *)

(** The calls the class-probe visitor hands to its functor, in the order
    of the walk: the call itself, then those of its [this] argument, then
    those of its arguments. *)
Fixpoint probedCalls (t : GenTree) : list CallHeader :=
  match t with
  | GenTreeCall h this args =>
      (if isProbedCall h then [h] else []) ++
      match this with Some x => probedCalls x | None => [] end ++
      concat (List.map probedCalls args)
  | GenTreeOp _ _ ops => concat (List.map probedCalls ops)
  end.

(** The probed calls of a statement list, and of the blocks the
    instrumenter scans for them: imported and flagged for class
    profiling. *)
Definition probedCallsOfStmts (stmts : list Statement) : list CallHeader :=
  concat (List.map probedCalls stmts).
Definition probedCallsIn (blocks : list BasicBlock) : list CallHeader :=
  concat (List.map
            (fun b => if BBF_IMPORTED (bbFlags b) && BBF_HAS_CLASS_PROFILE (bbFlags b)
                      then probedCallsOfStmts (bbStmts b) else [])
            blocks).

(** The schema entry of the block counter of a block. *)
Definition blockCounterEntry (b : BasicBlock) : PgoInstrumentationSchema :=
  mkSchema 0 BasicBlockIntCount (bbCodeOffs b) 1 0.

(** The call header with the stub address restored from its probe. *)
Definition restoreStub (h : CallHeader) : CallHeader :=
  set_gtStubCallStubAddr (stubAddr (gtClassProfileCandidateInfo h)) h.

(** The inserter's state after [n] more probes: [n] calls counted, two
    schema entries and one temporary taken per probe. *)
Definition afterProbes (n : nat) (s : ProbeState) : ProbeState :=
  mkProbeState (m_count s + Z.of_nat n) (m_currentSchemaIndex s + 2 * n)
               (ps_lvaCount s + n).

(** The statement that increments the counter at [addr]: the tree
    [ASG (IND addr) (ADD (IND addr) 1)]. *)
Definition counterIncrement (addr : Z) : Statement :=
  gtNewAssignNode (gtNewIndOfIconHandleNode addr)
    (gtNewOperNode GT_ADD (gtNewIndOfIconHandleNode addr) (gtNewIconNode 1)).

(** A block that gets a block counter: imported and not internal. *)
Definition isCounted (b : BasicBlock) : bool :=
  BBF_IMPORTED (bbFlags b) && negb (BBF_INTERNAL (bbFlags b)).

(** The Host fills in the offsets of the schema it is handed and leaves
    the rest of every entry alone. *)
Definition hostFilled (e e' : PgoInstrumentationSchema) : Prop :=
  e' = mkSchema (Offset e') (InstrumentationKind e) (ILOffset e) (Count e) (Other e).

(** The block [b'] is [b] instrumented against the schema [schemaOut] and
    the buffer at [profileMemory]: its statements are those of [b] after
    the class-probe walk (the same statements if [b] is not scanned for
    class probes; otherwise as many, with the same probed calls and their
    stub addresses restored), behind one new first statement if [b] is
    counted: the increment of a counter whose schema entry is a block
    count entry with the IL offset of [b]. *)
Definition instrumentedBlock (schemaOut : list PgoInstrumentationSchema)
    (profileMemory : Z) (b b' : BasicBlock) : Prop :=
  exists stmts : list Statement,
    (if BBF_IMPORTED (bbFlags b) && BBF_HAS_CLASS_PROFILE (bbFlags b)
     then length stmts = length (bbStmts b) /\
          forallb stubsRestored stmts = true /\
          probedCallsOfStmts stmts
          = List.map restoreStub (probedCallsOfStmts (bbStmts b))
     else stmts = bbStmts b) /\
    (if isCounted b
     then exists e, In e schemaOut /\
            InstrumentationKind e = BasicBlockIntCount /\
            ILOffset e = bbCodeOffs b /\
            b' = set_bbStmts (counterIncrement (Offset e + profileMemory) :: stmts) b
     else b' = set_bbStmts stmts b).

(** *** What the profile checker verifies *)

(** The successor edges the checker finds for the block at position [i]:
    for each successor, the first edge of its predecessor list that comes
    from that block. *)
Definition succEdgesFound (blocks : list BasicBlock) (i : nat)
    (succs : list nat) (edges : list flowList) : Prop :=
  Forall2 (fun s e => exists succBlock,
             blocks !! s = Some succBlock /\
             succEdgeOf (bbPreds succBlock) i = Some e)
          succs edges.

(** The sum of a list of weights as the source accumulates it: from zero,
    in list order, every partial sum rounded to a [float]. *)
Definition floatSum (ws : list weight_t) : weight_t := fold_left w_add ws 0.

(** The accumulated range sums of the in-edges bound the weight. *)
Definition inFlowChecked (b : BasicBlock) : Prop :=
  floatSum (List.map flEdgeWeightMin (bbPreds b)) <= bbWeight b /\
  bbWeight b <= floatSum (List.map flEdgeWeightMax (bbPreds b)).

(** The profiled block [b] at position [i] passes the checker: unless it
    is the method entry or a handler entry, it has predecessor edges
    whose accumulated range sums bound its weight; unless it returns,
    throws or is a handler exit, it has successors, an edge to each of
    them is found, and the accumulated range sums of these edges bound
    its weight. *)
Definition blockConsistent (hasEHBoundaryIn hasEHBoundaryOut : BasicBlock -> bool)
    (successorsOf : nat -> BasicBlock -> list nat)
    (blocks : list BasicBlock) (i : nat) (b : BasicBlock) : Prop :=
  hasProfileWeight b = true ->
  (i <> 0%nat -> hasEHBoundaryIn b = false ->
   bbPreds b <> [] /\ inFlowChecked b) /\
  (isReturnOrThrow b = false -> hasEHBoundaryOut b = false ->
   successorsOf i b <> [] /\
   exists edges,
     succEdgesFound blocks i (successorsOf i b) edges /\
     floatSum (List.map flEdgeWeightMin edges) <= bbWeight b /\
     bbWeight b <= floatSum (List.map flEdgeWeightMax edges)).

(** The profile is self-consistent: every profiled block passes, and if
    the method entry and some return or throw block are profiled, the
    accumulated weight of the entry is the accumulated sum of the weights
    of the profiled return and throw blocks. *)
Definition profileConsistent (hasEHBoundaryIn hasEHBoundaryOut : BasicBlock -> bool)
    (successorsOf : nat -> BasicBlock -> list nat)
    (blocks : list BasicBlock) : Prop :=
  (forall i b, blocks !! i = Some b ->
     blockConsistent hasEHBoundaryIn hasEHBoundaryOut successorsOf blocks i b) /\
  (forall b0, blocks !! 0%nat = Some b0 -> hasProfileWeight b0 = true ->
     (exists i b, blocks !! i = Some b /\ hasProfileWeight b = true /\
                  isReturnOrThrow b = true) ->
     floatSum [bbWeight b0] == returnWeightOf blocks).

(** The flow graph [after] is [before] with edge ranges narrowed: the
    same blocks, each with the same edges, and the range of every edge
    within the range it had. *)
Definition edgesNarrowed (before after : list BasicBlock) : Prop :=
  length after = length before /\
  forall i b b', before !! i = Some b -> after !! i = Some b' ->
    blockFrame b' = blockFrame b /\
    Forall2 narrows (bbPreds b) (bbPreds b').


(** *** The first IL block *)

(** The block [b] at position [k] is the first block of the method that
    is not internal. *)
Definition isFirstILBlock (blocks : list BasicBlock) (k : nat) (b : BasicBlock)
    : Prop :=
  blocks !! k = Some b /\ BBF_INTERNAL (bbFlags b) = false /\
  forall j bj, (j < k)%nat -> blocks !! j = Some bj ->
    BBF_INTERNAL (bbFlags bj) = true.
(** ** Scenarios *)

Definition plainFlags (profiled : bool) : BasicBlockFlags :=
  mkFlags true false profiled false false.

(** A block with a weight, a profile flag, a jump kind and optional target,
    an IL offset and a predecessor list (one reference per edge). *)
Definition blockOf (w : weight_t) (profiled : bool) (k : BBjumpKinds)
    (dest : option nat) (offs : Z) (preds : list flowList) : BasicBlock :=
  mkBasicBlock w (plainFlags profiled) k dest offs (length preds) preds [].

(** A fresh edge from block [src]: the range [0, BB_MAX_WEIGHT]. *)
Definition edgeFrom (src : nat) : flowList :=
  mkFlowList src BB_ZERO_WEIGHT BB_MAX_WEIGHT 1.

Definition noInlineInfo : InlineInfo :=
  mkInlineInfo (blockOf 0 false BBJ_RETURN None 0 []) UNDETERMINED 0.

(** An optimizing, profile-using compilation of the given blocks. *)
Definition compilerOf (blocks : list BasicBlock) (calledCount : weight_t)
    : Compiler :=
  mkCompiler false false true false false 0 0 0 0 0 0 None [] true
             noInlineInfo blocks false 0 false calledCount 0 false false
             false false.

(** A compilation with profile data: schema, counter buffer, stress seed,
    method hash and inline information. *)
Definition compilerWithData (importOnly : bool) (seed hash : Z)
    (schema : option (list PgoInstrumentationSchema)) (data : list Byte.byte)
    (info : InlineInfo) : Compiler :=
  mkCompiler importOnly false true false false 0 0 seed hash 0 0 schema data
             true info [] false 0 false BB_UNITY_WEIGHT 0 false false false
             false.

(** Two block counters: IL offset 0 counts 7, IL offset 5 counts 257. *)
Definition twoCounterSchema : list PgoInstrumentationSchema :=
  [ mkSchema 0 BasicBlockIntCount 0 1 0; mkSchema 4 BasicBlockIntCount 5 1 0 ].
Definition twoCounterData : list Byte.byte :=
  [ Byte.x07; Byte.x00; Byte.x00; Byte.x00;
    Byte.x01; Byte.x01; Byte.x00; Byte.x00 ].

(** An inlinee whose call site block carries profile weight 3. *)
Definition inlineeAtWeight3 : Compiler :=
  compilerWithData false 0 0 (Some twoCounterSchema) twoCounterData
    (mkInlineInfo (blockOf 3 true BBJ_NONE None 0 []) UNDETERMINED 0).

(** The method entry: a block with the implicit entry reference on top of
    its predecessor edges. *)
Definition entryBlockOf (w : weight_t) (profiled : bool) (k : BBjumpKinds)
    (dest : option nat) (offs : Z) (preds : list flowList) : BasicBlock :=
  mkBasicBlock w (plainFlags profiled) k dest offs (S (length preds)) preds [].

(** Propagation scenario: B1 (100, profiled) falls into B2 (unprofiled),
    which falls into B3 (100, profiled, return). *)
Definition propagationBlocks : list BasicBlock :=
  [ entryBlockOf 100 true BBJ_NONE None 0 [];
    blockOf 1 false BBJ_NONE None 5 [edgeFrom 0];
    blockOf 100 true BBJ_RETURN None 10 [edgeFrom 1] ].

(** Unprofiled successor: B0 (100, profiled) branches to B3 or falls into
    B1 (unprofiled), which falls into B2 (unprofiled, weight 7, return);
    B3 (50, profiled, return). *)
Definition unprofiledSuccessorBlocks : list BasicBlock :=
  [ entryBlockOf 100 true BBJ_COND (Some 3%nat) 0 [];
    blockOf 1 false BBJ_NONE None 5 [edgeFrom 0];
    blockOf 7 false BBJ_RETURN None 10 [edgeFrom 1];
    blockOf 50 true BBJ_RETURN None 15 [edgeFrom 0] ].

(** A scratch first block in front of an IL block with a back edge. *)
Definition scratchFirstBlocks : list BasicBlock :=
  [ mkBasicBlock 100 (mkFlags true true false false false) BBJ_NONE None 0 1 [] [];
    mkBasicBlock 40 (plainFlags true) BBJ_COND (Some 1%nat) 0 2
                 [edgeFrom 0; edgeFrom 1] [];
    blockOf 0 true BBJ_RETURN None 9 [edgeFrom 1] ].

Definition scratchFirstCompiler : Compiler :=
  mkCompiler false false true false false 0 0 0 0 0 0 None [] true
             noInlineInfo scratchFirstBlocks true 0 false BB_UNITY_WEIGHT 0
             false false false false.

(** A Host whose counter allocator answers [E_NOTIMPL], and plain stand-ins
    for the other services. *)
Definition hostNotImplemented (methHnd : Z)
    (schema : list PgoInstrumentationSchema)
    : HRESULT * list PgoInstrumentationSchema * Z :=
  (E_NOTIMPL, schema, 0%Z).

Definition fgInstrumentMethod_notimpl (c : Compiler)
    : list (list PgoInstrumentationSchema) * Flow Compiler :=
  fgInstrumentMethod 2147483648 1073741824 8 101 102 (fun il => il)
    hostNotImplemented (fun c => c) gtNewIconNode gtNewIconNode c.

(** A virtual stub call whose probe saved stub address 42; the call itself
    currently holds 0 there. *)
Definition probedCall : GenTree :=
  GenTreeCall (mkCallHeader CT_USER_FUNC GTF_CALL_VIRT_STUB 77 0
                 (mkCandidateInfo 3 0 42))
    (Some (gtNewLclvNode 0)) [gtNewIconNode 5].

(** One imported block flagged for class profiling, holding that call. *)
Definition classProfileBlock : BasicBlock :=
  mkBasicBlock 100 (mkFlags true false false false true) BBJ_RETURN None 0 1 []
               [probedCall].

(** A compilation of that block with one class probe counted, with the
    given [JitClassProfiling] and [JitMinimalProfiling]. *)
Definition classProfileCompiler (classProfiling minimalProfiling probes : Z)
    (blocks : list BasicBlock) : Compiler :=
  mkCompiler false false false false false minimalProfiling classProfiling 0 0
             0 probes None [] false noInlineInfo blocks false 1 false
             BB_UNITY_WEIGHT 0 false false false false.

(** The slop fraction taken as zero: every edge gets the slop 1. *)
Definition zeroSlopFraction (bSrc bDst : BasicBlock) : weight_t := 0.

(** Diamond: B1 (100, cond) -> B2 (30), B3 (70) -> B4 (100, return). *)
Definition diamondBlocks (w2 w3 : weight_t) : list BasicBlock :=
  [ entryBlockOf 100 true BBJ_COND (Some 2%nat) 0 [];
    blockOf w2 true BBJ_ALWAYS (Some 3%nat) 5 [edgeFrom 0];
    blockOf w3 true BBJ_NONE None 10 [edgeFrom 0];
    blockOf 100 true BBJ_RETURN None 15 [edgeFrom 1; edgeFrom 2] ].

(** Three-way join: B0 (200, switch) -> B1, B2, B3 (60 each) -> B4 (100,
    return), called 200 times. *)
Definition threeWayJoinBlocks : list BasicBlock :=
  [ entryBlockOf 200 true BBJ_SWITCH None 0 [];
    blockOf 60 true BBJ_ALWAYS (Some 4%nat) 5 [edgeFrom 0];
    blockOf 60 true BBJ_ALWAYS (Some 4%nat) 10 [edgeFrom 0];
    blockOf 60 true BBJ_NONE None 15 [edgeFrom 0];
    blockOf 100 true BBJ_RETURN None 20 [edgeFrom 1; edgeFrom 2; edgeFrom 3] ].

(** Two returning arms: B0 (100, cond) -> B1 (60, return), B2 (60, return),
    called 100 times. *)
Definition twoArmBlocks : list BasicBlock :=
  [ entryBlockOf 100 true BBJ_COND (Some 2%nat) 0 [];
    blockOf 60 true BBJ_RETURN None 5 [edgeFrom 0];
    blockOf 60 true BBJ_RETURN None 10 [edgeFrom 0] ].


(** A Host that allocates the counters: it assigns the schema entries
    consecutive offsets, four bytes apart, and answers with success and
    the buffer at address 4096. *)
Fixpoint fillOffsets (offset : Z) (schema : list PgoInstrumentationSchema)
    : list PgoInstrumentationSchema :=
  match schema with
  | [] => []
  | e :: rest =>
      mkSchema offset (InstrumentationKind e) (ILOffset e) (Count e) (Other e)
      :: fillOffsets (offset + 4) rest
  end.

Definition hostAllocating (methHnd : Z)
    (schema : list PgoInstrumentationSchema)
    : HRESULT * list PgoInstrumentationSchema * Z :=
  (0%Z, fillOffsets 0 schema, 4096%Z).

Definition fgInstrumentMethod_allocating (c : Compiler)
    : list (list PgoInstrumentationSchema) * Flow Compiler :=
  fgInstrumentMethod 2147483648 1073741824 8 101 102 (fun il => il)
    hostAllocating (fun c => c) gtNewIconNode gtNewIconNode c.

(** The schema of the method with the one class-profile block: the two
    histogram entries of its probed call and its block counter. *)
Definition classProfileSchema : list PgoInstrumentationSchema :=
  [ mkSchema 0 TypeHandleHistogramCount 3 1 (Z.lor 2147483648 1073741824);
    mkSchema 0 TypeHandleHistogramTypeHandle 3 8 (Z.lor 2147483648 1073741824);
    mkSchema 0 BasicBlockIntCount 0 1 0 ].

(** A method without exception handling: no block is a handler entry or
    exit, and the successors of a block follow from its jump kind (the
    next block, the jump target, or both for a conditional jump). *)
Definition noEHBoundary (b : BasicBlock) : bool := false.

Definition plainSuccessorsOf (i : nat) (b : BasicBlock) : list nat :=
  match bbJumpKind b with
  | BBJ_NONE => [S i]
  | BBJ_ALWAYS => match bbJumpDest b with Some d => [d] | None => [] end
  | BBJ_COND => match bbJumpDest b with Some d => [S i; d] | None => [S i] end
  | _ => []
  end.

(** A prejit compilation of the given blocks, without class probes. *)
Definition prejitCompiler (blocks : list BasicBlock) : Compiler :=
  mkCompiler false false false true false 0 0 0 0 0 0 None [] false
             noInlineInfo blocks false 0 false BB_UNITY_WEIGHT 0 false false
             false false.


(** Profile data with a class histogram entry in front of the block count
    of IL offset 5, whose counter, 16777217, is no [float]; the block at
    IL offset 9 was counted 257 times. *)
Definition mixedSchema : list PgoInstrumentationSchema :=
  [ mkSchema 0 TypeHandleHistogramCount 5 1 0;
    mkSchema 4 BasicBlockIntCount 5 1 0;
    mkSchema 8 BasicBlockIntCount 9 1 0 ].
Definition mixedData : list Byte.byte :=
  [ Byte.xff; Byte.xff; Byte.xff; Byte.xff;
    Byte.x01; Byte.x00; Byte.x00; Byte.x01;
    Byte.x01; Byte.x01; Byte.x00; Byte.x00 ].

(** Join with large counts: B0 (33554436, switch) -> B1 (2) and B2; B1
    falls into B2 (33554436, return); called 33554436 times.  The counts
    are [float]s, but the flow 33554434 from B0 to B2 is not. *)
Definition roundingJoinBlocks : list BasicBlock :=
  [ entryBlockOf 33554436 true BBJ_SWITCH None 0 [];
    blockOf 2 true BBJ_NONE None 5 [edgeFrom 0];
    blockOf 33554436 true BBJ_RETURN None 10 [edgeFrom 0; edgeFrom 1] ].

(** Two returns with counts a [float] sum loses: B0 (16777216) branches
    to B2 or falls into B1 (16777216, return); B2 (1, return). *)
Definition roundingReturnBlocks : list BasicBlock :=
  [ entryBlockOf 16777216 true BBJ_COND (Some 2%nat) 0 [];
    blockOf 16777216 true BBJ_RETURN None 5 [edgeFrom 0];
    blockOf 1 true BBJ_RETURN None 10 [edgeFrom 0] ].

(** An inlinee whose call site block weighs 16777220 and whose entry was
    counted 16777219 times, a count that is no [float]. *)
Definition inlineeAtRoundedCount : Compiler :=
  compilerWithData false 0 0 (Some [mkSchema 0 BasicBlockIntCount 0 1 0])
    [ Byte.x03; Byte.x00; Byte.x00; Byte.x01 ]
    (mkInlineInfo (blockOf 16777220 true BBJ_NONE None 0 []) UNDETERMINED 0).

(** The same method with its edges solved: B0 passes 16777216 to B1 and 1
    to B2, sums that a [float] rounds to 16777216. *)
Definition roundingReturnSolved : list BasicBlock :=
  [ entryBlockOf 16777216 true BBJ_COND (Some 2%nat) 0 [];
    blockOf 16777216 true BBJ_RETURN None 5 [mkFlowList 0 16777216 16777216 1];
    blockOf 1 true BBJ_RETURN None 10 [mkFlowList 0 1 1 1] ].
(* ===================================================================== *)
(** * Part II: properties                                                 *)
(* ===================================================================== *)

(** ** Rounding to a floating-point format *)

Lemma two_pow_pos (k : Z) : 0 < 2 ^ k.
Proof. apply Qpower_0_lt. reflexivity. Qed.

Lemma two_pow_succ (k : Z) : 2 ^ (k + 1) == 2 * 2 ^ k.
Proof. rewrite Qpower_plus by discriminate. change (2 ^ 1) with 2. ring. Qed.

Lemma two_pow_Z (n : Z) : (0 <= n)%Z -> inject_Z (2 ^ n) == 2 ^ n.
Proof. intros H. rewrite Zpower_Qpower by exact H. reflexivity. Qed.

Lemma Qmake_eq (a : Z) (d : positive) : a # d == inject_Z a / inject_Z (Zpos d).
Proof. rewrite Qmake_Qdiv. reflexivity. Qed.

Lemma ilog2_spec (q : Q) :
  0 < q -> 2 ^ ilog2 q <= q /\ q < 2 ^ (ilog2 q + 1).
Proof.
  intros Hq. unfold ilog2.
  destruct q as [a d]. cbn [Qnum Qden].
  assert (Ha : (0 < a)%Z) by (unfold Qlt in Hq; simpl in Hq; lia).
  set (la := Z.log2 a). set (ld := Z.log2 (Z.pos d)).
  destruct (Z.log2_spec a Ha) as [Ha1 Ha2].
  destruct (Z.log2_spec (Z.pos d) ltac:(lia)) as [Hd1 Hd2].
  fold la in Ha1, Ha2. fold ld in Hd1, Hd2.
  assert (Hla : (0 <= la)%Z) by apply Z.log2_nonneg.
  assert (Hld : (0 <= ld)%Z) by apply Z.log2_nonneg.
  (* in Q *)
  assert (Qa1 : 2 ^ la <= inject_Z a).
  { rewrite <- two_pow_Z by exact Hla. rewrite <- Zle_Qle. exact Ha1. }
  assert (Qa2 : inject_Z a < 2 * 2 ^ la).
  { rewrite <- two_pow_succ, <- two_pow_Z by lia. rewrite <- Zlt_Qlt.
    exact Ha2. }
  assert (Qd1 : 2 ^ ld <= inject_Z (Z.pos d)).
  { rewrite <- two_pow_Z by exact Hld. rewrite <- Zle_Qle. exact Hd1. }
  assert (Qd2 : inject_Z (Z.pos d) < 2 * 2 ^ ld).
  { rewrite <- two_pow_succ, <- two_pow_Z by lia. rewrite <- Zlt_Qlt.
    exact Hd2. }
  assert (Hqd : (a # d) * inject_Z (Z.pos d) == inject_Z a).
  { rewrite Qmake_eq. field. discriminate. }
  assert (Hl : 2 ^ (la - ld) * 2 ^ ld == 2 ^ la).
  { rewrite <- Qpower_plus by discriminate. replace (la - ld + ld)%Z with la by ring.
    reflexivity. }
  pose proof (two_pow_pos la) as Pla. pose proof (two_pow_pos ld) as Pld.
  pose proof (two_pow_pos (la - ld)) as Pl.
  assert (Hd0 : 0 < inject_Z (Z.pos d)) by reflexivity.
  destruct (Qle_bool (2 ^ (la - ld)) (a # d)) eqn:Hb.
  - apply Qle_bool_iff in Hb. split; [exact Hb |].
    rewrite two_pow_succ.
    set (x := a # d) in *. set (D := inject_Z (Z.pos d)) in *.
    set (L := 2 ^ (la - ld)) in *. set (LD := 2 ^ ld) in *. set (LA := 2 ^ la) in *.
    nra.
  - assert (Hlt : a # d < 2 ^ (la - ld)).
    { apply Qnot_le_lt. intros H. apply Qle_bool_iff in H. congruence. }
    replace (la - ld - 1 + 1)%Z with (la - ld)%Z by ring.
    split; [| exact Hlt].
    assert (E : 2 ^ (la - ld) == 2 * 2 ^ (la - ld - 1)).
    { rewrite <- two_pow_succ. replace (la - ld - 1 + 1)%Z with (la - ld)%Z by ring.
      reflexivity. }
    pose proof (two_pow_pos (la - ld - 1)) as Pl1.
    set (x := a # d) in *. set (D := inject_Z (Z.pos d)) in *.
    set (L := 2 ^ (la - ld)) in *. set (LD := 2 ^ ld) in *. set (LA := 2 ^ la) in *.
    set (L1 := 2 ^ (la - ld - 1)) in *.
    nra.
Qed.

Lemma roundHalfEven_exact (s : Q) (z : Z) : s == inject_Z z -> roundHalfEven s = z.
Proof.
  intros E. unfold roundHalfEven.
  assert (F : Qfloor s = z) by (rewrite E; apply Qfloor_Z).
  rewrite F.
  assert (C : Qcompare (s - inject_Z z) (1 # 2) = Lt).
  { apply (proj1 (Qlt_alt _ _)). rewrite E. ring_simplify. reflexivity. }
  rewrite C. reflexivity.
Qed.

Lemma roundHalfEven_floor (s : Q) :
  (Qfloor s <= roundHalfEven s <= Qfloor s + 1)%Z.
Proof.
  unfold roundHalfEven.
  destruct (Qcompare _ _); [destruct (Z.even _) | |]; lia.
Qed.

Lemma roundHalfEven_ge (s : Q) (n : Z) : inject_Z n <= s -> (n <= roundHalfEven s)%Z.
Proof.
  intros H. pose proof (roundHalfEven_floor s) as [Hf _].
  apply Qfloor_resp_le in H. rewrite Qfloor_Z in H. lia.
Qed.

Lemma roundHalfEven_le (s : Q) (n : Z) : s <= inject_Z n -> (roundHalfEven s <= n)%Z.
Proof.
  intros H. pose proof (roundHalfEven_floor s) as [_ Hf].
  pose proof (Qfloor_resp_le _ _ H) as Hfl. rewrite Qfloor_Z in Hfl.
  destruct (Z.eq_dec (Qfloor s) n) as [E | NE]; [| lia].
  assert (Es : s == inject_Z n).
  { apply Qle_antisym; [exact H |]. rewrite <- E. apply Qfloor_le. }
  rewrite (roundHalfEven_exact s n Es). lia.
Qed.

Section Rounding.
Variable prec : Z.
Hypothesis prec_pos : (1 <= prec)%Z.

Lemma scaled_range (q : Q) :
  0 < q ->
  inject_Z (2 ^ (prec - 1)) <= q / 2 ^ (ilog2 q - (prec - 1)) /\
  q / 2 ^ (ilog2 q - (prec - 1)) < inject_Z (2 ^ prec).
Proof.
  intros Hq. destruct (ilog2_spec q Hq) as [H1 H2].
  set (k := ilog2 q) in *. set (e := (k - (prec - 1))%Z).
  pose proof (two_pow_pos e) as Pe.
  rewrite !two_pow_Z by lia.
  assert (E1 : 2 ^ k == 2 ^ (prec - 1) * 2 ^ e).
  { rewrite <- Qpower_plus by discriminate. unfold e.
    replace (prec - 1 + (k - (prec - 1)))%Z with k by ring. reflexivity. }
  assert (E2 : 2 ^ (k + 1) == 2 ^ prec * 2 ^ e).
  { rewrite <- Qpower_plus by discriminate. unfold e.
    replace (prec + (k - (prec - 1)))%Z with (k + 1)%Z by ring. reflexivity. }
  rewrite E1 in H1. rewrite E2 in H2.
  split.
  - apply Qle_shift_div_l; [exact Pe | exact H1].
  - apply Qlt_shift_div_r; [exact Pe | exact H2].
Qed.

Lemma roundMagnitude_bounds (q : Q) :
  0 < q ->
  2 ^ ilog2 q <= roundMagnitude prec q <= 2 ^ (ilog2 q + 1).
Proof.
  intros Hq. destruct (scaled_range q Hq) as [H1 H2].
  unfold roundMagnitude.
  set (k := ilog2 q) in *. set (e := (k - (prec - 1))%Z) in *.
  set (s := q / 2 ^ e) in *.
  pose proof (two_pow_pos e) as Pe.
  pose proof (roundHalfEven_ge s _ H1) as G.
  pose proof (roundHalfEven_le s _ (Qlt_le_weak _ _ H2)) as L.
  rewrite Zle_Qle in G, L. rewrite two_pow_Z in G, L by lia.
  assert (E1 : 2 ^ k == 2 ^ (prec - 1) * 2 ^ e).
  { rewrite <- Qpower_plus by discriminate. unfold e.
    replace (prec - 1 + (k - (prec - 1)))%Z with k by ring. reflexivity. }
  assert (E2 : 2 ^ (k + 1) == 2 ^ prec * 2 ^ e).
  { rewrite <- Qpower_plus by discriminate. unfold e.
    replace (prec + (k - (prec - 1)))%Z with (k + 1)%Z by ring. reflexivity. }
  rewrite E1, E2. split; apply Qmult_le_compat_r; auto using Qlt_le_weak.
Qed.

Lemma roundMagnitude_exact (q : Q) (z : Z) :
  q / 2 ^ (ilog2 q - (prec - 1)) == inject_Z z -> roundMagnitude prec q == q.
Proof.
  intros E. unfold roundMagnitude.
  rewrite (roundHalfEven_exact _ _ E), <- E. field.
  apply Qpower_not_0. discriminate.
Qed.

Lemma roundToPrecision_proper (q q' : Q) :
  q == q' -> roundToPrecision prec q = roundToPrecision prec q'.
Proof.
  intros E. unfold roundToPrecision. rewrite (Qred_complete _ _ E). reflexivity.
Qed.

Lemma roundToPrecision_0 : roundToPrecision prec 0 = 0.
Proof. reflexivity. Qed.

Lemma roundToPrecision_pos (q : Q) :
  0 < q -> roundToPrecision prec q = Qred (roundMagnitude prec (Qred q)).
Proof.
  intros Hq. unfold roundToPrecision.
  assert (C : Qcompare (Qred q) 0 = Gt).
  { apply (proj1 (Qgt_alt _ _)). rewrite Qred_correct. exact Hq. }
  rewrite C. reflexivity.
Qed.

Lemma roundToPrecision_neg (q : Q) :
  q < 0 -> roundToPrecision prec q = - roundToPrecision prec (- q).
Proof.
  intros Hq. unfold roundToPrecision.
  assert (C : Qcompare (Qred q) 0 = Lt).
  { apply (proj1 (Qlt_alt _ _)). rewrite Qred_correct. exact Hq. }
  assert (C' : Qcompare (Qred (- q)) 0 = Gt).
  { apply (proj1 (Qgt_alt _ _)). rewrite Qred_correct. lra. }
  rewrite C, C', !Qred_opp. reflexivity.
Qed.

Lemma roundToPrecision_opp (q : Q) :
  roundToPrecision prec (- q) = - roundToPrecision prec q.
Proof.
  destruct (Q_dec q 0) as [[H | H] | H].
  - rewrite (roundToPrecision_neg q H).
    destruct (roundToPrecision prec (- q)) as [[| p | p] d]; reflexivity.
  - rewrite (roundToPrecision_neg (- q)) by lra.
    rewrite (roundToPrecision_proper (- - q) q) by ring. reflexivity.
  - rewrite (roundToPrecision_proper (- q) 0) by (rewrite H; reflexivity).
    rewrite (roundToPrecision_proper q 0 H). reflexivity.
Qed.
End Rounding.

Lemma Qred_inject_Z (z : Z) : Qred (inject_Z z) = inject_Z z.
Proof.
  unfold Qred, inject_Z.
  pose proof (Z.ggcd_gcd z 1) as Hg.
  pose proof (Z.ggcd_correct_divisors z 1) as Hd.
  destruct (Z.ggcd z 1) as [g [a b]]. simpl in Hg, Hd.
  rewrite Z.gcd_1_r in Hg. subst g. destruct Hd as [Ha Hb].
  assert (Ea : a = z) by lia. assert (Eb : b = 1%Z) by lia.
  rewrite Ea, Eb. reflexivity.
Qed.

Lemma isWhole_spec (q : Q) : isWhole q = true <-> exists z, q == inject_Z z.
Proof.
  unfold isWhole. split.
  - intros H. apply Z.eqb_eq in H. exists (Qnum (Qred q)).
    rewrite <- (Qred_correct q) at 1. destruct (Qred q) as [a d]. simpl in *.
    injection H as ->. reflexivity.
  - intros [z E]. rewrite (Qred_complete _ _ E), Qred_inject_Z. reflexivity.
Qed.

Section RoundingFacts.
Variable prec : Z.
Hypothesis prec_pos : (1 <= prec)%Z.

(** A positive rational not above a power of two is rounded to a positive
    value not above that power. *)
Lemma roundToPrecision_le_pow2 (q : Q) (j : Z) :
  0 < q -> q <= 2 ^ j ->
  0 < roundToPrecision prec q /\ roundToPrecision prec q <= 2 ^ j.
Proof.
  intros Hq Hj. rewrite (roundToPrecision_pos prec q Hq), Qred_correct.
  assert (Hr : 0 < Qred q) by (rewrite Qred_correct; exact Hq).
  assert (Hrj : Qred q <= 2 ^ j) by (rewrite Qred_correct; exact Hj).
  set (r := Qred q) in *.
  destruct (roundMagnitude_bounds prec prec_pos r Hr) as [B1 B2].
  destruct (ilog2_spec r Hr) as [S1 S2].
  pose proof (two_pow_pos (ilog2 r)) as Pk.
  split; [lra |].
  assert (Hk : (ilog2 r <= j)%Z).
  { apply (Qpower_le_compat_l_inv 2); [lra | reflexivity]. }
  destruct (Z.eq_dec (ilog2 r) j) as [E | NE].
  - assert (Er : r == 2 ^ j) by (apply Qle_antisym; [exact Hrj | rewrite <- E; exact S1]).
    rewrite (roundMagnitude_exact prec r (2 ^ (prec - 1))); [exact Hrj |].
    rewrite two_pow_Z by lia. rewrite Er at 1. rewrite E.
    rewrite <- Qpower_minus by discriminate.
    replace (j - (j - (prec - 1)))%Z with (prec - 1)%Z by ring. reflexivity.
  - apply (Qle_trans _ _ _ B2). apply Qpower_le_compat_l; [lia | discriminate].
Qed.

(** Whole numbers of magnitude below [2^prec] are representable. *)
Lemma roundToPrecision_small_pos (z : Z) :
  (0 < z < 2 ^ prec)%Z -> roundToPrecision prec (inject_Z z) = inject_Z z.
Proof.
  intros Hz.
  assert (Hq : 0 < inject_Z z) by (rewrite Zlt_Qlt in Hz; apply Hz).
  rewrite (roundToPrecision_pos prec _ Hq), Qred_inject_Z.
  rewrite <- (Qred_inject_Z z) at 2. apply Qred_complete.
  destruct (ilog2_spec _ Hq) as [S1 S2].
  set (k := ilog2 (inject_Z z)) in *.
  assert (Hk : (k < prec)%Z).
  { apply (Qpower_lt_compat_l_inv 2); [| reflexivity].
    apply (Qle_lt_trans _ _ _ S1). rewrite <- two_pow_Z by lia.
    rewrite <- Zlt_Qlt. lia. }
  apply (roundMagnitude_exact prec _ (z * 2 ^ (prec - 1 - k))).
  fold k. rewrite inject_Z_mult, two_pow_Z by lia.
  replace (k - (prec - 1))%Z with (- (prec - 1 - k))%Z by ring.
  rewrite Qpower_opp. field. apply Qpower_not_0. discriminate.
Qed.

Lemma roundToPrecision_small (z : Z) :
  (Z.abs z < 2 ^ prec)%Z -> roundToPrecision prec (inject_Z z) = inject_Z z.
Proof.
  intros Hz. destruct (Z.lt_trichotomy z 0) as [H | [-> | H]].
  - rewrite <- (Z.opp_involutive z) at 1. rewrite inject_Z_opp.
    rewrite roundToPrecision_opp by exact prec_pos.
    rewrite roundToPrecision_small_pos by lia.
    rewrite <- inject_Z_opp, Z.opp_involutive. reflexivity.
  - reflexivity.
  - apply roundToPrecision_small_pos. lia.
Qed.

(** Rounding a whole number gives a whole number. *)
Lemma roundToPrecision_whole (q : Q) :
  isWhole q = true -> isWhole (roundToPrecision prec q) = true.
Proof.
  assert (Hpos : forall z, (0 < z)%Z ->
            isWhole (roundToPrecision prec (inject_Z z)) = true).
  { intros z Hz.
    assert (Hq : 0 < inject_Z z) by (rewrite Zlt_Qlt in Hz; apply Hz).
    destruct (Z.lt_ge_cases z (2 ^ prec)) as [Hs | Hb].
    - rewrite roundToPrecision_small_pos by lia.
      apply isWhole_spec. exists z. reflexivity.
    - rewrite (roundToPrecision_pos prec _ Hq), Qred_inject_Z.
      destruct (ilog2_spec _ Hq) as [S1 S2].
      set (k := ilog2 (inject_Z z)) in *.
      assert (Hk : (prec <= k)%Z).
      { assert (K : (prec < k + 1)%Z); [| lia].
        apply (Qpower_lt_compat_l_inv 2); [| reflexivity].
        apply (Qle_lt_trans _ (inject_Z z)); [| exact S2].
        rewrite <- two_pow_Z by lia. rewrite <- Zle_Qle. exact Hb. }
      apply isWhole_spec. unfold roundMagnitude. fold k.
      exists (roundHalfEven (inject_Z z / 2 ^ (k - (prec - 1)))
              * 2 ^ (k - (prec - 1)))%Z.
      rewrite Qred_correct, inject_Z_mult, two_pow_Z by lia. reflexivity. }
  intros H. apply isWhole_spec in H. destruct H as [z E].
  rewrite (roundToPrecision_proper prec _ _ E).
  destruct (Z.lt_trichotomy z 0) as [H | [-> | H]].
  - rewrite <- (Z.opp_involutive z), inject_Z_opp.
    rewrite roundToPrecision_opp by exact prec_pos.
    specialize (Hpos (- z)%Z ltac:(lia)).
    apply isWhole_spec in Hpos. destruct Hpos as [z' E'].
    apply isWhole_spec. exists (- z')%Z. rewrite E', inject_Z_opp. reflexivity.
  - reflexivity.
  - apply Hpos. exact H.
Qed.
End RoundingFacts.

(** *** The arithmetic of weights on whole numbers *)

Lemma roundToFloat_proper (q q' : Q) : q == q' -> roundToFloat q = roundToFloat q'.
Proof. apply roundToPrecision_proper. Qed.

Lemma isWhole_inject_Z (z : Z) : isWhole (inject_Z z) = true.
Proof. apply isWhole_spec. exists z. reflexivity. Qed.

Lemma isWhole_plus (a b : Q) :
  isWhole a = true -> isWhole b = true -> isWhole (a + b) = true.
Proof.
  rewrite !isWhole_spec. intros [x Ex] [y Ey]. exists (x + y)%Z.
  rewrite Ex, Ey, inject_Z_plus. reflexivity.
Qed.

Lemma isWhole_minus (a b : Q) :
  isWhole a = true -> isWhole b = true -> isWhole (a - b) = true.
Proof.
  rewrite !isWhole_spec. intros [x Ex] [y Ey]. exists (x - y)%Z.
  rewrite Ex, Ey. unfold Z.sub. rewrite inject_Z_plus, inject_Z_opp. reflexivity.
Qed.

Lemma w_add_whole (a b : weight_t) :
  isWhole a = true -> isWhole b = true -> isWhole (w_add a b) = true.
Proof.
  intros Ha Hb. apply roundToPrecision_whole; [lia |].
  apply isWhole_plus; assumption.
Qed.

Lemma w_sub_whole (a b : weight_t) :
  isWhole a = true -> isWhole b = true -> isWhole (w_sub a b) = true.
Proof.
  intros Ha Hb. apply roundToPrecision_whole; [lia |].
  apply isWhole_minus; assumption.
Qed.

(** A whole number of magnitude below [2^24] is a [float]. *)
Lemma roundToFloat_exact (q : Q) :
  isWhole q = true -> - (16777216) < q -> q < 16777216 -> roundToFloat q == q.
Proof.
  intros Hw Hlo Hhi. apply isWhole_spec in Hw. destruct Hw as [z E].
  rewrite (roundToFloat_proper _ _ E). unfold roundToFloat.
  rewrite roundToPrecision_small; [symmetry; exact E | lia |].
  rewrite E in Hlo, Hhi.
  change (- (16777216)) with (inject_Z (- 16777216)) in Hlo.
  change 16777216 with (inject_Z 16777216) in Hhi.
  rewrite <- Zlt_Qlt in Hlo, Hhi. change (2 ^ 24)%Z with 16777216%Z. lia.
Qed.

Lemma w_add_exact (a b : weight_t) :
  isWhole a = true -> isWhole b = true ->
  - (16777216) < a + b -> a + b < 16777216 -> w_add a b == a + b.
Proof.
  intros Ha Hb. apply roundToFloat_exact. apply isWhole_plus; assumption.
Qed.

Lemma w_sub_exact (a b : weight_t) :
  isWhole a = true -> isWhole b = true ->
  - (16777216) < a - b -> a - b < 16777216 -> w_sub a b == a - b.
Proof.
  intros Ha Hb. apply roundToFloat_exact. apply isWhole_minus; assumption.
Qed.

(** ** Reflection of the weight comparisons *)

Lemma w_le_true a b : w_le a b = true <-> a <= b.
Proof. apply Qle_bool_iff. Qed.

Lemma w_le_false a b : w_le a b = false <-> b < a.
Proof.
  unfold w_le. rewrite <- not_true_iff_false, Qle_bool_iff.
  split; [apply Qnot_le_lt | apply Qlt_not_le].
Qed.

Lemma w_ge_true a b : w_ge a b = true <-> b <= a.
Proof. apply Qle_bool_iff. Qed.

Lemma w_ge_false a b : w_ge a b = false <-> a < b.
Proof. apply w_le_false. Qed.

Lemma w_lt_true a b : w_lt a b = true <-> a < b.
Proof. unfold w_lt. rewrite negb_true_iff. apply w_le_false. Qed.

Lemma w_lt_false a b : w_lt a b = false <-> b <= a.
Proof. unfold w_lt. rewrite negb_false_iff. apply Qle_bool_iff. Qed.

Lemma w_gt_true a b : w_gt a b = true <-> b < a.
Proof. unfold w_gt. rewrite negb_true_iff. apply w_le_false. Qed.

Lemma w_gt_false a b : w_gt a b = false <-> a <= b.
Proof. unfold w_gt. rewrite negb_false_iff. apply Qle_bool_iff. Qed.

Lemma w_eq_true a b : w_eq a b = true <-> a == b.
Proof. apply Qeq_bool_iff. Qed.

Lemma w_eq_false a b : w_eq a b = false <-> ~ a == b.
Proof.
  unfold w_eq. rewrite <- not_true_iff_false, Qeq_bool_iff. tauto.
Qed.

Lemma w_ne_true a b : w_ne a b = true <-> ~ a == b.
Proof. unfold w_ne. rewrite negb_true_iff. apply w_eq_false. Qed.

Lemma w_ne_false a b : w_ne a b = false <-> a == b.
Proof. unfold w_ne. rewrite negb_false_iff. apply Qeq_bool_iff. Qed.

(** Turns every boolean weight test among the hypotheses into the
    corresponding (in)equation on [Q]. *)
Ltac w_reflect :=
  repeat match goal with
  | H : _ && _ = true |- _ => apply andb_true_iff in H; destruct H
  | H : _ && _ = false |- _ => apply andb_false_iff in H; destruct H
  | H : w_le _ _ = true |- _ => apply w_le_true in H
  | H : w_le _ _ = false |- _ => apply w_le_false in H
  | H : w_ge _ _ = true |- _ => apply w_ge_true in H
  | H : w_ge _ _ = false |- _ => apply w_ge_false in H
  | H : w_lt _ _ = true |- _ => apply w_lt_true in H
  | H : w_lt _ _ = false |- _ => apply w_lt_false in H
  | H : w_gt _ _ = true |- _ => apply w_gt_true in H
  | H : w_gt _ _ = false |- _ => apply w_gt_false in H
  | H : w_eq _ _ = true |- _ => apply w_eq_true in H
  | H : w_eq _ _ = false |- _ => apply w_eq_false in H
  | H : w_ne _ _ = true |- _ => apply w_ne_true in H
  | H : w_ne _ _ = false |- _ => apply w_ne_false in H
  end.

(** ** EdgeRange *)


Ltac setter_cases :=
  repeat match goal with
  | |- context [if ?c then _ else _] => destruct c eqn:?
  end; simpl in *; w_reflect.

Lemma setEdgeWeightMinChecked_range e newWeight slop us :
  edge_range_ok e -> 0 <= newWeight ->
  edge_range_ok (setEdgeWeightMinChecked e newWeight slop us).1.2.
Proof.
  unfold edge_range_ok, setEdgeWeightMinChecked. intros [H0 H1] Hn.
  setter_cases; split; try lra.
Qed.

Lemma setEdgeWeightMaxChecked_range e newWeight slop us :
  edge_range_ok e -> 0 <= newWeight ->
  edge_range_ok (setEdgeWeightMaxChecked e newWeight slop us).1.2.
Proof.
  unfold edge_range_ok, setEdgeWeightMaxChecked. intros [H0 H1] Hn.
  setter_cases; split; try lra.
Qed.

Lemma setEdgeWeightMinChecked_post e newWeight slop us :
  edge_range_ok e ->
  (setEdgeWeightMinChecked e newWeight slop us).1.1 = true ->
  setter_post (setEdgeWeightMinChecked e newWeight slop us).1.2 newWeight.
Proof.
  unfold edge_range_ok, setter_post, setEdgeWeightMinChecked. intros [H0 H1].
  setter_cases; intros Hr; try discriminate; try (right; split; lra);
    try (left; assumption).
Qed.

Lemma setEdgeWeightMaxChecked_post e newWeight slop us :
  edge_range_ok e ->
  (setEdgeWeightMaxChecked e newWeight slop us).1.1 = true ->
  setter_post (setEdgeWeightMaxChecked e newWeight slop us).1.2 newWeight.
Proof.
  unfold edge_range_ok, setter_post, setEdgeWeightMaxChecked. intros [H0 H1].
  setter_cases; intros Hr; try discriminate; try (right; split; lra);
    try (left; assumption).
Qed.

(** C2.  On an edge whose range satisfies [0 <= min <= max], a call of
    [setEdgeWeightMinChecked] or of [setEdgeWeightMaxChecked] with a
    non-negative new weight and a non-negative slop leaves the range
    satisfying [0 <= min <= max], whatever it returns; and when the setter
    returns true, afterwards either [max == 0] or [min <= newWeight <= max]. *)
Theorem setEdgeWeightChecked_keeps_range
    (e : flowList) (newWeight slop : weight_t) (wbUsedSlop : bool) :
  edge_range_ok e -> 0 <= newWeight -> 0 <= slop ->
  let rmin := setEdgeWeightMinChecked e newWeight slop wbUsedSlop in
  let rmax := setEdgeWeightMaxChecked e newWeight slop wbUsedSlop in
  edge_range_ok rmin.1.2 /\
  edge_range_ok rmax.1.2 /\
  (rmin.1.1 = true -> setter_post rmin.1.2 newWeight) /\
  (rmax.1.1 = true -> setter_post rmax.1.2 newWeight).
Proof.
  intros He Hn _. cbv zeta. repeat split.
  - apply setEdgeWeightMinChecked_range; assumption.
  - apply setEdgeWeightMinChecked_range; assumption.
  - apply setEdgeWeightMaxChecked_range; assumption.
  - apply setEdgeWeightMaxChecked_range; assumption.
  - apply setEdgeWeightMinChecked_post; assumption.
  - apply setEdgeWeightMaxChecked_post; assumption.
Qed.

Lemma setEdgeWeightChecked_keeps_range_witness :
  let e := mkFlowList 0 10 20 1 in
  edge_range_ok e /\ 0 <= 25 /\ 0 <= 6 /\
  edge_range_ok (setEdgeWeightMinChecked e 25 6 false).1.2 /\
  edge_range_ok (setEdgeWeightMaxChecked e 25 6 false).1.2 /\
  ((setEdgeWeightMinChecked e 25 6 false).1.1 = true ->
   setter_post (setEdgeWeightMinChecked e 25 6 false).1.2 25) /\
  ((setEdgeWeightMaxChecked e 25 6 false).1.1 = true ->
   setter_post (setEdgeWeightMaxChecked e 25 6 false).1.2 25).
Proof.
  intros e.
  assert (He : edge_range_ok e) by (unfold edge_range_ok; simpl; split; lra).
  assert (Hn : 0 <= 25) by lra.
  assert (Hs : 0 <= 6) by lra.
  split; [exact He |]. split; [exact Hn |]. split; [exact Hs |].
  exact (setEdgeWeightChecked_keeps_range e 25 6 false He Hn Hs).
Defined.

(** ** ProfileData *)


Lemma scanPgoSchema_find data schema offset :
  scanPgoSchema data schema offset =
  match firstBlockCountEntry schema offset with
  | Some e => Some (w_of_unsigned (read_uint32 data (Offset e)))
  | None => None
  end.
Proof.
  unfold firstBlockCountEntry.
  induction schema as [| e rest IH]; simpl; [reflexivity |].
  destruct (is_BasicBlockIntCount (InstrumentationKind e)
            && (u32 (ILOffset e) =? offset)%Z); [reflexivity | exact IH].
Qed.

Lemma fgHaveProfileData_iff c :
  fgHaveProfileData c = true <->
  (exists s, fgPgoSchema c = Some s) /\ compIsForImportOnly c = false.
Proof.
  unfold fgHaveProfileData.
  destruct (compIsForImportOnly c), (fgPgoSchema c) as [s |]; split.
  all: try (intros H; discriminate H).
  all: try (intros [_ H]; discriminate H).
  all: try (intros [[s' H] _]; discriminate H).
  - intros _. split; [exists s |]; reflexivity.
  - reflexivity.
Qed.

(** A counter below [2^24] is converted to a weight without rounding. *)
Lemma w_of_unsigned_exact (n : Z) :
  (0 <= n < 2 ^ 24)%Z -> w_of_unsigned n = inject_Z n.
Proof.
  intros Hn. unfold w_of_unsigned, roundToFloat.
  apply roundToPrecision_small; lia.
Qed.

(** C3.  With the stress seed zero: when profile data is available (a
    schema is present and the compilation is not import-only) the lookup
    returns true at every offset, with the 32-bit counter read at the
    buffer offset of the first [BasicBlockIntCount] entry for that IL
    offset, converted to [weight_t] (the counter itself when it is below
    [2^24], the nearest [float] in general), and with weight 0 when there
    is no such entry; it returns false exactly when no profile data is
    available. *)
Theorem fgGetProfileWeightForBasicBlock_present_but_silent
    (c : Compiler) (offset : Z) :
  fgStressBBProf c = 0%Z ->
  (forall schema,
     fgPgoSchema c = Some schema -> compIsForImportOnly c = false ->
     fgGetProfileWeightForBasicBlock c offset =
     Some (match firstBlockCountEntry schema offset with
           | Some e => w_of_unsigned (read_uint32 (fgPgoData c) (Offset e))
           | None => 0
           end) /\
     (forall e, firstBlockCountEntry schema offset = Some e ->
        (read_uint32 (fgPgoData c) (Offset e) < 2 ^ 24)%Z ->
        fgGetProfileWeightForBasicBlock c offset =
        Some (inject_Z (read_uint32 (fgPgoData c) (Offset e))))) /\
  (fgGetProfileWeightForBasicBlock c offset = None <->
   fgHaveProfileData c = false).
Proof.
  intros Hseed. unfold fgGetProfileWeightForBasicBlock. rewrite Hseed. simpl.
  split.
  - intros schema Hs Hi.
    assert (Hd : fgHaveProfileData c = true).
    { apply fgHaveProfileData_iff. split; [exists schema |]; assumption. }
    rewrite Hd, Hs, scanPgoSchema_find. simpl.
    split.
    + destruct (firstBlockCountEntry schema offset); reflexivity.
    + intros e He Hsmall. rewrite He, w_of_unsigned_exact; [reflexivity |].
      split; [| exact Hsmall].
      unfold read_uint32, pgo_byte.
      repeat (apply Z.lor_nonneg; split);
        try apply Z.shiftl_nonneg;
        destruct (fgPgoData c !! _); try apply N2Z.is_nonneg; lia.
  - destruct (fgHaveProfileData c); simpl.
    + split; [| discriminate].
      destruct (scanPgoSchema _ _ _); discriminate.
    + split; reflexivity.
Qed.

Lemma fgGetProfileWeightForBasicBlock_present_but_silent_witness :
  let c := compilerWithData false 0 0 (Some mixedSchema) mixedData
             noInlineInfo in
  fgStressBBProf c = 0%Z /\
  fgGetProfileWeightForBasicBlock c 5 = Some (inject_Z 16777216) /\
  fgGetProfileWeightForBasicBlock c 9 = Some (inject_Z 257) /\
  fgGetProfileWeightForBasicBlock c 7 = Some 0.
Proof.
  intros c.
  assert (Hs : fgStressBBProf c = 0%Z) by reflexivity.
  split; [exact Hs |].
  split; [| split].
  - exact (proj1 (proj1 (fgGetProfileWeightForBasicBlock_present_but_silent c 5 Hs)
                    mixedSchema eq_refl eq_refl)).
  - exact (proj2 (proj1 (fgGetProfileWeightForBasicBlock_present_but_silent c 9 Hs)
                    mixedSchema eq_refl eq_refl)
             (mkSchema 8 BasicBlockIntCount 9 1 0) eq_refl eq_refl).
  - exact (proj1 (proj1 (fgGetProfileWeightForBasicBlock_present_but_silent c 7 Hs)
                    mixedSchema eq_refl eq_refl)).
Defined.

(** ** StressSource *)

Lemma Zeqb_cases (a b : Z) :
  ((a =? b)%Z = true /\ a = b) \/ ((a =? b)%Z = false /\ a <> b).
Proof. destruct (Z.eqb_spec a b); [left | right]; split; auto. Qed.

(** Products and sums of small whole numbers are computed without
    rounding. *)
Lemma w_mul_small (a b : Z) :
  (Z.abs (a * b) < 2 ^ 24)%Z -> w_mul (inject_Z a) (inject_Z b) = inject_Z (a * b).
Proof.
  intros H. unfold w_mul.
  rewrite (roundToFloat_proper _ (inject_Z (a * b)))
    by (rewrite inject_Z_mult; reflexivity).
  apply roundToPrecision_small; [lia | exact H].
Qed.

Lemma w_add_small (a b : Z) :
  (Z.abs (a + b) < 2 ^ 24)%Z -> w_add (inject_Z a) (inject_Z b) = inject_Z (a + b).
Proof.
  intros H. unfold w_add.
  rewrite (roundToFloat_proper _ (inject_Z (a + b)))
    by (rewrite inject_Z_plus; reflexivity).
  apply roundToPrecision_small; [lia | exact H].
Qed.

Lemma stressWeight_exact methodHash hashSeed offset :
  let hash := Z.lxor (u32 (methodHash * hashSeed)) (u32 (offset * 1027)) in
  stressWeight methodHash hashSeed offset =
  let weight :=
    if (hash mod 3 =? 0)%Z then 0
    else if (hash mod 11 =? 0)%Z then
      inject_Z ((hash mod 23) * (hash mod 29) * (hash mod 31))
    else inject_Z ((hash mod 17) * (hash mod 19)) in
  if (offset =? 0)%Z && w_eq weight 0 then inject_Z (1 + hash mod 5)
  else weight.
Proof.
  intros hash. unfold stressWeight. fold hash.
  pose proof (Z.mod_pos_bound hash 23 ltac:(lia)) as B23.
  pose proof (Z.mod_pos_bound hash 29 ltac:(lia)) as B29.
  pose proof (Z.mod_pos_bound hash 31 ltac:(lia)) as B31.
  pose proof (Z.mod_pos_bound hash 17 ltac:(lia)) as B17.
  pose proof (Z.mod_pos_bound hash 19 ltac:(lia)) as B19.
  pose proof (Z.mod_pos_bound hash 5 ltac:(lia)) as B5.
  change (2 ^ 24)%Z with 16777216%Z in *.
  rewrite !w_of_unsigned_exact by (change (2 ^ 24)%Z with 16777216%Z; lia).
  assert (P2 : (0 <= (hash mod 23) * (hash mod 29) <= 616)%Z) by nia.
  rewrite (w_mul_small (hash mod 23) (hash mod 29))
    by (change (2 ^ 24)%Z with 16777216%Z; lia).
  rewrite (w_mul_small (hash mod 23 * (hash mod 29)) (hash mod 31))
    by (change (2 ^ 24)%Z with 16777216%Z; nia).
  rewrite (w_mul_small (hash mod 17) (hash mod 19))
    by (change (2 ^ 24)%Z with 16777216%Z; nia).
  change (w_add 1 (inject_Z (hash mod 5)))
    with (w_add (inject_Z 1) (inject_Z (hash mod 5))).
  rewrite (w_add_small 1 (hash mod 5))
    by (change (2 ^ 24)%Z with 16777216%Z; lia).
  reflexivity.
Qed.

Lemma stressWeight_spec methodHash hashSeed offset :
  stress_weight_spec
    (Z.lxor (u32 (methodHash * hashSeed)) (u32 (offset * 1027))) offset
    (stressWeight methodHash hashSeed offset).
Proof.
  rewrite stressWeight_exact. unfold stress_weight_spec.
  set (hash := Z.lxor _ _). cbv zeta.
  assert (Hz : forall z : Z, w_eq (inject_Z z) 0 = true <-> z = 0%Z).
  { intros z. rewrite w_eq_true. unfold Qeq, inject_Z. simpl. lia. }
  assert (Hz' : forall z : Z, w_eq (inject_Z z) 0 = false <-> z <> 0%Z).
  { intros z. rewrite <- Hz. destruct (w_eq (inject_Z z) 0); split;
      congruence. }
  destruct (Zeqb_cases (hash mod 3) 0) as [[E3 P3] | [E3 P3]]; rewrite E3.
  - exists 0%Z. split; [repeat split; intros; try reflexivity; contradiction |].
    change (w_eq 0 0) with true. rewrite andb_true_r.
    destruct (Zeqb_cases offset 0) as [[E0 P0] | [E0 P0]]; rewrite E0.
    + split; [intros _; reflexivity |].
      intros H; exfalso; apply H; split; [assumption | reflexivity].
    + split; [intros [H _]; contradiction | intros _; reflexivity].
  - destruct (Zeqb_cases (hash mod 11) 0) as [[E11 P11] | [E11 P11]];
      rewrite E11.
    + exists ((hash mod 23) * (hash mod 29) * (hash mod 31))%Z.
      split; [repeat split; intros; try reflexivity; contradiction |].
      destruct (Zeqb_cases offset 0) as [[E0 P0] | [E0 P0]]; rewrite E0; simpl.
      * destruct (w_eq (inject_Z _) 0) eqn:Ew.
        -- apply Hz in Ew. split.
           ++ intros _. reflexivity.
           ++ intros H. exfalso. apply H. split; assumption.
        -- apply Hz' in Ew. split.
           ++ intros [_ H]. contradiction.
           ++ intros _. reflexivity.
      * split; [intros [H _]; contradiction | intros _; reflexivity].
    + exists ((hash mod 17) * (hash mod 19))%Z.
      split; [repeat split; intros; try reflexivity; contradiction |].
      destruct (Zeqb_cases offset 0) as [[E0 P0] | [E0 P0]]; rewrite E0; simpl.
      * destruct (w_eq (inject_Z _) 0) eqn:Ew.
        -- apply Hz in Ew. split.
           ++ intros _. reflexivity.
           ++ intros H. exfalso. apply H. split; assumption.
        -- apply Hz' in Ew. split.
           ++ intros [_ H]. contradiction.
           ++ intros _. reflexivity.
      * split; [intros [H _]; contradiction | intros _; reflexivity].
Qed.

(** C9.  With a non-zero stress seed the lookup returns true with a weight
    that depends on (method hash, seed, IL offset) only: for
    [hash = (methodHash * seed) ^ (ilOffset * 1027)] in unsigned 32-bit
    arithmetic it is 0 when [hash % 3 == 0], the three-factor product when
    [hash % 11 == 0], the two-factor product otherwise, and at offset 0 a
    zero is replaced by [1 + hash % 5]; and the answer is the same for any
    other compilation with that hash and seed, whatever its profile data. *)
Theorem fgGetProfileWeightForBasicBlock_stress (c : Compiler) (offset : Z) :
  fgStressBBProf c <> 0%Z ->
  (exists w,
     fgGetProfileWeightForBasicBlock c offset = Some w /\
     stress_weight_spec
       (Z.lxor (u32 (compMethodHash c * fgStressBBProf c)) (u32 (offset * 1027)))
       offset w) /\
  (forall c' : Compiler,
     compMethodHash c' = compMethodHash c ->
     fgStressBBProf c' = fgStressBBProf c ->
     fgGetProfileWeightForBasicBlock c' offset =
     fgGetProfileWeightForBasicBlock c offset).
Proof.
  intros Hseed.
  assert (He : (fgStressBBProf c =? 0)%Z = false) by (apply Z.eqb_neq; exact Hseed).
  split.
  - exists (stressWeight (compMethodHash c) (fgStressBBProf c) offset).
    unfold fgGetProfileWeightForBasicBlock. rewrite He. simpl.
    split; [reflexivity | apply stressWeight_spec].
  - intros c' Hh Hs. unfold fgGetProfileWeightForBasicBlock.
    rewrite Hs, Hh, He. reflexivity.
Qed.

Lemma fgGetProfileWeightForBasicBlock_stress_witness :
  let c := compilerWithData false 7 12345 (Some twoCounterSchema)
             twoCounterData noInlineInfo in
  let c' := compilerWithData true 7 12345 None [] noInlineInfo in
  fgStressBBProf c <> 0%Z /\
  (exists w, fgGetProfileWeightForBasicBlock c 5 = Some w /\
     stress_weight_spec (Z.lxor (u32 (12345 * 7)) (u32 (5 * 1027))) 5 w) /\
  fgGetProfileWeightForBasicBlock c' 5 = fgGetProfileWeightForBasicBlock c 5.
Proof.
  intros c c'.
  assert (Hs : fgStressBBProf c <> 0%Z) by (simpl; lia).
  split; [exact Hs |].
  split.
  - exact (proj1 (fgGetProfileWeightForBasicBlock_stress c 5 Hs)).
  - exact (proj2 (fgGetProfileWeightForBasicBlock_stress c 5 Hs) c'
             eq_refl eq_refl).
Defined.

(** ** Inlinee profile scale *)




(** The factor of that inlinee, 3 / 7 in [double]. *)
Lemma inlineeAtWeight3_factor :
  profileScaleFactor (impInlineInfo (fgComputeProfileScale inlineeAtWeight3))
  = 7720456504063707 # 18014398509481984.
Proof. vm_compute. reflexivity. Qed.

(** A callee count just below the call site weight is rounded up to it by
    the conversion to [float]: the scale is known, and is 1. *)
Lemma inlineeAtRoundedCount_known :
  let info' := impInlineInfo (fgComputeProfileScale inlineeAtRoundedCount) in
  fgGetProfileWeightForBasicBlock inlineeAtRoundedCount 0
  = Some (inject_Z 16777220) /\
  profileScaleState info' = KNOWN /\ profileScaleFactor info' = 1.
Proof. vm_compute. repeat split; reflexivity. Qed.

(** ** WeightPropagator and called count *)

(** The skip over the internal blocks ends at the first block that is not
    internal. *)
Lemma firstILBlockOf_first (blocks : list BasicBlock) (k : nat) (b : BasicBlock) :
  isFirstILBlock blocks k b -> firstILBlockOf blocks = Some b.
Proof.
  revert k. induction blocks as [| b0 rest IH]; intros k (Hk & Hb & Hbefore).
  - discriminate Hk.
  - destruct k as [| k]; simpl.
    + injection Hk as ->. rewrite Hb. reflexivity.
    + rewrite (Hbefore 0%nat b0 ltac:(lia) eq_refl).
      apply (IH k). split; [exact Hk |]. split; [exact Hb |].
      intros j bj Hj Hbj. apply (Hbefore (S j) bj); [lia | exact Hbj].
Qed.

(** C8.  When profile weights are in use, [fgComputeCalledCount] sets
    [fgCalledCount] to the weight of the first non-internal block if that
    block has exactly one in-edge or the return-and-throw weight is zero,
    and to the return-and-throw weight otherwise; and if the first block
    is a scratch block, that block's weight is then [fgCalledCount], with
    the run-rarely flag set iff that weight is zero. *)
Theorem fgComputeCalledCount_spec
    (c : Compiler) (returnWeight : weight_t) (k : nat)
    (firstILBlock : BasicBlock) :
  fgIsUsingProfileWeights c = true ->
  isFirstILBlock (fgBBs c) k firstILBlock ->
  exists c',
    fgComputeCalledCount c returnWeight = Continue c' /\
    (countOfInEdges firstILBlock = 1%nat \/ returnWeight == 0 ->
     fgCalledCount c' = bbWeight firstILBlock) /\
    (countOfInEdges firstILBlock <> 1%nat -> ~ returnWeight == 0 ->
     fgCalledCount c' = returnWeight) /\
    (fgFirstBBisScratch c = true ->
     exists fgFirstBB',
       fgBBs c' !! 0%nat = Some fgFirstBB' /\
       bbWeight fgFirstBB' = fgCalledCount c' /\
       (BBF_RUN_RARELY (bbFlags fgFirstBB') = true <->
        bbWeight fgFirstBB' == 0)) /\
    (fgFirstBBisScratch c = false -> fgBBs c' = fgBBs c).
Proof.
  intros _ Hfirst. apply firstILBlockOf_first in Hfirst.
  unfold fgComputeCalledCount. rewrite Hfirst.
  set (calledCount :=
         if (countOfInEdges firstILBlock =? 1)%nat || w_eq returnWeight 0
         then bbWeight firstILBlock else returnWeight).
  assert (Hcc1 : countOfInEdges firstILBlock = 1%nat \/ returnWeight == 0 ->
                 calledCount = bbWeight firstILBlock).
  { intros H. unfold calledCount.
    destruct (Nat.eqb_spec (countOfInEdges firstILBlock) 1);
      [reflexivity |].
    destruct H as [H | H]; [contradiction |].
    apply w_eq_true in H. rewrite H. reflexivity. }
  assert (Hcc2 : countOfInEdges firstILBlock <> 1%nat -> ~ returnWeight == 0 ->
                 calledCount = returnWeight).
  { intros H1 H2. unfold calledCount.
    apply Nat.eqb_neq in H1. apply w_eq_false in H2. rewrite H1, H2.
    reflexivity. }
  simpl. destruct (fgFirstBBisScratch c) eqn:Hs.
  - destruct (fgBBs c) as [| b0 rest] eqn:Hb; [discriminate Hfirst |].
    simpl. eexists. split; [reflexivity |]. simpl.
    split; [exact Hcc1 |]. split; [exact Hcc2 |].
    split; [| discriminate]. intros _.
    eexists. split; [reflexivity |]. simpl. split; [reflexivity |].
    apply w_eq_true.
  - eexists. split; [reflexivity |]. simpl.
    split; [exact Hcc1 |]. split; [exact Hcc2 |].
    split; [discriminate | reflexivity].
Qed.

Lemma scratchFirst_firstILBlock :
  isFirstILBlock scratchFirstBlocks 1
    (mkBasicBlock 40 (plainFlags true) BBJ_COND (Some 1%nat) 0 2
                  [edgeFrom 0; edgeFrom 1] []).
Proof.
  split; [reflexivity |]. split; [reflexivity |].
  intros j bj Hj Hbj. assert (j = 0%nat) as -> by lia.
  injection Hbj as <-. reflexivity.
Qed.

Lemma fgComputeCalledCount_spec_witness :
  let c := scratchFirstCompiler in
  fgIsUsingProfileWeights c = true /\
  (exists firstILBlock,
     isFirstILBlock (fgBBs c) 1 firstILBlock /\
     exists c',
       fgComputeCalledCount c 7 = Continue c' /\
       (countOfInEdges firstILBlock = 1%nat \/ 7 == 0 ->
        fgCalledCount c' = bbWeight firstILBlock) /\
       (countOfInEdges firstILBlock <> 1%nat -> ~ 7 == 0 ->
        fgCalledCount c' = 7) /\
       (fgFirstBBisScratch c = true ->
        exists fgFirstBB',
          fgBBs c' !! 0%nat = Some fgFirstBB' /\
          bbWeight fgFirstBB' = fgCalledCount c' /\
          (BBF_RUN_RARELY (bbFlags fgFirstBB') = true <->
           bbWeight fgFirstBB' == 0)) /\
       (fgFirstBBisScratch c = false -> fgBBs c' = fgBBs c)).
Proof.
  intros c. split; [reflexivity |].
  eexists. split; [exact scratchFirst_firstILBlock |].
  exact (fgComputeCalledCount_spec c 7 1 _ eq_refl scratchFirst_firstILBlock).
Defined.

(** A property of the state that every step of a loop keeps holds of the
    state the loop ends in. *)
Lemma forEach_invariant {S : Type} (P : S -> Prop) (body : nat -> S -> Flow S)
    (idxs : list nat) :
  (forall i s s', P s -> flow_state (body i s) = Some s' -> P s') ->
  forall s s', P s -> flow_state (forEach body idxs s) = Some s' -> P s'.
Proof.
  intros Hstep. induction idxs as [| i rest IH]; simpl; intros s s' Hs Hr.
  - injection Hr as <-. exact Hs.
  - destruct (body i s) as [s1 | s1 |] eqn:Hb; simpl in Hr.
    + apply (IH s1); [| exact Hr]. apply (Hstep i s); [exact Hs |].
      rewrite Hb. reflexivity.
    + injection Hr as <-. apply (Hstep i s); [exact Hs |].
      rewrite Hb. reflexivity.
    + discriminate.
Qed.

Lemma fmap_insert_same {A B : Type} (f : A -> B) (l : list A) (i : nat) (x y : A) :
  l !! i = Some x -> f y = f x -> f <$> <[i := y]> l = f <$> l.
Proof.
  intros Hl Hf. rewrite list_fmap_insert, Hf.
  apply list_insert_id. rewrite list_lookup_fmap, Hl. reflexivity.
Qed.

Lemma fixupBlockWeight_flags i bDst st r :
  mw_blocks st !! i = Some bDst ->
  fixupBlockWeight i bDst st = r ->
  match r with
  | Continue st1 =>
      hasProfileWeight <$> mw_blocks st1 = hasProfileWeight <$> mw_blocks st
  | EarlyExit _ => False
  | Abort => True
  end.
Proof.
  intros Hi <-. unfold fixupBlockWeight.
  destruct (negb (hasProfileWeight bDst) && _); [| reflexivity].
  destruct (newWeightFromOnlyPred _ _ _ _) as [w1 | |]; try exact I.
  destruct (newWeightFromOnlyNext _ _ _ _) as [w2 | |]; try exact I.
  destruct (w_ne w2 BB_MAX_WEIGHT && w_ne (bbWeight bDst) w2);
    [| reflexivity].
  simpl. apply (fmap_insert_same _ _ _ bDst); [exact Hi | reflexivity].
Qed.

(** One step of the scan never touches a profile-weight flag. *)
Lemma missingWeightsBody_flags i st st' :
  flow_state (missingWeightsBody i st) = Some st' ->
  hasProfileWeight <$> mw_blocks st' = hasProfileWeight <$> mw_blocks st.
Proof.
  unfold missingWeightsBody.
  destruct (mw_blocks st !! i) as [bDst |] eqn:Hi; [| discriminate].
  pose proof (fixupBlockWeight_flags i bDst st _ Hi eq_refl) as Hfix.
  destruct (fixupBlockWeight i bDst st) as [st1 | st1 |];
    [| contradiction | discriminate].
  destruct (mw_blocks st1 !! i) as [bDst1 |]; [| discriminate].
  destruct (hasProfileWeight bDst1 && isReturnOrThrow bDst1);
    simpl; intros [= <-]; simpl; exact Hfix.
Qed.

Lemma missingWeightsScan_flags (blocks : list BasicBlock) idxs st0 st :
  hasProfileWeight <$> mw_blocks st0 = hasProfileWeight <$> blocks ->
  flow_state (forEach missingWeightsBody idxs st0) = Some st ->
  hasProfileWeight <$> mw_blocks st = hasProfileWeight <$> blocks.
Proof.
  intros H0 Hr.
  apply (forEach_invariant
           (fun s => hasProfileWeight <$> mw_blocks s = hasProfileWeight <$> blocks)
           missingWeightsBody idxs) with (s := st0); [| exact H0 | exact Hr].
  intros i s s' Hs Hb. cbn beta.
  rewrite (missingWeightsBody_flags i s s' Hb). exact Hs.
Qed.

Lemma missingWeightsLoop_flags fuel :
  forall iterations blocks modified st,
    flow_state (missingWeightsLoop fuel iterations blocks modified) = Some st ->
    hasProfileWeight <$> mw_blocks st = hasProfileWeight <$> blocks.
Proof.
  induction fuel as [| fuel IH]; simpl; intros iterations blocks modified st.
  - intros [= <-]. reflexivity.
  - destruct (forEach missingWeightsBody (blockIndices blocks) _)
      as [st1 | st1 |] eqn:Hscan; try discriminate.
    + assert (H1 : hasProfileWeight <$> mw_blocks st1 = hasProfileWeight <$> blocks).
      { apply (missingWeightsScan_flags blocks (blockIndices blocks)
                 (mkMissingWeightsState blocks false modified 0));
          [reflexivity | rewrite Hscan; reflexivity]. }
      destruct (mw_changed st1 && (S iterations <? 10)%nat).
      * intros Hr. rewrite (IH _ _ _ _ Hr). exact H1.
      * intros [= <-]. exact H1.
    + intros [= <-].
      apply (missingWeightsScan_flags blocks (blockIndices blocks)
               (mkMissingWeightsState blocks false modified 0));
        [reflexivity | rewrite Hscan; reflexivity].
Qed.

(** [fgComputeMissingBlockWeights] leaves every profile-weight flag as it
    found it. *)
Lemma fgComputeMissingBlockWeights_flags c c1 returnWeight :
  fgComputeMissingBlockWeights c = Continue (c1, returnWeight) ->
  hasProfileWeight <$> fgBBs c1 = hasProfileWeight <$> fgBBs c /\
  fgFirstBBisScratch c1 = fgFirstBBisScratch c.
Proof.
  unfold fgComputeMissingBlockWeights.
  destruct (missingWeightsLoop 10 0 (fgBBs c) false) as [st | st |] eqn:Hl;
    try discriminate.
  intros [= <- _]. simpl. split; [| reflexivity].
  apply (missingWeightsLoop_flags 10 0 (fgBBs c) false). rewrite Hl. reflexivity.
Qed.

Lemma fmap_eq_lookup {A B : Type} (f : A -> B) (l l' : list A) (i : nat) (x x' : A) :
  f <$> l' = f <$> l -> l !! i = Some x -> l' !! i = Some x' -> f x' = f x.
Proof.
  intros Hm Hl Hl'.
  assert (H : (f <$> l') !! i = (f <$> l) !! i) by (rewrite Hm; reflexivity).
  rewrite !list_lookup_fmap, Hl, Hl' in H. simpl in H. congruence.
Qed.

(** C5 (amended).  After [fgComputeMissingBlockWeights] and
    [fgComputeCalledCount], a block carries the profile-weight flag iff it
    carried it before (its weight was sourced from profile data) or it is
    the scratch first block, whose weight is assigned from the call count;
    the propagator assigns weights without ever setting the flag. *)
Theorem profile_flag_after_propagation
    (c c1 c2 : Compiler) (returnWeight : weight_t) :
  fgComputeMissingBlockWeights c = Continue (c1, returnWeight) ->
  fgComputeCalledCount c1 returnWeight = Continue c2 ->
  length (fgBBs c2) = length (fgBBs c) /\
  forall (i : nat) (b b2 : BasicBlock),
    fgBBs c !! i = Some b -> fgBBs c2 !! i = Some b2 ->
    (hasProfileWeight b2 = true <->
     (hasProfileWeight b = true \/ (i = 0%nat /\ fgFirstBBisScratch c = true))).
Proof.
  intros H1 H2.
  destruct (fgComputeMissingBlockWeights_flags _ _ _ H1) as [Hf Hs].
  assert (Hlen1 : length (fgBBs c1) = length (fgBBs c)).
  { rewrite <- (length_fmap hasProfileWeight (fgBBs c1)), Hf.
    apply length_fmap. }
  unfold fgComputeCalledCount in H2.
  destruct (firstILBlockOf (fgBBs c1)) as [firstILBlock |]; [| discriminate].
  simpl in H2. rewrite Hs in H2.
  destruct (fgFirstBBisScratch c) eqn:Hscr.
  - destruct (fgBBs c1 !! 0%nat) as [b0 |] eqn:H0; [| discriminate].
    injection H2 as <-. simpl. split.
    + rewrite length_insert. exact Hlen1.
    + intros i b b2 Hb Hb2. destruct i as [| i].
      * rewrite list_lookup_insert_eq in Hb2
          by (apply lookup_lt_Some in H0; exact H0).
        injection Hb2 as <-. simpl. split; [| reflexivity].
        intros _. right. split; reflexivity.
      * rewrite list_lookup_insert_ne in Hb2 by discriminate.
        rewrite (fmap_eq_lookup hasProfileWeight _ _ _ _ _ Hf Hb Hb2).
        split; [intros H; left; exact H |].
        intros [H | [H _]]; [exact H | discriminate].
  - injection H2 as <-. simpl. split; [exact Hlen1 |].
    intros i b b2 Hb Hb2.
    rewrite (fmap_eq_lookup hasProfileWeight _ _ _ _ _ Hf Hb Hb2).
    split; [intros H; left; exact H |].
    intros [H | [_ H]]; [exact H | discriminate].
Qed.

Lemma profile_flag_after_propagation_witness :
  let c := compilerOf propagationBlocks 100 in
  exists c1 c2 returnWeight,
    fgComputeMissingBlockWeights c = Continue (c1, returnWeight) /\
    fgComputeCalledCount c1 returnWeight = Continue c2 /\
    length (fgBBs c2) = length (fgBBs c) /\
    forall (i : nat) (b b2 : BasicBlock),
      fgBBs c !! i = Some b -> fgBBs c2 !! i = Some b2 ->
      (hasProfileWeight b2 = true <->
       (hasProfileWeight b = true \/ (i = 0%nat /\ fgFirstBBisScratch c = true))).
Proof.
  intros c. eexists. eexists. eexists.
  assert (H1 : fgComputeMissingBlockWeights c
               = Continue (set_fgBBs
                   [ entryBlockOf 100 true BBJ_NONE None 0 [];
                     assignPropagatedWeight 100
                       (blockOf 1 false BBJ_NONE None 5 [edgeFrom 0]);
                     blockOf 100 true BBJ_RETURN None 10 [edgeFrom 1] ] c,
                   0 + 100)) by (vm_compute; reflexivity).
  split; [exact H1 |].
  split; [reflexivity |].
  exact (profile_flag_after_propagation _ _ _ _ H1 eq_refl).
Defined.

(** C5 as stated fails: in the propagation scenario the propagator assigns
    weight 100 to the middle block, which stays without the flag. *)
Lemma profile_flag_not_set_by_propagator :
  exists c1 c2 returnWeight,
    fgComputeMissingBlockWeights (compilerOf propagationBlocks 100)
      = Continue (c1, returnWeight) /\
    fgComputeCalledCount c1 returnWeight = Continue c2 /\
    ~ profileFlagIffAssigned (compilerOf propagationBlocks 100) c1 c2.
Proof.
  eexists. eexists. eexists.
  split; [vm_compute; reflexivity |].
  split; [vm_compute; reflexivity |].
  intros H.
  specialize (H 1%nat _ eq_refl).
  assert (Hflag : false = true); [| discriminate Hflag].
  apply H. right. left.
  eexists. eexists. split; [reflexivity |]. split; [reflexivity |].
  simpl. intros Heq. vm_compute in Heq. discriminate Heq.
Qed.


(** ** Instrumenter *)

(** Induction over IR trees, with the hypothesis for every operand. *)
Lemma GenTree_ind (P : GenTree -> Prop) :
  (forall h this args,
     (forall x, this = Some x -> P x) -> Forall P args ->
     P (GenTreeCall h this args)) ->
  (forall op v ops, Forall P ops -> P (GenTreeOp op v ops)) ->
  forall t, P t.
Proof.
  intros Hcall Hop.
  fix IH 1. intros [h this args | op v ops].
  - apply Hcall.
    + destruct this as [x0 |]; intros x Hx; [| discriminate Hx].
      injection Hx as Hx. rewrite <- Hx. apply IH.
    + induction args as [| a args IHargs]; constructor; [apply IH | exact IHargs].
  - apply Hop.
    induction ops as [| a ops IHops]; constructor; [apply IH | exact IHops].
Qed.

Section ClassProbeVisitorFacts.
Context {S : Type}.
Variable m_functor :
  S -> CallHeader -> option (S * CallHeader * (GenTree -> GenTree)).

Lemma WalkTree_call s h this args :
  WalkTree m_functor s (GenTreeCall h this args) =
  ('(s1, h1, wrap) ←
     (if isProbedCall h then m_functor s h else Some (s, h, fun x => x));
   '(s2, this') ←
     match this with
     | None => Some (s1, None)
     | Some x => '(s2, x') ← WalkTree m_functor s1 x; Some (s2, Some (wrap x'))
     end;
   '(s3, args') ← walkList m_functor s2 args;
   Some (s3, GenTreeCall h1 this' args')).
Proof. reflexivity. Qed.

Lemma WalkTree_op s op v ops :
  WalkTree m_functor s (GenTreeOp op v ops) =
  ('(s1, ops') ← walkList m_functor s ops; Some (s1, GenTreeOp op v ops')).
Proof. reflexivity. Qed.

Lemma WalkStatements_walkList s stmts :
  WalkStatements m_functor s stmts = walkList m_functor s stmts.
Proof.
  revert s. induction stmts as [| x r IH]; intros s; simpl; [reflexivity |].
  destruct (WalkTree m_functor s x) as [[s' x'] |]; simpl; [| reflexivity].
  rewrite IH. reflexivity.
Qed.

(** A functor that only renews the header of the call, by [newHeader],
    and moves the state by [step]: the walk rebuilds the tree with the
    new headers and folds [step] over the probed calls. *)
Variable newHeader : CallHeader -> CallHeader.
Variable step : S -> CallHeader -> S.
Variable Inv : S -> Prop.
Hypothesis m_functor_header :
  forall s h, m_functor s h = Some (step s h, newHeader h, fun x => x).
Hypothesis step_Inv : forall s h, Inv s -> Inv (step s h).

Lemma walkList_renew ops :
  Forall (fun t => forall s, Inv s -> exists s',
            WalkTree m_functor s t = Some (s', renewHeaders newHeader t)
            /\ Inv s') ops ->
  forall s, Inv s -> exists s',
    walkList m_functor s ops = Some (s', List.map (renewHeaders newHeader) ops)
    /\ Inv s'.
Proof.
  induction 1 as [| t ops Ht _ IH]; intros s Hs; simpl.
  - exists s. split; [reflexivity | exact Hs].
  - destruct (Ht s Hs) as [s1 [-> Hs1]]. simpl.
    destruct (IH s1 Hs1) as [s2 [-> Hs2]]. simpl. exists s2.
    split; [reflexivity | exact Hs2].
Qed.

Lemma WalkTree_renew t :
  forall s, Inv s -> exists s',
    WalkTree m_functor s t = Some (s', renewHeaders newHeader t) /\ Inv s'.
Proof.
  induction t as [h this args IHthis IHargs | op v ops IHops]
    using GenTree_ind; intros s Hs.
  - rewrite WalkTree_call.
    assert (Hf : exists s1,
               (if isProbedCall h then m_functor s h
                else Some (s, h, fun x : GenTree => x))
               = Some (s1, if isProbedCall h then newHeader h else h,
                       fun x : GenTree => x) /\ Inv s1).
    { destruct (isProbedCall h).
      - rewrite m_functor_header. eexists. split; [reflexivity |].
        apply step_Inv. exact Hs.
      - eexists. split; [reflexivity | exact Hs]. }
    destruct Hf as [s1 [-> Hs1]]. simpl.
    assert (Hthis : exists s2,
               match this with
               | None => Some (s1, None)
               | Some x => '(s2, x') ← WalkTree m_functor s1 x;
                           Some (s2, Some x')
               end = Some (s2, option_map (renewHeaders newHeader) this)
               /\ Inv s2).
    { destruct this as [x |]; [| eexists; split; [reflexivity | exact Hs1]].
      destruct (IHthis x eq_refl s1 Hs1) as [s2 [-> Hs2]]. eexists.
      split; [reflexivity | exact Hs2]. }
    destruct Hthis as [s2 [-> Hs2]]. simpl.
    destruct (walkList_renew args IHargs s2 Hs2) as [s3 [-> Hs3]]. simpl.
    exists s3. split; [reflexivity | exact Hs3].
  - rewrite WalkTree_op.
    destruct (walkList_renew ops IHops s Hs) as [s1 [-> Hs1]]. simpl.
    exists s1. split; [reflexivity | exact Hs1].
Qed.

Lemma WalkStatements_renew stmts s :
  Inv s ->
  exists s', WalkStatements m_functor s stmts
             = Some (s', List.map (renewHeaders newHeader) stmts) /\ Inv s'.
Proof.
  rewrite WalkStatements_walkList. apply walkList_renew.
  apply Forall_forall. intros t _. apply WalkTree_renew.
Qed.
End ClassProbeVisitorFacts.

Lemma stubsRestored_restoreStubs t : stubsRestored (restoreStubs t) = true.
Proof.
  unfold restoreStubs.
  induction t as [h this args IHthis IHargs | op v ops IHops] using GenTree_ind;
    simpl.
  - assert (Hargs : forallb stubsRestored
              (List.map (renewHeaders (fun h0 => set_gtStubCallStubAddr
                 (stubAddr (gtClassProfileCandidateInfo h0)) h0)) args) = true).
    { apply forallb_forall. intros t Ht. apply in_map_iff in Ht.
      destruct Ht as [t0 [<- Ht0]].
      rewrite Forall_forall in IHargs. apply IHargs, list_elem_of_In. exact Ht0. }
    rewrite Hargs, andb_true_r.
    assert (Hh : (if isProbedCall
                       (if isProbedCall h
                        then set_gtStubCallStubAddr
                               (stubAddr (gtClassProfileCandidateInfo h)) h
                        else h)
                  then (gtStubCallStubAddr
                          (if isProbedCall h
                           then set_gtStubCallStubAddr
                                  (stubAddr (gtClassProfileCandidateInfo h)) h
                           else h)
                        =? stubAddr (gtClassProfileCandidateInfo
                          (if isProbedCall h
                           then set_gtStubCallStubAddr
                                  (stubAddr (gtClassProfileCandidateInfo h)) h
                           else h)))%Z
                  else true) = true).
    { destruct (isProbedCall h) eqn:Hp.
      - change (isProbedCall (set_gtStubCallStubAddr
                  (stubAddr (gtClassProfileCandidateInfo h)) h))
          with (isProbedCall h).
        rewrite Hp. simpl. apply Z.eqb_refl.
      - rewrite Hp. reflexivity. }
    rewrite Hh. simpl.
    destruct this as [x |]; simpl; [apply (IHthis x eq_refl) | reflexivity].
  - apply forallb_forall. intros t Ht. apply in_map_iff in Ht.
    destruct Ht as [t0 [<- Ht0]].
    rewrite Forall_forall in IHops. apply IHops, list_elem_of_In. exact Ht0.
Qed.

Lemma map_ext_Forall' {A B : Type} (f g : A -> B) (l : list A) :
  Forall (fun x => f x = g x) l -> List.map f l = List.map g l.
Proof. induction 1 as [| x l Hx _ IH]; simpl; congruence. Qed.

Lemma eraseStubs_restoreStubs t : eraseStubs (restoreStubs t) = eraseStubs t.
Proof.
  unfold restoreStubs.
  induction t as [h this args IHthis IHargs | op v ops IHops] using GenTree_ind;
    simpl.
  - rewrite List.map_map. rewrite (map_ext_Forall' _ _ _ IHargs).
    f_equal.
    + destruct (isProbedCall h); reflexivity.
    + destruct this as [x |]; simpl; [| reflexivity].
      rewrite (IHthis x eq_refl). reflexivity.
  - rewrite List.map_map. rewrite (map_ext_Forall' _ _ _ IHops). reflexivity.
Qed.

Lemma sameButStubs_restoreStubsInBlock b : sameButStubs b (restoreStubsInBlock b).
Proof.
  unfold sameButStubs, restoreStubsInBlock.
  destruct (BBF_IMPORTED (bbFlags b) && BBF_HAS_CLASS_PROFILE (bbFlags b));
    [| split; reflexivity].
  split; [reflexivity |]. simpl. rewrite List.map_map.
  apply map_ext_Forall', Forall_forall. intros t _.
  apply eraseStubs_restoreStubs.
Qed.

Lemma Forall2_sameButStubs_restore (l : list BasicBlock) :
  Forall2 sameButStubs l (List.map restoreStubsInBlock l).
Proof.
  induction l as [| b l IHl]; simpl; constructor;
    [apply sameButStubs_restoreStubsInBlock | exact IHl].
Qed.

Section InstrumenterFacts.
Variables CLASS_FLAG INTERFACE_FLAG SIZE : Z.
Variables CORINFO_HELP_CLASSPROFILE CORINFO_HELP_BBT_FCN_ENTER : Z.
Variable jitGetILoffs : Z -> Z.
Variable allocPgoInstrumentationBySchema :
  Z -> list PgoInstrumentationSchema ->
  HRESULT * list PgoInstrumentationSchema * Z.
Variable fgEnsureFirstBBisScratch : Compiler -> Compiler.
Variable impTokenToHandle : Z -> GenTree.
Variable gtNewIconEmbMethHndNode : Z -> GenTree.

Local Abbreviation buildSchema' :=
  (buildSchema CLASS_FLAG INTERFACE_FLAG SIZE jitGetILoffs).
Local Abbreviation fgInstrumentMethod' :=
  (fgInstrumentMethod CLASS_FLAG INTERFACE_FLAG SIZE
     CORINFO_HELP_CLASSPROFILE CORINFO_HELP_BBT_FCN_ENTER jitGetILoffs
     allocPgoInstrumentationBySchema fgEnsureFirstBBisScratch
     impTokenToHandle gtNewIconEmbMethHndNode).

(** The first walk never fails and counts the imported, non-internal
    blocks. *)
Lemma buildSchema_count blocks :
  forall schema countOfBlocks,
  exists schema',
    buildSchema' blocks schema countOfBlocks =
    Some (schema',
          (countOfBlocks + Z.of_nat (length (countedBlocks blocks)))%Z).
Proof.
  induction blocks as [| block rest IH]; intros schema n; simpl.
  - exists schema. rewrite Z.add_0_r. reflexivity.
  - destruct (BBF_IMPORTED (bbFlags block)); simpl; [| apply IH].
    assert (Hw : exists schema1 stmts,
              (if BBF_HAS_CLASS_PROFILE (bbFlags block)
               then WalkStatements
                      (BuildClassProbeSchemaGen CLASS_FLAG INTERFACE_FLAG SIZE
                         jitGetILoffs) schema (bbStmts block)
               else Some (schema, bbStmts block)) = Some (schema1, stmts)).
    { destruct (BBF_HAS_CLASS_PROFILE (bbFlags block));
        [| eexists; eexists; reflexivity].
      destruct (WalkStatements_renew
                  (BuildClassProbeSchemaGen CLASS_FLAG INTERFACE_FLAG SIZE
                     jitGetILoffs)
                  (fun h => h)
                  (fun s call =>
                     s ++ [ mkSchema 0 TypeHandleHistogramCount
                              (jitGetILoffs (ilOffset (gtClassProfileCandidateInfo call)))
                              1 (if IsVirtualStub call
                                 then Z.lor CLASS_FLAG INTERFACE_FLAG
                                 else CLASS_FLAG);
                            mkSchema 0 TypeHandleHistogramTypeHandle
                              (jitGetILoffs (ilOffset (gtClassProfileCandidateInfo call)))
                              SIZE (if IsVirtualStub call
                                    then Z.lor CLASS_FLAG INTERFACE_FLAG
                                    else CLASS_FLAG) ])
                  (fun _ => True)
                  ltac:(intros; reflexivity) ltac:(intros; exact I)
                  (bbStmts block) schema I) as [s' [Hs' _]].
      eexists. eexists. exact Hs'. }
    destruct Hw as [schema1 [stmts ->]]. simpl.
    destruct (BBF_INTERNAL (bbFlags block)); simpl.
    + apply IH.
    + destruct (IH (schema1 ++ [mkSchema 0 BasicBlockIntCount
                                  (bbCodeOffs block) 1 0]) (n + 1)%Z)
        as [schema' ->].
      exists schema'. f_equal. f_equal. lia.
Qed.

(** C7.  With [JitMinimalProfiling] enabled, fewer than three imported
    non-internal blocks and no class probe, [fgInstrumentMethod] returns
    before the allocation: nothing is asked of the Host and the compiler
    state, with every block, statement and call, is left as it was. *)
Theorem fgInstrumentMethod_minimal_profiling_bail (c : Compiler) :
  compIsForInlining c = false ->
  (0 < JitMinimalProfiling c)%Z ->
  (length (countedBlocks (fgBBs c)) < 3)%nat ->
  compClassProbeCount c = 0%Z ->
  fgInstrumentMethod' c = ([], Continue c).
Proof.
  intros Hinl Hmin Hcount Hcalls. unfold fgInstrumentMethod. rewrite Hinl.
  destruct (buildSchema_count (fgBBs c) [] 0%Z) as [schema ->].
  rewrite Hcalls.
  replace (0 <? JitMinimalProfiling c)%Z with true
    by (symmetry; apply Z.ltb_lt; exact Hmin).
  replace (0 + Z.of_nat (length (countedBlocks (fgBBs c))) <? 3)%Z with true
    by (symmetry; apply Z.ltb_lt; lia).
  reflexivity.
Qed.

(** The count of class probes and the schema cursor aside, the second
    walk without instrumentation restores the stub addresses in the
    imported blocks flagged for class profiling and does nothing else. *)
Lemma insertProbes_not_instrumenting schema profileMemory blocks :
  forall st, exists st',
    insertProbes CORINFO_HELP_CLASSPROFILE true schema profileMemory false
      st blocks
    = Some (st', List.map restoreStubsInBlock blocks)
    /\ is_lvaCount st' = is_lvaCount st.
Proof.
  induction blocks as [| block rest IH]; intros st; simpl.
  - exists st. split; reflexivity.
  - unfold restoreStubsInBlock at 1.
    destruct (BBF_IMPORTED (bbFlags block)) eqn:Himp; simpl.
    + destruct (BBF_HAS_CLASS_PROFILE (bbFlags block)) eqn:Hcp; simpl.
      * destruct (WalkStatements_renew
                    (ClassProbeInserter CORINFO_HELP_CLASSPROFILE schema
                       profileMemory false)
                    (fun h => set_gtStubCallStubAddr
                                (stubAddr (gtClassProfileCandidateInfo h)) h)
                    (fun s _ => mkProbeState (m_count s + 1)
                                  (m_currentSchemaIndex s) (ps_lvaCount s))
                    (fun s => ps_lvaCount s = is_lvaCount st)
                    ltac:(intros; reflexivity)
                    ltac:(intros s h Hs; exact Hs)
                    (bbStmts block)
                    (mkProbeState 0 (is_currentSchemaIndex st) (is_lvaCount st))
                    eq_refl) as [ps [-> Hps]].
        simpl.
        destruct (BBF_INTERNAL (bbFlags block)); simpl.
        -- match goal with
           | |- context [insertProbes _ _ _ _ _ ?s rest] =>
               destruct (IH s) as [st' [-> Hst']]
           end.
           simpl. exists st'. split; [reflexivity |].
           rewrite Hst'. simpl. exact Hps.
        -- match goal with
           | |- context [insertProbes _ _ _ _ _ ?s rest] =>
               destruct (IH s) as [st' [-> Hst']]
           end.
           simpl. exists st'. split; [reflexivity |].
           rewrite Hst'. simpl. exact Hps.
      * destruct (BBF_INTERNAL (bbFlags block)); simpl.
        -- destruct (IH st) as [st' [-> Hst']]. simpl.
           exists st'. split; [reflexivity | exact Hst'].
        -- match goal with
           | |- context [insertProbes _ _ _ _ _ ?s rest] =>
               destruct (IH s) as [st' [-> Hst']]
           end.
           simpl. exists st'. split; [reflexivity | exact Hst'].
    + destruct (IH st) as [st' [-> Hst']]. simpl.
      exists st'. split; [reflexivity | exact Hst'].
Qed.

(** Without a block flagged for class profiling the second walk without
    instrumentation leaves every block as it is, whether class profiling
    is enabled or not. *)
Lemma insertProbes_unflagged classProfiling schema profileMemory blocks :
  Forall (fun b => BBF_HAS_CLASS_PROFILE (bbFlags b) = false) blocks ->
  forall st, exists st',
    insertProbes CORINFO_HELP_CLASSPROFILE classProfiling schema profileMemory
      false st blocks
    = Some (st', List.map restoreStubsInBlock blocks)
    /\ is_lvaCount st' = is_lvaCount st.
Proof.
  induction 1 as [| block rest Hflag _ IH]; intros st; simpl.
  - exists st. split; reflexivity.
  - unfold restoreStubsInBlock at 1. rewrite Hflag, andb_false_r.
    destruct (BBF_IMPORTED (bbFlags block)); simpl.
    + destruct (BBF_INTERNAL (bbFlags block)); simpl.
      * destruct (IH st) as [st' [-> Hst']]. simpl.
        exists st'. split; [reflexivity | exact Hst'].
      * match goal with
        | |- context [insertProbes _ _ _ _ _ ?s rest] =>
            destruct (IH s) as [st' [-> Hst']]
        end.
        simpl. exists st'. split; [reflexivity | exact Hst'].
    + destruct (IH st) as [st' [-> Hst']]. simpl.
      exists st'. split; [reflexivity | exact Hst'].
Qed.

(** C6.  When the allocation is reached and the Host answers [E_NOTIMPL],
    [fgInstrumentMethod] completes the second walk and returns: in every
    block flagged for class profiling each virtual, non-indirect call has
    its stub address restored from its probe, no statement is added, no
    [this] argument is rewritten and no temporary is allocated.  A
    failure other than [E_NOTIMPL] is fatal.  The flow graph is one the
    importer leaves: a block is flagged for class profiling only when
    [JitClassProfiling] is enabled, and only if it is imported. *)
Theorem fgInstrumentMethod_not_implemented
    (c : Compiler) (schema schemaOut : list PgoInstrumentationSchema)
    (countOfBlocks profileMemory : Z) (res : HRESULT) :
  compIsForInlining c = false ->
  ((0 < JitClassProfiling c)%Z \/
   Forall (fun b => BBF_HAS_CLASS_PROFILE (bbFlags b) = false) (fgBBs c)) ->
  Forall (fun b => BBF_HAS_CLASS_PROFILE (bbFlags b) = true ->
                   BBF_IMPORTED (bbFlags b) = true) (fgBBs c) ->
  buildSchema' (fgBBs c) [] 0 = Some (schema, countOfBlocks) ->
  (0 <? JitMinimalProfiling c)%Z && (countOfBlocks <? 3)%Z
    && (compClassProbeCount c =? 0)%Z = false ->
  allocPgoInstrumentationBySchema (compMethodHnd c) schema
    = (res, schemaOut, profileMemory) ->
  (res = E_NOTIMPL ->
   exists c',
     fgInstrumentMethod' c = ([schema], Continue c') /\
     fgBBs c' = List.map restoreStubsInBlock (fgBBs c) /\
     lvaCount c' = lvaCount c /\
     Forall2 sameButStubs (fgBBs c) (fgBBs c') /\
     (forall b', In b' (fgBBs c') ->
        BBF_HAS_CLASS_PROFILE (bbFlags b') = true ->
        forallb stubsRestored (bbStmts b') = true)) /\
  (SUCCEEDED res = false -> res <> E_NOTIMPL ->
   fgInstrumentMethod' c = ([schema], Abort)).
Proof.
  intros Hinl Hgate Himported Hschema Hbail Halloc. unfold fgInstrumentMethod.
  rewrite Hinl, Hschema, Hbail, Halloc. split.
  - intros ->.
    change (SUCCEEDED E_NOTIMPL) with false.
    change (E_NOTIMPL =? E_NOTIMPL)%Z with true. simpl.
    assert (Hwalk : exists st,
              insertProbes CORINFO_HELP_CLASSPROFILE (0 <? JitClassProfiling c)%Z
                schemaOut profileMemory false
                (mkInstrumentState 0 (compClassProbeCount c) countOfBlocks 0
                   (lvaCount c)) (fgBBs c)
              = Some (st, List.map restoreStubsInBlock (fgBBs c))
              /\ is_lvaCount st = lvaCount c).
    { destruct Hgate as [Hcp | Hnone].
      - replace (0 <? JitClassProfiling c)%Z with true
          by (symmetry; apply Z.ltb_lt; exact Hcp).
        apply insertProbes_not_instrumenting.
      - apply insertProbes_unflagged. exact Hnone. }
    destruct Hwalk as [st [-> Hlva]].
    eexists. split; [reflexivity |]. simpl.
    split; [reflexivity |]. split; [exact Hlva |]. split.
    + apply Forall2_sameButStubs_restore.
    + intros b' Hin Hflag. apply in_map_iff in Hin.
      destruct Hin as [b [<- Hb]]. unfold restoreStubsInBlock in *.
      rewrite Forall_forall in Himported.
      destruct (BBF_IMPORTED (bbFlags b) && BBF_HAS_CLASS_PROFILE (bbFlags b))
        eqn:Hboth.
      * simpl. apply forallb_forall. intros t Ht. apply in_map_iff in Ht.
        destruct Ht as [t0 [<- _]]. apply stubsRestored_restoreStubs.
      * rewrite Hflag, (Himported b ltac:(apply list_elem_of_In; exact Hb) Hflag)
          in Hboth.
        discriminate Hboth.
  - intros Hfail Hne. rewrite Hfail.
    replace (res =? E_NOTIMPL)%Z with false
      by (symmetry; apply Z.eqb_neq; exact Hne).
    reflexivity.
Qed.
End InstrumenterFacts.

Lemma fgInstrumentMethod_minimal_profiling_bail_witness :
  let c := classProfileCompiler 0 1 0 [blockOf 100 false BBJ_RETURN None 0 []] in
  compIsForInlining c = false /\
  (0 < JitMinimalProfiling c)%Z /\
  (length (countedBlocks (fgBBs c)) < 3)%nat /\
  compClassProbeCount c = 0%Z /\
  fgInstrumentMethod_notimpl c = ([], Continue c).
Proof.
  intros c.
  assert (Hmin : (0 < JitMinimalProfiling c)%Z) by (simpl; lia).
  assert (Hcount : (length (countedBlocks (fgBBs c)) < 3)%nat) by (simpl; lia).
  split; [reflexivity |]. split; [exact Hmin |]. split; [exact Hcount |].
  split; [reflexivity |].
  exact (fgInstrumentMethod_minimal_profiling_bail
           2147483648 1073741824 8 101 102 (fun il => il) hostNotImplemented
           (fun c => c) gtNewIconNode gtNewIconNode c eq_refl Hmin Hcount
           eq_refl).
Defined.

Lemma fgInstrumentMethod_not_implemented_witness :
  let c := classProfileCompiler 1 0 1 [classProfileBlock] in
  exists schema,
    compIsForInlining c = false /\
    ((0 < JitClassProfiling c)%Z \/
     Forall (fun b => BBF_HAS_CLASS_PROFILE (bbFlags b) = false) (fgBBs c)) /\
    Forall (fun b => BBF_HAS_CLASS_PROFILE (bbFlags b) = true ->
                     BBF_IMPORTED (bbFlags b) = true) (fgBBs c) /\
    buildSchema 2147483648 1073741824 8 (fun il => il) (fgBBs c) [] 0
      = Some (schema, 1%Z) /\
    hostNotImplemented (compMethodHnd c) schema = (E_NOTIMPL, schema, 0%Z) /\
    exists c',
      fgInstrumentMethod_notimpl c = ([schema], Continue c') /\
      fgBBs c' = List.map restoreStubsInBlock (fgBBs c) /\
      lvaCount c' = lvaCount c /\
      Forall2 sameButStubs (fgBBs c) (fgBBs c') /\
      (forall b', In b' (fgBBs c') ->
         BBF_HAS_CLASS_PROFILE (bbFlags b') = true ->
         forallb stubsRestored (bbStmts b') = true).
Proof.
  intros c. eexists.
  assert (Hcp : (0 < JitClassProfiling c)%Z \/
                Forall (fun b => BBF_HAS_CLASS_PROFILE (bbFlags b) = false)
                       (fgBBs c)) by (left; simpl; lia).
  assert (Himp : Forall (fun b => BBF_HAS_CLASS_PROFILE (bbFlags b) = true ->
                                  BBF_IMPORTED (bbFlags b) = true) (fgBBs c))
    by (repeat constructor).
  split; [reflexivity |]. split; [exact Hcp |]. split; [exact Himp |].
  split; [reflexivity |]. split; [reflexivity |].
  exact (proj1 (fgInstrumentMethod_not_implemented
                  2147483648 1073741824 8 101 102 (fun il => il)
                  hostNotImplemented (fun c => c) gtNewIconNode gtNewIconNode
                  c _ _ 1%Z 0%Z E_NOTIMPL eq_refl Hcp Himp eq_refl eq_refl
                  eq_refl)
           eq_refl).
Defined.

(** ** EdgeSolver *)

(** A checked setter that leaves the slop flag clear found the new weight
    inside the range (or failed and left the edge alone). *)
Lemma setEdgeWeightMinChecked_noslop e newWeight slop us ok e' us' :
  setEdgeWeightMinChecked e newWeight slop us = (ok, e', us') ->
  us' = false ->
  us = false /\
  (if ok then flEdgeWeightMin e <= newWeight /\ newWeight <= flEdgeWeightMax e
              /\ e' = set_flEdgeWeightMin newWeight e
   else e' = e).
Proof.
  unfold setEdgeWeightMinChecked. intros H Hus.
  repeat match type of H with
  | (if ?c then _ else _) = _ => destruct c eqn:?
  end; injection H as <- <- <-; try discriminate Hus;
    (split; [exact Hus |]); try reflexivity.
  w_reflect. repeat split; assumption.
Qed.

Lemma setEdgeWeightMaxChecked_noslop e newWeight slop us ok e' us' :
  setEdgeWeightMaxChecked e newWeight slop us = (ok, e', us') ->
  us' = false ->
  us = false /\
  (if ok then flEdgeWeightMin e <= newWeight /\ newWeight <= flEdgeWeightMax e
              /\ e' = set_flEdgeWeightMax newWeight e
   else e' = e).
Proof.
  unfold setEdgeWeightMaxChecked. intros H Hus.
  repeat match type of H with
  | (if ?c then _ else _) = _ => destruct c eqn:?
  end; injection H as <- <- <-; try discriminate Hus;
    (split; [exact Hus |]); try reflexivity.
  w_reflect. repeat split; assumption.
Qed.

Lemma narrows_refl e : narrows e e.
Proof. unfold narrows. repeat split; try lra; auto. Qed.

Lemma narrows_trans e1 e2 e3 : narrows e1 e2 -> narrows e2 e3 -> narrows e1 e3.
Proof.
  unfold narrows. intros (Hb1 & Hmin1 & Hmax1 & Hr1) (Hb2 & Hmin2 & Hmax2 & Hr2).
  repeat split; [congruence | lra | lra | auto].
Qed.

Lemma narrows_set_min e newWeight :
  flEdgeWeightMin e <= newWeight -> newWeight <= flEdgeWeightMax e ->
  narrows e (set_flEdgeWeightMin newWeight e).
Proof. unfold narrows. simpl. intros. repeat split; try lra; auto. Qed.

Lemma narrows_set_max e newWeight :
  flEdgeWeightMin e <= newWeight -> newWeight <= flEdgeWeightMax e ->
  narrows e (set_flEdgeWeightMax newWeight e).
Proof. unfold narrows. simpl. intros. repeat split; try lra; auto. Qed.

Lemma EdgeInv_narrows F calledCount i e e' :
  EdgeInv F calledCount i e -> narrows e e' -> EdgeInv F calledCount i e'.
Proof.
  unfold EdgeInv, narrows.
  intros ((H0 & Hr) & Hcap & Hex) (Hb & Hmin & Hmax & Hr').
  split; [split; [lra | auto] |]. split.
  - intros bDst HbDst. specialize (Hcap bDst HbDst). lra.
  - rewrite Hb. intros bSrc Hsrc Hk. destruct (Hex bSrc Hsrc Hk) as [H1 H2].
    specialize (Hr' Hr). split; lra.
Qed.

(** Setter calls without slop narrow the edge, whatever they return. *)
Lemma setEdgeWeightMinChecked_narrows e newWeight slop us ok e' us' :
  setEdgeWeightMinChecked e newWeight slop us = (ok, e', us') ->
  us' = false -> us = false /\ narrows e e'.
Proof.
  intros H Hus.
  destruct (setEdgeWeightMinChecked_noslop _ _ _ _ _ _ _ H Hus) as [Hu Hr].
  split; [exact Hu |]. destruct ok.
  - destruct Hr as (H1 & H2 & ->). apply narrows_set_min; assumption.
  - subst e'. apply narrows_refl.
Qed.

Lemma setEdgeWeightMaxChecked_narrows e newWeight slop us ok e' us' :
  setEdgeWeightMaxChecked e newWeight slop us = (ok, e', us') ->
  us' = false -> us = false /\ narrows e e'.
Proof.
  intros H Hus.
  destruct (setEdgeWeightMaxChecked_noslop _ _ _ _ _ _ _ H Hus) as [Hu Hr].
  split; [exact Hu |]. destruct ok.
  - destruct Hr as (H1 & H2 & ->). apply narrows_set_max; assumption.
  - subst e'. apply narrows_refl.
Qed.

(** *** Loops that ran without slop *)

(** An edge loop whose body relates the edge before and after by [R]
    whenever the accumulator ends [good]. *)
Lemma forEdges_rel {A : Type} (good : A -> Prop) (R : flowList -> flowList -> Prop)
    (body : flowList -> A -> Flow (flowList * A)) :
  (forall e a e' a', body e a = Continue (e', a') -> good a' -> good a /\ R e e') ->
  forall preds a preds' a',
    forEdges body preds a = Continue (preds', a') -> good a' ->
    good a /\ Forall2 R preds preds'.
Proof.
  intros Hbody. induction preds as [| e rest IH]; simpl; intros a preds' a' H Hg.
  - injection H as <- <-. split; [exact Hg | constructor].
  - destruct (body e a) as [[e1 a1] | [e1 a1] |] eqn:Hb; try discriminate H.
    destruct (forEdges body rest a1) as [[rest1 a2] | [rest1 a2] |] eqn:Hr;
      try discriminate H.
    injection H as <- <-.
    destruct (IH _ _ _ Hr Hg) as [Hg1 HF].
    destruct (Hbody _ _ _ _ Hb Hg1) as [Hg0 HR].
    split; [exact Hg0 | constructor; assumption].
Qed.

(** A block loop whose steps are related by a reflexive and transitive
    [T] whenever the state ends [good]. *)
Lemma forEach_rel {S : Type} (good : S -> Prop) (T : S -> S -> Prop)
    (body : nat -> S -> Flow S) :
  (forall s, T s s) ->
  (forall s1 s2 s3, T s1 s2 -> T s2 s3 -> T s1 s3) ->
  (forall i s s', body i s = Continue s' -> good s' -> good s /\ T s s') ->
  forall idxs s s',
    forEach body idxs s = Continue s' -> good s' -> good s /\ T s s'.
Proof.
  intros Hrefl Htrans Hbody.
  induction idxs as [| i rest IH]; simpl; intros s s' H Hg.
  - injection H as <-. split; [exact Hg | apply Hrefl].
  - destruct (body i s) as [s1 | s1 |] eqn:Hb; try discriminate H.
    destruct (IH _ _ H Hg) as [Hg1 HT1].
    destruct (Hbody _ _ _ Hb Hg1) as [Hg0 HT0].
    split; [exact Hg0 | exact (Htrans _ _ _ HT0 HT1)].
Qed.

(** A block loop over distinct positions: every step keeps [Inv] and
    establishes [Q] at its own position, and keeps [Q] at the others. *)
Lemma forEach_post {S : Type} (good : S -> Prop) (Inv : S -> Prop)
    (Q : nat -> S -> Prop) (body : nat -> S -> Flow S) :
  (forall i s s', body i s = Continue s' -> good s' ->
     good s /\ (Inv s -> Inv s' /\ Q i s')) ->
  (forall i j s s', i <> j -> body j s = Continue s' -> good s' ->
     Inv s -> Q i s -> Q i s') ->
  forall idxs s s',
    NoDup idxs -> forEach body idxs s = Continue s' -> good s' ->
    good s /\ (Inv s -> Inv s' /\ forall i, i ∈ idxs -> Q i s').
Proof.
  intros Ha Hb.
  assert (Hgood : forall idxs s s',
            forEach body idxs s = Continue s' -> good s' -> good s).
  { induction idxs as [| j rest IH]; simpl; intros s s' H Hg.
    - injection H as <-. exact Hg.
    - destruct (body j s) as [s1 | s1 |] eqn:Hbj; try discriminate H.
      apply (Ha j s s1 Hbj). apply (IH s1 s' H Hg). }
  assert (Hkeep : forall idxs s s' i,
            i ∉ idxs -> forEach body idxs s = Continue s' -> good s' ->
            Inv s -> Q i s -> Q i s').
  { induction idxs as [| j rest IH]; simpl; intros s s' i Hni H Hg Hinv HQ.
    - injection H as <-. exact HQ.
    - destruct (body j s) as [s1 | s1 |] eqn:Hbj; try discriminate H.
      apply not_elem_of_cons in Hni. destruct Hni as [Hne Hni].
      pose proof (Hgood _ _ _ H Hg) as Hg1.
      destruct (Ha _ _ _ Hbj Hg1) as [_ Hstep].
      destruct (Hstep Hinv) as [Hinv1 _].
      apply (IH s1 s' i); [exact Hni | exact H | exact Hg | exact Hinv1 |].
      apply (Hb i j s s1); [exact Hne | exact Hbj | exact Hg1 | exact Hinv | exact HQ]. }
  induction idxs as [| i rest IH]; simpl; intros s s' Hnd H Hg.
  - injection H as <-. split; [exact Hg |]. intros Hinv.
    split; [exact Hinv |]. intros i Hi. apply elem_of_nil in Hi. contradiction.
  - destruct (body i s) as [s1 | s1 |] eqn:Hbi; try discriminate H.
    apply NoDup_cons in Hnd. destruct Hnd as [Hni Hnd].
    destruct (IH _ _ Hnd H Hg) as [Hg1 Hrest].
    destruct (Ha _ _ _ Hbi Hg1) as [Hg0 Hstep].
    split; [exact Hg0 |]. intros Hinv.
    destruct (Hstep Hinv) as [Hinv1 HQi].
    destruct (Hrest Hinv1) as [Hinv' HQrest].
    split; [exact Hinv' |]. intros j Hj.
    apply elem_of_cons in Hj. destruct Hj as [-> | Hj].
    + apply (Hkeep rest s1 s' i Hni H Hg Hinv1 HQi).
    + apply HQrest. exact Hj.
Qed.

(** *** The frame of the flow graph *)

Lemma frame_insert_preds (blocks : list BasicBlock) i b p :
  blocks !! i = Some b ->
  blockFrame <$> <[i := set_bbPreds p b]> blocks = blockFrame <$> blocks.
Proof. intros Hi. apply (fmap_insert_same _ _ _ b); [exact Hi | reflexivity]. Qed.

Lemma frame_lookup (blocks : list BasicBlock) i bF :
  (blockFrame <$> blocks) !! i = Some bF ->
  exists b, blocks !! i = Some b /\ bF = blockFrame b.
Proof.
  rewrite list_lookup_fmap. destruct (blocks !! i) as [b |]; simpl;
    [| discriminate].
  intros [= <-]. exists b. split; reflexivity.
Qed.

Lemma frame_length (blocks blocks' : list BasicBlock) :
  blockFrame <$> blocks' = blockFrame <$> blocks -> length blocks' = length blocks.
Proof.
  intros H. rewrite <- (length_fmap blockFrame blocks'), H. apply length_fmap.
Qed.

(** Replacing the predecessor list of one block by edges that satisfy the
    edge invariant keeps the state invariant. *)
Lemma StateInv_insert calledCount (blocks : list BasicBlock) i b p :
  StateInv calledCount blocks -> blocks !! i = Some b ->
  Forall (EdgeInv (blockFrame <$> blocks) calledCount i) p ->
  StateInv calledCount (<[i := set_bbPreds p b]> blocks).
Proof.
  intros Hinv Hi Hp j b' Hj. rewrite (frame_insert_preds _ _ _ _ Hi).
  destruct (decide (i = j)) as [<- | Hne].
  - rewrite list_lookup_insert_eq in Hj by (apply lookup_lt_Some in Hi; exact Hi).
    injection Hj as <-. exact Hp.
  - rewrite list_lookup_insert_ne in Hj by exact Hne. apply Hinv. exact Hj.
Qed.

Lemma Forall2_Forall_impl {A : Type} (R : A -> A -> Prop) (P P' : A -> Prop)
    (l l' : list A) :
  (forall x y, R x y -> P x -> P' y) ->
  Forall2 R l l' -> Forall P l -> Forall P' l'.
Proof.
  intros HR HF. induction HF as [| x y l l' Hxy _ IH]; intros HP.
  - constructor.
  - apply Forall_cons in HP. destruct HP as [Hx Hl].
    constructor; [exact (HR _ _ Hxy Hx) | exact (IH Hl)].
Qed.

Lemma BB_ZERO_le_MAX : BB_ZERO_WEIGHT <= BB_MAX_WEIGHT.
Proof. unfold BB_ZERO_WEIGHT, BB_MAX_WEIGHT, Qle. simpl. lia. Qed.

(** *** The initial ranges *)

Lemma capEdgeByDest_noslop slop bDstWeight e us e' us' :
  capEdgeByDest slop bDstWeight e us = (true, e', us') -> us' = false ->
  us = false /\ narrows e e' /\ flEdgeWeightMax e' <= bDstWeight.
Proof.
  unfold capEdgeByDest. intros H Hus.
  destruct (w_gt (edgeWeightMax e) bDstWeight) eqn:Hgt.
  - destruct (setEdgeWeightMaxChecked_noslop _ _ _ _ _ _ _ H Hus)
      as [Hu (Hlo & Hhi & ->)].
    split; [exact Hu |]. split; [apply narrows_set_max; assumption |].
    simpl. lra.
  - injection H as <- <-. split; [exact Hus |].
    split; [apply narrows_refl |]. w_reflect. exact Hgt.
Qed.

Lemma initEdgeBySource_noslop slop bSrc e us e' us' :
  initEdgeBySource slop bSrc e us = Some (true, e', us') -> us' = false ->
  us = false /\ narrows e e' /\
  (isUnconditionalJump (bbJumpKind bSrc) = true ->
   flEdgeWeightMin e' == bbWeight bSrc /\ flEdgeWeightMax e' == bbWeight bSrc).
Proof.
  unfold initEdgeBySource. intros H Hus.
  assert (Hexact :
      (let '(ok1, e1, us1) := setEdgeWeightMinChecked e (bbWeight bSrc) slop us in
       let '(ok2, e2, us2) := setEdgeWeightMaxChecked e1 (bbWeight bSrc) slop us1 in
       Some (ok1 && ok2, e2, us2)) = Some (true, e', us') ->
      us = false /\ narrows e e' /\
      flEdgeWeightMin e' == bbWeight bSrc /\ flEdgeWeightMax e' == bbWeight bSrc).
  { clear H. intros H.
    destruct (setEdgeWeightMinChecked e (bbWeight bSrc) slop us)
      as [[ok1 e1] us1] eqn:Hs1.
    destruct (setEdgeWeightMaxChecked e1 (bbWeight bSrc) slop us1)
      as [[ok2 e2] us2] eqn:Hs2.
    injection H as Hok -> ->.
    apply andb_true_iff in Hok. destruct Hok as [-> ->].
    destruct (setEdgeWeightMaxChecked_noslop _ _ _ _ _ _ _ Hs2 Hus)
      as [Hu1 (Hlo2 & Hhi2 & ->)].
    destruct (setEdgeWeightMinChecked_noslop _ _ _ _ _ _ _ Hs1 Hu1)
      as [Hu (Hlo1 & Hhi1 & ->)].
    split; [exact Hu |]. simpl.
    split; [| split; reflexivity].
    unfold narrows. simpl. repeat split; try lra. }
  assert (Hupper :
      (if w_gt (edgeWeightMax e) (bbWeight bSrc)
       then Some (setEdgeWeightMaxChecked e (bbWeight bSrc) slop us)
       else Some (true, e, us)) = Some (true, e', us') ->
      us = false /\ narrows e e').
  { clear H. intros H.
    destruct (w_gt (edgeWeightMax e) (bbWeight bSrc)).
    - injection H as H.
      exact (setEdgeWeightMaxChecked_narrows _ _ _ _ _ _ _ H Hus).
    - injection H as <- <-. split; [exact Hus | apply narrows_refl]. }
  destruct (bbJumpKind bSrc); try discriminate H;
    try (destruct (Hexact H) as (Hu & Hn & Hx);
         split; [exact Hu |]; split; [exact Hn |]; intros _; exact Hx);
    destruct (Hupper H) as (Hu & Hn);
    (split; [exact Hu |]; split; [exact Hn |]; discriminate).
Qed.

Section EdgeSolverFacts.
Variable GetSlopFraction : BasicBlock -> BasicBlock -> weight_t.
Variable calledCount : weight_t.

(** What the initialisation leaves of an edge with a range
    [0 <= min <= max]. *)
Lemma initEdge_noslop bSrc bDst bDstWeight e acc e' acc' :
  initEdge GetSlopFraction bSrc bDst bDstWeight e acc = Continue (e', acc') ->
  acc'.1 = false ->
  acc.1 = false /\
  flBlock e' = flBlock e /\
  (edge_range_ok e ->
   edge_range_ok e' /\
   flEdgeWeightMax e' <= bDstWeight /\
   (isUnconditionalJump (bbJumpKind bSrc) = true ->
    flEdgeWeightMin e' == bbWeight bSrc /\ flEdgeWeightMax e' == bbWeight bSrc)).
Proof.
  unfold initEdge. intros H Hus.
  destruct (initEdgeBySource _ bSrc _ _) as [[[ok1 e1] us1] |] eqn:H1;
    [| discriminate H].
  destruct (capEdgeByDest _ bDstWeight e1 us1) as [[ok2 e2] us2] eqn:H2.
  destruct (ok1 && ok2) eqn:Hok; [| discriminate H].
  apply andb_true_iff in Hok. destruct Hok as [-> ->].
  injection H as <- <-. simpl in Hus.
  destruct (capEdgeByDest_noslop _ _ _ _ _ _ H2 Hus) as (Hus1 & Hn12 & Hcap).
  destruct (initEdgeBySource_noslop _ _ _ _ _ _ H1 Hus1) as (Hus0 & Hn01 & Hex).
  split; [exact Hus0 |].
  destruct Hn01 as (Hb01 & Hmin01 & Hmax01 & Hr01).
  destruct Hn12 as (Hb12 & Hmin12 & Hmax12 & Hr12).
  assert (Hb0 : flBlock (resetUnprofiledEdge bSrc bDst e) = flBlock e).
  { unfold resetUnprofiledEdge.
    destruct (negb (hasProfileWeight bSrc) || negb (hasProfileWeight bDst));
      reflexivity. }
  split; [congruence |]. intros [Hnn Hr].
  assert (Hr0 : 0 <= flEdgeWeightMin (resetUnprofiledEdge bSrc bDst e) /\
                flEdgeWeightMin (resetUnprofiledEdge bSrc bDst e)
                <= flEdgeWeightMax (resetUnprofiledEdge bSrc bDst e)).
  { unfold resetUnprofiledEdge.
    destruct (negb (hasProfileWeight bSrc) || negb (hasProfileWeight bDst));
      [split; [apply Qle_refl | apply BB_ZERO_le_MAX] | split; assumption]. }
  destruct Hr0 as [Hnn0 Hr0].
  specialize (Hr01 Hr0). specialize (Hr12 Hr01).
  split; [split; [lra | exact Hr12] |]. split; [exact Hcap |].
  intros Hk. destruct (Hex Hk) as [Hx1 Hx2]. split; lra.
Qed.
Lemma EdgeInv_of_frame (blocks : list BasicBlock) i bDst e :
  blocks !! i = Some bDst ->
  edge_range_ok e ->
  flEdgeWeightMax e <= bDstWeightOf calledCount i bDst ->
  (forall bSrc, blocks !! flBlock e = Some bSrc ->
     isUnconditionalJump (bbJumpKind bSrc) = true ->
     flEdgeWeightMin e == bbWeight bSrc /\ flEdgeWeightMax e == bbWeight bSrc) ->
  EdgeInv (blockFrame <$> blocks) calledCount i e.
Proof.
  intros Hi Hr Hcap Hex. split; [exact Hr |]. split.
  - intros bF HbF. apply frame_lookup in HbF. destruct HbF as (b & Hb & ->).
    rewrite Hi in Hb. injection Hb as <-. exact Hcap.
  - intros bF HbF Hk. apply frame_lookup in HbF. destruct HbF as (b & Hb & ->).
    exact (Hex b Hb Hk).
Qed.

Lemma initBlock_noslop i st st' :
  initBlock GetSlopFraction calledCount i st = Continue st' ->
  ew_usedSlop st' = false ->
  ew_usedSlop st = false /\
  blockFrame <$> ew_blocks st' = blockFrame <$> ew_blocks st /\
  (forall j, j <> i -> ew_blocks st' !! j = ew_blocks st !! j) /\
  (validRanges (ew_blocks st) ->
   validRanges (ew_blocks st') /\
   forall b, ew_blocks st' !! i = Some b ->
     Forall (EdgeInv (blockFrame <$> ew_blocks st') calledCount i) (bbPreds b)).
Proof.
  unfold initBlock. intros H Hus.
  destruct (ew_blocks st !! i) as [bDst |] eqn:Hi; [| discriminate H].
  destruct (forEdges _ (bbPreds bDst) _) as [[preds' acc'] | r |] eqn:Hf;
    try discriminate H.
  injection H as <-. simpl in *.
  pose proof (forEdges_rel (fun a : bool * nat => a.1 = false)
    (fun e e' =>
       flBlock e' = flBlock e /\
       (edge_range_ok e ->
        edge_range_ok e' /\
        flEdgeWeightMax e' <= bDstWeightOf calledCount i bDst /\
        forall bSrc, ew_blocks st !! flBlock e = Some bSrc ->
          isUnconditionalJump (bbJumpKind bSrc) = true ->
          flEdgeWeightMin e' == bbWeight bSrc /\
          flEdgeWeightMax e' == bbWeight bSrc))
    (withSource (ew_blocks st)
       (fun bSrc => initEdge GetSlopFraction bSrc bDst
                      (bDstWeightOf calledCount i bDst)))) as Hrel.
  destruct (Hrel
    ltac:(unfold withSource; intros e a e' a' Hb Hg;
          destruct (ew_blocks st !! flBlock e) as [bSrc |] eqn:Hsrc;
            [| discriminate Hb];
          destruct (initEdge_noslop _ _ _ _ _ _ _ Hb Hg) as (Hg0 & Hbl & Hpost);
          split; [exact Hg0 |]; split; [exact Hbl |];
          intros Hr; destruct (Hpost Hr) as (H1 & H2 & H3);
          split; [exact H1 |]; split; [exact H2 |];
          intros bSrc' Hsrc'; injection Hsrc' as <-; exact H3)
    _ _ _ _ Hf Hus) as [Hus0 HF].
  pose proof (frame_insert_preds _ _ _ preds' Hi) as Hframe.
  split; [exact Hus0 |]. split; [exact Hframe |]. split.
  { intros j Hj. apply list_lookup_insert_ne. congruence. }
  intros Hproper.
  assert (HE : Forall (EdgeInv (blockFrame <$> ew_blocks st) calledCount i) preds').
  { eapply Forall2_Forall_impl; [| exact HF | exact (Hproper _ _ Hi)].
    intros e e' (Hbl & Hpost) Hr. simpl in Hr.
    destruct (Hpost Hr) as (H1 & H2 & H3).
    apply (EdgeInv_of_frame _ _ bDst); [exact Hi | exact H1 | exact H2 |].
    rewrite Hbl. exact H3. }
  split.
  - intros j b Hj. destruct (decide (i = j)) as [<- | Hne].
    + rewrite list_lookup_insert_eq in Hj
        by (apply lookup_lt_Some in Hi; exact Hi).
      injection Hj as <-. simpl.
      apply (Forall_impl _ _ _ HE). intros e (Hr & _). exact Hr.
    + rewrite list_lookup_insert_ne in Hj by exact Hne.
      apply (Hproper _ _ Hj).
  - intros b Hb. rewrite Hframe.
    rewrite list_lookup_insert_eq in Hb
      by (apply lookup_lt_Some in Hi; exact Hi).
    injection Hb as <-. exact HE.
Qed.

(** After the initialisation without slop every edge satisfies the edge
    invariant. *)
Lemma initPhase_noslop (blocks : list BasicBlock) st0 st' :
  ew_blocks st0 = blocks ->
  forEach (initBlock GetSlopFraction calledCount) (blockIndices blocks) st0
    = Continue st' ->
  ew_usedSlop st' = false ->
  validRanges blocks ->
  blockFrame <$> ew_blocks st' = blockFrame <$> blocks /\
  StateInv calledCount (ew_blocks st').
Proof.
  intros Hst0 H Hus Hproper.
  pose proof (forEach_post (fun s => ew_usedSlop s = false)
    (fun s => blockFrame <$> ew_blocks s = blockFrame <$> blocks
              /\ validRanges (ew_blocks s))
    (fun i s => forall b, ew_blocks s !! i = Some b ->
       Forall (EdgeInv (blockFrame <$> ew_blocks s) calledCount i) (bbPreds b))
    (initBlock GetSlopFraction calledCount)) as Hpost.
  destruct (Hpost
    ltac:(intros i s s' Hb Hg;
          destruct (initBlock_noslop _ _ _ Hb Hg) as (Hg0 & Hfr & _ & Hstep);
          split; [exact Hg0 |]; intros [HF HP];
          destruct (Hstep HP) as [HP' HQ];
          split; [split; [congruence | exact HP'] | exact HQ])
    ltac:(intros i j s s' Hne Hb Hg _ HQ b Hbi;
          destruct (initBlock_noslop _ _ _ Hb Hg) as (_ & Hfr & Hsame & _);
          rewrite Hfr; apply HQ; rewrite <- (Hsame i Hne); exact Hbi)
    (blockIndices blocks) st0 st' (NoDup_seq _ _) H Hus) as [_ Hfin].
  destruct (Hfin ltac:(rewrite Hst0; split; [reflexivity | exact Hproper]))
    as [[Hframe _] HQ].
  split; [exact Hframe |].
  intros i b Hi. apply HQ; [| exact Hi].
  unfold blockIndices. apply elem_of_seq.
  apply lookup_lt_Some in Hi. rewrite (frame_length _ _ Hframe) in Hi. lia.
Qed.
(** *** The reconciliation at conditional branches *)

Lemma keepsInv_refl st : keepsInv calledCount st st.
Proof. split; [reflexivity | auto]. Qed.

Lemma keepsInv_trans s1 s2 s3 :
  keepsInv calledCount s1 s2 -> keepsInv calledCount s2 s3 ->
  keepsInv calledCount s1 s3.
Proof. intros [F1 I1] [F2 I2]. split; [congruence | auto]. Qed.

Lemma applySetter_noslop st i k setter ok st' :
  (forall e us ok e' us', setter e us = (ok, e', us') -> us' = false ->
     us = false /\ narrows e e') ->
  applySetter st i k setter = Some (ok, st') ->
  ew_usedSlop st' = false ->
  ew_usedSlop st = false /\ keepsInv calledCount st st'.
Proof.
  intros Hsetter. unfold applySetter, getEdge. intros H Hus.
  destruct (ew_blocks st !! i) as [b |] eqn:Hi; [| discriminate H].
  simpl in H.
  destruct (bbPreds b !! k) as [e |] eqn:Hk; [| discriminate H]. simpl in H.
  destruct (setter e (ew_usedSlop st)) as [[ok' e'] us'] eqn:Hs.
  injection H as -> <-. simpl in *.
  destruct (Hsetter _ _ _ _ _ Hs Hus) as [Hus0 Hn].
  split; [exact Hus0 |]. unfold keepsInv, setEdge. simpl. rewrite Hi.
  split; [apply frame_insert_preds; exact Hi |].
  intros Hinv. apply StateInv_insert; [exact Hinv | exact Hi |].
  apply Forall_insert; [exact (Hinv _ _ Hi) |].
  apply (EdgeInv_narrows _ _ _ e); [| exact Hn].
  pose proof (Hinv _ _ Hi) as HF. rewrite Forall_lookup in HF.
  exact (HF _ _ Hk).
Qed.

Lemma adjustMinUpOrMaxDown_noslop slop weight raise lower st ok st' :
  adjustMinUpOrMaxDown slop weight raise lower st = Some (ok, st') ->
  ew_usedSlop st' = false ->
  ew_usedSlop st = false /\ keepsInv calledCount st st'.
Proof.
  unfold adjustMinUpOrMaxDown. intros H Hus.
  destruct (getEdge (ew_blocks st) raise.1 raise.2) as [raiseEdge |];
    [| discriminate H].
  destruct (getEdge (ew_blocks st) lower.1 lower.2) as [lowerEdge |];
    [| discriminate H].
  simpl in H.
  destruct (w_gt _ 0).
  - eapply applySetter_noslop; [| exact H | exact Hus].
    intros e us ok' e' us' Hs Hus'.
    exact (setEdgeWeightMinChecked_narrows _ _ _ _ _ _ _ Hs Hus').
  - destruct (w_lt _ 0).
    + eapply applySetter_noslop; [| exact H | exact Hus].
      intros e us ok' e' us' Hs Hus'.
      exact (setEdgeWeightMaxChecked_narrows _ _ _ _ _ _ _ Hs Hus').
    + injection H as <- <-. split; [exact Hus | apply keepsInv_refl].
Qed.

Lemma condEdge_noslop i k st st' :
  condEdge GetSlopFraction i k st = Continue st' ->
  ew_usedSlop st' = false ->
  ew_usedSlop st = false /\ keepsInv calledCount st st'.
Proof.
  unfold condEdge. intros H Hus.
  destruct (ew_blocks st !! i) as [bDst |]; [| discriminate H].
  destruct (bbPreds bDst !! k) as [edge |]; [| discriminate H].
  destruct (ew_blocks st !! flBlock edge) as [bSrc |]; [| discriminate H].
  destruct (bbJumpKind bSrc);
    try (injection H as <-; split; [exact Hus | apply keepsInv_refl]).
  destruct (otherEdgeOf _ _ _ _) as [other |]; [| discriminate H].
  destruct (getEdge _ _ _) as [otherEdge |]; [| discriminate H].
  destruct (_ || _); [discriminate H |].
  destruct (adjustMinUpOrMaxDown _ _ (i, k) other st) as [[ok1 st1] |] eqn:H1;
    [| discriminate H].
  destruct (adjustMinUpOrMaxDown _ _ other (i, k) st1) as [[ok2 st2] |] eqn:H2;
    [| discriminate H].
  destruct (ok1 && ok2); [| discriminate H].
  injection H as <-.
  destruct (adjustMinUpOrMaxDown_noslop _ _ _ _ _ _ _ H2 Hus) as [Hus1 HT2].
  destruct (adjustMinUpOrMaxDown_noslop _ _ _ _ _ _ _ H1 Hus1) as [Hus0 HT1].
  split; [exact Hus0 | exact (keepsInv_trans _ _ _ HT1 HT2)].
Qed.

Lemma condBlock_noslop i st st' :
  condBlock GetSlopFraction i st = Continue st' ->
  ew_usedSlop st' = false ->
  ew_usedSlop st = false /\ keepsInv calledCount st st'.
Proof.
  unfold condBlock. intros H Hus.
  destruct (ew_blocks st !! i) as [bDst |]; [| discriminate H].
  apply (forEach_rel (fun s => ew_usedSlop s = false) (keepsInv calledCount)
           (condEdge GetSlopFraction i) keepsInv_refl keepsInv_trans
           (condEdge_noslop i) _ _ _ H Hus).
Qed.
(** *** The flow balance *)

Lemma raiseMinByOthers_noslop slop bDstWeight otherMax e us e' us' :
  raiseMinByOthers slop bDstWeight otherMax e us = (true, e', us') ->
  us' = false ->
  us = false /\ narrows e e' /\
  flEdgeWeightMax e' = flEdgeWeightMax e /\
  ((flEdgeWeightMin e' = flEdgeWeightMin e /\
    (otherMax <= bDstWeight -> w_sub bDstWeight otherMax <= flEdgeWeightMin e)) \/
   (otherMax <= bDstWeight /\ flEdgeWeightMin e' = w_sub bDstWeight otherMax)).
Proof.
  unfold raiseMinByOthers. intros H Hus.
  destruct (w_ge bDstWeight otherMax) eqn:Hge.
  - destruct (w_gt (w_sub bDstWeight otherMax) (edgeWeightMin e)) eqn:Hgt.
    + destruct (setEdgeWeightMinChecked_noslop _ _ _ _ _ _ _ H Hus)
        as [Hu (Hlo & Hhi & ->)].
      split; [exact Hu |]. split; [apply narrows_set_min; assumption |].
      split; [reflexivity |]. right. w_reflect. split; [exact Hge | reflexivity].
    + injection H as <- <-. split; [exact Hus |].
      split; [apply narrows_refl |]. split; [reflexivity |]. left.
      split; [reflexivity |]. intros _. w_reflect. exact Hgt.
  - injection H as <- <-. split; [exact Hus |].
    split; [apply narrows_refl |]. split; [reflexivity |]. left.
    split; [reflexivity |]. intros Hle. w_reflect. lra.
Qed.

Lemma lowerMaxByOthers_noslop slop bDstWeight otherMin e us e' us' :
  lowerMaxByOthers slop bDstWeight otherMin e us = (true, e', us') ->
  us' = false ->
  us = false /\ narrows e e' /\
  flEdgeWeightMin e' = flEdgeWeightMin e /\
  ((flEdgeWeightMax e' = flEdgeWeightMax e /\
    (otherMin <= bDstWeight -> flEdgeWeightMax e <= w_sub bDstWeight otherMin)) \/
   (otherMin <= bDstWeight /\ flEdgeWeightMax e' = w_sub bDstWeight otherMin)).
Proof.
  unfold lowerMaxByOthers. intros H Hus.
  destruct (w_ge bDstWeight otherMin) eqn:Hge.
  - destruct (w_lt (w_sub bDstWeight otherMin) (edgeWeightMax e)) eqn:Hlt.
    + destruct (setEdgeWeightMaxChecked_noslop _ _ _ _ _ _ _ H Hus)
        as [Hu (Hlo & Hhi & ->)].
      split; [exact Hu |]. split; [apply narrows_set_max; assumption |].
      split; [reflexivity |]. right. w_reflect. split; [exact Hge | reflexivity].
    + injection H as <- <-. split; [exact Hus |].
      split; [apply narrows_refl |]. split; [reflexivity |]. left.
      split; [reflexivity |]. intros _. w_reflect. exact Hlt.
  - injection H as <- <-. split; [exact Hus |].
    split; [apply narrows_refl |]. split; [reflexivity |]. left.
    split; [reflexivity |]. intros Hle. w_reflect. lra.
Qed.

Lemma balanceEdge_noslop bDst bDstWeight maxSum minSum bSrc e acc e' acc' :
  balanceEdge GetSlopFraction bDst bDstWeight maxSum minSum bSrc e acc
    = Continue (e', acc') ->
  acc'.1.1 = false ->
  acc.1.1 = false /\
  balanced bDstWeight (w_sub maxSum (flEdgeWeightMax e))
           (w_sub minSum (flEdgeWeightMin e)) e e'.
Proof.
  unfold balanceEdge, balanced. intros H Hus.
  destruct (negb (w_ge maxSum (edgeWeightMax e))); [discriminate H |].
  destruct (negb (w_ge minSum (edgeWeightMin e))); [discriminate H |].
  destruct (raiseMinByOthers _ _ _ e _) as [[ok1 e1] us1] eqn:H1.
  destruct (lowerMaxByOthers _ _ _ e1 us1) as [[ok2 e2] us2] eqn:H2.
  destruct (ok1 && ok2) eqn:Hok; [| discriminate H].
  apply andb_true_iff in Hok. destruct Hok as [-> ->]. simpl in H.
  assert (Hfin : e' = e2 /\ acc'.1.1 = us2).
  { destruct (w_eq (edgeWeightMin e2) (edgeWeightMax e2));
      injection H as <- <-; split; reflexivity. }
  destruct Hfin as [-> Hacc]. rewrite Hacc in Hus.
  destruct (lowerMaxByOthers_noslop _ _ _ _ _ _ _ H2 Hus)
    as (Hus1 & Hn12 & Hmin12 & Hmax).
  destruct (raiseMinByOthers_noslop _ _ _ _ _ _ _ H1 Hus1)
    as (Hus0 & Hn01 & Hmax01 & Hmin).
  unfold edgeWeightMax, edgeWeightMin in *.
  split; [exact Hus0 |].
  split; [exact (narrows_trans _ _ _ Hn01 Hn12) |].
  rewrite Hmin12. rewrite Hmax01 in Hmax. split; assumption.
Qed.

Lemma bDstWeightOf_frame i b :
  bDstWeightOf calledCount i (blockFrame b) = bDstWeightOf calledCount i b.
Proof. reflexivity. Qed.

Lemma bDstWeightOf_not_first i b :
  i <> 0%nat -> bDstWeightOf calledCount i b = bbWeight b.
Proof.
  intros Hi. unfold bDstWeightOf. apply Nat.eqb_neq in Hi. rewrite Hi.
  reflexivity.
Qed.

(** *** Whole-number weights stay whole *)

Lemma setEdgeWeightMinChecked_whole e newWeight slop us :
  wholeEdge e -> isWhole newWeight = true ->
  wholeEdge (setEdgeWeightMinChecked e newWeight slop us).1.2.
Proof.
  unfold setEdgeWeightMinChecked, wholeEdge. intros [H1 H2] Hn.
  repeat match goal with
  | |- context [if ?c then _ else _] => destruct c
  end; simpl; split; assumption.
Qed.

Lemma setEdgeWeightMaxChecked_whole e newWeight slop us :
  wholeEdge e -> isWhole newWeight = true ->
  wholeEdge (setEdgeWeightMaxChecked e newWeight slop us).1.2.
Proof.
  unfold setEdgeWeightMaxChecked, wholeEdge. intros [H1 H2] Hn.
  repeat match goal with
  | |- context [if ?c then _ else _] => destruct c
  end; simpl; split; assumption.
Qed.

Lemma resetUnprofiledEdge_whole bSrc bDst e :
  wholeEdge e -> wholeEdge (resetUnprofiledEdge bSrc bDst e).
Proof.
  unfold resetUnprofiledEdge. intros H.
  destruct (negb (hasProfileWeight bSrc) || negb (hasProfileWeight bDst));
    [split; reflexivity | exact H].
Qed.

Lemma initEdgeBySource_whole slop bSrc e us r :
  wholeEdge e -> isWhole (bbWeight bSrc) = true ->
  initEdgeBySource slop bSrc e us = Some r -> wholeEdge r.1.2.
Proof.
  unfold initEdgeBySource. intros He Hw H.
  assert (Hexact : forall r,
            (let '(ok1, e1, us1) :=
               setEdgeWeightMinChecked e (bbWeight bSrc) slop us in
             let '(ok2, e2, us2) :=
               setEdgeWeightMaxChecked e1 (bbWeight bSrc) slop us1 in
             Some (ok1 && ok2, e2, us2)) = Some r -> wholeEdge r.1.2).
  { clear H. intros r0 H.
    pose proof (setEdgeWeightMinChecked_whole e (bbWeight bSrc) slop us He Hw)
      as H1.
    destruct (setEdgeWeightMinChecked e (bbWeight bSrc) slop us)
      as [[ok1 e1] us1].
    pose proof (setEdgeWeightMaxChecked_whole e1 (bbWeight bSrc) slop us1 H1 Hw)
      as H2.
    destruct (setEdgeWeightMaxChecked e1 (bbWeight bSrc) slop us1)
      as [[ok2 e2] us2].
    injection H as <-. exact H2. }
  assert (Hupper : forall r,
            (if w_gt (edgeWeightMax e) (bbWeight bSrc)
             then Some (setEdgeWeightMaxChecked e (bbWeight bSrc) slop us)
             else Some (true, e, us)) = Some r -> wholeEdge r.1.2).
  { clear H. intros r0 H.
    destruct (w_gt (edgeWeightMax e) (bbWeight bSrc)); injection H as <-;
      [apply setEdgeWeightMaxChecked_whole; assumption | exact He]. }
  destruct (bbJumpKind bSrc); try discriminate H;
    try exact (Hexact r H); exact (Hupper r H).
Qed.

Lemma capEdgeByDest_whole slop bDstWeight e us :
  wholeEdge e -> isWhole bDstWeight = true ->
  wholeEdge (capEdgeByDest slop bDstWeight e us).1.2.
Proof.
  unfold capEdgeByDest. intros He Hw.
  destruct (w_gt (edgeWeightMax e) bDstWeight);
    [apply setEdgeWeightMaxChecked_whole; assumption | exact He].
Qed.

(** An edge loop keeps what its body keeps of every edge. *)
Lemma forEdges_Forall {A : Type} (P : flowList -> Prop)
    (body : flowList -> A -> Flow (flowList * A)) :
  (forall e a e' a', P e -> flow_state (body e a) = Some (e', a') -> P e') ->
  forall preds a preds' a',
    Forall P preds ->
    flow_state (forEdges body preds a) = Some (preds', a') -> Forall P preds'.
Proof.
  intros Hbody. induction preds as [| e rest IH]; simpl;
    intros a preds' a' HP H.
  - injection H as <- <-. constructor.
  - apply Forall_cons in HP. destruct HP as [He Hrest].
    destruct (body e a) as [[e1 a1] | [e1 a1] |] eqn:Hb; simpl in H;
      [| | discriminate].
    + pose proof (Hbody e a e1 a1 He ltac:(rewrite Hb; reflexivity)) as He1.
      destruct (forEdges body rest a1) as [[rest1 a2] | [rest1 a2] |] eqn:Hr;
        simpl in H; try discriminate; injection H as <- <-;
        (constructor;
         [exact He1
         | exact (IH a1 rest1 a2 Hrest ltac:(rewrite Hr; reflexivity))]).
    + injection H as <- <-. constructor; [| exact Hrest].
      exact (Hbody e a e1 a1 He ltac:(rewrite Hb; reflexivity)).
Qed.

Lemma wholeWeights_insert (blocks : list BasicBlock) i b p :
  wholeWeights calledCount blocks -> blocks !! i = Some b ->
  Forall wholeEdge p ->
  wholeWeights calledCount (<[i := set_bbPreds p b]> blocks).
Proof.
  intros [Hc Hall] Hi Hp. split; [exact Hc |]. intros j b' Hj.
  destruct (decide (i = j)) as [<- | Hne].
  - rewrite list_lookup_insert_eq in Hj by (apply lookup_lt_Some in Hi; exact Hi).
    injection Hj as <-. simpl. split; [exact (proj1 (Hall _ _ Hi)) | exact Hp].
  - rewrite list_lookup_insert_ne in Hj by exact Hne. exact (Hall _ _ Hj).
Qed.

Lemma bDstWeightOf_whole i b :
  isWhole calledCount = true -> isWhole (bbWeight b) = true ->
  isWhole (bDstWeightOf calledCount i b) = true.
Proof.
  intros Hc Hb. unfold bDstWeightOf.
  destruct (i =? 0)%nat; [apply w_sub_whole; assumption | exact Hb].
Qed.

Lemma sum_whole (f : flowList -> weight_t) (preds : list flowList) :
  Forall (fun e => isWhole (f e) = true) preds ->
  forall acc, isWhole acc = true ->
    isWhole (fold_left (fun acc e => w_add acc (f e)) preds acc) = true.
Proof.
  induction 1 as [| e rest He _ IH]; simpl; intros acc Hacc; [exact Hacc |].
  apply IH. apply w_add_whole; assumption.
Qed.

Lemma maxEdgeWeightSumOf_whole preds :
  Forall wholeEdge preds -> isWhole (maxEdgeWeightSumOf preds) = true.
Proof.
  intros H. apply sum_whole; [| reflexivity].
  apply (Forall_impl _ _ _ H). intros e [_ He]. exact He.
Qed.

Lemma minEdgeWeightSumOf_whole preds :
  Forall wholeEdge preds -> isWhole (minEdgeWeightSumOf preds) = true.
Proof.
  intros H. apply sum_whole; [| reflexivity].
  apply (Forall_impl _ _ _ H). intros e [He _]. exact He.
Qed.

Local Abbreviation whole :=
  (fun s : EdgeWeightsState => wholeWeights calledCount (ew_blocks s)).

Lemma initEdge_whole bSrc bDst bDstWeight e acc e' acc' :
  wholeEdge e -> isWhole (bbWeight bSrc) = true -> isWhole bDstWeight = true ->
  flow_state (initEdge GetSlopFraction bSrc bDst bDstWeight e acc)
  = Some (e', acc') ->
  wholeEdge e'.
Proof.
  intros He Hs Hd. unfold initEdge.
  destruct (initEdgeBySource _ bSrc _ acc.1) as [[[ok1 e1] us1] |] eqn:H1;
    [| discriminate].
  pose proof (initEdgeBySource_whole _ _ _ _ _
                (resetUnprofiledEdge_whole bSrc bDst e He) Hs H1) as W1.
  pose proof (capEdgeByDest_whole (w_add (GetSlopFraction bSrc bDst) 1)
                bDstWeight e1 us1 W1 Hd) as W2.
  destruct (capEdgeByDest _ bDstWeight e1 us1) as [[ok2 e2] us2].
  destruct (ok1 && ok2); simpl; intros [= <- _]; exact W2.
Qed.

Lemma initBlock_whole i st st' :
  whole st ->
  flow_state (initBlock GetSlopFraction calledCount i st) = Some st' ->
  whole st'.
Proof.
  intros Hw. unfold initBlock.
  destruct (ew_blocks st !! i) as [bDst |] eqn:Hi; [| discriminate].
  destruct Hw as [Hc Hall]. destruct (Hall _ _ Hi) as [HbW HbE].
  assert (Hedges : forall preds' acc',
            flow_state
              (forEdges
                 (withSource (ew_blocks st)
                    (fun bSrc => initEdge GetSlopFraction bSrc bDst
                                   (bDstWeightOf calledCount i bDst)))
                 (bbPreds bDst) (ew_usedSlop st, ew_numEdges st))
            = Some (preds', acc') -> Forall wholeEdge preds').
  { intros preds' acc'. apply forEdges_Forall; [| exact HbE].
    intros e a e' a' He. unfold withSource.
    destruct (ew_blocks st !! flBlock e) as [bSrc |] eqn:Hsrc; [| discriminate].
    apply initEdge_whole; [exact He | exact (proj1 (Hall _ _ Hsrc)) |].
    apply bDstWeightOf_whole; assumption. }
  destruct (forEdges _ (bbPreds bDst) _)
    as [[preds' acc'] | [preds' acc'] |] eqn:Hloop; simpl;
    try discriminate; intros [= <-]; simpl;
    (apply wholeWeights_insert; [split; assumption | exact Hi |]);
    exact (Hedges preds' acc' eq_refl).
Qed.

Lemma applySetter_whole st i k setter ok st' :
  (forall e us, wholeEdge e -> wholeEdge (setter e us).1.2) ->
  whole st -> applySetter st i k setter = Some (ok, st') -> whole st'.
Proof.
  intros Hset Hw. unfold applySetter, getEdge.
  destruct (ew_blocks st !! i) as [b |] eqn:Hi; [| discriminate].
  cbn [mbind option_bind].
  destruct (bbPreds b !! k) as [e |] eqn:Hk; [| discriminate].
  cbn [mbind option_bind].
  pose proof (Hset e (ew_usedSlop st)) as He.
  destruct (setter e (ew_usedSlop st)) as [[ok' e'] us'].
  intros [= <- <-]. simpl. unfold setEdge. rewrite Hi.
  pose proof (proj2 (proj2 Hw _ _ Hi)) as HbE.
  apply wholeWeights_insert; [exact Hw | exact Hi |].
  apply Forall_insert; [exact HbE |]. apply He.
  rewrite Forall_lookup in HbE. exact (HbE _ _ Hk).
Qed.

Lemma getEdge_whole st i k e :
  whole st -> getEdge (ew_blocks st) i k = Some e -> wholeEdge e.
Proof.
  intros Hw. unfold getEdge.
  destruct (ew_blocks st !! i) as [b |] eqn:Hi; [| discriminate].
  cbn [mbind option_bind]. intros Hk.
  pose proof (proj2 (proj2 Hw _ _ Hi)) as HbE.
  rewrite Forall_lookup in HbE. exact (HbE _ _ Hk).
Qed.

Lemma adjustMinUpOrMaxDown_whole slop weight raise lower st ok st' :
  isWhole weight = true -> whole st ->
  adjustMinUpOrMaxDown slop weight raise lower st = Some (ok, st') ->
  whole st'.
Proof.
  intros Hweight Hw. unfold adjustMinUpOrMaxDown.
  destruct (getEdge (ew_blocks st) raise.1 raise.2) as [raiseEdge |] eqn:Hr;
    [| discriminate].
  destruct (getEdge (ew_blocks st) lower.1 lower.2) as [lowerEdge |] eqn:Hl;
    [| discriminate].
  cbn [mbind option_bind].
  destruct (getEdge_whole _ _ _ _ Hw Hr) as [Wr _].
  destruct (getEdge_whole _ _ _ _ Hw Hl) as [_ Wl].
  assert (Wd : isWhole (w_sub weight (w_add (edgeWeightMin raiseEdge)
                                            (edgeWeightMax lowerEdge))) = true)
    by (apply w_sub_whole; [exact Hweight | apply w_add_whole; assumption]).
  destruct (w_gt _ 0); [| destruct (w_lt _ 0)].
  - apply applySetter_whole; [| exact Hw]. intros e us He.
    apply setEdgeWeightMinChecked_whole; [exact He |].
    apply w_add_whole; assumption.
  - apply applySetter_whole; [| exact Hw]. intros e us He.
    apply setEdgeWeightMaxChecked_whole; [exact He |].
    apply w_add_whole; assumption.
  - intros [= <- <-]. exact Hw.
Qed.

Lemma condEdge_whole i k st st' :
  whole st -> flow_state (condEdge GetSlopFraction i k st) = Some st' ->
  whole st'.
Proof.
  intros Hw. unfold condEdge.
  destruct (ew_blocks st !! i) as [bDst |]; [| discriminate].
  destruct (bbPreds bDst !! k) as [edge |]; [| discriminate].
  destruct (ew_blocks st !! flBlock edge) as [bSrc |] eqn:Hsrc; [| discriminate].
  pose proof (proj1 (proj2 Hw _ _ Hsrc)) as Ws.
  destruct (bbJumpKind bSrc); try (simpl; intros [= <-]; exact Hw).
  destruct (otherEdgeOf _ _ _ _) as [other |]; [| discriminate].
  destruct (getEdge _ other.1 other.2) as [otherEdge |]; [| discriminate].
  destruct (negb _ || negb _); [discriminate |].
  destruct (adjustMinUpOrMaxDown _ _ (i, k) other st) as [[ok1 st1] |] eqn:H1;
    [| discriminate].
  pose proof (adjustMinUpOrMaxDown_whole _ _ _ _ _ _ _ Ws Hw H1) as W1.
  destruct (adjustMinUpOrMaxDown _ _ other (i, k) st1) as [[ok2 st2] |] eqn:H2;
    [| discriminate].
  pose proof (adjustMinUpOrMaxDown_whole _ _ _ _ _ _ _ Ws W1 H2) as W2.
  destruct (ok1 && ok2); simpl; intros [= <-]; exact W2.
Qed.

Lemma condBlock_whole i st st' :
  whole st -> flow_state (condBlock GetSlopFraction i st) = Some st' ->
  whole st'.
Proof.
  intros Hw. unfold condBlock.
  destruct (ew_blocks st !! i) as [bDst |]; [| discriminate].
  apply (forEach_invariant (fun s => whole s) (condEdge GetSlopFraction i));
    [| exact Hw].
  intros k s s' Hs. apply condEdge_whole. exact Hs.
Qed.

Lemma balanceEdge_whole bDst bDstWeight maxSum minSum bSrc e acc e' acc' :
  wholeEdge e -> isWhole bDstWeight = true -> isWhole maxSum = true ->
  isWhole minSum = true ->
  flow_state (balanceEdge GetSlopFraction bDst bDstWeight maxSum minSum bSrc e acc)
  = Some (e', acc') ->
  wholeEdge e'.
Proof.
  intros He Hd HM Hm. unfold balanceEdge.
  destruct (negb (w_ge maxSum (edgeWeightMax e))); [discriminate |].
  destruct (negb (w_ge minSum (edgeWeightMin e))); [discriminate |].
  assert (W1 : wholeEdge
                 (raiseMinByOthers (w_add (GetSlopFraction bSrc bDst) 1)
                    bDstWeight (w_sub maxSum (edgeWeightMax e)) e acc.1.1).1.2).
  { unfold raiseMinByOthers.
    destruct (w_ge _ _); [| exact He]. destruct (w_gt _ _); [| exact He].
    apply setEdgeWeightMinChecked_whole; [exact He |].
    apply w_sub_whole; [exact Hd |]. apply w_sub_whole; [exact HM | apply He]. }
  destruct (raiseMinByOthers _ bDstWeight _ e acc.1.1) as [[ok1 e1] us1].
  simpl in W1.
  assert (W2 : wholeEdge
                 (lowerMaxByOthers (w_add (GetSlopFraction bSrc bDst) 1)
                    bDstWeight (w_sub minSum (edgeWeightMin e)) e1 us1).1.2).
  { unfold lowerMaxByOthers.
    destruct (w_ge _ _); [| exact W1]. destruct (w_lt _ _); [| exact W1].
    apply setEdgeWeightMaxChecked_whole; [exact W1 |].
    apply w_sub_whole; [exact Hd |]. apply w_sub_whole; [exact Hm | apply He]. }
  destruct (lowerMaxByOthers _ bDstWeight _ e1 us1) as [[ok2 e2] us2].
  simpl in W2.
  destruct (negb (ok1 && ok2)); [| destruct (w_eq _ _)]; simpl;
    intros [= <- _]; exact W2.
Qed.

Lemma balanceBlock_whole i st st' :
  whole st ->
  flow_state (balanceBlock GetSlopFraction calledCount i st) = Some st' ->
  whole st'.
Proof.
  intros Hw. unfold balanceBlock.
  destruct (ew_blocks st !! i) as [bDst |] eqn:Hi; [| discriminate].
  destruct (w_eq (bbWeight bDst) BB_MAX_WEIGHT);
    [simpl; intros [= <-]; exact Hw |].
  destruct Hw as [Hc Hall]. destruct (Hall _ _ Hi) as [HbW HbE].
  assert (Hedges : forall preds' acc',
            flow_state
              (forEdges
                 (withSource (ew_blocks st)
                    (balanceEdge GetSlopFraction bDst
                       (bDstWeightOf calledCount i bDst)
                       (maxEdgeWeightSumOf (bbPreds bDst))
                       (minEdgeWeightSumOf (bbPreds bDst))))
                 (bbPreds bDst)
                 (ew_usedSlop st, ew_goodEdgeCountCurrent st,
                  ew_hasIncompleteEdgeWeights st))
            = Some (preds', acc') -> Forall wholeEdge preds').
  { intros preds' acc'. apply forEdges_Forall; [| exact HbE].
    intros e a e' a' He. unfold withSource.
    destruct (ew_blocks st !! flBlock e) as [bSrc |]; [| discriminate].
    apply balanceEdge_whole; [exact He | | |].
    - apply bDstWeightOf_whole; assumption.
    - apply maxEdgeWeightSumOf_whole. exact HbE.
    - apply minEdgeWeightSumOf_whole. exact HbE. }
  destruct (forEdges _ (bbPreds bDst) _)
    as [[preds' acc'] | [preds' acc'] |] eqn:Hloop; simpl;
    try discriminate; intros [= <-]; simpl;
    (apply wholeWeights_insert; [split; assumption | exact Hi |]);
    exact (Hedges preds' acc' eq_refl).
Qed.

(** *** The balance of a block with whole-number weights *)

(** The balance of a block with a whole-number weight below
    [exactSumLimit] and one or two predecessor edges that satisfy the edge
    invariant and have whole-number bounds leaves its weight between the
    range sums: every sum and difference the balance computes is then
    exact. *)
Lemma balanced_in_flow (W : weight_t) (preds preds' : list flowList) :
  0 <= W -> W < exactSumLimit -> isWhole W = true ->
  (1 <= length preds <= 2)%nat ->
  Forall (fun e => edge_range_ok e /\ flEdgeWeightMax e <= W /\ wholeEdge e)
         preds ->
  Forall2 (fun e e' =>
             balanced W (w_sub (maxEdgeWeightSumOf preds) (flEdgeWeightMax e))
                        (w_sub (minEdgeWeightSumOf preds) (flEdgeWeightMin e))
                        e e')
          preds preds' ->
  sumEdgeWeightMin preds' <= W /\ W <= sumEdgeWeightMax preds'.
Proof.
  unfold exactSumLimit. intros HW HWlim HWw Hlen HE HF.
  assert (Hz : isWhole 0 = true) by reflexivity.
  destruct preds as [| e1 [| e2 [| e3 rest]]]; cbn [length] in Hlen; try lia.
  - (* one edge *)
    apply Forall2_cons_inv_l in HF.
    destruct HF as (e1' & r' & Hb1 & Hr & ->).
    apply Forall2_nil_inv_l in Hr. subst r'.
    apply Forall_cons in HE. destruct HE as [([Hn1 Hr1] & Hc1 & [Wm1 WM1]) _].
    unfold balanced, narrows, maxEdgeWeightSumOf, minEdgeWeightSumOf,
      edgeWeightMax, edgeWeightMin in Hb1.
    cbn [fold_left sumEdgeWeightMin sumEdgeWeightMax] in *.
    set (m1 := flEdgeWeightMin e1) in *. set (M1 := flEdgeWeightMax e1) in *.
    assert (ESM : w_add 0 M1 == M1)
      by (rewrite w_add_exact by (assumption || lra); lra).
    assert (ESm : w_add 0 m1 == m1)
      by (rewrite w_add_exact by (assumption || lra); lra).
    assert (WSM : isWhole (w_add 0 M1) = true) by (apply w_add_whole; assumption).
    assert (WSm : isWhole (w_add 0 m1) = true) by (apply w_add_whole; assumption).
    set (SM := w_add 0 M1) in *. set (Sm := w_add 0 m1) in *.
    assert (EoM : w_sub SM M1 == 0)
      by (rewrite w_sub_exact by (assumption || lra); lra).
    assert (Eom : w_sub Sm m1 == 0)
      by (rewrite w_sub_exact by (assumption || lra); lra).
    assert (WoM : isWhole (w_sub SM M1) = true) by (apply w_sub_whole; assumption).
    assert (Wom : isWhole (w_sub Sm m1) = true) by (apply w_sub_whole; assumption).
    set (oM := w_sub SM M1) in *. set (om := w_sub Sm m1) in *.
    assert (Ecm : w_sub W oM == W)
      by (rewrite w_sub_exact by (assumption || lra); lra).
    assert (EcM : w_sub W om == W)
      by (rewrite w_sub_exact by (assumption || lra); lra).
    set (cm := w_sub W oM) in *. set (cM := w_sub W om) in *.
    destruct Hb1 as ((_ & Hmin1 & Hmax1 & Hrange1) & Hlo1 & Hhi1).
    specialize (Hrange1 Hr1).
    assert (Ha : oM <= W) by lra.
    assert (Hb : om <= W) by lra.
    destruct Hlo1 as [[El1 Hlo1] | [_ El1]];
      destruct Hhi1 as [[Eh1 Hhi1] | [_ Eh1]];
      try specialize (Hlo1 Ha); try specialize (Hhi1 Hb);
      rewrite ?El1, ?Eh1 in *; split; lra.
  - (* two edges *)
    apply Forall2_cons_inv_l in HF.
    destruct HF as (e1' & r' & Hb1 & Hr & ->).
    apply Forall2_cons_inv_l in Hr.
    destruct Hr as (e2' & r'' & Hb2 & Hr & ->).
    apply Forall2_nil_inv_l in Hr. subst r''.
    apply Forall_cons in HE. destruct HE as [([Hn1 Hr1] & Hc1 & [Wm1 WM1]) HE].
    apply Forall_cons in HE. destruct HE as [([Hn2 Hr2] & Hc2 & [Wm2 WM2]) _].
    unfold balanced, narrows, maxEdgeWeightSumOf, minEdgeWeightSumOf,
      edgeWeightMax, edgeWeightMin in Hb1, Hb2.
    cbn [fold_left sumEdgeWeightMin sumEdgeWeightMax] in *.
    set (m1 := flEdgeWeightMin e1) in *. set (M1 := flEdgeWeightMax e1) in *.
    set (m2 := flEdgeWeightMin e2) in *. set (M2 := flEdgeWeightMax e2) in *.
    assert (E0M : w_add 0 M1 == M1)
      by (rewrite w_add_exact by (assumption || lra); lra).
    assert (E0m : w_add 0 m1 == m1)
      by (rewrite w_add_exact by (assumption || lra); lra).
    assert (W0M : isWhole (w_add 0 M1) = true) by (apply w_add_whole; assumption).
    assert (W0m : isWhole (w_add 0 m1) = true) by (apply w_add_whole; assumption).
    set (S0M := w_add 0 M1) in *. set (S0m := w_add 0 m1) in *.
    assert (ESM : w_add S0M M2 == M1 + M2)
      by (rewrite w_add_exact by (assumption || lra); lra).
    assert (ESm : w_add S0m m2 == m1 + m2)
      by (rewrite w_add_exact by (assumption || lra); lra).
    assert (WSM : isWhole (w_add S0M M2) = true) by (apply w_add_whole; assumption).
    assert (WSm : isWhole (w_add S0m m2) = true) by (apply w_add_whole; assumption).
    set (SM := w_add S0M M2) in *. set (Sm := w_add S0m m2) in *.
    assert (EoM1 : w_sub SM M1 == M2)
      by (rewrite w_sub_exact by (assumption || lra); lra).
    assert (EoM2 : w_sub SM M2 == M1)
      by (rewrite w_sub_exact by (assumption || lra); lra).
    assert (Eom1 : w_sub Sm m1 == m2)
      by (rewrite w_sub_exact by (assumption || lra); lra).
    assert (Eom2 : w_sub Sm m2 == m1)
      by (rewrite w_sub_exact by (assumption || lra); lra).
    assert (WoM1 : isWhole (w_sub SM M1) = true) by (apply w_sub_whole; assumption).
    assert (WoM2 : isWhole (w_sub SM M2) = true) by (apply w_sub_whole; assumption).
    assert (Wom1 : isWhole (w_sub Sm m1) = true) by (apply w_sub_whole; assumption).
    assert (Wom2 : isWhole (w_sub Sm m2) = true) by (apply w_sub_whole; assumption).
    set (oM1 := w_sub SM M1) in *. set (oM2 := w_sub SM M2) in *.
    set (om1 := w_sub Sm m1) in *. set (om2 := w_sub Sm m2) in *.
    assert (Ecm1 : w_sub W oM1 == W - M2)
      by (rewrite w_sub_exact by (assumption || lra); lra).
    assert (Ecm2 : w_sub W oM2 == W - M1)
      by (rewrite w_sub_exact by (assumption || lra); lra).
    assert (EcM1 : w_sub W om1 == W - m2)
      by (rewrite w_sub_exact by (assumption || lra); lra).
    assert (EcM2 : w_sub W om2 == W - m1)
      by (rewrite w_sub_exact by (assumption || lra); lra).
    set (cm1 := w_sub W oM1) in *. set (cm2 := w_sub W oM2) in *.
    set (cM1 := w_sub W om1) in *. set (cM2 := w_sub W om2) in *.
    destruct Hb1 as ((_ & Hmin1 & Hmax1 & Hrange1) & Hlo1 & Hhi1).
    destruct Hb2 as ((_ & Hmin2 & Hmax2 & Hrange2) & Hlo2 & Hhi2).
    specialize (Hrange1 Hr1). specialize (Hrange2 Hr2).
    assert (Ha1 : oM1 <= W) by lra.
    assert (Ha2 : oM2 <= W) by lra.
    assert (Hb1 : om1 <= W) by lra.
    assert (Hb2 : om2 <= W) by lra.
    destruct Hlo1 as [[El1 Hlo1] | [_ El1]];
      destruct Hhi1 as [[Eh1 Hhi1] | [_ Eh1]];
      destruct Hlo2 as [[El2 Hlo2] | [_ El2]];
      destruct Hhi2 as [[Eh2 Hhi2] | [_ Eh2]];
      try specialize (Hlo1 Ha1); try specialize (Hhi1 Hb1);
      try specialize (Hlo2 Ha2); try specialize (Hhi2 Hb2);
      rewrite ?El1, ?Eh1, ?El2, ?Eh2 in *; split; lra.
Qed.

Lemma balanceBlock_noslop i st st' :
  balanceBlock GetSlopFraction calledCount i st = Continue st' ->
  ew_usedSlop st' = false ->
  ew_usedSlop st = false /\
  blockFrame <$> ew_blocks st' = blockFrame <$> ew_blocks st /\
  (forall j, j <> i -> ew_blocks st' !! j = ew_blocks st !! j) /\
  (StateInv calledCount (ew_blocks st) ->
   StateInv calledCount (ew_blocks st') /\
   (wholeWeights calledCount (ew_blocks st) -> destPost i st')).
Proof.
  unfold balanceBlock. intros H Hus.
  destruct (ew_blocks st !! i) as [bDst |] eqn:Hi; [| discriminate H].
  destruct (w_eq (bbWeight bDst) BB_MAX_WEIGHT); [discriminate H |].
  destruct (forEdges _ (bbPreds bDst) _) as [[preds' acc'] | r |] eqn:Hf;
    try discriminate H.
  injection H as <-. simpl in *.
  pose proof (forEdges_rel (fun a : bool * nat * bool => a.1.1 = false)
    (fun e e' =>
       balanced (bDstWeightOf calledCount i bDst)
         (w_sub (maxEdgeWeightSumOf (bbPreds bDst)) (flEdgeWeightMax e))
         (w_sub (minEdgeWeightSumOf (bbPreds bDst)) (flEdgeWeightMin e)) e e')
    (withSource (ew_blocks st)
       (balanceEdge GetSlopFraction bDst (bDstWeightOf calledCount i bDst)
          (maxEdgeWeightSumOf (bbPreds bDst))
          (minEdgeWeightSumOf (bbPreds bDst))))) as Hrel.
  destruct (Hrel
    ltac:(unfold withSource; intros e a e' a' Hb Hg;
          destruct (ew_blocks st !! flBlock e) as [bSrc |]; [| discriminate Hb];
          exact (balanceEdge_noslop _ _ _ _ _ _ _ _ _ Hb Hg))
    _ _ _ _ Hf Hus) as [Hus0 HF].
  pose proof (frame_insert_preds _ _ _ preds' Hi) as Hframe.
  split; [exact Hus0 |]. split; [exact Hframe |]. split.
  { intros j Hj. apply list_lookup_insert_ne. congruence. }
  intros Hinv. split.
  - apply StateInv_insert; [exact Hinv | exact Hi |].
    eapply Forall2_Forall_impl; [| exact HF | exact (Hinv _ _ Hi)].
    intros e e' [Hn _] HE. exact (EdgeInv_narrows _ _ _ _ _ HE Hn).
  - intros [Hc Hall]. destruct (Hall _ _ Hi) as [HbW HbE].
    unfold destPost. cbn [ew_blocks]. intros b Hb Hne HW Hlim Hlen.
    rewrite list_lookup_insert_eq in Hb
      by (apply lookup_lt_Some in Hi; exact Hi).
    injection Hb as <-. unfold inFlowBounded.
    cbn [bbPreds bbWeight set_bbPreds] in *.
    rewrite (bDstWeightOf_not_first _ _ Hne) in HF.
    apply (balanced_in_flow (bbWeight bDst) (bbPreds bDst) preds' HW Hlim HbW).
    + rewrite (Forall2_length _ _ _ HF). exact Hlen.
    + pose proof (Hinv _ _ Hi) as HI.
      rewrite Forall_lookup in HI. rewrite Forall_lookup in HbE.
      apply Forall_lookup. intros k e Hk.
      destruct (HI k e Hk) as (Hr & Hcap & _).
      split; [exact Hr |]. split; [| exact (HbE k e Hk)].
      rewrite <- (bDstWeightOf_not_first i bDst Hne), <- bDstWeightOf_frame.
      apply Hcap. rewrite list_lookup_fmap, Hi. reflexivity.
    + exact HF.
Qed.

Lemma balancePhase_frame idxs st st' :
  forEach (balanceBlock GetSlopFraction calledCount) idxs st = Continue st' ->
  ew_usedSlop st' = false ->
  blockFrame <$> ew_blocks st' = blockFrame <$> ew_blocks st.
Proof.
  intros H Hus.
  pose proof (forEach_rel (fun s => ew_usedSlop s = false)
    (fun s s' => blockFrame <$> ew_blocks s' = blockFrame <$> ew_blocks s)
    (balanceBlock GetSlopFraction calledCount)) as HR.
  refine (proj2 (HR _ _ _ idxs st st' H Hus)).
  - intros s. reflexivity.
  - intros s1 s2 s3 H12 H23. congruence.
  - intros i s s' Hb Hg.
    destruct (balanceBlock_noslop _ _ _ Hb Hg) as (Hg0 & Hfr & _).
    split; assumption.
Qed.

Lemma refineOnce_noslop st st' :
  refineOnce GetSlopFraction calledCount st = Continue st' ->
  ew_usedSlop st' = false ->
  ew_usedSlop st = false /\
  blockFrame <$> ew_blocks st' = blockFrame <$> ew_blocks st /\
  (StateInv calledCount (ew_blocks st) ->
   wholeWeights calledCount (ew_blocks st) ->
   StateInv calledCount (ew_blocks st') /\
   wholeWeights calledCount (ew_blocks st') /\ forall i, destPost i st').
Proof.
  unfold refineOnce. intros H Hus.
  set (st0 := mkEdgeWeightsState (ew_blocks st) (ew_usedSlop st)
                (ew_numEdges st) 0 false) in H.
  simpl in H.
  destruct (forEach (condBlock GetSlopFraction) (blockIndices (ew_blocks st)) st0)
    as [st1 | st1 |] eqn:Hcond; try discriminate H.
  pose proof (forEach_post (fun s => ew_usedSlop s = false)
    (fun s => blockFrame <$> ew_blocks s = blockFrame <$> ew_blocks st1
              /\ StateInv calledCount (ew_blocks s)
              /\ wholeWeights calledCount (ew_blocks s))
    destPost (balanceBlock GetSlopFraction calledCount)) as Hpost.
  destruct (Hpost
    ltac:(intros i s s' Hb Hg;
          destruct (balanceBlock_noslop _ _ _ Hb Hg) as (Hg0 & Hfr & _ & Hstep);
          split; [exact Hg0 |]; intros (HF & HI & HW);
          destruct (Hstep HI) as [HI' HQ];
          split;
          [split; [congruence |]; split; [exact HI' |];
           apply (balanceBlock_whole i s s' HW); rewrite Hb; reflexivity
          | exact (HQ HW)])
    ltac:(intros i j s s' Hne Hb Hg _ HQ b Hbi;
          destruct (balanceBlock_noslop _ _ _ Hb Hg) as (_ & _ & Hsame & _);
          apply HQ; rewrite <- (Hsame i Hne); exact Hbi)
    (blockIndices (ew_blocks st1)) st1 st' (NoDup_seq _ _) H Hus)
    as [Hus1 Hfin].
  destruct (forEach_rel (fun s => ew_usedSlop s = false) (keepsInv calledCount)
              (condBlock GetSlopFraction) keepsInv_refl keepsInv_trans
              condBlock_noslop _ _ _ Hcond Hus1) as [Hus0 [Hframe1 Hinv1]].
  split; [exact Hus0 |].
  assert (Hwhole1 : wholeWeights calledCount (ew_blocks st) ->
                    wholeWeights calledCount (ew_blocks st1)).
  { intros HW.
    apply (forEach_invariant (fun s => wholeWeights calledCount (ew_blocks s))
             (condBlock GetSlopFraction) (blockIndices (ew_blocks st)) condBlock_whole
             st0 st1 HW).
    rewrite Hcond. reflexivity. }
  pose proof (balancePhase_frame _ _ _ H Hus) as Hfr'.
  split; [rewrite Hfr'; exact Hframe1 |].
  intros Hinv HW.
  destruct (Hfin (conj eq_refl (conj (Hinv1 Hinv) (Hwhole1 HW))))
    as [(_ & HI & HW') HQ].
  split; [exact HI |]. split; [exact HW' |]. intros i b Hb.
  apply HQ; [| exact Hb].
  unfold blockIndices. apply elem_of_seq.
  apply lookup_lt_Some in Hb. rewrite (frame_length _ _ Hfr') in Hb. lia.
Qed.

Lemma refineLoop_noslop fuel :
  forall iterations st st',
    refineLoop GetSlopFraction calledCount (S fuel) iterations st = Continue st' ->
    ew_usedSlop st' = false ->
    ew_usedSlop st = false /\
    (StateInv calledCount (ew_blocks st) ->
     wholeWeights calledCount (ew_blocks st) ->
     StateInv calledCount (ew_blocks st') /\ forall i, destPost i st').
Proof.
  induction fuel as [| fuel IH]; intros iterations st st' H Hus;
    cbn [refineLoop] in H;
    destruct (refineOnce GetSlopFraction calledCount st) as [st1 | st1 |] eqn:Hpass;
    try discriminate H.
  - assert (st' = st1).
    { destruct (ew_numEdges st1 =? ew_goodEdgeCountCurrent st1)%nat.
      - destruct (ew_hasIncompleteEdgeWeights st1); [discriminate H |].
        injection H as <-. reflexivity.
      - destruct (_ && _); injection H as <-; reflexivity. }
    subst st'.
    destruct (refineOnce_noslop _ _ Hpass Hus) as (Hus0 & _ & Hstep).
    split; [exact Hus0 |]. intros HI HW.
    destruct (Hstep HI HW) as (A & _ & B). split; assumption.
  - destruct (ew_numEdges st1 =? ew_goodEdgeCountCurrent st1)%nat.
    { destruct (ew_hasIncompleteEdgeWeights st1); [discriminate H |].
      injection H as <-.
      destruct (refineOnce_noslop _ _ Hpass Hus) as (Hus0 & _ & Hstep).
      split; [exact Hus0 |]. intros HI HW.
      destruct (Hstep HI HW) as (A & _ & B). split; assumption. }
    destruct (_ && _).
    + destruct (IH _ _ _ H Hus) as [Hus1 Hrest].
      destruct (refineOnce_noslop _ _ Hpass Hus1) as (Hus0 & _ & Hstep).
      split; [exact Hus0 |]. intros Hinv HW.
      destruct (Hstep Hinv HW) as (Hinv1 & HW1 & _). exact (Hrest Hinv1 HW1).
    + injection H as <-.
      destruct (refineOnce_noslop _ _ Hpass Hus) as (Hus0 & _ & Hstep).
      split; [exact Hus0 |]. intros HI HW.
      destruct (Hstep HI HW) as (A & _ & B). split; assumption.
Qed.
End EdgeSolverFacts.

(** C1 (amended).  If [fgComputeEdgeWeights] runs the solver (optimizing,
    with profile weights) on a flow graph whose weights and edge bounds
    are whole numbers and whose edges have ranges [0 <= min <= max],
    terminates without marking the profile inconsistent and no checked
    setter used slop, then for every block other than the method entry
    with a non-negative weight below [2^23] and one or two predecessor
    edges, the sum of [edgeWeightMin] over its in-edges is at most its
    weight and its weight is at most the sum of [edgeWeightMax]; and
    every edge that leaves a block with an unconditional jump kind (NONE,
    ALWAYS, CALLFINALLY, EHCATCHRET) has both bounds equal to that block's
    weight. *)
Theorem fgComputeEdgeWeights_flow_bounds
    (GetSlopFraction : BasicBlock -> BasicBlock -> weight_t) (c c' : Compiler) :
  OptimizationEnabled c = true ->
  fgIsUsingProfileWeights c = true ->
  validRanges (fgBBs c) ->
  wholeWeights (fgCalledCount c) (fgBBs c) ->
  fgComputeEdgeWeights GetSlopFraction c = Continue c' ->
  fgHaveValidEdgeWeights c' = true ->
  fgSlopUsedInEdgeWeights c' = false ->
  (forall i b,
     i <> 0%nat -> fgBBs c' !! i = Some b ->
     0 <= bbWeight b -> bbWeight b < exactSumLimit ->
     (1 <= length (bbPreds b) <= 2)%nat -> inFlowBounded b) /\
  (forall i b e bSrc,
     fgBBs c' !! i = Some b -> In e (bbPreds b) ->
     fgBBs c' !! flBlock e = Some bSrc ->
     isUnconditionalJump (bbJumpKind bSrc) = true ->
     flEdgeWeightMin e == bbWeight bSrc /\ flEdgeWeightMax e == bbWeight bSrc).
Proof.
  intros Hopt Hprof Hvalidr Hwhole Hrun Hvalid Hslop.
  unfold fgComputeEdgeWeights in Hrun. rewrite Hopt, Hprof in Hrun.
  cbn [negb orb] in Hrun.
  destruct (forEach _ (blockIndices (fgBBs c)) _) as [st | st |] eqn:Hinit;
    try discriminate Hrun.
  2: { injection Hrun as <-. discriminate Hvalid. }
  destruct (refineLoop _ _ 8 0 st) as [st' | st' |] eqn:Hloop;
    try discriminate Hrun.
  2: { injection Hrun as <-. discriminate Hvalid. }
  injection Hrun as <-. cbn in Hslop. cbn [fgBBs set_edgeWeightResults set_fgBBs].
  destruct (refineLoop_noslop _ _ _ _ _ _ Hloop Hslop) as [Hus Hrest].
  destruct (initPhase_noslop _ _ (fgBBs c)
              (mkEdgeWeightsState (fgBBs c) false 0 0 false) st eq_refl
              Hinit Hus Hvalidr) as [_ Hinv].
  assert (Hwhole1 : wholeWeights (fgCalledCount c) (ew_blocks st)).
  { apply (forEach_invariant
             (fun s => wholeWeights (fgCalledCount c) (ew_blocks s))
             (initBlock GetSlopFraction (fgCalledCount c))
             (blockIndices (fgBBs c))
             (initBlock_whole GetSlopFraction (fgCalledCount c))
             (mkEdgeWeightsState (fgBBs c) false 0 0 false) st Hwhole).
    rewrite Hinit. reflexivity. }
  destruct (Hrest Hinv Hwhole1) as [Hinv' Hpost].
  split.
  - intros i b Hne Hb HW Hlim Hlen. exact (Hpost i b Hb Hne HW Hlim Hlen).
  - intros i b e bSrc Hb He Hsrc Hk.
    pose proof (Hinv' _ _ Hb) as HF. rewrite Forall_forall in HF.
    destruct (HF e ltac:(apply list_elem_of_In; exact He)) as (_ & _ & Hex).
    apply (Hex (blockFrame bSrc)); [| exact Hk].
    rewrite list_lookup_fmap, Hsrc. reflexivity.
Qed.

Lemma diamond_validRanges : validRanges (diamondBlocks 30 70).
Proof.
  intros i b Hi.
  assert (Hall : Forall (fun b => Forall edge_range_ok (bbPreds b))
                        (diamondBlocks 30 70)).
  { repeat (first [constructor | progress cbn [bbPreds entryBlockOf blockOf]]);
      unfold Qle; simpl; lia. }
  rewrite Forall_lookup in Hall. exact (Hall _ _ Hi).
Qed.

Lemma diamond_wholeWeights : wholeWeights 100 (diamondBlocks 30 70).
Proof.
  split; [reflexivity |]. intros i b Hi.
  assert (Hall : Forall (fun b => isWhole (bbWeight b) = true /\
                                  Forall wholeEdge (bbPreds b))
                        (diamondBlocks 30 70)).
  { repeat (first [constructor | progress cbn [bbPreds entryBlockOf blockOf]]). }
  rewrite Forall_lookup in Hall. exact (Hall _ _ Hi).
Qed.

Lemma fgComputeEdgeWeights_flow_bounds_witness :
  let c := compilerOf (diamondBlocks 30 70) 100 in
  exists c',
    OptimizationEnabled c = true /\
    fgIsUsingProfileWeights c = true /\
    validRanges (fgBBs c) /\
    wholeWeights (fgCalledCount c) (fgBBs c) /\
    fgComputeEdgeWeights zeroSlopFraction c = Continue c' /\
    fgHaveValidEdgeWeights c' = true /\
    fgSlopUsedInEdgeWeights c' = false /\
    (forall i b,
       i <> 0%nat -> fgBBs c' !! i = Some b ->
       0 <= bbWeight b -> bbWeight b < exactSumLimit ->
       (1 <= length (bbPreds b) <= 2)%nat -> inFlowBounded b) /\
    (forall i b e bSrc,
       fgBBs c' !! i = Some b -> In e (bbPreds b) ->
       fgBBs c' !! flBlock e = Some bSrc ->
       isUnconditionalJump (bbJumpKind bSrc) = true ->
       flEdgeWeightMin e == bbWeight bSrc /\ flEdgeWeightMax e == bbWeight bSrc).
Proof.
  intros c.
  pose (c' := match fgComputeEdgeWeights zeroSlopFraction c with
              | Continue x => x
              | _ => c
              end).
  exists c'.
  assert (Hrun : fgComputeEdgeWeights zeroSlopFraction c = Continue c')
    by (vm_compute; reflexivity).
  assert (Hvalid : fgHaveValidEdgeWeights c' = true) by (vm_compute; reflexivity).
  assert (Hslop : fgSlopUsedInEdgeWeights c' = false) by (vm_compute; reflexivity).
  split; [reflexivity |]. split; [reflexivity |].
  split; [exact diamond_validRanges |]. split; [exact diamond_wholeWeights |].
  split; [exact Hrun |].
  split; [exact Hvalid |]. split; [exact Hslop |].
  exact (fgComputeEdgeWeights_flow_bounds zeroSlopFraction c c' eq_refl eq_refl
           diamond_validRanges diamond_wholeWeights Hrun Hvalid Hslop).
Defined.

(** C1 as stated fails.  In the three-way join the solver ends valid and
    without slop, yet the join block (weight 100, not the entry) has
    in-edge minima summing to 180, and the switch block (weight 200, not a
    return or throw) has out-edge maxima summing to 180.  With two
    returning arms below a conditional branch of weight 100 it ends valid
    and without slop with out-edge minima summing to 120.  And in the
    join with large counts it ends valid and without slop with the
    in-edge maxima of the join block (weight 33554436, two in-edges)
    summing to 33554434: the differences the balance computes are
    rounded. *)
Lemma flow_bounds_fail_after_solver :
  (exists c',
     fgComputeEdgeWeights zeroSlopFraction (compilerOf threeWayJoinBlocks 200)
       = Continue c' /\
     fgHaveValidEdgeWeights c' = true /\
     fgSlopUsedInEdgeWeights c' = false /\
     ~ flowBoundsHold (fgBBs c') /\
     (exists b, fgBBs c' !! 4%nat = Some b /\ bbPreds b <> [] /\
                ~ inFlowBounded b) /\
     (exists b, fgBBs c' !! 0%nat = Some b /\ isReturnOrThrow b = false /\
                ~ outFlowBounded (fgBBs c') 0 b)) /\
  (exists c',
     fgComputeEdgeWeights zeroSlopFraction (compilerOf twoArmBlocks 100)
       = Continue c' /\
     fgHaveValidEdgeWeights c' = true /\
     fgSlopUsedInEdgeWeights c' = false /\
     exists b, fgBBs c' !! 0%nat = Some b /\ isReturnOrThrow b = false /\
               ~ outFlowBounded (fgBBs c') 0 b) /\
  (exists c',
     fgComputeEdgeWeights zeroSlopFraction
       (compilerOf roundingJoinBlocks 33554436) = Continue c' /\
     fgHaveValidEdgeWeights c' = true /\
     fgSlopUsedInEdgeWeights c' = false /\
     exists b, fgBBs c' !! 2%nat = Some b /\ length (bbPreds b) = 2%nat /\
               sumEdgeWeightMax (bbPreds b) == 33554434 /\
               ~ inFlowBounded b).
Proof.
  split; [| split].
  - pose (c' := match fgComputeEdgeWeights zeroSlopFraction
                        (compilerOf threeWayJoinBlocks 200) with
                | Continue x => x
                | _ => compilerOf threeWayJoinBlocks 200
                end).
    exists c'. split; [vm_compute; reflexivity |].
    split; [vm_compute; reflexivity |]. split; [vm_compute; reflexivity |].
    assert (Hin : forall b, fgBBs c' !! 4%nat = Some b -> ~ inFlowBounded b).
    { intros b Hb. vm_compute in Hb. injection Hb as <-.
      intros [H _]. vm_compute in H. apply H. reflexivity. }
    assert (H4 : exists b, fgBBs c' !! 4%nat = Some b /\ bbPreds b <> [])
      by (eexists; split; [vm_compute; reflexivity | discriminate]).
    destruct H4 as (b4 & Hb4 & Hp4).
    split; [| split].
    + intros [Hflow _].
      exact (Hin b4 Hb4 (Hflow 4%nat b4 ltac:(discriminate) Hb4 Hp4)).
    + exists b4. split; [exact Hb4 |]. split; [exact Hp4 | exact (Hin b4 Hb4)].
    + eexists. split; [vm_compute; reflexivity |]. split; [reflexivity |].
      intros [_ H]. vm_compute in H. apply H. reflexivity.
  - pose (c' := match fgComputeEdgeWeights zeroSlopFraction
                        (compilerOf twoArmBlocks 100) with
                | Continue x => x
                | _ => compilerOf twoArmBlocks 100
                end).
    exists c'. split; [vm_compute; reflexivity |].
    split; [vm_compute; reflexivity |]. split; [vm_compute; reflexivity |].
    eexists. split; [vm_compute; reflexivity |]. split; [reflexivity |].
    intros [H _]. vm_compute in H. apply H. reflexivity.
  - pose (c' := match fgComputeEdgeWeights zeroSlopFraction
                        (compilerOf roundingJoinBlocks 33554436) with
                | Continue x => x
                | _ => compilerOf roundingJoinBlocks 33554436
                end).
    exists c'. split; [vm_compute; reflexivity |].
    split; [vm_compute; reflexivity |]. split; [vm_compute; reflexivity |].
    eexists. split; [vm_compute; reflexivity |]. split; [reflexivity |].
    split; [vm_compute; reflexivity |].
    intros [_ H]. vm_compute in H. apply H. reflexivity.
Qed.

(** In the first two scenarios every setter call finds its weight inside
    the range, so the outcome is the same for every slop fraction. *)
Lemma flow_bounds_scenarios_slop_independent
    (GetSlopFraction : BasicBlock -> BasicBlock -> weight_t) :
  fgComputeEdgeWeights GetSlopFraction (compilerOf threeWayJoinBlocks 200)
    = fgComputeEdgeWeights zeroSlopFraction (compilerOf threeWayJoinBlocks 200)
  /\
  fgComputeEdgeWeights GetSlopFraction (compilerOf twoArmBlocks 100)
    = fgComputeEdgeWeights zeroSlopFraction (compilerOf twoArmBlocks 100).
Proof. split; vm_compute; reflexivity. Qed.

(* ===================================================================== *)
(** * Part III: further properties of the code                            *)
(* ===================================================================== *)

(** ** The checked setters *)

(** X1.  On a proper range, a checked setter accepts the new weight exactly
    when it lies in the range, or the slop is positive and the weight lies
    above the maximum by at most the slop or below the minimum by at most
    the slop, the slop being added in [float] arithmetic; both setters
    accept the same weights. *)
Theorem setEdgeWeightChecked_accepts_iff_within_slop
    (e : flowList) (newWeight slop : weight_t) (wbUsedSlop : bool) :
  flEdgeWeightMin e <= flEdgeWeightMax e ->
  ((setEdgeWeightMinChecked e newWeight slop wbUsedSlop).1.1 = true <->
   inRange e newWeight = true \/ withinSlop e newWeight slop) /\
  ((setEdgeWeightMaxChecked e newWeight slop wbUsedSlop).1.1 = true <->
   inRange e newWeight = true \/ withinSlop e newWeight slop).
Proof.
  intros Hr.
  assert (Hin : inRange e newWeight = true <->
                flEdgeWeightMin e <= newWeight /\ newWeight <= flEdgeWeightMax e).
  { unfold inRange. rewrite andb_true_iff, !w_le_true. reflexivity. }
  rewrite Hin.
  unfold withinSlop, setEdgeWeightMinChecked, setEdgeWeightMaxChecked.
  set (hi := w_add (flEdgeWeightMax e) slop).
  set (lo := w_add newWeight slop).
  split; setter_cases;
    (split; [intros Hok | intros [[Hlo Hhi] | [Hs [[Ha Hb] | [Ha Hb]]]]]);
    try discriminate; try reflexivity; try lra;
    try (left; split; lra);
    try (right; split; [lra |]; left; split; lra);
    try (right; split; [lra |]; right; split; lra).
Qed.

Lemma setEdgeWeightChecked_accepts_iff_within_slop_witness :
  let e := mkFlowList 0 0 16777216 1 in
  flEdgeWeightMin e <= flEdgeWeightMax e /\
  (setEdgeWeightMaxChecked e 16777220 3 false).1.1 = true /\
  ((setEdgeWeightMinChecked e 16777220 3 false).1.1 = true <->
   inRange e 16777220 = true \/ withinSlop e 16777220 3) /\
  ((setEdgeWeightMaxChecked e 16777220 3 false).1.1 = true <->
   inRange e 16777220 = true \/ withinSlop e 16777220 3).
Proof.
  intros e.
  assert (Hr : flEdgeWeightMin e <= flEdgeWeightMax e)
    by (unfold Qle; simpl; lia).
  split; [exact Hr |]. split; [vm_compute; reflexivity |].
  exact (setEdgeWeightChecked_accepts_iff_within_slop e 16777220 3 false Hr).
Defined.

(** X2.  A checked setter that rejects the new weight leaves the edge as it
    was, and the slop flag is raised exactly when a weight outside the
    range is accepted; it is never cleared. *)
Theorem setEdgeWeightChecked_rejection_and_slop_flag
    (e : flowList) (newWeight slop : weight_t) (wbUsedSlop : bool)
    (ok : bool) (e' : flowList) (wbUsedSlop' : bool) :
  setEdgeWeightMinChecked e newWeight slop wbUsedSlop = (ok, e', wbUsedSlop') \/
  setEdgeWeightMaxChecked e newWeight slop wbUsedSlop = (ok, e', wbUsedSlop') ->
  (ok = false -> e' = e) /\
  wbUsedSlop' = wbUsedSlop || (ok && negb (inRange e newWeight)).
Proof.
  unfold setEdgeWeightMinChecked, setEdgeWeightMaxChecked, inRange.
  change (w_ge newWeight (flEdgeWeightMin e))
    with (w_le (flEdgeWeightMin e) newWeight).
  rewrite (andb_comm (w_le newWeight (flEdgeWeightMax e))).
  destruct (w_le (flEdgeWeightMin e) newWeight && w_le newWeight (flEdgeWeightMax e)).
  - intros [H | H]; injection H as <- <- <-;
      (split; [discriminate | rewrite orb_false_r; reflexivity]).
  - intros [H | H];
      repeat match type of H with
             | context [if ?c then _ else _] => destruct c
             end;
      injection H as <- <- <-;
      (split; [try discriminate; reflexivity |]);
      simpl; rewrite ?orb_true_r, ?orb_false_r; reflexivity.
Qed.

Lemma setEdgeWeightChecked_rejection_and_slop_flag_witness :
  let e := mkFlowList 0 10 20 1 in
  (setEdgeWeightMinChecked e 40 6 false = (false, e, false) \/
   setEdgeWeightMaxChecked e 40 6 false = (false, e, false)) /\
  (false = false -> e = e) /\
  false = false || (false && negb (inRange e 40)).
Proof.
  intros e.
  assert (H : setEdgeWeightMinChecked e 40 6 false = (false, e, false) \/
              setEdgeWeightMaxChecked e 40 6 false = (false, e, false))
    by (left; vm_compute; reflexivity).
  split; [exact H |].
  exact (setEdgeWeightChecked_rejection_and_slop_flag e 40 6 false false e false H).
Defined.

(** ** Profile data *)

Lemma pgo_byte_range data i : (0 <= pgo_byte data i <= 255)%Z.
Proof.
  unfold pgo_byte. destruct (data !! Z.to_nat i) as [b |]; [| lia].
  pose proof (Byte.to_N_bounded b). lia.
Qed.

Lemma lor_le_add (a b : Z) :
  (0 <= a)%Z -> (0 <= b)%Z -> (0 <= Z.lor a b <= a + b)%Z.
Proof.
  intros Ha Hb. split; [apply Z.lor_nonneg; split; assumption |].
  pose proof (Z.add_lor_land a b) as H.
  assert (0 <= Z.land a b)%Z by (apply Z.land_nonneg; left; exact Ha).
  lia.
Qed.

Lemma read_uint32_range data off : (0 <= read_uint32 data off < 2 ^ 32)%Z.
Proof.
  unfold read_uint32.
  pose proof (pgo_byte_range data off) as H0.
  pose proof (pgo_byte_range data (off + 1)) as H1.
  pose proof (pgo_byte_range data (off + 2)) as H2.
  pose proof (pgo_byte_range data (off + 3)) as H3.
  rewrite !Z.shiftl_mul_pow2 by lia.
  set (b0 := pgo_byte data off) in *.
  set (b1 := pgo_byte data (off + 1)) in *.
  set (b2 := pgo_byte data (off + 2)) in *.
  set (b3 := pgo_byte data (off + 3)) in *.
  change (2 ^ 8)%Z with 256%Z. change (2 ^ 16)%Z with 65536%Z.
  change (2 ^ 24)%Z with 16777216%Z. change (2 ^ 32)%Z with 4294967296%Z.
  pose proof (lor_le_add (b2 * 65536) (b3 * 16777216)) as L2.
  pose proof (lor_le_add (b1 * 256) (Z.lor (b2 * 65536) (b3 * 16777216))) as L1.
  pose proof (lor_le_add b0
                (Z.lor (b1 * 256) (Z.lor (b2 * 65536) (b3 * 16777216)))) as L0.
  lia.
Qed.

Lemma scanPgoSchema_counter data schema offset w :
  scanPgoSchema data schema offset = Some w ->
  exists n : Z, w = w_of_unsigned n /\ (0 <= n < 2 ^ 32)%Z.
Proof.
  induction schema as [| e rest IH]; simpl; [discriminate |].
  destruct (is_BasicBlockIntCount (InstrumentationKind e)
            && (u32 (ILOffset e) =? offset)%Z); [| exact IH].
  intros [= <-]. eexists. split; [reflexivity | apply read_uint32_range].
Qed.

(** An unsigned 32-bit count is converted to a whole number between 0 and
    [2^32]. *)
Lemma w_of_unsigned_range (n : Z) :
  (0 <= n < 2 ^ 32)%Z ->
  0 <= w_of_unsigned n /\ w_of_unsigned n <= inject_Z (2 ^ 32) /\
  isWhole (w_of_unsigned n) = true.
Proof.
  intros Hn. unfold w_of_unsigned, roundToFloat.
  assert (Hw : isWhole (roundToPrecision 24 (inject_Z n)) = true)
    by (apply roundToPrecision_whole; [lia | apply isWhole_inject_Z]).
  destruct (Z.eq_dec n 0) as [-> | Hne].
  - split; [apply Qle_refl |]. split; [| exact Hw].
    unfold Qle. simpl. lia.
  - destruct (roundToPrecision_le_pow2 24 ltac:(lia) (inject_Z n) 32)
      as [Hpos Hle].
    + change 0 with (inject_Z 0). rewrite <- Zlt_Qlt. lia.
    + rewrite <- two_pow_Z by lia. rewrite <- Zle_Qle. lia.
    + split; [apply Qlt_le_weak; exact Hpos |]. split; [| exact Hw].
      rewrite two_pow_Z by lia. exact Hle.
Qed.

(** X3.  Outside stress mode, every weight the lookup answers is an unsigned
    32-bit count converted to [float]: a whole number between 0 and
    [2^32], and the count itself when that is below [2^24]. *)
Theorem fgGetProfileWeightForBasicBlock_counter_range
    (c : Compiler) (offset : Z) (w : weight_t) :
  fgStressBBProf c = 0%Z ->
  fgGetProfileWeightForBasicBlock c offset = Some w ->
  exists n : Z,
    (0 <= n < 2 ^ 32)%Z /\ w = w_of_unsigned n /\
    0 <= w /\ w <= inject_Z (2 ^ 32) /\ isWhole w = true /\
    ((n < 2 ^ 24)%Z -> w = inject_Z n).
Proof.
  intros Hs. unfold fgGetProfileWeightForBasicBlock. rewrite Hs. simpl.
  destruct (fgHaveProfileData c); simpl; [| discriminate].
  assert (Hconv : forall n, (0 <= n < 2 ^ 32)%Z ->
            (0 <= n < 2 ^ 32)%Z /\ w_of_unsigned n = w_of_unsigned n /\
            0 <= w_of_unsigned n /\ w_of_unsigned n <= inject_Z (2 ^ 32) /\
            isWhole (w_of_unsigned n) = true /\
            ((n < 2 ^ 24)%Z -> w_of_unsigned n = inject_Z n)).
  { intros n Hn. destruct (w_of_unsigned_range n Hn) as (H0 & H1 & H2).
    repeat (split; [assumption || reflexivity |]).
    intros Hsmall. apply w_of_unsigned_exact. lia. }
  destruct (scanPgoSchema _ _ _) as [w' |] eqn:Hscan.
  - intros [= <-]. destruct (scanPgoSchema_counter _ _ _ _ Hscan) as [n [-> Hn]].
    exists n. exact (Hconv n Hn).
  - intros [= <-]. exists 0%Z. apply (Hconv 0%Z). lia.
Qed.

Lemma fgGetProfileWeightForBasicBlock_counter_range_witness :
  let c := compilerWithData false 0 0 (Some mixedSchema) mixedData
             noInlineInfo in
  fgStressBBProf c = 0%Z /\
  fgGetProfileWeightForBasicBlock c 5 = Some (inject_Z 16777216) /\
  exists n : Z,
    (0 <= n < 2 ^ 32)%Z /\ inject_Z 16777216 = w_of_unsigned n /\
    0 <= inject_Z 16777216 /\ inject_Z 16777216 <= inject_Z (2 ^ 32) /\
    isWhole (inject_Z 16777216) = true /\
    ((n < 2 ^ 24)%Z -> inject_Z 16777216 = inject_Z n).
Proof.
  intros c.
  assert (Hs : fgStressBBProf c = 0%Z) by reflexivity.
  assert (Hw : fgGetProfileWeightForBasicBlock c 5 = Some (inject_Z 16777216))
    by (vm_compute; reflexivity).
  split; [exact Hs |]. split; [exact Hw |].
  exact (fgGetProfileWeightForBasicBlock_counter_range c 5 _ Hs Hw).
Defined.

Lemma inject_Z_range (a lo hi : Z) :
  (lo <= a <= hi)%Z -> inject_Z lo <= inject_Z a <= inject_Z hi.
Proof. intros [H1 H2]. split; rewrite <- Zle_Qle; assumption. Qed.

Lemma stressWeight_range methodHash hashSeed offset :
  0 <= stressWeight methodHash hashSeed offset <= 18480 /\
  (offset = 0%Z -> 1 <= stressWeight methodHash hashSeed offset).
Proof.
  rewrite stressWeight_exact. cbv zeta. set (hash := Z.lxor _ _).
  pose proof (Z.mod_pos_bound hash 5 ltac:(lia)) as H5.
  pose proof (Z.mod_pos_bound hash 17 ltac:(lia)) as H17.
  pose proof (Z.mod_pos_bound hash 19 ltac:(lia)) as H19.
  pose proof (Z.mod_pos_bound hash 23 ltac:(lia)) as H23.
  pose proof (Z.mod_pos_bound hash 29 ltac:(lia)) as H29.
  pose proof (Z.mod_pos_bound hash 31 ltac:(lia)) as H31.
  assert (Hfloor : 1 <= inject_Z (1 + hash mod 5) <= 18480).
  { pose proof (inject_Z_range (1 + hash mod 5) 1 5 ltac:(lia)) as H.
    change (inject_Z 1) with 1 in H. change (inject_Z 5) with 5 in H. lra. }
  set (weight := if (hash mod 3 =? 0)%Z then 0 else _).
  assert (Hw : exists n : Z, weight = inject_Z n /\ (0 <= n <= 18480)%Z).
  { unfold weight. destruct (hash mod 3 =? 0)%Z.
    - exists 0%Z. split; [reflexivity | lia].
    - destruct (hash mod 11 =? 0)%Z.
      + eexists. split; [reflexivity |].
        assert (0 <= hash mod 23 * (hash mod 29) <= 616)%Z by nia. nia.
      + eexists. split; [reflexivity | nia]. }
  destruct Hw as [n [-> Hn]].
  assert (Hq : 0 <= inject_Z n <= 18480).
  { exact (inject_Z_range n 0 18480 Hn). }
  destruct (offset =? 0)%Z eqn:E0; simpl.
  - destruct (w_eq (inject_Z n) 0) eqn:Ew.
    + split; [lra | intros _; lra].
    + split; [exact Hq |]. intros _. w_reflect.
      assert (Hn0 : (n <> 0)%Z) by (intros ->; apply Ew; reflexivity).
      change 1 with (inject_Z 1). rewrite <- Zle_Qle. lia.
  - split; [exact Hq |]. intros ->. discriminate E0.
Qed.

(** X4.  In stress mode the lookup always answers, with a weight between 0 and
    18480 (= 22 * 28 * 30), and "the first block is never given a weight
    of zero": at IL offset 0 the weight is at least 1. *)
Theorem fgGetProfileWeightForBasicBlock_stress_range
    (c : Compiler) (offset : Z) :
  fgStressBBProf c <> 0%Z ->
  exists w,
    fgGetProfileWeightForBasicBlock c offset = Some w /\
    0 <= w <= 18480 /\ (offset = 0%Z -> 1 <= w).
Proof.
  intros Hs. unfold fgGetProfileWeightForBasicBlock.
  destruct (Z.eqb_spec (fgStressBBProf c) 0) as [E | _]; [contradiction |].
  simpl. eexists. split; [reflexivity |]. apply stressWeight_range.
Qed.

Lemma fgGetProfileWeightForBasicBlock_stress_range_witness :
  let c := compilerWithData false 7 12345 None [] noInlineInfo in
  fgStressBBProf c <> 0%Z /\
  exists w,
    fgGetProfileWeightForBasicBlock c 0 = Some w /\
    0 <= w <= 18480 /\ (0%Z = 0%Z -> 1 <= w).
Proof.
  intros c.
  assert (Hs : fgStressBBProf c <> 0%Z) by (simpl; lia).
  split; [exact Hs |].
  exact (fgGetProfileWeightForBasicBlock_stress_range c 0 Hs).
Defined.

(** ** Inlinee scale *)

(** X5.  [fgComputeProfileScale] settles the scale once: afterwards the state
    is [KNOWN] or [UNAVAILABLE], a second run changes nothing, a state
    that was already settled is left alone, and nothing but the state and
    the factor of the inline information is ever written. *)
Theorem fgComputeProfileScale_settles_once (c : Compiler) :
  let c' := fgComputeProfileScale c in
  profileScaleState (impInlineInfo c') <> UNDETERMINED /\
  fgComputeProfileScale c' = c' /\
  (profileScaleState (impInlineInfo c) = UNDETERMINED \/ c' = c) /\
  iciBlock (impInlineInfo c') = iciBlock (impInlineInfo c) /\
  set_impInlineInfo (impInlineInfo c) c' = c.
Proof.
  cbv zeta.
  assert (Heta : set_impInlineInfo (impInlineInfo c) c = c)
    by (destruct c; reflexivity).
  unfold fgComputeProfileScale.
  destruct (profileScaleState (impInlineInfo c)) eqn:Est.
  - repeat match goal with
           | |- context [if ?b then _ else _] => destruct b
           | |- context [match fgGetProfileWeightForBasicBlock ?x ?y with _ => _ end] =>
               destruct (fgGetProfileWeightForBasicBlock x y)
           end;
      (split; [simpl; discriminate |]);
      (split; [reflexivity |]);
      (split; [left; reflexivity |]);
      (split; [reflexivity |]);
      destruct c; reflexivity.
  - rewrite Est. repeat split; try discriminate; try (right; reflexivity);
      try exact Heta.
  - rewrite Est. repeat split; try discriminate; try (right; reflexivity);
      try exact Heta.
Qed.

(** ** WeightPropagator: what the propagation changes *)

Lemma propagatedFrom_refl blocks : propagatedFrom blocks blocks.
Proof.
  split; [reflexivity |]. intros i b b1 H H1. left. congruence.
Qed.

Lemma newWeightFromOnlyPred_origin blocks i bDst w0 w :
  newWeightFromOnlyPred blocks i bDst w0 = Continue w ->
  w = w0 \/ exists j bj, blocks !! j = Some bj /\ w = bbWeight bj.
Proof.
  unfold newWeightFromOnlyPred.
  destruct (countOfInEdges bDst =? 1)%nat; [| intros [= <-]; left; reflexivity].
  destruct (bbPreds bDst) as [| pred rest]; [discriminate |].
  destruct (blocks !! flBlock pred) as [bSrc |] eqn:Hsrc; [| discriminate].
  destruct (option_nat_eqb _ _ && hasProfileWeight bSrc); intros [= <-].
  - right. exists (flBlock pred), bSrc. split; [exact Hsrc | reflexivity].
  - left. reflexivity.
Qed.

Lemma newWeightFromOnlyNext_origin blocks i bDst w0 w :
  newWeightFromOnlyNext blocks i bDst w0 = Continue w ->
  w = w0 \/ exists j bj, blocks !! j = Some bj /\ w = bbWeight bj.
Proof.
  unfold newWeightFromOnlyNext.
  destruct (bOnlyNextOf blocks i bDst) as [n |]; [| intros [= <-]; left; reflexivity].
  destruct (blocks !! n) as [bOnlyNext |] eqn:Hn; [| discriminate].
  destruct (bbPreds bOnlyNext) as [| pred rest]; [intros [= <-]; left; reflexivity |].
  destruct (countOfInEdges bOnlyNext =? 1)%nat; [| intros [= <-]; left; reflexivity].
  destruct (flBlock pred =? i)%nat; [| discriminate].
  intros [= <-]. right. exists n, bOnlyNext. split; [exact Hn | reflexivity].
Qed.

Lemma propagatedFrom_weight_origin blocks0 blocks j bj :
  propagatedFrom blocks0 blocks -> blocks !! j = Some bj ->
  exists j0 b0, blocks0 !! j0 = Some b0 /\ bbWeight bj = bbWeight b0.
Proof.
  intros [Hlen Hrel] Hj.
  assert (Hlt : (j < length blocks0)%nat)
    by (rewrite <- Hlen; apply lookup_lt_is_Some; eexists; exact Hj).
  apply lookup_lt_is_Some in Hlt. destruct Hlt as [b0 Hb0].
  destruct (Hrel j b0 bj Hb0 Hj) as [-> | [_ [_ [_ Horig]]]].
  - exists j, b0. split; [exact Hb0 | reflexivity].
  - exact Horig.
Qed.

Lemma fixupBlockWeight_propagated blocks0 i bDst st st1 :
  propagatedFrom blocks0 (mw_blocks st) ->
  mw_blocks st !! i = Some bDst ->
  fixupBlockWeight i bDst st = Continue st1 ->
  propagatedFrom blocks0 (mw_blocks st1) /\
  mw_returnWeight st1 = mw_returnWeight st.
Proof.
  intros Hrel Hi. unfold fixupBlockWeight.
  destruct (negb (hasProfileWeight bDst) && _) eqn:Hguard;
    [| intros [= <-]; split; [exact Hrel | reflexivity]].
  destruct (newWeightFromOnlyPred _ _ _ _) as [w1 | |] eqn:Hp; try discriminate.
  destruct (newWeightFromOnlyNext _ _ _ _) as [w2 | |] eqn:Hn; try discriminate.
  destruct (w_ne w2 BB_MAX_WEIGHT && w_ne (bbWeight bDst) w2) eqn:Hne;
    [| intros [= <-]; split; [exact Hrel | reflexivity]].
  intros [= <-]. simpl. split; [| reflexivity].
  apply andb_true_iff in Hguard. destruct Hguard as [Hprof Hpreds].
  apply negb_true_iff in Hprof.
  apply andb_true_iff in Hne. destruct Hne as [Hmax _].
  apply w_ne_true in Hmax.
  assert (Hfrom : exists j bj, mw_blocks st !! j = Some bj /\ w2 = bbWeight bj).
  { destruct (newWeightFromOnlyNext_origin _ _ _ _ _ Hn) as [-> | H]; [| exact H].
    destruct (newWeightFromOnlyPred_origin _ _ _ _ _ Hp) as [-> | H]; [| exact H].
    exfalso. apply Hmax. reflexivity. }
  destruct Hfrom as [j [bj [Hj ->]]].
  destruct (propagatedFrom_weight_origin _ _ _ _ Hrel Hj) as [j0 [b0 [Hj0 Hw0]]].
  destruct Hrel as [Hlen Hrel]. split; [rewrite length_insert; exact Hlen |].
  intros i' b b1 Hb Hb1.
  destruct (Nat.eq_dec i' i) as [-> | Hne'].
  - rewrite list_lookup_insert_eq in Hb1
      by (apply lookup_lt_is_Some; eexists; exact Hi).
    injection Hb1 as <-. right.
    destruct (Hrel i b bDst Hb Hi) as [-> | [Hb_prof [Hb_preds [Hrw _]]]].
    + split; [exact Hprof |]. split.
      { intros E. rewrite E in Hpreds. discriminate. }
      split; [reflexivity |]. exists j0, b0. split; [exact Hj0 | exact Hw0].
    + split; [exact Hb_prof |]. split; [exact Hb_preds |].
      split; [rewrite Hrw; reflexivity |].
      exists j0, b0. split; [exact Hj0 | exact Hw0].
  - rewrite list_lookup_insert_ne in Hb1 by (intros E; apply Hne'; symmetry; exact E).
    exact (Hrel i' b b1 Hb Hb1).
Qed.

Lemma missingWeightsBody_propagated blocks0 i st st1 :
  propagatedFrom blocks0 (mw_blocks st) ->
  missingWeightsBody i st = Continue st1 ->
  propagatedFrom blocks0 (mw_blocks st1) /\
  exists b0, blocks0 !! i = Some b0 /\
    mw_returnWeight st1 = addReturnWeight (mw_returnWeight st) b0.
Proof.
  intros Hrel. unfold missingWeightsBody.
  destruct (mw_blocks st !! i) as [bDst |] eqn:Hi; [| discriminate].
  destruct (fixupBlockWeight i bDst st) as [st' | st' |] eqn:Hfix; try discriminate.
  destruct (fixupBlockWeight_propagated _ _ _ _ _ Hrel Hi Hfix) as [Hrel' Hrw].
  destruct (mw_blocks st' !! i) as [bDst1 |] eqn:Hi1; [| discriminate].
  assert (Hlt : (i < length blocks0)%nat).
  { rewrite <- (proj1 Hrel'). apply lookup_lt_is_Some. eexists. exact Hi1. }
  apply lookup_lt_is_Some in Hlt. destruct Hlt as [b0 Hb0].
  assert (Hadd : (if hasProfileWeight bDst1 && isReturnOrThrow bDst1
                  then w_add (mw_returnWeight st') (bbWeight bDst1)
                  else mw_returnWeight st')
                 = addReturnWeight (mw_returnWeight st) b0).
  { unfold addReturnWeight. rewrite Hrw.
    destruct (proj2 Hrel' i b0 bDst1 Hb0 Hi1) as [-> | [Hprof [_ [Hre _]]]];
      [reflexivity |].
    rewrite Hre. unfold hasProfileWeight in *. simpl. rewrite Hprof. reflexivity. }
  destruct (hasProfileWeight bDst1 && isReturnOrThrow bDst1);
    intros [= <-]; simpl; (split; [exact Hrel' |]); exists b0;
    (split; [exact Hb0 | exact Hadd]).
Qed.

Lemma missingWeightsScan_propagated blocks0 n :
  forall k st st',
    propagatedFrom blocks0 (mw_blocks st) ->
    forEach missingWeightsBody (seq k n) st = Continue st' ->
    propagatedFrom blocks0 (mw_blocks st') /\
    mw_returnWeight st'
    = fold_left addReturnWeight (take n (drop k blocks0)) (mw_returnWeight st).
Proof.
  induction n as [| n IH]; intros k st st' Hrel; simpl.
  - intros [= <-]. split; [exact Hrel | reflexivity].
  - destruct (missingWeightsBody k st) as [st1 | st1 |] eqn:Hb; try discriminate.
    intros Hrest.
    destruct (missingWeightsBody_propagated _ _ _ _ Hrel Hb)
      as [Hrel1 [b0 [Hb0 Hrw]]].
    destruct (IH (S k) st1 st' Hrel1 Hrest) as [Hrel' Hsum].
    split; [exact Hrel' |].
    rewrite (drop_S _ _ _ Hb0). simpl. rewrite <- Hrw. exact Hsum.
Qed.

Lemma missingWeightsLoop_propagated blocks0 fuel :
  forall iterations blocks modified st,
    (0 < fuel)%nat -> (10 <= fuel + iterations)%nat ->
    propagatedFrom blocks0 blocks ->
    missingWeightsLoop fuel iterations blocks modified = Continue st ->
    propagatedFrom blocks0 (mw_blocks st) /\
    mw_returnWeight st = returnWeightOf blocks0.
Proof.
  induction fuel as [| fuel IH]; intros iterations blocks modified st Hpos Hfuel Hrel;
    [lia |].
  simpl.
  destruct (forEach missingWeightsBody (blockIndices blocks) _)
    as [st1 | st1 |] eqn:Hscan; try discriminate.
  destruct (missingWeightsScan_propagated blocks0 (length blocks) 0
              (mkMissingWeightsState blocks false modified 0) st1 Hrel Hscan)
    as [Hrel1 Hsum].
  simpl in Hsum. rewrite drop_0, (proj1 Hrel), firstn_all in Hsum.
  destruct (mw_changed st1 && (S iterations <? 10)%nat) eqn:Hagain.
  - apply andb_true_iff in Hagain. destruct Hagain as [_ Hit].
    apply Nat.ltb_lt in Hit.
    apply IH; [lia | lia | exact Hrel1].
  - intros [= <-]. split; [exact Hrel1 | exact Hsum].
Qed.

Lemma fgComputeMissingBlockWeights_propagated c c1 returnWeight :
  fgComputeMissingBlockWeights c = Continue (c1, returnWeight) ->
  c1 = set_fgBBs (fgBBs c1) c /\
  propagatedFrom (fgBBs c) (fgBBs c1) /\
  returnWeight = returnWeightOf (fgBBs c).
Proof.
  unfold fgComputeMissingBlockWeights.
  destruct (missingWeightsLoop 10 0 (fgBBs c) false) as [st | st |] eqn:Hl;
    try discriminate.
  intros [= <- <-].
  destruct (missingWeightsLoop_propagated (fgBBs c) 10 0 (fgBBs c) false st
              ltac:(lia) ltac:(lia) (propagatedFrom_refl _) Hl) as [Hrel Hrw].
  split; [destruct c; reflexivity |]. split; [exact Hrel | exact Hrw].
Qed.

Lemma propagatedFrom_shape blocks0 blocks i b0 b :
  propagatedFrom blocks0 blocks ->
  blocks0 !! i = Some b0 -> blocks !! i = Some b ->
  bbPreds b = bbPreds b0 /\ bbJumpKind b = bbJumpKind b0 /\
  bbJumpDest b = bbJumpDest b0 /\ bbRefs b = bbRefs b0.
Proof.
  intros [_ Hrel] H0 H.
  destruct (Hrel i b0 b H0 H) as [-> | [_ [_ [Hre _]]]];
    [repeat split | rewrite Hre; repeat split].
Qed.

Lemma propagatedFrom_lookup blocks0 blocks i b :
  propagatedFrom blocks0 blocks -> blocks !! i = Some b ->
  exists b0, blocks0 !! i = Some b0.
Proof.
  intros [Hlen _] H. apply lookup_lt_is_Some. rewrite <- Hlen.
  apply lookup_lt_is_Some. eexists. exact H.
Qed.

Lemma bOnlyNextOf_propagated blocks0 blocks i b0 b :
  propagatedFrom blocks0 blocks ->
  blocks0 !! i = Some b0 -> blocks !! i = Some b ->
  bOnlyNextOf blocks i b = bOnlyNextOf blocks0 i b0.
Proof.
  intros Hrel H0 H.
  destruct (propagatedFrom_shape _ _ _ _ _ Hrel H0 H) as [_ [Hk [Hd _]]].
  unfold bOnlyNextOf, bbNext. rewrite Hk, Hd, (proj1 Hrel). reflexivity.
Qed.

Lemma missingWeightsBody_succeeds blocks0 i st :
  propagationPrecondition blocks0 ->
  propagatedFrom blocks0 (mw_blocks st) ->
  (i < length blocks0)%nat ->
  exists st1, missingWeightsBody i st = Continue st1.
Proof.
  intros Hpre Hrel Hi.
  assert (Hlen := proj1 Hrel).
  destruct (lookup_lt_is_Some_2 blocks0 i Hi) as [b0 Hb0].
  destruct (lookup_lt_is_Some_2 (mw_blocks st) i ltac:(lia)) as [bDst HbDst].
  destruct (propagatedFrom_shape _ _ _ _ _ Hrel Hb0 HbDst)
    as [Hpreds [Hkind [Hdest Hrefs]]].
  destruct (Hpre i b0 Hb0) as [Hsrc [Hjump Hnext]].
  assert (Hfix : exists st', fixupBlockWeight i bDst st = Continue st' /\
                             length (mw_blocks st') = length blocks0).
  { unfold fixupBlockWeight.
    destruct (negb (hasProfileWeight bDst) && _) eqn:Hguard;
      [| eexists; split; [reflexivity | exact Hlen]].
    assert (Hp : exists w1,
               newWeightFromOnlyPred (mw_blocks st) i bDst BB_MAX_WEIGHT
               = Continue w1).
    { unfold newWeightFromOnlyPred.
      destruct (countOfInEdges bDst =? 1)%nat; [| eexists; reflexivity].
      apply andb_true_iff in Hguard. destruct Hguard as [_ Hne].
      destruct (bbPreds bDst) as [| pred rest] eqn:Hpr; [discriminate |].
      destruct (lookup_lt_is_Some_2 (mw_blocks st) (flBlock pred)) as [bSrc ->].
      { rewrite Hlen. exact (Hsrc pred rest (eq_sym Hpreds)). }
      destruct (option_nat_eqb _ _ && hasProfileWeight bSrc); eexists; reflexivity. }
    destruct Hp as [w1 ->].
    assert (Hn : exists w2,
               newWeightFromOnlyNext (mw_blocks st) i bDst w1 = Continue w2).
    { unfold newWeightFromOnlyNext.
      rewrite (bOnlyNextOf_propagated _ _ _ _ _ Hrel Hb0 HbDst).
      destruct (bOnlyNextOf blocks0 i b0) as [n |] eqn:Hon; [| eexists; reflexivity].
      assert (Hnlt : (n < length blocks0)%nat).
      { unfold bOnlyNextOf, bbNext in Hon.
        destruct (bbJumpKind b0) eqn:Hk; try discriminate.
        - destruct (S i <? length blocks0)%nat eqn:Hlt; [| discriminate].
          injection Hon as <-. apply Nat.ltb_lt in Hlt. exact Hlt.
        - exact (Hjump n eq_refl Hon). }
      destruct (lookup_lt_is_Some_2 blocks0 n Hnlt) as [bNext0 HbNext0].
      destruct (lookup_lt_is_Some_2 (mw_blocks st) n ltac:(lia)) as [bNext HbNext].
      rewrite HbNext.
      destruct (propagatedFrom_shape _ _ _ _ _ Hrel HbNext0 HbNext)
        as [Hnpreds [_ [_ Hnrefs]]].
      destruct (bbPreds bNext) as [| pred rest] eqn:Hpr; [eexists; reflexivity |].
      destruct (countOfInEdges bNext =? 1)%nat eqn:Hone; [| eexists; reflexivity].
      apply Nat.eqb_eq in Hone.
      assert (Hfrom : flBlock pred = i).
      { apply (Hnext n bNext0 pred rest eq_refl HbNext0).
        - symmetry. exact Hnpreds.
        - unfold countOfInEdges in *. rewrite <- Hnrefs. exact Hone. }
      rewrite Hfrom, Nat.eqb_refl. eexists. reflexivity. }
    destruct Hn as [w2 ->].
    destruct (w_ne w2 BB_MAX_WEIGHT && w_ne (bbWeight bDst) w2);
      eexists; (split; [reflexivity |]); simpl;
      rewrite ?length_insert; exact Hlen. }
  destruct Hfix as [st' [Hfix Hlen']].
  unfold missingWeightsBody. rewrite HbDst, Hfix.
  destruct (lookup_lt_is_Some_2 (mw_blocks st') i ltac:(lia)) as [bDst1 ->].
  destruct (hasProfileWeight bDst1 && isReturnOrThrow bDst1); eexists; reflexivity.
Qed.

Lemma missingWeightsScan_succeeds blocks0 n :
  propagationPrecondition blocks0 ->
  forall k st,
    propagatedFrom blocks0 (mw_blocks st) ->
    (k + n <= length blocks0)%nat ->
    exists st', forEach missingWeightsBody (seq k n) st = Continue st'.
Proof.
  intros Hpre. induction n as [| n IH]; intros k st Hrel Hk; simpl.
  - eexists. reflexivity.
  - destruct (missingWeightsBody_succeeds blocks0 k st Hpre Hrel ltac:(lia))
      as [st1 Hb].
    rewrite Hb.
    apply IH; [| lia].
    exact (proj1 (missingWeightsBody_propagated _ _ _ _ Hrel Hb)).
Qed.

Lemma missingWeightsLoop_succeeds blocks0 fuel :
  propagationPrecondition blocks0 ->
  forall iterations blocks modified,
    propagatedFrom blocks0 blocks ->
    exists st, missingWeightsLoop fuel iterations blocks modified = Continue st.
Proof.
  intros Hpre. induction fuel as [| fuel IH]; intros iterations blocks modified Hrel;
    simpl; [eexists; reflexivity |].
  destruct (missingWeightsScan_succeeds blocks0 (length blocks) Hpre 0
              (mkMissingWeightsState blocks false modified 0) Hrel
              ltac:(rewrite (proj1 Hrel); lia)) as [st1 Hscan].
  unfold blockIndices. rewrite Hscan.
  destruct (mw_changed st1 && (S iterations <? 10)%nat); [| eexists; reflexivity].
  apply IH.
  exact (proj1 (missingWeightsScan_propagated blocks0 (length blocks) 0
                  (mkMissingWeightsState blocks false modified 0) st1
                  Hrel Hscan)).
Qed.

(** X6.  [fgComputeMissingBlockWeights] may write the weight and the
    run-rarely flag of a block that has no profile weight and has a
    predecessor edge, and nothing else: a block that carries a profile
    weight or has no predecessor edge is left as it was, every other
    block is as it was or has a new weight with the run-rarely flag set
    exactly when that weight is zero, and no block is added or removed. *)
Theorem fgComputeMissingBlockWeights_frame
    (c c1 : Compiler) (returnWeight : weight_t) :
  fgComputeMissingBlockWeights c = Continue (c1, returnWeight) ->
  c1 = set_fgBBs (fgBBs c1) c /\
  length (fgBBs c1) = length (fgBBs c) /\
  forall i b b1, fgBBs c !! i = Some b -> fgBBs c1 !! i = Some b1 ->
    (b1 = b \/ reweighted b b1) /\
    (hasProfileWeight b = true \/ bbPreds b = [] -> b1 = b).
Proof.
  intros Hrun.
  destruct (fgComputeMissingBlockWeights_propagated _ _ _ Hrun)
    as [Hc1 [[Hlen Hrel] _]].
  split; [exact Hc1 |]. split; [exact Hlen |].
  intros i b b1 Hb Hb1.
  destruct (Hrel i b b1 Hb Hb1) as [-> | [Hprof [Hpreds [Hre _]]]].
  - split; [left; reflexivity | intros _; reflexivity].
  - split; [right; exact Hre |].
    intros [H | H]; [rewrite Hprof in H; discriminate | contradiction].
Qed.

Lemma fgComputeMissingBlockWeights_frame_witness :
  let c := compilerOf propagationBlocks 100 in
  exists c1 returnWeight,
    fgComputeMissingBlockWeights c = Continue (c1, returnWeight) /\
    c1 = set_fgBBs (fgBBs c1) c /\
    length (fgBBs c1) = length (fgBBs c) /\
    forall i b b1, fgBBs c !! i = Some b -> fgBBs c1 !! i = Some b1 ->
      (b1 = b \/ reweighted b b1) /\
      (hasProfileWeight b = true \/ bbPreds b = [] -> b1 = b).
Proof.
  intros c. eexists. eexists.
  assert (H1 : fgComputeMissingBlockWeights c
               = Continue (set_fgBBs
                   [ entryBlockOf 100 true BBJ_NONE None 0 [];
                     assignPropagatedWeight 100
                       (blockOf 1 false BBJ_NONE None 5 [edgeFrom 0]);
                     blockOf 100 true BBJ_RETURN None 10 [edgeFrom 1] ] c,
                   0 + 100)) by (vm_compute; reflexivity).
  split; [exact H1 |].
  exact (fgComputeMissingBlockWeights_frame _ _ _ H1).
Defined.

(** X7.  The propagation invents no weight: every weight a block has after
    [fgComputeMissingBlockWeights] is the weight some block had before. *)
Theorem fgComputeMissingBlockWeights_copies_weights
    (c c1 : Compiler) (returnWeight : weight_t) :
  fgComputeMissingBlockWeights c = Continue (c1, returnWeight) ->
  forall i b1, fgBBs c1 !! i = Some b1 ->
    exists j b, fgBBs c !! j = Some b /\ bbWeight b1 = bbWeight b.
Proof.
  intros Hrun i b1 Hb1.
  destruct (fgComputeMissingBlockWeights_propagated _ _ _ Hrun) as [_ [Hrel _]].
  exact (propagatedFrom_weight_origin _ _ _ _ Hrel Hb1).
Qed.

Lemma fgComputeMissingBlockWeights_copies_weights_witness :
  let c := compilerOf unprofiledSuccessorBlocks 100 in
  exists c1 returnWeight,
    fgComputeMissingBlockWeights c = Continue (c1, returnWeight) /\
    forall i b1, fgBBs c1 !! i = Some b1 ->
      exists j b, fgBBs c !! j = Some b /\ bbWeight b1 = bbWeight b.
Proof.
  intros c.
  pose (r := match fgComputeMissingBlockWeights c with
             | Continue x => x
             | _ => (c, 0)
             end).
  exists r.1, r.2.
  assert (H1 : fgComputeMissingBlockWeights c = Continue (r.1, r.2))
    by (vm_compute; reflexivity).
  split; [exact H1 |].
  exact (fgComputeMissingBlockWeights_copies_weights _ _ _ H1).
Defined.

(** X8.  The value [fgComputeMissingBlockWeights] returns is the [float]
    sum of the weights of the return and throw blocks that carry a
    profile weight: accumulated from zero in block order, every partial
    sum rounded, over the flow graph as it was on entry (such blocks are
    never reweighted), however many passes the propagation took. *)
Theorem fgComputeMissingBlockWeights_returns_exit_weight
    (c c1 : Compiler) (returnWeight : weight_t) :
  fgComputeMissingBlockWeights c = Continue (c1, returnWeight) ->
  returnWeight = returnWeightOf (fgBBs c).
Proof.
  intros Hrun.
  exact (proj2 (proj2 (fgComputeMissingBlockWeights_propagated _ _ _ Hrun))).
Qed.

Lemma fgComputeMissingBlockWeights_returns_exit_weight_witness :
  let c := compilerOf roundingReturnBlocks 100 in
  exists c1 returnWeight,
    fgComputeMissingBlockWeights c = Continue (c1, returnWeight) /\
    returnWeightOf (fgBBs c) = 16777216 /\
    returnWeight = returnWeightOf (fgBBs c).
Proof.
  intros c.
  pose (r := match fgComputeMissingBlockWeights c with
             | Continue x => x
             | _ => (c, 0)
             end).
  exists r.1, r.2.
  assert (H1 : fgComputeMissingBlockWeights c = Continue (r.1, r.2))
    by (vm_compute; reflexivity).
  split; [exact H1 |]. split; [vm_compute; reflexivity |].
  exact (fgComputeMissingBlockWeights_returns_exit_weight _ _ _ H1).
Defined.

(** X9.  On a flow graph whose predecessor edges and jump targets name blocks
    of the method, and where the single in-edge of an only successor
    comes from the block it succeeds, [fgComputeMissingBlockWeights]
    returns: no [noway_assert] fails and no null block is dereferenced. *)
Theorem fgComputeMissingBlockWeights_succeeds (c : Compiler) :
  propagationPrecondition (fgBBs c) ->
  exists c1 returnWeight,
    fgComputeMissingBlockWeights c = Continue (c1, returnWeight).
Proof.
  intros Hpre. unfold fgComputeMissingBlockWeights.
  destruct (missingWeightsLoop_succeeds (fgBBs c) 10 Hpre 0 (fgBBs c) false
              (propagatedFrom_refl _)) as [st ->].
  eexists. eexists. reflexivity.
Qed.

Lemma propagationBlocks_precondition : propagationPrecondition propagationBlocks.
Proof.
  intros i b Hi.
  destruct i as [| [| [| i]]]; simpl in Hi; try discriminate Hi;
    injection Hi as <-; (split; [| split]).
  all: try (intros pred rest H; simpl in H; try discriminate H;
            injection H as <- <-; simpl; lia).
  all: try (intros d Hk; discriminate Hk).
  all: intros n bNext pred rest Hon Hn Hp _; vm_compute in Hon;
    try discriminate Hon; injection Hon as <-; simpl in Hn;
    injection Hn as <-; simpl in Hp; injection Hp as <- <-; reflexivity.
Qed.

Lemma fgComputeMissingBlockWeights_succeeds_witness :
  propagationPrecondition (fgBBs (compilerOf propagationBlocks 100)) /\
  exists c1 returnWeight,
    fgComputeMissingBlockWeights (compilerOf propagationBlocks 100)
    = Continue (c1, returnWeight).
Proof.
  split; [exact propagationBlocks_precondition |].
  exact (fgComputeMissingBlockWeights_succeeds (compilerOf propagationBlocks 100)
           propagationBlocks_precondition).
Defined.

(** X10.  [fgComputeCalledCount] fails exactly when the method has no block
    that is not internal (the walk past the internal blocks runs off the
    block list); otherwise it returns, leaving the block list as long as
    it was and every block but the first as it was. *)
Theorem fgComputeCalledCount_fails_iff_no_IL_block
    (c : Compiler) (returnWeight : weight_t) :
  (fgComputeCalledCount c returnWeight = Abort <->
   Forall (fun b => BBF_INTERNAL (bbFlags b) = true) (fgBBs c)) /\
  (fgComputeCalledCount c returnWeight <> Abort ->
   exists c', fgComputeCalledCount c returnWeight = Continue c' /\
     length (fgBBs c') = length (fgBBs c) /\
     forall i, i <> 0%nat -> fgBBs c' !! i = fgBBs c !! i).
Proof.
  assert (Hnone : forall l, firstILBlockOf l = None <->
                    Forall (fun b => BBF_INTERNAL (bbFlags b) = true) l).
  { induction l as [| b l IH]; simpl; [split; [constructor | reflexivity] |].
    destruct (BBF_INTERNAL (bbFlags b)) eqn:Hb.
    - rewrite IH. split; [intros H; constructor; assumption |].
      intros H. apply Forall_cons in H. apply H.
    - split; [discriminate |]. intros H. apply Forall_cons in H.
      destruct H as [H _]. rewrite Hb in H. discriminate. }
  unfold fgComputeCalledCount.
  destruct (firstILBlockOf (fgBBs c)) as [firstILBlock |] eqn:Hfirst.
  - assert (Hne : exists b rest, fgBBs c = b :: rest).
    { destruct (fgBBs c) as [| b rest]; [discriminate | eexists; eexists; reflexivity]. }
    destruct Hne as [b [rest Hbs]].
    destruct (fgFirstBBisScratch _); simpl; rewrite ?Hbs; simpl.
    + split.
      * split; [discriminate |]. intros H. rewrite <- Hbs in H.
        apply Hnone in H. rewrite H in Hfirst. discriminate.
      * intros _. eexists. split; [reflexivity |]. simpl.
        split; [reflexivity |]. intros [| i] Hi; [contradiction | reflexivity].
    + split.
      * split; [discriminate |]. intros H. rewrite <- Hbs in H.
        apply Hnone in H. rewrite H in Hfirst. discriminate.
      * intros _. eexists. split; [reflexivity |]. simpl. rewrite ?Hbs.
        split; [reflexivity |]. intros; reflexivity.
  - split.
    + split; [intros _; apply Hnone; exact Hfirst | reflexivity].
    + intros H. contradiction.
Qed.

Lemma fgComputeCalledCount_fails_iff_no_IL_block_witness :
  fgComputeCalledCount scratchFirstCompiler 0 <> Abort /\
  exists c', fgComputeCalledCount scratchFirstCompiler 0 = Continue c' /\
    length (fgBBs c') = length (fgBBs scratchFirstCompiler) /\
    forall i, i <> 0%nat -> fgBBs c' !! i = fgBBs scratchFirstCompiler !! i.
Proof.
  assert (H : fgComputeCalledCount scratchFirstCompiler 0 <> Abort)
    by (vm_compute; discriminate).
  split; [exact H |].
  exact (proj2 (fgComputeCalledCount_fails_iff_no_IL_block scratchFirstCompiler 0) H).
Defined.

(** ** EdgeSolver: what the solver changes *)

Lemma rangeUpdated_refl e : rangeUpdated e e.
Proof. repeat split; auto. Qed.

Lemma rangeUpdated_trans e1 e2 e3 :
  rangeUpdated e1 e2 -> rangeUpdated e2 e3 -> rangeUpdated e1 e3.
Proof.
  intros [A1 [B1 C1]] [A2 [B2 C2]]. repeat split; try congruence. auto.
Qed.

Lemma Forall2_refl_rel {A : Type} (R : A -> A -> Prop) (l : list A) :
  (forall x, R x x) -> Forall2 R l l.
Proof. intros H. induction l; constructor; auto. Qed.

Lemma Forall2_trans_rel {A : Type} (R : A -> A -> Prop) :
  (forall x y z, R x y -> R y z -> R x z) ->
  forall l1 l2 l3, Forall2 R l1 l2 -> Forall2 R l2 l3 -> Forall2 R l1 l3.
Proof.
  intros Ht l1 l2 l3 H. revert l3.
  induction H as [| x y l1 l2 Hxy _ IH]; intros l3 H3.
  - apply Forall2_nil_inv_l in H3. subst. constructor.
  - apply Forall2_cons_inv_l in H3. destruct H3 as [z [l3' [Hyz [Hl ->]]]].
    constructor; [exact (Ht _ _ _ Hxy Hyz) | exact (IH _ Hl)].
Qed.

Lemma edgesUpdated_refl blocks : edgesUpdated blocks blocks.
Proof.
  split; [reflexivity |]. intros i b b' H H'.
  assert (b' = b) as -> by congruence.
  split; [reflexivity | apply Forall2_refl_rel, rangeUpdated_refl].
Qed.

Lemma edgesUpdated_trans l1 l2 l3 :
  edgesUpdated l1 l2 -> edgesUpdated l2 l3 -> edgesUpdated l1 l3.
Proof.
  intros [Hlen1 H1] [Hlen2 H2]. split; [congruence |].
  intros i b b' Hb Hb'.
  destruct (lookup_lt_is_Some_2 l2 i) as [b2 Hb2].
  { rewrite Hlen1. apply lookup_lt_is_Some. eexists. exact Hb. }
  destruct (H1 i b b2 Hb Hb2) as [F1 E1].
  destruct (H2 i b2 b' Hb2 Hb') as [F2 E2].
  split; [congruence |].
  exact (Forall2_trans_rel _ rangeUpdated_trans _ _ _ E1 E2).
Qed.

Lemma edgesUpdated_insert blocks i b p :
  blocks !! i = Some b -> Forall2 rangeUpdated (bbPreds b) p ->
  edgesUpdated blocks (<[i := set_bbPreds p b]> blocks).
Proof.
  intros Hi Hp. split; [apply length_insert |].
  intros j bj bj' Hj Hj'.
  destruct (decide (i = j)) as [<- | Hne].
  - rewrite list_lookup_insert_eq in Hj' by (apply lookup_lt_Some in Hi; exact Hi).
    injection Hj' as <-. assert (bj = b) as -> by congruence.
    split; [reflexivity | exact Hp].
  - rewrite list_lookup_insert_ne in Hj' by exact Hne.
    assert (bj' = bj) as -> by congruence.
    split; [reflexivity | apply Forall2_refl_rel, rangeUpdated_refl].
Qed.

Lemma edgesUpdated_setEdge blocks i k e e' :
  getEdge blocks i k = Some e -> rangeUpdated e e' ->
  edgesUpdated blocks (setEdge blocks i k e').
Proof.
  unfold getEdge, setEdge. intros Hget Hr.
  destruct (blocks !! i) as [b |] eqn:Hi; [| discriminate]. simpl in Hget.
  apply edgesUpdated_insert; [exact Hi |].
  rewrite <- (list_insert_id (bbPreds b) k e Hget) at 1.
  apply Forall2_insert; [apply Forall2_refl_rel, rangeUpdated_refl | exact Hr].
Qed.

Lemma setEdgeWeightMinChecked_updated e newWeight slop us :
  rangeUpdated e (setEdgeWeightMinChecked e newWeight slop us).1.2.
Proof.
  unfold rangeUpdated, setEdgeWeightMinChecked.
  setter_cases; repeat split; try reflexivity; intros; lra.
Qed.

Lemma setEdgeWeightMaxChecked_updated e newWeight slop us :
  rangeUpdated e (setEdgeWeightMaxChecked e newWeight slop us).1.2.
Proof.
  unfold rangeUpdated, setEdgeWeightMaxChecked.
  setter_cases; repeat split; try reflexivity; intros; lra.
Qed.

(** An edge loop relates the edges before and after by a reflexive [R]
    that every step establishes, however the loop ends. *)
Lemma forEdges_updated {A : Type} (R : flowList -> flowList -> Prop)
    (body : flowList -> A -> Flow (flowList * A)) :
  (forall e, R e e) ->
  (forall e a e' a', flow_state (body e a) = Some (e', a') -> R e e') ->
  forall preds a preds' a',
    flow_state (forEdges body preds a) = Some (preds', a') ->
    Forall2 R preds preds'.
Proof.
  intros Hrefl Hbody. induction preds as [| e rest IH]; simpl; intros a preds' a' H.
  - injection H as <- <-. constructor.
  - destruct (body e a) as [[e1 a1] | [e1 a1] |] eqn:Hb; simpl in H;
      [| | discriminate].
    + assert (He : R e e1) by (apply (Hbody e a e1 a1); rewrite Hb; reflexivity).
      destruct (forEdges body rest a1) as [[rest1 a2] | [rest1 a2] |] eqn:Hr;
        simpl in H; try discriminate; injection H as <- <-;
        (constructor; [exact He |]); apply (IH a1 rest1 a2); rewrite Hr; reflexivity.
    + injection H as <- <-.
      constructor; [| apply Forall2_refl_rel, Hrefl].
      apply (Hbody e a e1 a1). rewrite Hb. reflexivity.
Qed.

(** A block loop relates the states before and after by a reflexive and
    transitive [T] that every step establishes, however the loop ends. *)
Lemma forEach_updated {S : Type} (T : S -> S -> Prop)
    (body : nat -> S -> Flow S) :
  (forall s, T s s) ->
  (forall s1 s2 s3, T s1 s2 -> T s2 s3 -> T s1 s3) ->
  (forall i s s', flow_state (body i s) = Some s' -> T s s') ->
  forall idxs s s',
    flow_state (forEach body idxs s) = Some s' -> T s s'.
Proof.
  intros Hrefl Htrans Hbody. induction idxs as [| i rest IH]; simpl; intros s s' H.
  - injection H as <-. apply Hrefl.
  - destruct (body i s) as [s1 | s1 |] eqn:Hb; simpl in H; [| | discriminate].
    + apply (Htrans s s1 s').
      * apply (Hbody i). rewrite Hb. reflexivity.
      * apply IH. exact H.
    + injection H as <-. apply (Hbody i). rewrite Hb. reflexivity.
Qed.

Section EdgeSolverFrame.
Variable GetSlopFraction : BasicBlock -> BasicBlock -> weight_t.
Variable calledCount : weight_t.

Lemma resetUnprofiledEdge_updated bSrc bDst e :
  rangeUpdated e (resetUnprofiledEdge bSrc bDst e).
Proof.
  unfold resetUnprofiledEdge.
  destruct (negb (hasProfileWeight bSrc) || negb (hasProfileWeight bDst));
    [| apply rangeUpdated_refl].
  repeat split. intros _. exact BB_ZERO_le_MAX.
Qed.

Lemma initEdgeBySource_updated slop bSrc e us r :
  initEdgeBySource slop bSrc e us = Some r -> rangeUpdated e r.1.2.
Proof.
  unfold initEdgeBySource.
  pose proof (setEdgeWeightMinChecked_updated e (bbWeight bSrc) slop us) as Hmin.
  pose proof (setEdgeWeightMaxChecked_updated e (bbWeight bSrc) slop us) as Hmax.
  destruct (setEdgeWeightMinChecked e (bbWeight bSrc) slop us) as [[ok1 e1] us1].
  pose proof (setEdgeWeightMaxChecked_updated e1 (bbWeight bSrc) slop us1) as Hmax1.
  destruct (setEdgeWeightMaxChecked e1 (bbWeight bSrc) slop us1) as [[ok2 e2] us2].
  simpl in Hmin, Hmax1.
  destruct (bbJumpKind bSrc); try discriminate;
    try (intros [= <-]; simpl; exact (rangeUpdated_trans _ _ _ Hmin Hmax1));
    (destruct (w_gt (edgeWeightMax e) (bbWeight bSrc)); intros [= <-];
     [exact Hmax | apply rangeUpdated_refl]).
Qed.

Lemma capEdgeByDest_updated slop bDstWeight e us :
  rangeUpdated e (capEdgeByDest slop bDstWeight e us).1.2.
Proof.
  unfold capEdgeByDest. destruct (w_gt (edgeWeightMax e) bDstWeight);
    [apply setEdgeWeightMaxChecked_updated | apply rangeUpdated_refl].
Qed.

Lemma initEdge_updated bSrc bDst bDstWeight e acc e' acc' :
  flow_state (initEdge GetSlopFraction bSrc bDst bDstWeight e acc)
  = Some (e', acc') ->
  rangeUpdated e e' /\ acc'.2 = S acc.2.
Proof.
  unfold initEdge.
  destruct (initEdgeBySource _ bSrc _ acc.1) as [[[ok1 e1] us1] |] eqn:Hsrc;
    [| discriminate].
  apply initEdgeBySource_updated in Hsrc. simpl in Hsrc.
  pose proof (capEdgeByDest_updated (w_add (GetSlopFraction bSrc bDst) 1) bDstWeight
                e1 us1) as Hcap.
  destruct (capEdgeByDest _ bDstWeight e1 us1) as [[ok2 e2] us2]. simpl in Hcap.
  assert (Hr : rangeUpdated e e2).
  { apply (rangeUpdated_trans _ (resetUnprofiledEdge bSrc bDst e));
      [apply resetUnprofiledEdge_updated |].
    exact (rangeUpdated_trans _ _ _ Hsrc Hcap). }
  destruct (ok1 && ok2); simpl; intros [= <- <-]; split; try exact Hr; reflexivity.
Qed.

Lemma initBlock_updated i st st' :
  flow_state (initBlock GetSlopFraction calledCount i st) = Some st' ->
  edgesUpdated (ew_blocks st) (ew_blocks st').
Proof.
  unfold initBlock.
  destruct (ew_blocks st !! i) as [bDst |] eqn:Hi; [| discriminate].
  destruct (forEdges _ (bbPreds bDst) _)
    as [[preds' acc'] | [preds' acc'] |] eqn:Hloop; simpl;
    try discriminate; intros [= <-]; simpl;
    (apply edgesUpdated_insert; [exact Hi |]);
    (eapply (forEdges_updated rangeUpdated); [exact rangeUpdated_refl | |
       rewrite Hloop; reflexivity]);
    intros e a e' a'; unfold withSource;
    (destruct (ew_blocks st !! flBlock e); [| discriminate]);
    intros H; exact (proj1 (initEdge_updated _ _ _ _ _ _ _ H)).
Qed.

Lemma initEdges_count blocks bDst bDstWeight preds :
  forall acc preds' acc',
    forEdges (withSource blocks (fun bSrc => initEdge GetSlopFraction bSrc bDst bDstWeight))
      preds acc = Continue (preds', acc') ->
    acc'.2 = (acc.2 + length preds)%nat.
Proof.
  induction preds as [| e rest IH]; simpl; intros acc preds' acc' H.
  - injection H as <- <-. lia.
  - destruct (withSource _ _ e acc) as [[e1 a1] | [e1 a1] |] eqn:Hb;
      try discriminate.
    destruct (forEdges _ rest a1) as [[rest1 a2] | [rest1 a2] |] eqn:Hr;
      try discriminate.
    injection H as <- <-. rewrite (IH _ _ _ Hr).
    unfold withSource in Hb. destruct (blocks !! flBlock e); [| discriminate].
    assert (Hs : flow_state (initEdge GetSlopFraction b bDst bDstWeight e acc)
                 = Some (e1, a1)) by (rewrite Hb; reflexivity).
    rewrite (proj2 (initEdge_updated _ _ _ _ _ _ _ Hs)). lia.
Qed.

Lemma initBlock_count i st st' :
  initBlock GetSlopFraction calledCount i st = Continue st' ->
  exists bDst, ew_blocks st !! i = Some bDst /\
    ew_numEdges st' = (ew_numEdges st + length (bbPreds bDst))%nat.
Proof.
  unfold initBlock.
  destruct (ew_blocks st !! i) as [bDst |] eqn:Hi; [| discriminate].
  destruct (forEdges _ (bbPreds bDst) _) as [[preds' acc'] | r |] eqn:Hloop;
    try discriminate.
  intros [= <-]. exists bDst. split; [reflexivity |]. simpl.
  exact (initEdges_count _ _ _ _ _ _ _ Hloop).
Qed.

Lemma initPhase_count blocks0 n :
  forall k st st',
    edgesUpdated blocks0 (ew_blocks st) ->
    forEach (initBlock GetSlopFraction calledCount) (seq k n) st = Continue st' ->
    ew_numEdges st'
    = fold_left (fun m b => (m + length (bbPreds b))%nat)
        (take n (drop k blocks0)) (ew_numEdges st).
Proof.
  induction n as [| n IH]; intros k st st' Hrel; simpl.
  - intros [= <-]. reflexivity.
  - destruct (initBlock GetSlopFraction calledCount k st) as [st1 | st1 |] eqn:Hb;
      try discriminate.
    intros Hrest.
    destruct (initBlock_count _ _ _ Hb) as [bDst [Hk Hcount]].
    assert (Hup : edgesUpdated (ew_blocks st) (ew_blocks st1))
      by (apply (initBlock_updated k); rewrite Hb; reflexivity).
    destruct (lookup_lt_is_Some_2 blocks0 k) as [b0 Hb0].
    { rewrite <- (proj1 Hrel). apply lookup_lt_is_Some. eexists. exact Hk. }
    rewrite (IH (S k) st1 st' (edgesUpdated_trans _ _ _ Hrel Hup) Hrest).
    rewrite (drop_S _ _ _ Hb0). simpl. rewrite Hcount.
    destruct (proj2 Hrel k b0 bDst Hb0 Hk) as [_ HF].
    rewrite (Forall2_length _ _ _ HF). reflexivity.
Qed.

(** The refinement passes keep the edge count next to the edges. *)
Local Abbreviation refined := (fun s s' : EdgeWeightsState =>
  edgesUpdated (ew_blocks s) (ew_blocks s') /\ ew_numEdges s' = ew_numEdges s).

Lemma refined_refl s : refined s s.
Proof. split; [apply edgesUpdated_refl | reflexivity]. Qed.

Lemma refined_trans s1 s2 s3 : refined s1 s2 -> refined s2 s3 -> refined s1 s3.
Proof.
  intros [A1 B1] [A2 B2].
  split; [exact (edgesUpdated_trans _ _ _ A1 A2) | congruence].
Qed.

Lemma applySetter_updated st i k setter ok st' :
  (forall e us, rangeUpdated e (setter e us).1.2) ->
  applySetter st i k setter = Some (ok, st') -> refined st st'.
Proof.
  intros Hset. unfold applySetter.
  destruct (getEdge (ew_blocks st) i k) as [e |] eqn:Hget; [| discriminate].
  simpl. pose proof (Hset e (ew_usedSlop st)) as He.
  destruct (setter e (ew_usedSlop st)) as [[ok' e'] us']. simpl in He.
  intros [= <- <-]. simpl.
  split; [exact (edgesUpdated_setEdge _ _ _ _ _ Hget He) | reflexivity].
Qed.

Lemma adjustMinUpOrMaxDown_updated slop weight raise lower st ok st' :
  adjustMinUpOrMaxDown slop weight raise lower st = Some (ok, st') ->
  refined st st'.
Proof.
  unfold adjustMinUpOrMaxDown.
  destruct (getEdge (ew_blocks st) raise.1 raise.2) as [raiseEdge |];
    [| discriminate].
  destruct (getEdge (ew_blocks st) lower.1 lower.2) as [lowerEdge |];
    [| discriminate].
  simpl. destruct (w_gt _ 0); [| destruct (w_lt _ 0)].
  - apply applySetter_updated. intros e us. apply setEdgeWeightMinChecked_updated.
  - apply applySetter_updated. intros e us. apply setEdgeWeightMaxChecked_updated.
  - intros [= <- <-]. apply refined_refl.
Qed.

Lemma condEdge_updated i k st st' :
  flow_state (condEdge GetSlopFraction i k st) = Some st' -> refined st st'.
Proof.
  unfold condEdge.
  destruct (ew_blocks st !! i) as [bDst |]; [| discriminate].
  destruct (bbPreds bDst !! k) as [edge |]; [| discriminate].
  destruct (ew_blocks st !! flBlock edge) as [bSrc |]; [| discriminate].
  destruct (bbJumpKind bSrc);
    try (simpl; intros [= <-]; apply refined_refl).
  destruct (otherEdgeOf _ _ _ _) as [other |]; [| discriminate].
  destruct (getEdge _ other.1 other.2) as [otherEdge |]; [| discriminate].
  destruct (negb _ || negb _); [discriminate |].
  destruct (adjustMinUpOrMaxDown _ _ (i, k) other st) as [[ok1 st1] |] eqn:H1;
    [| discriminate].
  destruct (adjustMinUpOrMaxDown _ _ other (i, k) st1) as [[ok2 st2] |] eqn:H2;
    [| discriminate].
  apply adjustMinUpOrMaxDown_updated in H1, H2.
  destruct (ok1 && ok2); simpl; intros [= <-];
    exact (refined_trans _ _ _ H1 H2).
Qed.

Lemma condBlock_updated i st st' :
  flow_state (condBlock GetSlopFraction i st) = Some st' -> refined st st'.
Proof.
  unfold condBlock.
  destruct (ew_blocks st !! i) as [bDst |]; [| discriminate].
  apply (forEach_updated (fun s s' => refined s s'));
    [exact refined_refl | exact refined_trans |].
  intros k s s'. apply condEdge_updated.
Qed.

Lemma raiseMinByOthers_updated slop bDstWeight otherMax e us :
  rangeUpdated e (raiseMinByOthers slop bDstWeight otherMax e us).1.2.
Proof.
  unfold raiseMinByOthers.
  destruct (w_ge bDstWeight otherMax); [| apply rangeUpdated_refl].
  destruct (w_gt _ (edgeWeightMin e));
    [apply setEdgeWeightMinChecked_updated | apply rangeUpdated_refl].
Qed.

Lemma lowerMaxByOthers_updated slop bDstWeight otherMin e us :
  rangeUpdated e (lowerMaxByOthers slop bDstWeight otherMin e us).1.2.
Proof.
  unfold lowerMaxByOthers.
  destruct (w_ge bDstWeight otherMin); [| apply rangeUpdated_refl].
  destruct (w_lt _ (edgeWeightMax e));
    [apply setEdgeWeightMaxChecked_updated | apply rangeUpdated_refl].
Qed.

Lemma balanceEdge_updated bDst bDstWeight maxSum minSum bSrc e acc e' acc' :
  flow_state (balanceEdge GetSlopFraction bDst bDstWeight maxSum minSum bSrc e acc)
  = Some (e', acc') ->
  rangeUpdated e e'.
Proof.
  unfold balanceEdge.
  destruct (negb (w_ge maxSum (edgeWeightMax e))); [discriminate |].
  destruct (negb (w_ge minSum (edgeWeightMin e))); [discriminate |].
  pose proof (raiseMinByOthers_updated (w_add (GetSlopFraction bSrc bDst) 1) bDstWeight
                (w_sub maxSum (edgeWeightMax e)) e acc.1.1) as H1.
  destruct (raiseMinByOthers _ _ _ e acc.1.1) as [[ok1 e1] us1]. simpl in H1.
  pose proof (lowerMaxByOthers_updated (w_add (GetSlopFraction bSrc bDst) 1) bDstWeight
                (w_sub minSum (edgeWeightMin e)) e1 us1) as H2.
  destruct (lowerMaxByOthers _ _ _ e1 us1) as [[ok2 e2] us2]. simpl in H2.
  destruct (negb (ok1 && ok2)); [| destruct (w_eq _ _)]; simpl;
    intros [= <- <-]; exact (rangeUpdated_trans _ _ _ H1 H2).
Qed.

Lemma balanceBlock_updated i st st' :
  flow_state (balanceBlock GetSlopFraction calledCount i st) = Some st' ->
  refined st st'.
Proof.
  unfold balanceBlock.
  destruct (ew_blocks st !! i) as [bDst |] eqn:Hi; [| discriminate].
  destruct (w_eq (bbWeight bDst) BB_MAX_WEIGHT);
    [simpl; intros [= <-]; apply refined_refl |].
  destruct (forEdges _ (bbPreds bDst) _)
    as [[preds' acc'] | [preds' acc'] |] eqn:Hloop; simpl;
    try discriminate; intros [= <-]; simpl; (split; [| reflexivity]);
    (apply edgesUpdated_insert; [exact Hi |]);
    (eapply (forEdges_updated rangeUpdated); [exact rangeUpdated_refl | |
       rewrite Hloop; reflexivity]);
    intros e a e' a'; unfold withSource;
    (destruct (ew_blocks st !! flBlock e); [| discriminate]);
    apply balanceEdge_updated.
Qed.

Lemma refineOnce_updated st st' :
  flow_state (refineOnce GetSlopFraction calledCount st) = Some st' ->
  refined st st'.
Proof.
  unfold refineOnce.
  set (st0 := mkEdgeWeightsState _ _ _ 0 false).
  assert (H0 : refined st st0) by (split; [apply edgesUpdated_refl | reflexivity]).
  destruct (forEach (condBlock GetSlopFraction) _ st0) as [st1 | st1 |] eqn:Hc;
    simpl; try discriminate.
  - intros Hb.
    assert (H1 : refined st0 st1).
    { apply (forEach_updated (fun s s' => refined s s')
               (condBlock GetSlopFraction) refined_refl refined_trans
               condBlock_updated (blockIndices (ew_blocks st0))).
      rewrite Hc. reflexivity. }
    assert (H2 : refined st1 st').
    { apply (forEach_updated (fun s s' => refined s s')
               (balanceBlock GetSlopFraction calledCount) refined_refl
               refined_trans balanceBlock_updated (blockIndices (ew_blocks st1))).
      exact Hb. }
    exact (refined_trans _ _ _ H0 (refined_trans _ _ _ H1 H2)).
  - intros [= <-].
    assert (H1 : refined st0 st1).
    { apply (forEach_updated (fun s s' => refined s s')
               (condBlock GetSlopFraction) refined_refl refined_trans
               condBlock_updated (blockIndices (ew_blocks st0))).
      rewrite Hc. reflexivity. }
    exact (refined_trans _ _ _ H0 H1).
Qed.

Lemma refineLoop_updated fuel :
  forall iterations st st',
    flow_state (refineLoop GetSlopFraction calledCount fuel iterations st)
    = Some st' ->
    refined st st'.
Proof.
  induction fuel as [| fuel IH]; simpl; intros iterations st st'.
  - intros [= <-]. apply refined_refl.
  - destruct (refineOnce GetSlopFraction calledCount st) as [st1 | st1 |] eqn:Honce;
      simpl; try discriminate.
    + assert (H1 : refined st st1)
        by (apply refineOnce_updated; rewrite Honce; reflexivity).
      destruct (ew_numEdges st1 =? ew_goodEdgeCountCurrent st1)%nat.
      * destruct (ew_hasIncompleteEdgeWeights st1); simpl; [discriminate |].
        intros [= <-]. exact H1.
      * destruct (ew_hasIncompleteEdgeWeights st1 && _ && _).
        -- intros H. exact (refined_trans _ _ _ H1 (IH _ _ _ H)).
        -- simpl. intros [= <-]. exact H1.
    + intros [= <-]. apply refineOnce_updated. rewrite Honce. reflexivity.
Qed.

Lemma initPhase_updated idxs st st' :
  flow_state (forEach (initBlock GetSlopFraction calledCount) idxs st) = Some st' ->
  edgesUpdated (ew_blocks st) (ew_blocks st').
Proof.
  apply (forEach_updated
           (fun s s' => edgesUpdated (ew_blocks s) (ew_blocks s'))).
  - intros s. apply edgesUpdated_refl.
  - intros s1 s2 s3. apply edgesUpdated_trans.
  - intros i s s'. apply initBlock_updated.
Qed.
End EdgeSolverFrame.

Lemma fgComputeEdgeWeights_updated GetSlopFraction c c' :
  fgComputeEdgeWeights GetSlopFraction c = Continue c' ->
  edgesUpdated (fgBBs c) (fgBBs c') /\
  (exists slopUsed rangeUsed valid computed n,
     c' = set_edgeWeightResults slopUsed rangeUsed valid computed
            (set_fgEdgeCount n (set_fgBBs (fgBBs c') c))) /\
  (OptimizationEnabled c = true -> fgIsUsingProfileWeights c = true ->
   fgHaveValidEdgeWeights c' = true ->
   fgEdgeCount c' = edgeCountOf (fgBBs c)).
Proof.
  unfold fgComputeEdgeWeights.
  destruct (negb (OptimizationEnabled c) || negb (fgIsUsingProfileWeights c))
    eqn:Hgate.
  - intros [= <-]. split; [apply edgesUpdated_refl |]. split.
    + exists (fgSlopUsedInEdgeWeights c), (fgRangeUsedInEdgeWeights c),
        (fgHaveValidEdgeWeights c), (fgEdgeWeightsComputed c), (fgEdgeCount c).
      destruct c; reflexivity.
    + intros Ho Hu. rewrite Ho, Hu in Hgate. discriminate.
  - destruct (forEach (initBlock GetSlopFraction (fgCalledCount c)) _ _)
      as [st | st |] eqn:Hinit; try discriminate.
    + assert (H1 : edgesUpdated (fgBBs c) (ew_blocks st)).
      { apply (initPhase_updated GetSlopFraction (fgCalledCount c)
                 (blockIndices (fgBBs c))
                 (mkEdgeWeightsState (fgBBs c) false 0 0 false)).
        rewrite Hinit. reflexivity. }
      assert (Hn : ew_numEdges st = edgeCountOf (fgBBs c)).
      { pose proof (initPhase_count GetSlopFraction (fgCalledCount c) (fgBBs c)
                      (length (fgBBs c)) 0
                      (mkEdgeWeightsState (fgBBs c) false 0 0 false) st
                      (edgesUpdated_refl _) Hinit) as H.
        rewrite drop_0, firstn_all in H. exact H. }
      destruct (refineLoop GetSlopFraction (fgCalledCount c) 8 0 st)
        as [st' | st' |] eqn:Hloop; try discriminate;
        intros [= <-];
        (assert (H2 : edgesUpdated (ew_blocks st) (ew_blocks st'))
           by (apply (refineLoop_updated GetSlopFraction (fgCalledCount c) 8 0);
               rewrite Hloop; reflexivity));
        (split; [exact (edgesUpdated_trans _ _ _ H1 H2) |]);
        (split; [do 5 eexists; destruct c; reflexivity |]);
        intros _ _; simpl; try discriminate; intros _; exact Hn.
    + intros [= <-]. split.
      * apply (initPhase_updated GetSlopFraction (fgCalledCount c)
                 (blockIndices (fgBBs c))
                 (mkEdgeWeightsState (fgBBs c) false 0 0 false)).
        rewrite Hinit. reflexivity.
      * split; [do 5 eexists; destruct c; reflexivity |].
        intros _ _. simpl. discriminate.
Qed.

(** X11.  [fgComputeEdgeWeights] writes edge ranges and its result fields, and
    nothing else: however it ends (skipped, consistent or inconsistent
    profile data, with or without slop) the flow graph has the same
    blocks with the same weights, flags, jumps and statements, every
    block has the same predecessor edges with the same sources and
    duplicate counts, and of the compiler state only the edge count and
    the four result flags may differ. *)
Theorem fgComputeEdgeWeights_writes_ranges_only
    (GetSlopFraction : BasicBlock -> BasicBlock -> weight_t) (c c' : Compiler) :
  fgComputeEdgeWeights GetSlopFraction c = Continue c' ->
  length (fgBBs c') = length (fgBBs c) /\
  (forall i b b', fgBBs c !! i = Some b -> fgBBs c' !! i = Some b' ->
     blockFrame b' = blockFrame b /\
     Forall2 (fun e e' => flBlock e' = flBlock e /\ flDupCount e' = flDupCount e)
       (bbPreds b) (bbPreds b')) /\
  exists slopUsed rangeUsed valid computed n,
    c' = set_edgeWeightResults slopUsed rangeUsed valid computed
           (set_fgEdgeCount n (set_fgBBs (fgBBs c') c)).
Proof.
  intros Hrun.
  destruct (fgComputeEdgeWeights_updated _ _ _ Hrun) as [[Hlen Hrel] [Hc _]].
  split; [exact Hlen |]. split; [| exact Hc].
  intros i b b' Hb Hb'. destruct (Hrel i b b' Hb Hb') as [Hf He].
  split; [exact Hf |].
  apply (Forall2_impl _ _ _ _ He). intros e e' [A [B _]]. split; assumption.
Qed.

(** X12.  Proper ranges stay proper: if every edge has [min <= max] before
    [fgComputeEdgeWeights], every edge has afterwards, whether or not
    slop was used and whether or not the profile data proved
    consistent. *)
Theorem fgComputeEdgeWeights_keeps_proper_ranges
    (GetSlopFraction : BasicBlock -> BasicBlock -> weight_t) (c c' : Compiler) :
  properRanges (fgBBs c) ->
  fgComputeEdgeWeights GetSlopFraction c = Continue c' ->
  properRanges (fgBBs c').
Proof.
  intros Hproper Hrun.
  destruct (fgComputeEdgeWeights_updated _ _ _ Hrun) as [[Hlen Hrel] _].
  intros i b' Hb'.
  destruct (lookup_lt_is_Some_2 (fgBBs c) i) as [b Hb].
  { rewrite <- Hlen. apply lookup_lt_is_Some. eexists. exact Hb'. }
  destruct (Hrel i b b' Hb Hb') as [_ He].
  apply (Forall2_Forall_impl rangeUpdated
           (fun e => flEdgeWeightMin e <= flEdgeWeightMax e)
           (fun e => flEdgeWeightMin e <= flEdgeWeightMax e)
           (bbPreds b) (bbPreds b'));
    [| exact He | exact (Hproper i b Hb)].
  intros x y [_ [_ H]] Hx. exact (H Hx).
Qed.

(** X13.  When the solver ran and reports valid edge weights, [fgEdgeCount] is
    the number of predecessor edges of the flow graph. *)
Theorem fgComputeEdgeWeights_counts_edges
    (GetSlopFraction : BasicBlock -> BasicBlock -> weight_t) (c c' : Compiler) :
  OptimizationEnabled c = true -> fgIsUsingProfileWeights c = true ->
  fgComputeEdgeWeights GetSlopFraction c = Continue c' ->
  fgHaveValidEdgeWeights c' = true ->
  fgEdgeCount c' = edgeCountOf (fgBBs c).
Proof.
  intros Ho Hu Hrun Hvalid.
  exact (proj2 (proj2 (fgComputeEdgeWeights_updated _ _ _ Hrun)) Ho Hu Hvalid).
Qed.

Lemma fgComputeEdgeWeights_writes_ranges_only_witness :
  let c := compilerOf (diamondBlocks 30 80) 100 in
  exists c',
    fgComputeEdgeWeights zeroSlopFraction c = Continue c' /\
    length (fgBBs c') = length (fgBBs c) /\
    (forall i b b', fgBBs c !! i = Some b -> fgBBs c' !! i = Some b' ->
       blockFrame b' = blockFrame b /\
       Forall2 (fun e e' => flBlock e' = flBlock e /\ flDupCount e' = flDupCount e)
         (bbPreds b) (bbPreds b')) /\
    exists slopUsed rangeUsed valid computed n,
      c' = set_edgeWeightResults slopUsed rangeUsed valid computed
             (set_fgEdgeCount n (set_fgBBs (fgBBs c') c)).
Proof.
  intros c.
  pose (c' := match fgComputeEdgeWeights zeroSlopFraction c with
              | Continue x => x
              | _ => c
              end).
  exists c'.
  assert (Hrun : fgComputeEdgeWeights zeroSlopFraction c = Continue c')
    by (vm_compute; reflexivity).
  split; [exact Hrun |].
  exact (fgComputeEdgeWeights_writes_ranges_only zeroSlopFraction c c' Hrun).
Defined.

Lemma diamond_30_80_properRanges : properRanges (diamondBlocks 30 80).
Proof.
  intros i b Hi.
  assert (Hall : Forall (fun b => Forall (fun e => flEdgeWeightMin e <= flEdgeWeightMax e)
                                    (bbPreds b)) (diamondBlocks 30 80)).
  { repeat constructor; apply BB_ZERO_le_MAX. }
  rewrite Forall_lookup in Hall. exact (Hall _ _ Hi).
Qed.

Lemma fgComputeEdgeWeights_keeps_proper_ranges_witness :
  let c := compilerOf (diamondBlocks 30 80) 100 in
  exists c',
    properRanges (fgBBs c) /\
    fgComputeEdgeWeights zeroSlopFraction c = Continue c' /\
    fgHaveValidEdgeWeights c' = false /\
    properRanges (fgBBs c').
Proof.
  intros c.
  pose (c' := match fgComputeEdgeWeights zeroSlopFraction c with
              | Continue x => x
              | _ => c
              end).
  exists c'.
  assert (Hrun : fgComputeEdgeWeights zeroSlopFraction c = Continue c')
    by (vm_compute; reflexivity).
  split; [exact diamond_30_80_properRanges |]. split; [exact Hrun |].
  split; [vm_compute; reflexivity |].
  exact (fgComputeEdgeWeights_keeps_proper_ranges zeroSlopFraction c c'
           diamond_30_80_properRanges Hrun).
Defined.

Lemma fgComputeEdgeWeights_counts_edges_witness :
  let c := compilerOf (diamondBlocks 30 70) 100 in
  exists c',
    OptimizationEnabled c = true /\ fgIsUsingProfileWeights c = true /\
    fgComputeEdgeWeights zeroSlopFraction c = Continue c' /\
    fgHaveValidEdgeWeights c' = true /\
    fgEdgeCount c' = edgeCountOf (fgBBs c).
Proof.
  intros c.
  pose (c' := match fgComputeEdgeWeights zeroSlopFraction c with
              | Continue x => x
              | _ => c
              end).
  exists c'.
  assert (Hrun : fgComputeEdgeWeights zeroSlopFraction c = Continue c')
    by (vm_compute; reflexivity).
  assert (Hvalid : fgHaveValidEdgeWeights c' = true) by (vm_compute; reflexivity).
  split; [reflexivity |]. split; [reflexivity |]. split; [exact Hrun |].
  split; [exact Hvalid |].
  exact (fgComputeEdgeWeights_counts_edges zeroSlopFraction c c' eq_refl eq_refl
           Hrun Hvalid).
Defined.

Lemma edgesUpdated_weight before after i b b' :
  edgesUpdated before after ->
  before !! i = Some b -> after !! i = Some b' -> bbWeight b' = bbWeight b.
Proof.
  intros [_ Hrel] Hb Hb'. destruct (Hrel i b b' Hb Hb') as [Hf _].
  change (bbWeight (blockFrame b') = bbWeight (blockFrame b)). rewrite Hf.
  reflexivity.
Qed.

Lemma balancePhase_no_max_weight GetSlopFraction calledCount n :
  forall k st st',
    forEach (balanceBlock GetSlopFraction calledCount) (seq k n) st = Continue st' ->
    forall i b, (k <= i < k + n)%nat -> ew_blocks st !! i = Some b ->
      w_eq (bbWeight b) BB_MAX_WEIGHT = false.
Proof.
  induction n as [| n IH]; intros k st st' Hrun i b Hi Hb; [lia |].
  simpl in Hrun.
  destruct (balanceBlock GetSlopFraction calledCount k st) as [st1 | st1 |] eqn:Hk;
    try discriminate.
  destruct (Nat.eq_dec i k) as [-> | Hne].
  - unfold balanceBlock in Hk. rewrite Hb in Hk.
    destruct (w_eq (bbWeight b) BB_MAX_WEIGHT); [discriminate | reflexivity].
  - assert (Hup : edgesUpdated (ew_blocks st) (ew_blocks st1)).
    { apply (balanceBlock_updated GetSlopFraction calledCount k).
      rewrite Hk. reflexivity. }
    destruct (lookup_lt_is_Some_2 (ew_blocks st1) i) as [b1 Hb1].
    { rewrite (proj1 Hup). apply lookup_lt_is_Some. eexists. exact Hb. }
    rewrite <- (edgesUpdated_weight _ _ _ _ _ Hup Hb Hb1).
    apply (IH (S k) st1 st' Hrun i b1); [lia | exact Hb1].
Qed.

Lemma refineLoop_first_pass GetSlopFraction calledCount fuel iterations st st' :
  refineLoop GetSlopFraction calledCount (S fuel) iterations st = Continue st' ->
  exists st1, refineOnce GetSlopFraction calledCount st = Continue st1.
Proof.
  simpl. destruct (refineOnce GetSlopFraction calledCount st); try discriminate.
  intros _. eexists. reflexivity.
Qed.

(** X14.  A block whose weight is the sentinel [BB_MAX_WEIGHT] makes the
    profile data inconsistent: when the solver runs on a flow graph with
    such a block, it never reports valid edge weights. *)
Theorem fgComputeEdgeWeights_max_weight_is_inconsistent
    (GetSlopFraction : BasicBlock -> BasicBlock -> weight_t) (c c' : Compiler)
    (i : nat) (b : BasicBlock) :
  OptimizationEnabled c = true -> fgIsUsingProfileWeights c = true ->
  fgBBs c !! i = Some b -> bbWeight b == BB_MAX_WEIGHT ->
  fgComputeEdgeWeights GetSlopFraction c = Continue c' ->
  fgHaveValidEdgeWeights c' = false.
Proof.
  intros Ho Hu Hb Hmax. unfold fgComputeEdgeWeights. rewrite Ho, Hu.
  cbn [negb orb].
  destruct (forEach (initBlock GetSlopFraction (fgCalledCount c)) _ _)
    as [st | st |] eqn:Hinit; try discriminate; [| intros [= <-]; reflexivity].
  assert (H1 : edgesUpdated (fgBBs c) (ew_blocks st)).
  { apply (initPhase_updated GetSlopFraction (fgCalledCount c)
             (blockIndices (fgBBs c))
             (mkEdgeWeightsState (fgBBs c) false 0 0 false)).
    rewrite Hinit. reflexivity. }
  destruct (refineLoop GetSlopFraction (fgCalledCount c) 8 0 st)
    as [st' | st' |] eqn:Hloop; try discriminate; intros [= <-];
    [| reflexivity].
  exfalso.
  destruct (refineLoop_first_pass _ _ _ _ _ _ Hloop) as [st1 Honce].
  unfold refineOnce in Honce.
  destruct (forEach (condBlock GetSlopFraction) _ _) as [st0 | st0 |] eqn:Hcond;
    try discriminate.
  assert (H0 : edgesUpdated (ew_blocks st) (ew_blocks st0)).
  { apply (forEach_updated
             (fun s s' => edgesUpdated (ew_blocks s) (ew_blocks s') /\
                          ew_numEdges s' = ew_numEdges s)
             (condBlock GetSlopFraction) refined_refl refined_trans
             (condBlock_updated GetSlopFraction)
             (blockIndices (ew_blocks st))
             (mkEdgeWeightsState (ew_blocks st) (ew_usedSlop st)
                (ew_numEdges st) 0 false)).
    simpl in Hcond. rewrite Hcond. reflexivity. }
  pose proof (edgesUpdated_trans _ _ _ H1 H0) as H.
  destruct (lookup_lt_is_Some_2 (ew_blocks st0) i) as [b0 Hb0].
  { rewrite (proj1 H). apply lookup_lt_is_Some. eexists. exact Hb. }
  pose proof (balancePhase_no_max_weight GetSlopFraction (fgCalledCount c)
                (length (ew_blocks st0)) 0 st0 st1 Honce i b0) as Hno.
  rewrite (edgesUpdated_weight _ _ _ _ _ H Hb Hb0) in Hno.
  apply w_eq_true in Hmax. rewrite Hmax in Hno.
  assert (Hlt : (0 <= i < 0 + length (ew_blocks st0))%nat).
  { split; [lia |]. simpl. apply lookup_lt_is_Some. eexists. exact Hb0. }
  specialize (Hno Hlt Hb0). discriminate Hno.
Qed.

Lemma fgComputeEdgeWeights_max_weight_is_inconsistent_witness :
  let c := compilerOf (diamondBlocks 30 BB_MAX_WEIGHT) 100 in
  let b := blockOf BB_MAX_WEIGHT true BBJ_NONE None 10 [edgeFrom 0] in
  exists c',
    OptimizationEnabled c = true /\ fgIsUsingProfileWeights c = true /\
    fgBBs c !! 2%nat = Some b /\ bbWeight b == BB_MAX_WEIGHT /\
    fgComputeEdgeWeights zeroSlopFraction c = Continue c' /\
    fgHaveValidEdgeWeights c' = false.
Proof.
  intros c b.
  pose (c' := match fgComputeEdgeWeights zeroSlopFraction c with
              | Continue x => x
              | _ => c
              end).
  exists c'.
  assert (Hrun : fgComputeEdgeWeights zeroSlopFraction c = Continue c')
    by (vm_compute; reflexivity).
  assert (Hmax : bbWeight b == BB_MAX_WEIGHT) by reflexivity.
  split; [reflexivity |]. split; [reflexivity |]. split; [reflexivity |].
  split; [exact Hmax |]. split; [exact Hrun |].
  exact (fgComputeEdgeWeights_max_weight_is_inconsistent zeroSlopFraction c c'
           2 b eq_refl eq_refl eq_refl Hmax Hrun).
Defined.

(** ** The pipeline [fgComputeBlockAndEdgeWeights] *)

Lemma firstILBlockOf_propagated before after b :
  propagatedFrom before after ->
  firstILBlockOf before = Some b -> hasProfileWeight b = true ->
  firstILBlockOf after = Some b.
Proof.
  intros [Hlen Hrel] Hfirst Hprof.
  assert (HF : Forall2 (fun x y => y = x \/ (hasProfileWeight x = false /\
                                             reweighted x y)) before after).
  { apply Forall2_same_length_lookup_2; [symmetry; exact Hlen |].
    intros i x y Hx Hy.
    destruct (Hrel i x y Hx Hy) as [-> | [H1 [_ [H2 _]]]];
      [left; reflexivity | right; split; assumption]. }
  clear Hlen Hrel. induction HF as [| x y l l' Hxy _ IH]; [discriminate |].
  simpl in *.
  assert (Hint : BBF_INTERNAL (bbFlags y) = BBF_INTERNAL (bbFlags x)).
  { destruct Hxy as [-> | [_ Hre]]; [reflexivity | rewrite Hre; reflexivity]. }
  rewrite Hint. destruct (BBF_INTERNAL (bbFlags x)); [exact (IH Hfirst) |].
  injection Hfirst as ->.
  destruct Hxy as [-> | [Hno _]]; [reflexivity |].
  rewrite Hprof in Hno. discriminate.
Qed.

Lemma fgBBs_reset_results w m v c :
  fgBBs (set_fgCalledCount w (set_fgModified_valid m v c)) = fgBBs c.
Proof. reflexivity. Qed.

(** X15.  Without profile weights [fgComputeBlockAndEdgeWeights] leaves the
    default call count and computes no edge weights: afterwards
    [fgCalledCount] is [BB_UNITY_WEIGHT], [fgHaveValidEdgeWeights] and
    [fgModified] are false, and every block has the edges it had, with
    their ranges. *)
Theorem fgComputeBlockAndEdgeWeights_without_profile
    (GetSlopFraction : BasicBlock -> BasicBlock -> weight_t) (c c' : Compiler) :
  fgIsUsingProfileWeights c = false ->
  fgComputeBlockAndEdgeWeights GetSlopFraction c = Continue c' ->
  fgCalledCount c' = BB_UNITY_WEIGHT /\
  fgHaveValidEdgeWeights c' = false /\
  fgModified c' = false /\
  bbPreds <$> fgBBs c' = bbPreds <$> fgBBs c.
Proof.
  intros Hu. unfold fgComputeBlockAndEdgeWeights. rewrite Hu.
  destruct (fgComputeMissingBlockWeights _) as [[c1 rw] | |] eqn:Hprop;
    try discriminate.
  destruct (fgComputeMissingBlockWeights_propagated _ _ _ Hprop)
    as [Hc1 [Hrel _]].
  unfold fgComputeEdgeWeights. rewrite Hc1. simpl. rewrite Hu, orb_true_r.
  intros [= <-]. simpl. repeat split.
  apply list_eq_same_length with (length (fgBBs c)).
  - rewrite length_fmap. reflexivity.
  - rewrite length_fmap. exact (proj1 Hrel).
  - intros i x y _. rewrite !list_lookup_fmap.
    destruct (fgBBs c !! i) as [b |] eqn:Hb;
      destruct (fgBBs c1 !! i) as [b1 |] eqn:Hb1; simpl; try discriminate.
    intros [= <-] [= <-].
    exact (proj1 (propagatedFrom_shape _ _ _ _ _ Hrel Hb Hb1)).
Qed.

(** X16.  With profile weights, and when the first block of the method
    that is not internal (the block at position [k], all blocks before it
    being internal) carries a profile weight, as the source expects, the
    call count the pipeline ends with is a function of the flow graph it
    was given: the weight of that block if it has a single reference or
    the [float] sum of the weights of the profiled return and throw
    blocks is zero, and that sum (accumulated in block order, every
    partial sum rounded) otherwise.  Neither the propagation before nor
    the edge solver after changes it. *)
Theorem fgComputeBlockAndEdgeWeights_called_count
    (GetSlopFraction : BasicBlock -> BasicBlock -> weight_t) (c c' : Compiler)
    (k : nat) (firstILBlock : BasicBlock) :
  fgIsUsingProfileWeights c = true ->
  isFirstILBlock (fgBBs c) k firstILBlock ->
  hasProfileWeight firstILBlock = true ->
  fgComputeBlockAndEdgeWeights GetSlopFraction c = Continue c' ->
  fgCalledCount c'
  = if (countOfInEdges firstILBlock =? 1)%nat
       || w_eq (returnWeightOf (fgBBs c)) 0
    then bbWeight firstILBlock
    else returnWeightOf (fgBBs c).
Proof.
  intros Hu Hfirst Hprof. apply firstILBlockOf_first in Hfirst.
  unfold fgComputeBlockAndEdgeWeights. rewrite Hu.
  destruct (fgComputeMissingBlockWeights _) as [[c1 rw] | |] eqn:Hprop;
    try discriminate.
  destruct (fgComputeMissingBlockWeights_propagated _ _ _ Hprop)
    as [Hc1 [Hrel Hrw]].
  rewrite fgBBs_reset_results in Hrel, Hrw.
  pose proof (firstILBlockOf_propagated _ _ _ Hrel Hfirst Hprof) as Hfirst1.
  destruct (fgComputeCalledCount c1 rw) as [c2 | c2 |] eqn:Hcc; try discriminate.
  assert (H2 : fgCalledCount c2
               = if (countOfInEdges firstILBlock =? 1)%nat || w_eq rw 0
                 then bbWeight firstILBlock else rw).
  { unfold fgComputeCalledCount in Hcc. rewrite Hfirst1 in Hcc.
    destruct (fgFirstBBisScratch _).
    - destruct (fgBBs _ !! 0%nat); [| discriminate].
      injection Hcc as <-. reflexivity.
    - injection Hcc as <-. reflexivity. }
  intros Hsolve.
  destruct (fgComputeEdgeWeights_updated _ _ _ Hsolve)
    as [_ [[s [r [v [k' [n Hc']]]]] _]].
  rewrite Hc'. simpl. rewrite H2, Hrw. reflexivity.
Qed.

Lemma fgComputeBlockAndEdgeWeights_without_profile_witness :
  let c := classProfileCompiler 0 0 0 propagationBlocks in
  exists c',
    fgIsUsingProfileWeights c = false /\
    fgComputeBlockAndEdgeWeights zeroSlopFraction c = Continue c' /\
    fgCalledCount c' = BB_UNITY_WEIGHT /\
    fgHaveValidEdgeWeights c' = false /\
    fgModified c' = false /\
    bbPreds <$> fgBBs c' = bbPreds <$> fgBBs c.
Proof.
  intros c.
  pose (c' := match fgComputeBlockAndEdgeWeights zeroSlopFraction c with
              | Continue x => x
              | _ => c
              end).
  exists c'.
  assert (Hrun : fgComputeBlockAndEdgeWeights zeroSlopFraction c = Continue c')
    by (vm_compute; reflexivity).
  split; [reflexivity |]. split; [exact Hrun |].
  exact (fgComputeBlockAndEdgeWeights_without_profile zeroSlopFraction c c'
           eq_refl Hrun).
Defined.

Lemma fgComputeBlockAndEdgeWeights_called_count_witness :
  let c := scratchFirstCompiler in
  let firstILBlock :=
    mkBasicBlock 40 (plainFlags true) BBJ_COND (Some 1%nat) 0 2
                 [edgeFrom 0; edgeFrom 1] [] in
  exists c',
    fgIsUsingProfileWeights c = true /\
    isFirstILBlock (fgBBs c) 1 firstILBlock /\
    hasProfileWeight firstILBlock = true /\
    fgComputeBlockAndEdgeWeights zeroSlopFraction c = Continue c' /\
    fgCalledCount c'
    = if (countOfInEdges firstILBlock =? 1)%nat
         || w_eq (returnWeightOf (fgBBs c)) 0
      then bbWeight firstILBlock
      else returnWeightOf (fgBBs c).
Proof.
  intros c firstILBlock.
  pose (c' := match fgComputeBlockAndEdgeWeights zeroSlopFraction c with
              | Continue x => x
              | _ => c
              end).
  exists c'.
  assert (Hrun : fgComputeBlockAndEdgeWeights zeroSlopFraction c = Continue c')
    by (vm_compute; reflexivity).
  split; [reflexivity |]. split; [exact scratchFirst_firstILBlock |].
  split; [reflexivity |]. split; [exact Hrun |].
  exact (fgComputeBlockAndEdgeWeights_called_count zeroSlopFraction c c'
           1 firstILBlock eq_refl scratchFirst_firstILBlock eq_refl Hrun).
Defined.

(** ** Instrumenter: the schema and the probes *)

Section ClassProbeVisitorFold.
Context {S : Type}.
Variable m_functor :
  S -> CallHeader -> option (S * CallHeader * (GenTree -> GenTree)).
Variable newHeader : CallHeader -> CallHeader.
Variable step : S -> CallHeader -> S.
Hypothesis m_functor_header :
  forall s h, m_functor s h = Some (step s h, newHeader h, fun x => x).

(** A functor that only renews the header moves the state by [step] over
    the probed calls, in the order of the walk. *)
Lemma walkList_fold ops :
  Forall (fun t => forall s,
            WalkTree m_functor s t
            = Some (fold_left step (probedCalls t) s, renewHeaders newHeader t)) ops ->
  forall s,
    walkList m_functor s ops
    = Some (fold_left step (concat (List.map probedCalls ops)) s,
            List.map (renewHeaders newHeader) ops).
Proof.
  induction 1 as [| t ops Ht _ IH]; intros s; simpl; [reflexivity |].
  rewrite Ht. simpl. rewrite IH. simpl. rewrite fold_left_app. reflexivity.
Qed.

Lemma WalkTree_fold t :
  forall s,
    WalkTree m_functor s t
    = Some (fold_left step (probedCalls t) s, renewHeaders newHeader t).
Proof.
  induction t as [h this args IHthis IHargs | op v ops IHops]
    using GenTree_ind; intros s.
  - rewrite WalkTree_call. cbn [probedCalls renewHeaders].
    rewrite !fold_left_app.
    destruct (isProbedCall h).
    + rewrite m_functor_header. simpl.
      destruct this as [x |]; simpl.
      * rewrite (IHthis x eq_refl). simpl.
        rewrite (walkList_fold args IHargs). reflexivity.
      * rewrite (walkList_fold args IHargs). reflexivity.
    + simpl. destruct this as [x |]; simpl.
      * rewrite (IHthis x eq_refl). simpl.
        rewrite (walkList_fold args IHargs). reflexivity.
      * rewrite (walkList_fold args IHargs). reflexivity.
  - rewrite WalkTree_op. rewrite (walkList_fold ops IHops). reflexivity.
Qed.

Lemma WalkStatements_fold stmts s :
  WalkStatements m_functor s stmts
  = Some (fold_left step (probedCallsOfStmts stmts) s,
          List.map (renewHeaders newHeader) stmts).
Proof.
  rewrite WalkStatements_walkList. apply walkList_fold.
  apply Forall_forall. intros t _. apply WalkTree_fold.
Qed.
End ClassProbeVisitorFold.

Section ClassProbeInserterFacts.
Variable CORINFO_HELP_CLASSPROFILE : Z.
Variable m_schema : list PgoInstrumentationSchema.
Variable m_profileMemory : Z.

Local Abbreviation inserter :=
  (ClassProbeInserter CORINFO_HELP_CLASSPROFILE m_schema m_profileMemory true).

Lemma afterProbes_0 s : afterProbes 0 s = s.
Proof.
  destruct s as [n i l]. unfold afterProbes. simpl.
  f_equal; lia.
Qed.

Lemma afterProbes_add n m s :
  afterProbes m (afterProbes n s) = afterProbes (n + m) s.
Proof. unfold afterProbes. simpl. f_equal; lia. Qed.

Lemma isProbedCall_restoreStub h : isProbedCall (restoreStub h) = isProbedCall h.
Proof. reflexivity. Qed.

(** The operand walk of the instrumenting inserter. *)
Lemma walkList_instrumenting ops :
  Forall (fun t => forall s,
            (m_currentSchemaIndex s + 2 * length (probedCalls t)
             <= length m_schema)%nat ->
            exists t',
              WalkTree inserter s t
              = Some (afterProbes (length (probedCalls t)) s, t') /\
              stubsRestored t' = true /\
              probedCalls t' = List.map restoreStub (probedCalls t)) ops ->
  forall s,
    (m_currentSchemaIndex s + 2 * length (concat (List.map probedCalls ops))
     <= length m_schema)%nat ->
    exists ops',
      walkList inserter s ops
      = Some (afterProbes (length (concat (List.map probedCalls ops))) s, ops') /\
      forallb stubsRestored ops' = true /\
      concat (List.map probedCalls ops')
      = List.map restoreStub (concat (List.map probedCalls ops)) /\
      length ops' = length ops.
Proof.
  induction 1 as [| t ops Ht _ IH]; intros s Hroom; simpl in *.
  - exists []. rewrite afterProbes_0. repeat split.
  - rewrite length_app in Hroom.
    destruct (Ht s ltac:(lia)) as [t' [-> [Hst Hpc]]]. simpl.
    destruct (IH (afterProbes (length (probedCalls t)) s)
                ltac:(simpl; lia)) as [ops' [-> [Hsts [Hpcs Hlen]]]].
    simpl. exists (t' :: ops'). rewrite afterProbes_add, length_app.
    split; [reflexivity |]. simpl. rewrite Hst, Hsts, Hpc, Hpcs, Hlen, map_app.
    repeat split.
Qed.

Lemma WalkTree_instrumenting t :
  forall s,
    (m_currentSchemaIndex s + 2 * length (probedCalls t) <= length m_schema)%nat ->
    exists t',
      WalkTree inserter s t = Some (afterProbes (length (probedCalls t)) s, t') /\
      stubsRestored t' = true /\
      probedCalls t' = List.map restoreStub (probedCalls t).
Proof.
  induction t as [h this args IHthis IHargs | op v ops IHops]
    using GenTree_ind; intros s Hroom.
  - rewrite WalkTree_call. cbn [probedCalls] in *.
    rewrite !length_app in Hroom.
    set (nthis := match this with Some x => probedCalls x | None => [] end) in *.
    set (nargs := concat (List.map probedCalls args)) in *.
    assert (Hhead : exists s1 h1 wrap,
               (if isProbedCall h then inserter s h
                else Some (s, h, fun x : GenTree => x)) = Some (s1, h1, wrap) /\
               s1 = afterProbes (length (if isProbedCall h then [h] else [])) s /\
               h1 = (if isProbedCall h then restoreStub h else h) /\
               (forall x, stubsRestored (wrap x) = stubsRestored x) /\
               (forall x, probedCalls (wrap x) = probedCalls x)).
    { destruct (isProbedCall h) eqn:Hp.
      - unfold ClassProbeInserter. simpl in Hroom.
        destruct (lookup_lt_is_Some_2 m_schema (m_currentSchemaIndex s)
                    ltac:(lia)) as [e ->].
        simpl. eexists. eexists. eexists. split; [reflexivity |].
        split; [unfold afterProbes; simpl; f_equal; lia |].
        split; [reflexivity |]. split.
        + intros x. simpl. rewrite !andb_true_r. reflexivity.
        + intros x. simpl. rewrite !app_nil_r. reflexivity.
      - eexists. eexists. eexists. split; [reflexivity |].
        split; [rewrite afterProbes_0; reflexivity |].
        split; [reflexivity |]. split; reflexivity. }
    destruct Hhead as [s1 [h1 [wrap [-> [Hs1 [Hh1 [Hwst Hwpc]]]]]]].
    cbn [mbind option_bind].
    assert (Hidx1 : m_currentSchemaIndex s1
                    = (m_currentSchemaIndex s
                       + 2 * length (if isProbedCall h then [h] else []))%nat)
      by (rewrite Hs1; reflexivity).
    assert (Hthis : exists this',
               match this with
               | None => Some (s1, None)
               | Some x => '(s2, x') ← WalkTree inserter s1 x;
                           Some (s2, Some (wrap x'))
               end = Some (afterProbes (length nthis) s1, this') /\
               match this' with Some x => stubsRestored x | None => true end = true /\
               match this' with Some x => probedCalls x | None => [] end
               = List.map restoreStub nthis).
    { unfold nthis. destruct this as [x |].
      - destruct (IHthis x eq_refl s1 ltac:(unfold nthis in Hroom; lia))
          as [x' [-> [Hst Hpc]]].
        simpl. exists (Some (wrap x')). split; [reflexivity |].
        rewrite Hwst, Hwpc. split; assumption.
      - exists None. rewrite afterProbes_0. repeat split. }
    destruct Hthis as [this' [-> [Hthis_st Hthis_pc]]].
    cbn [mbind option_bind].
    destruct (walkList_instrumenting args IHargs (afterProbes (length nthis) s1)
                ltac:(fold nargs; simpl; lia))
      as [args' [-> [Hargs_st [Hargs_pc _]]]].
    cbn [mbind option_bind]. eexists. split.
    + rewrite Hs1, !afterProbes_add, !length_app. fold nargs.
      rewrite Nat.add_assoc. reflexivity.
    + cbn [stubsRestored probedCalls]. rewrite Hthis_st, Hargs_st, Hthis_pc, Hargs_pc.
      rewrite !map_app. rewrite Hh1. split.
      * destruct (isProbedCall h) eqn:Hp.
        -- rewrite isProbedCall_restoreStub, Hp. simpl. rewrite Z.eqb_refl.
           reflexivity.
        -- rewrite Hp. reflexivity.
      * destruct (isProbedCall h) eqn:Hp.
        -- rewrite isProbedCall_restoreStub, Hp. reflexivity.
        -- rewrite Hp. reflexivity.
  - rewrite WalkTree_op. cbn [probedCalls] in *.
    destruct (walkList_instrumenting ops IHops s Hroom)
      as [ops' [-> [Hst [Hpc _]]]].
    cbn [mbind option_bind]. eexists. split; [reflexivity |].
    cbn [stubsRestored probedCalls]. split; assumption.
Qed.

(** X17.  Instrumenting, the class-probe inserter takes two schema entries and
    one fresh temporary per probed call and counts the call: given
    [2 * n] schema entries from the current index on, for the [n] probed
    calls of the statements, the walk succeeds, ends [n] probes further,
    keeps the number of statements and leaves every probed call, in the
    same order, with its stub address restored from its probe. *)
Theorem WalkStatements_instrumenting
    (stmts : list Statement) (s : ProbeState) :
  (m_currentSchemaIndex s + 2 * length (probedCallsOfStmts stmts)
   <= length m_schema)%nat ->
  exists stmts',
    WalkStatements
      (ClassProbeInserter CORINFO_HELP_CLASSPROFILE m_schema m_profileMemory true)
      s stmts
    = Some (afterProbes (length (probedCallsOfStmts stmts)) s, stmts') /\
    length stmts' = length stmts /\
    forallb stubsRestored stmts' = true /\
    probedCallsOfStmts stmts' = List.map restoreStub (probedCallsOfStmts stmts).
Proof.
  intros Hroom. rewrite WalkStatements_walkList.
  destruct (walkList_instrumenting stmts
              ltac:(apply Forall_forall; intros t _; apply WalkTree_instrumenting)
              s Hroom) as [stmts' [-> [Hst [Hpc Hlen]]]].
  exists stmts'. repeat split; assumption.
Qed.
End ClassProbeInserterFacts.

Section InstrumenterSchema.
Variables CLASS_FLAG INTERFACE_FLAG SIZE : Z.
Variables CORINFO_HELP_CLASSPROFILE CORINFO_HELP_BBT_FCN_ENTER : Z.
Variable jitGetILoffs : Z -> Z.
Variable allocPgoInstrumentationBySchema :
  Z -> list PgoInstrumentationSchema ->
  HRESULT * list PgoInstrumentationSchema * Z.
Variable fgEnsureFirstBBisScratch : Compiler -> Compiler.
Variable impTokenToHandle : Z -> GenTree.
Variable gtNewIconEmbMethHndNode : Z -> GenTree.

Local Abbreviation isCounter :=
  (fun e : PgoInstrumentationSchema => is_BasicBlockIntCount (InstrumentationKind e)).
Local Abbreviation schemaGen :=
  (BuildClassProbeSchemaGen CLASS_FLAG INTERFACE_FLAG SIZE jitGetILoffs).
Local Abbreviation pushProbe :=
  (fun (s : list PgoInstrumentationSchema) (call : CallHeader) =>
     s ++ [ mkSchema 0 TypeHandleHistogramCount
              (jitGetILoffs (ilOffset (gtClassProfileCandidateInfo call))) 1
              (if IsVirtualStub call then Z.lor CLASS_FLAG INTERFACE_FLAG
               else CLASS_FLAG);
            mkSchema 0 TypeHandleHistogramTypeHandle
              (jitGetILoffs (ilOffset (gtClassProfileCandidateInfo call))) SIZE
              (if IsVirtualStub call then Z.lor CLASS_FLAG INTERFACE_FLAG
               else CLASS_FLAG) ]).

Lemma pushProbe_layout calls :
  forall schema,
    length (fold_left pushProbe calls schema)
    = (length schema + 2 * length calls)%nat /\
    List.filter isCounter (fold_left pushProbe calls schema)
    = List.filter isCounter schema.
Proof.
  induction calls as [| h calls IH]; intros schema; simpl.
  - split; [lia | reflexivity].
  - destruct (IH (pushProbe schema h)) as [Hlen Hfil].
    rewrite Hlen, Hfil. rewrite length_app, List.filter_app. simpl.
    split; [lia | apply app_nil_r].
Qed.

(** The first walk never fails; it pushes two entries per probed call of
    the imported blocks flagged for class profiling and one counter entry
    per imported block that is not internal, in block order. *)
Lemma buildSchema_layout blocks :
  forall schema countOfBlocks,
  exists schema',
    buildSchema CLASS_FLAG INTERFACE_FLAG SIZE jitGetILoffs blocks schema
      countOfBlocks
    = Some (schema',
            (countOfBlocks + Z.of_nat (length (countedBlocks blocks)))%Z) /\
    length schema'
    = (length schema + 2 * length (probedCallsIn blocks)
       + length (countedBlocks blocks))%nat /\
    List.filter isCounter schema'
    = List.filter isCounter schema
      ++ List.map blockCounterEntry (countedBlocks blocks).
Proof.
  induction blocks as [| block rest IH]; intros schema n.
  - exists schema. simpl. rewrite Z.add_0_r, app_nil_r.
    split; [reflexivity |]. split; [lia | reflexivity].
  - unfold probedCallsIn, countedBlocks. cbn [buildSchema List.map concat List.filter].
    fold (countedBlocks rest). fold (probedCallsIn rest).
    destruct (BBF_IMPORTED (bbFlags block)); cbn [negb andb].
    + assert (Hw : exists stmts,
                (if BBF_HAS_CLASS_PROFILE (bbFlags block)
                 then WalkStatements schemaGen schema (bbStmts block)
                 else Some (schema, bbStmts block))
                = Some (fold_left pushProbe
                          (if BBF_HAS_CLASS_PROFILE (bbFlags block)
                           then probedCallsOfStmts (bbStmts block) else [])
                          schema, stmts)).
      { destruct (BBF_HAS_CLASS_PROFILE (bbFlags block));
          [| eexists; reflexivity].
        eexists.
        apply (WalkStatements_fold schemaGen (fun h => h) pushProbe).
        intros s h. reflexivity. }
      destruct Hw as [stmts ->]. cbn [mbind option_bind].
      set (calls := if BBF_HAS_CLASS_PROFILE (bbFlags block)
                    then probedCallsOfStmts (bbStmts block) else []).
      destruct (pushProbe_layout calls schema) as [Hlen Hfil].
      destruct (BBF_INTERNAL (bbFlags block)); cbn [negb].
      * destruct (IH (fold_left pushProbe calls schema) n)
          as [schema' [-> [Hl Hf]]].
        exists schema'. split; [reflexivity |].
        rewrite Hl, Hf, Hlen, Hfil, length_app. split; [lia | reflexivity].
      * destruct (IH (fold_left pushProbe calls schema
                        ++ [mkSchema 0 BasicBlockIntCount (bbCodeOffs block) 1 0])
                     (n + 1)%Z) as [schema' [-> [Hl Hf]]].
        exists schema'. split; [f_equal; f_equal; simpl; lia |].
        rewrite Hl, Hf, !length_app, List.filter_app, Hlen, Hfil. simpl.
        split; [lia |]. rewrite <- app_assoc. reflexivity.
    + destruct (IH schema n) as [schema' [-> [Hl Hf]]].
      exists schema'. split; [reflexivity |]. simpl.
      split; [exact Hl | exact Hf].
Qed.

(** X18.  What [fgInstrumentMethod] asks of the Host: at most one allocation,
    for a schema with two entries per probed call of the imported blocks
    flagged for class profiling and one entry per imported block that is
    not internal; the block counter entries, taken in order, are those of
    the counted blocks in block order, each with the block's IL offset. *)
Theorem fgInstrumentMethod_schema_layout (c : Compiler)
    (schema : list PgoInstrumentationSchema) :
  In schema
    (fgInstrumentMethod CLASS_FLAG INTERFACE_FLAG SIZE
       CORINFO_HELP_CLASSPROFILE CORINFO_HELP_BBT_FCN_ENTER jitGetILoffs
       allocPgoInstrumentationBySchema fgEnsureFirstBBisScratch
       impTokenToHandle gtNewIconEmbMethHndNode c).1 ->
  (fgInstrumentMethod CLASS_FLAG INTERFACE_FLAG SIZE
     CORINFO_HELP_CLASSPROFILE CORINFO_HELP_BBT_FCN_ENTER jitGetILoffs
     allocPgoInstrumentationBySchema fgEnsureFirstBBisScratch
     impTokenToHandle gtNewIconEmbMethHndNode c).1 = [schema] /\
  length schema
  = (2 * length (probedCallsIn (fgBBs c)) + length (countedBlocks (fgBBs c)))%nat /\
  List.filter (fun e => is_BasicBlockIntCount (InstrumentationKind e)) schema
  = List.map blockCounterEntry (countedBlocks (fgBBs c)).
Proof.
  unfold fgInstrumentMethod.
  destruct (compIsForInlining c); [intros []|].
  destruct (buildSchema_layout (fgBBs c) [] 0) as [schema' [-> [Hlen Hfil]]].
  simpl in Hlen, Hfil.
  destruct ((0 <? JitMinimalProfiling c)%Z && _ && _); [intros [] |].
  destruct (allocPgoInstrumentationBySchema (compMethodHnd c) schema')
    as [[res schemaOut] profileMemory].
  assert (Hgoal : In schema [schema'] ->
                  [schema'] = [schema] /\
                  length schema
                  = (2 * length (probedCallsIn (fgBBs c))
                     + length (countedBlocks (fgBBs c)))%nat /\
                  List.filter isCounter schema
                  = List.map blockCounterEntry (countedBlocks (fgBBs c))).
  { intros [<- | []]. split; [reflexivity |]. split; [lia | exact Hfil]. }
  destruct (negb (SUCCEEDED res) && negb (res =? E_NOTIMPL)%Z); [exact Hgoal |].
  destruct (insertProbes _ _ _ _ _ _ _) as [[st blocks] |]; [| exact Hgoal].
  destruct (negb (SUCCEEDED res)); [exact Hgoal |].
  destruct (negb _ || negb _); [exact Hgoal |].
  destruct (JIT_FLAG_PREJIT _); exact Hgoal.
Qed.
Lemma pushProbe_extends calls :
  forall schema, exists suffix,
    fold_left pushProbe calls schema = schema ++ suffix.
Proof.
  induction calls as [| h calls IH]; intros schema; simpl.
  - exists []. rewrite app_nil_r. reflexivity.
  - destruct (IH (pushProbe schema h)) as [suffix ->].
    eexists. rewrite <- app_assoc. reflexivity.
Qed.

(** One step of the first walk, with the class-probe scan in closed form. *)
Lemma buildSchema_cons block rest schema countOfBlocks :
  buildSchema CLASS_FLAG INTERFACE_FLAG SIZE jitGetILoffs (block :: rest) schema
    countOfBlocks
  = if negb (BBF_IMPORTED (bbFlags block))
    then buildSchema CLASS_FLAG INTERFACE_FLAG SIZE jitGetILoffs rest schema
           countOfBlocks
    else
      let schema1 :=
        fold_left pushProbe
          (if BBF_HAS_CLASS_PROFILE (bbFlags block)
           then probedCallsOfStmts (bbStmts block) else []) schema in
      if BBF_INTERNAL (bbFlags block)
      then buildSchema CLASS_FLAG INTERFACE_FLAG SIZE jitGetILoffs rest schema1
             countOfBlocks
      else buildSchema CLASS_FLAG INTERFACE_FLAG SIZE jitGetILoffs rest
             (schema1 ++ [blockCounterEntry block]) (countOfBlocks + 1)%Z.
Proof.
  cbn [buildSchema]. destruct (negb (BBF_IMPORTED (bbFlags block))); [reflexivity |].
  destruct (BBF_HAS_CLASS_PROFILE (bbFlags block)); [| reflexivity].
  rewrite (WalkStatements_fold schemaGen (fun h => h) pushProbe)
    by (intros s h; reflexivity).
  reflexivity.
Qed.

Lemma buildSchema_extends blocks :
  forall prefix n schema n',
    buildSchema CLASS_FLAG INTERFACE_FLAG SIZE jitGetILoffs blocks prefix n
    = Some (schema, n') ->
    exists suffix, schema = prefix ++ suffix.
Proof.
  induction blocks as [| block rest IH]; intros prefix n schema n'.
  - simpl. intros [= <- _]. exists []. rewrite app_nil_r. reflexivity.
  - rewrite buildSchema_cons.
    destruct (negb (BBF_IMPORTED (bbFlags block))); [apply IH |].
    cbv zeta.
    destruct (pushProbe_extends
                (if BBF_HAS_CLASS_PROFILE (bbFlags block)
                 then probedCallsOfStmts (bbStmts block) else []) prefix)
      as [suffix1 ->].
    destruct (BBF_INTERNAL (bbFlags block)); intros H;
      destruct (IH _ _ _ _ H) as [suffix ->]; eexists;
      rewrite <- ?app_assoc; reflexivity.
Qed.

Variable schema schemaOut : list PgoInstrumentationSchema.
Variable profileMemory : Z.
Variable classProfiling : bool.
Hypothesis host_filled : Forall2 hostFilled schema schemaOut.

Lemma set_bbStmts_same (b : BasicBlock) : set_bbStmts (bbStmts b) b = b.
Proof. destruct b; reflexivity. Qed.

(** The second walk, instrumenting, along the first walk that built the
    schema: the schema index stays in step with the schema built so far,
    so every lookup succeeds and finds the entry pushed for it. *)
Lemma insertProbes_instrumenting blocks :
  forall prefix n n' st,
    buildSchema CLASS_FLAG INTERFACE_FLAG SIZE jitGetILoffs blocks prefix n
    = Some (schema, n') ->
    is_currentSchemaIndex st = length prefix ->
    Forall (fun b => BBF_IMPORTED (bbFlags b) = true ->
                     BBF_HAS_CLASS_PROFILE (bbFlags b) = true ->
                     classProfiling = true) blocks ->
    exists st' blocks',
      insertProbes CORINFO_HELP_CLASSPROFILE classProfiling schemaOut
        profileMemory true st blocks = Some (st', blocks') /\
      is_countOfCalls st'
      = (is_countOfCalls st - Z.of_nat (length (probedCallsIn blocks)))%Z /\
      is_countOfBlocks st'
      = (is_countOfBlocks st - Z.of_nat (length (countedBlocks blocks)))%Z /\
      is_lvaCount st' = (is_lvaCount st + length (probedCallsIn blocks))%nat /\
      Forall2 (instrumentedBlock schemaOut profileMemory) blocks blocks'.
Proof.
  pose proof (Forall2_length _ _ _ host_filled) as Hlen.
  induction blocks as [| block rest IH]; intros prefix n n' st Hbuild Hidx Hcp.
  - exists st, []. simpl. split; [reflexivity |].
    split; [lia |]. split; [lia |]. split; [lia | constructor].
  - rewrite buildSchema_cons in Hbuild.
    apply Forall_cons in Hcp. destruct Hcp as [Hcp0 Hcp].
    unfold probedCallsIn, countedBlocks.
    cbn [insertProbes List.map concat List.filter].
    fold (countedBlocks rest). fold (probedCallsIn rest).
    destruct (BBF_IMPORTED (bbFlags block)) eqn:Himp; cbn [negb andb] in *.
    + (* an imported block *)
      set (calls := if BBF_HAS_CLASS_PROFILE (bbFlags block)
                    then probedCallsOfStmts (bbStmts block) else []) in *.
      cbv zeta in Hbuild.
      destruct (pushProbe_layout calls prefix) as [Hlen1 _].
      assert (Hroom : (length prefix + 2 * length calls <= length schemaOut)%nat).
      { rewrite <- Hlen.
        destruct (BBF_INTERNAL (bbFlags block));
          destruct (buildSchema_extends _ _ _ _ _ Hbuild) as [suffix ->];
          rewrite !length_app; lia. }
      assert (Hprobe : exists stmts,
                 (if classProfiling && BBF_HAS_CLASS_PROFILE (bbFlags block)
                  then
                    '(ps, stmts) ←
                      WalkStatements
                        (ClassProbeInserter CORINFO_HELP_CLASSPROFILE schemaOut
                           profileMemory true)
                        (mkProbeState 0 (is_currentSchemaIndex st) (is_lvaCount st))
                        (bbStmts block);
                    Some (mkInstrumentState (m_currentSchemaIndex ps)
                            (is_countOfCalls st - m_count ps)%Z
                            (is_countOfBlocks st)
                            (is_addrOfFirstExecutionCount st) (ps_lvaCount ps),
                          set_bbStmts stmts block)
                  else Some (st, block))
                 = Some (mkInstrumentState
                           (length prefix + 2 * length calls)
                           (is_countOfCalls st - Z.of_nat (length calls))%Z
                           (is_countOfBlocks st)
                           (is_addrOfFirstExecutionCount st)
                           (is_lvaCount st + length calls),
                         set_bbStmts stmts block) /\
                 (if BBF_HAS_CLASS_PROFILE (bbFlags block)
                  then length stmts = length (bbStmts block) /\
                       forallb stubsRestored stmts = true /\
                       probedCallsOfStmts stmts
                       = List.map restoreStub (probedCallsOfStmts (bbStmts block))
                  else stmts = bbStmts block)).
      { unfold calls in *. destruct (BBF_HAS_CLASS_PROFILE (bbFlags block)).
        - rewrite (Hcp0 eq_refl eq_refl). cbn [andb].
          rewrite WalkStatements_walkList.
          destruct (walkList_instrumenting CORINFO_HELP_CLASSPROFILE
                      schemaOut profileMemory (bbStmts block)
                      ltac:(apply Forall_forall; intros t _;
                            apply WalkTree_instrumenting)
                      (mkProbeState 0 (is_currentSchemaIndex st) (is_lvaCount st))
                      ltac:(simpl; fold (probedCallsOfStmts (bbStmts block)); lia))
            as [stmts [-> [Hs [Hp Hl]]]].
          exists stmts. cbn [mbind option_bind]. split.
          + unfold afterProbes. simpl. rewrite Hidx. reflexivity.
          + repeat split; assumption.
        - rewrite andb_false_r. exists (bbStmts block). split; [| reflexivity].
          rewrite set_bbStmts_same. destruct st. simpl in *. rewrite Hidx.
          rewrite !Nat.add_0_r, Z.sub_0_r. reflexivity. }
      destruct Hprobe as [stmts [-> Hstmts]]. cbn [mbind option_bind].
      change (BBF_INTERNAL (bbFlags (set_bbStmts stmts block)))
        with (BBF_INTERNAL (bbFlags block)).
      destruct (BBF_INTERNAL (bbFlags block)) eqn:Hint;
        cbn [negb mbind option_bind].
      * (* internal: no counter *)
        destruct (IH _ _ _
                    (mkInstrumentState
                       (length prefix + 2 * length calls)
                       (is_countOfCalls st - Z.of_nat (length calls))%Z
                       (is_countOfBlocks st)
                       (is_addrOfFirstExecutionCount st)
                       (is_lvaCount st + length calls))
                    Hbuild ltac:(simpl; lia) Hcp)
          as [st' [rest' [-> [Hcalls [Hblocks [Hlva HF]]]]]].
        cbn [mbind option_bind]. eexists. eexists.
        split; [reflexivity |]. simpl in Hcalls, Hblocks, Hlva.
        rewrite !length_app. fold calls.
        split; [lia |]. split; [lia |]. split; [lia |].
        constructor; [| exact HF].
        exists stmts. rewrite Himp. cbn [andb].
        split; [exact Hstmts |].
        unfold isCounted. rewrite Himp, Hint. reflexivity.
      * (* counted: the counter entry is the one pushed for the block *)
        destruct (buildSchema_extends _ _ _ _ _ Hbuild) as [suffix Hschema].
        assert (Hentry : schema !! (length prefix + 2 * length calls)%nat
                         = Some (blockCounterEntry block)).
        { rewrite Hschema, <- Hlen1, <- app_assoc.
          rewrite lookup_app_r by lia. rewrite Nat.sub_diag. reflexivity. }
        destruct (Forall2_lookup_l _ _ _ _ _ host_filled Hentry)
          as [e [He Hfilled]].
        cbn [is_currentSchemaIndex is_countOfCalls is_countOfBlocks
             is_addrOfFirstExecutionCount is_lvaCount].
        rewrite He. cbn [mbind option_bind].
        destruct (IH _ _ _
                    (mkInstrumentState
                       (S (length prefix + 2 * length calls))
                       (is_countOfCalls st - Z.of_nat (length calls))%Z
                       (is_countOfBlocks st - 1)%Z
                       (if (is_addrOfFirstExecutionCount st =? 0)%Z
                        then (Offset e + profileMemory)%Z
                        else is_addrOfFirstExecutionCount st)
                       (is_lvaCount st + length calls))
                    Hbuild
                    ltac:(simpl; rewrite length_app, Hlen1; simpl; lia) Hcp)
          as [st' [rest' [Hrest [Hcalls [Hblocks [Hlva HF]]]]]].
        rewrite Hrest. cbn [mbind option_bind].
        eexists. eexists. split; [reflexivity |].
        simpl in Hcalls, Hblocks, Hlva. rewrite !length_app. fold calls.
        cbn [length].
        split; [lia |]. split; [lia |]. split; [lia |].
        constructor; [| exact HF].
        exists stmts. rewrite Himp. cbn [andb].
        split; [exact Hstmts |].
        unfold isCounted. rewrite Himp, Hint. cbn [negb andb].
        exists e. split; [apply list_elem_of_In; eapply list_elem_of_lookup_2; exact He |].
        rewrite Hfilled. simpl. repeat split.
    + (* a block that was not imported is skipped *)
      destruct (IH _ _ _ st Hbuild Hidx Hcp)
        as [st' [rest' [-> [Hcalls [Hblocks [Hlva HF]]]]]].
      cbn [mbind option_bind]. eexists. eexists. split; [reflexivity |].
      simpl. split; [exact Hcalls |]. split; [exact Hblocks |].
      split; [exact Hlva |]. constructor; [| exact HF].
      exists (bbStmts block). rewrite Himp. cbn [andb].
      split; [reflexivity |]. unfold isCounted. rewrite Himp. cbn [andb].
      symmetry. apply set_bbStmts_same.
Qed.
End InstrumenterSchema.

Lemma fgInstrumentMethod_schema_layout_witness :
  let c := classProfileCompiler 1 0 1 [classProfileBlock] in
  exists schema,
    In schema (fgInstrumentMethod_notimpl c).1 /\
    (fgInstrumentMethod_notimpl c).1 = [schema] /\
    length schema
    = (2 * length (probedCallsIn (fgBBs c)) + length (countedBlocks (fgBBs c)))%nat /\
    List.filter (fun e => is_BasicBlockIntCount (InstrumentationKind e)) schema
    = List.map blockCounterEntry (countedBlocks (fgBBs c)).
Proof.
  intros c.
  pose (schema := hd [] (fgInstrumentMethod_notimpl c).1).
  exists schema.
  assert (Hin : In schema (fgInstrumentMethod_notimpl c).1)
    by (vm_compute; left; reflexivity).
  split; [exact Hin |].
  exact (fgInstrumentMethod_schema_layout 2147483648 1073741824 8 101 102
           (fun il => il) hostNotImplemented (fun c => c) gtNewIconNode
           gtNewIconNode c schema Hin).
Defined.

Section InstrumenterRun.
Variables CLASS_FLAG INTERFACE_FLAG SIZE : Z.
Variables CORINFO_HELP_CLASSPROFILE CORINFO_HELP_BBT_FCN_ENTER : Z.
Variable jitGetILoffs : Z -> Z.
Variable allocPgoInstrumentationBySchema :
  Z -> list PgoInstrumentationSchema ->
  HRESULT * list PgoInstrumentationSchema * Z.
Variable fgEnsureFirstBBisScratch : Compiler -> Compiler.
Variable impTokenToHandle : Z -> GenTree.
Variable gtNewIconEmbMethHndNode : Z -> GenTree.

Local Abbreviation fgInstrumentMethod' :=
  (fgInstrumentMethod CLASS_FLAG INTERFACE_FLAG SIZE
     CORINFO_HELP_CLASSPROFILE CORINFO_HELP_BBT_FCN_ENTER jitGetILoffs
     allocPgoInstrumentationBySchema fgEnsureFirstBBisScratch
     impTokenToHandle gtNewIconEmbMethHndNode).

(** The second walk of an instrumenting run, from the start. *)
Lemma fgInstrumentMethod_second_walk (c : Compiler)
    (schema schemaOut : list PgoInstrumentationSchema)
    (countOfBlocks profileMemory : Z) :
  (0 < JitClassProfiling c)%Z \/
  Forall (fun b => BBF_HAS_CLASS_PROFILE (bbFlags b) = false) (fgBBs c) ->
  buildSchema CLASS_FLAG INTERFACE_FLAG SIZE jitGetILoffs (fgBBs c) [] 0
  = Some (schema, countOfBlocks) ->
  Forall2 hostFilled schema schemaOut ->
  exists st blocks',
    insertProbes CORINFO_HELP_CLASSPROFILE (0 <? JitClassProfiling c)%Z schemaOut
      profileMemory true
      (mkInstrumentState 0 (compClassProbeCount c) countOfBlocks 0 (lvaCount c))
      (fgBBs c) = Some (st, blocks') /\
    is_countOfCalls st
    = (compClassProbeCount c - Z.of_nat (length (probedCallsIn (fgBBs c))))%Z /\
    is_countOfBlocks st = 0%Z /\
    is_lvaCount st = (lvaCount c + length (probedCallsIn (fgBBs c)))%nat /\
    Forall2 (instrumentedBlock schemaOut profileMemory) (fgBBs c) blocks'.
Proof.
  intros Hcp Hbuild Hfilled.
  destruct (buildSchema_layout CLASS_FLAG INTERFACE_FLAG SIZE jitGetILoffs
              (fgBBs c) [] 0) as [schema' [Hbuild' _]].
  rewrite Hbuild in Hbuild'. injection Hbuild' as _ Hcount.
  destruct (insertProbes_instrumenting CLASS_FLAG INTERFACE_FLAG SIZE
              CORINFO_HELP_CLASSPROFILE jitGetILoffs schema schemaOut
              profileMemory (0 <? JitClassProfiling c)%Z Hfilled (fgBBs c) [] 0
              countOfBlocks
              (mkInstrumentState 0 (compClassProbeCount c) countOfBlocks 0
                 (lvaCount c)) Hbuild eq_refl)
    as [st [blocks' [Hrun [Hcalls [Hblocks [Hlva HF]]]]]].
  { destruct Hcp as [Hpos | Hnone].
    - apply Forall_forall. intros b _ _ _. apply Z.ltb_lt. exact Hpos.
    - apply (Forall_impl _ _ _ Hnone). intros b Hb _ Hb'.
      rewrite Hb in Hb'. discriminate. }
  exists st, blocks'. split; [exact Hrun |]. simpl in Hcalls, Hblocks, Hlva.
  split; [exact Hcalls |]. split; [lia |]. split; [exact Hlva | exact HF].
Qed.

(** X19.  An instrumenting run.  When the Host allocates the counters, filling
    in the offsets of the schema, and the class probes counted at import
    are the probed calls of the scanned blocks, [fgInstrumentMethod]
    returns with every block instrumented: each imported block that is
    not internal gets, as its new first statement, the increment of the
    counter of a block count entry with its IL offset; each probed call
    has its stub address restored; one temporary is taken per probed
    call; both book-keeping [noway_assert]s hold. *)
Theorem fgInstrumentMethod_instruments (c : Compiler)
    (schema schemaOut : list PgoInstrumentationSchema)
    (countOfBlocks : Z) (res : HRESULT) (profileMemory : Z) :
  compIsForInlining c = false ->
  JIT_FLAG_PREJIT c = false ->
  (0 < JitClassProfiling c)%Z \/
  Forall (fun b => BBF_HAS_CLASS_PROFILE (bbFlags b) = false) (fgBBs c) ->
  buildSchema CLASS_FLAG INTERFACE_FLAG SIZE jitGetILoffs (fgBBs c) [] 0
  = Some (schema, countOfBlocks) ->
  (0 <? JitMinimalProfiling c)%Z && (countOfBlocks <? 3)%Z
  && (compClassProbeCount c =? 0)%Z = false ->
  allocPgoInstrumentationBySchema (compMethodHnd c) schema
  = (res, schemaOut, profileMemory) ->
  SUCCEEDED res = true ->
  Forall2 hostFilled schema schemaOut ->
  compClassProbeCount c = Z.of_nat (length (probedCallsIn (fgBBs c))) ->
  exists blocks',
    fgInstrumentMethod' c
    = ([schema],
       Continue (set_lvaCount (lvaCount c + length (probedCallsIn (fgBBs c)))
                   (set_fgBBs blocks' c))) /\
    Forall2 (instrumentedBlock schemaOut profileMemory) (fgBBs c) blocks'.
Proof.
  intros Hinl Hpre Hcp Hbuild Hbail Halloc Hok Hfilled Hprobes.
  destruct (fgInstrumentMethod_second_walk c schema schemaOut countOfBlocks
              profileMemory Hcp Hbuild Hfilled)
    as [st [blocks' [Hrun [Hcalls [Hblocks [Hlva HF]]]]]].
  exists blocks'. split; [| exact HF].
  unfold fgInstrumentMethod.
  rewrite Hinl, Hbuild, Hbail, Halloc, Hok. cbn [negb andb].
  rewrite Hrun, Hblocks, Hcalls, Hprobes, Z.sub_diag. cbn [Z.eqb negb orb].
  change (JIT_FLAG_PREJIT (set_lvaCount (is_lvaCount st) (set_fgBBs blocks' c)))
    with (JIT_FLAG_PREJIT c).
  rewrite Hpre, Hlva. reflexivity.
Qed.

(** X20.  A class probe count that differs from the number of probed calls the
    second walk visits is fatal once the Host has allocated the
    counters: the [noway_assert] on the calls left to visit fails. *)
Theorem fgInstrumentMethod_probe_count_mismatch_is_fatal (c : Compiler)
    (schema schemaOut : list PgoInstrumentationSchema)
    (countOfBlocks : Z) (res : HRESULT) (profileMemory : Z) :
  compIsForInlining c = false ->
  (0 < JitClassProfiling c)%Z \/
  Forall (fun b => BBF_HAS_CLASS_PROFILE (bbFlags b) = false) (fgBBs c) ->
  buildSchema CLASS_FLAG INTERFACE_FLAG SIZE jitGetILoffs (fgBBs c) [] 0
  = Some (schema, countOfBlocks) ->
  (0 <? JitMinimalProfiling c)%Z && (countOfBlocks <? 3)%Z
  && (compClassProbeCount c =? 0)%Z = false ->
  allocPgoInstrumentationBySchema (compMethodHnd c) schema
  = (res, schemaOut, profileMemory) ->
  SUCCEEDED res = true ->
  Forall2 hostFilled schema schemaOut ->
  compClassProbeCount c <> Z.of_nat (length (probedCallsIn (fgBBs c))) ->
  fgInstrumentMethod' c = ([schema], Abort).
Proof.
  intros Hinl Hcp Hbuild Hbail Halloc Hok Hfilled Hprobes.
  destruct (fgInstrumentMethod_second_walk c schema schemaOut countOfBlocks
              profileMemory Hcp Hbuild Hfilled)
    as [st [blocks' [Hrun [Hcalls [Hblocks [Hlva HF]]]]]].
  unfold fgInstrumentMethod.
  rewrite Hinl, Hbuild, Hbail, Halloc, Hok. cbn [negb andb].
  rewrite Hrun, Hblocks. cbn [Z.eqb negb orb].
  destruct (Z.eqb_spec (is_countOfCalls st) 0) as [E | _]; [| reflexivity].
  exfalso. apply Hprobes. lia.
Qed.
Lemma probedCallsIn_no_class_profile blocks :
  Forall (fun b => BBF_HAS_CLASS_PROFILE (bbFlags b) = false) blocks ->
  probedCallsIn blocks = [].
Proof.
  induction 1 as [| b rest Hb _ IH]; [reflexivity |].
  unfold probedCallsIn in *. simpl. rewrite Hb, andb_false_r, IH. reflexivity.
Qed.

(** Without class probes the second walk takes one schema entry per
    counted block, and the first execution count it remembers is the
    counter of the first counted block, unless that address is zero. *)
Lemma insertProbes_first_execution_count
    (classProfiling : bool) (schemaOut : list PgoInstrumentationSchema)
    (profileMemory : Z) blocks :
  Forall (fun b => BBF_HAS_CLASS_PROFILE (bbFlags b) = false) blocks ->
  forall st st' blocks',
    insertProbes CORINFO_HELP_CLASSPROFILE classProfiling schemaOut
      profileMemory true st blocks = Some (st', blocks') ->
    (is_addrOfFirstExecutionCount st <> 0%Z ->
     is_addrOfFirstExecutionCount st' = is_addrOfFirstExecutionCount st) /\
    (is_addrOfFirstExecutionCount st = 0%Z -> countedBlocks blocks <> [] ->
     forall e, schemaOut !! is_currentSchemaIndex st = Some e ->
       (Offset e + profileMemory)%Z <> 0%Z ->
       is_addrOfFirstExecutionCount st' = (Offset e + profileMemory)%Z).
Proof.
  induction 1 as [| block rest Hcp _ IH]; intros st st' blocks'.
  - simpl. intros [= <- _]. split; [reflexivity |]. intros _ H. contradiction.
  - unfold countedBlocks. cbn [insertProbes List.filter].
    fold (countedBlocks rest).
    rewrite Hcp, andb_false_r.
    destruct (BBF_IMPORTED (bbFlags block)); cbn [negb andb mbind option_bind].
    + destruct (BBF_INTERNAL (bbFlags block)); cbn [negb mbind option_bind].
      * destruct (insertProbes _ _ _ _ _ st rest) as [[st1 rest'] |] eqn:Hrest;
          [| discriminate].
        cbn [mbind option_bind]. intros [= <- _]. exact (IH _ _ _ Hrest).
      * cbn [is_currentSchemaIndex is_countOfCalls is_countOfBlocks
             is_addrOfFirstExecutionCount is_lvaCount].
        destruct (schemaOut !! is_currentSchemaIndex st) as [e |] eqn:He;
          [| discriminate].
        cbn [mbind option_bind].
        destruct (insertProbes _ _ _ _ _ _ rest) as [[st1 rest'] |] eqn:Hrest;
          [| discriminate].
        cbn [mbind option_bind]. intros [= <- _].
        destruct (IH _ _ _ Hrest) as [Hkeep _].
        cbn [is_addrOfFirstExecutionCount] in Hkeep.
        destruct (Z.eqb_spec (is_addrOfFirstExecutionCount st) 0) as [E | E].
        -- split; [intros H; contradiction |].
           intros _ _ e' [= <-] Hnz. exact (Hkeep Hnz).
        -- split; [intros _; exact (Hkeep E) | intros H; contradiction].
    + destruct (insertProbes _ _ _ _ _ st rest) as [[st1 rest'] |] eqn:Hrest;
        [| discriminate].
      cbn [mbind option_bind]. intros [= <- _]. exact (IH _ _ _ Hrest).
Qed.

(** X22.  When prejitting, the method entry callback is guarded by the
    execution count of the first counted block.  In an instrumenting run
    without class probes, with at least one counted block whose counter
    the Host placed at a non-zero address, [fgInstrumentMethod] ends by
    adding the entry callback that tests that counter (the first entry of
    the schema) to the instrumented method. *)
Theorem fgInstrumentMethod_prejit_entry_callback (c : Compiler)
    (schema schemaOut rest : list PgoInstrumentationSchema)
    (e0 : PgoInstrumentationSchema)
    (countOfBlocks : Z) (res : HRESULT) (profileMemory : Z) :
  compIsForInlining c = false ->
  JIT_FLAG_PREJIT c = true ->
  Forall (fun b => BBF_HAS_CLASS_PROFILE (bbFlags b) = false) (fgBBs c) ->
  compClassProbeCount c = 0%Z ->
  buildSchema CLASS_FLAG INTERFACE_FLAG SIZE jitGetILoffs (fgBBs c) [] 0
  = Some (schema, countOfBlocks) ->
  (0 <? JitMinimalProfiling c)%Z && (countOfBlocks <? 3)%Z
  && (compClassProbeCount c =? 0)%Z = false ->
  allocPgoInstrumentationBySchema (compMethodHnd c) schema
  = (res, schemaOut, profileMemory) ->
  SUCCEEDED res = true ->
  Forall2 hostFilled schema schemaOut ->
  countedBlocks (fgBBs c) <> [] ->
  schemaOut = e0 :: rest ->
  (Offset e0 + profileMemory)%Z <> 0%Z ->
  exists blocks',
    fgInstrumentMethod' c
    = ([schema],
       addMethodEntryCallback CORINFO_HELP_BBT_FCN_ENTER fgEnsureFirstBBisScratch
         impTokenToHandle gtNewIconEmbMethHndNode
         (Offset e0 + profileMemory)
         (set_lvaCount (lvaCount c) (set_fgBBs blocks' c))) /\
    Forall2 (instrumentedBlock schemaOut profileMemory) (fgBBs c) blocks'.
Proof.
  intros Hinl Hpre Hnone Hprobes Hbuild Hbail Halloc Hok Hfilled Hcounted
    Hout Hnz.
  destruct (fgInstrumentMethod_second_walk c schema schemaOut countOfBlocks
              profileMemory (or_intror Hnone) Hbuild Hfilled)
    as [st [blocks' [Hrun [Hcalls [Hblocks [Hlva HF]]]]]].
  rewrite (probedCallsIn_no_class_profile _ Hnone) in Hcalls, Hlva.
  simpl in Hcalls, Hlva. rewrite Nat.add_0_r in Hlva.
  destruct (insertProbes_first_execution_count _ _ _ _ Hnone _ _ _ Hrun)
    as [_ Hfirst].
  specialize (Hfirst eq_refl Hcounted e0).
  rewrite Hout in Hfirst. specialize (Hfirst eq_refl Hnz).
  exists blocks'. split; [| exact HF].
  unfold fgInstrumentMethod.
  rewrite Hinl, Hbuild, Hbail, Halloc, Hok. cbn [negb andb].
  rewrite Hrun, Hblocks, Hcalls, Hprobes. cbn [Z.sub Z.eqb negb orb].
  change (JIT_FLAG_PREJIT (set_lvaCount (is_lvaCount st) (set_fgBBs blocks' c)))
    with (JIT_FLAG_PREJIT c).
  rewrite Hpre, Hlva, Hfirst. reflexivity.
Qed.
End InstrumenterRun.

Lemma WalkStatements_instrumenting_witness :
  let s := mkProbeState 0 0 1 in
  (m_currentSchemaIndex s + 2 * length (probedCallsOfStmts [probedCall])
   <= length (fillOffsets 0 classProfileSchema))%nat /\
  exists stmts',
    WalkStatements
      (ClassProbeInserter 101 (fillOffsets 0 classProfileSchema) 4096 true)
      s [probedCall]
    = Some (afterProbes (length (probedCallsOfStmts [probedCall])) s, stmts') /\
    length stmts' = length [probedCall] /\
    forallb stubsRestored stmts' = true /\
    probedCallsOfStmts stmts'
    = List.map restoreStub (probedCallsOfStmts [probedCall]).
Proof.
  intros s.
  assert (Hroom : (m_currentSchemaIndex s
                   + 2 * length (probedCallsOfStmts [probedCall])
                   <= length (fillOffsets 0 classProfileSchema))%nat)
    by (vm_compute; lia).
  split; [exact Hroom |].
  exact (WalkStatements_instrumenting 101 (fillOffsets 0 classProfileSchema) 4096
           [probedCall] s Hroom).
Defined.

Lemma classProfileSchema_filled :
  Forall2 hostFilled classProfileSchema (fillOffsets 0 classProfileSchema).
Proof. repeat constructor. Qed.

Lemma fgInstrumentMethod_instruments_witness :
  let c := classProfileCompiler 1 0 1 [classProfileBlock] in
  compIsForInlining c = false /\ JIT_FLAG_PREJIT c = false /\
  (0 < JitClassProfiling c)%Z /\
  buildSchema 2147483648 1073741824 8 (fun il => il) (fgBBs c) [] 0
  = Some (classProfileSchema, 1%Z) /\
  hostAllocating (compMethodHnd c) classProfileSchema
  = (0%Z, fillOffsets 0 classProfileSchema, 4096%Z) /\
  compClassProbeCount c = Z.of_nat (length (probedCallsIn (fgBBs c))) /\
  exists blocks',
    fgInstrumentMethod_allocating c
    = ([classProfileSchema],
       Continue (set_lvaCount (lvaCount c + length (probedCallsIn (fgBBs c)))
                   (set_fgBBs blocks' c))) /\
    Forall2 (instrumentedBlock (fillOffsets 0 classProfileSchema) 4096)
      (fgBBs c) blocks'.
Proof.
  intros c.
  assert (Hpos : (0 < JitClassProfiling c)%Z) by (simpl; lia).
  assert (Hbuild :
            buildSchema 2147483648 1073741824 8 (fun il => il) (fgBBs c) [] 0
            = Some (classProfileSchema, 1%Z)) by (vm_compute; reflexivity).
  split; [reflexivity |]. split; [reflexivity |]. split; [exact Hpos |].
  split; [exact Hbuild |]. split; [reflexivity |]. split; [reflexivity |].
  exact (fgInstrumentMethod_instruments 2147483648 1073741824 8 101 102
           (fun il => il) hostAllocating (fun c => c) gtNewIconNode
           gtNewIconNode c classProfileSchema
           (fillOffsets 0 classProfileSchema) 1%Z 0%Z 4096%Z
           eq_refl eq_refl (or_introl Hpos) Hbuild eq_refl eq_refl eq_refl
           classProfileSchema_filled eq_refl).
Defined.

Lemma fgInstrumentMethod_probe_count_mismatch_is_fatal_witness :
  let c := classProfileCompiler 1 0 5 [classProfileBlock] in
  compIsForInlining c = false /\
  (0 < JitClassProfiling c)%Z /\
  buildSchema 2147483648 1073741824 8 (fun il => il) (fgBBs c) [] 0
  = Some (classProfileSchema, 1%Z) /\
  compClassProbeCount c <> Z.of_nat (length (probedCallsIn (fgBBs c))) /\
  fgInstrumentMethod_allocating c = ([classProfileSchema], Abort).
Proof.
  intros c.
  assert (Hpos : (0 < JitClassProfiling c)%Z) by (simpl; lia).
  assert (Hbuild :
            buildSchema 2147483648 1073741824 8 (fun il => il) (fgBBs c) [] 0
            = Some (classProfileSchema, 1%Z)) by (vm_compute; reflexivity).
  assert (Hne : compClassProbeCount c
                <> Z.of_nat (length (probedCallsIn (fgBBs c))))
    by (vm_compute; discriminate).
  split; [reflexivity |]. split; [exact Hpos |]. split; [exact Hbuild |].
  split; [exact Hne |].
  exact (fgInstrumentMethod_probe_count_mismatch_is_fatal 2147483648 1073741824
           8 101 102 (fun il => il) hostAllocating (fun c => c) gtNewIconNode
           gtNewIconNode c classProfileSchema
           (fillOffsets 0 classProfileSchema) 1%Z 0%Z 4096%Z
           eq_refl (or_introl Hpos) Hbuild eq_refl eq_refl eq_refl
           classProfileSchema_filled Hne).
Defined.

(** ** ProfileChecker *)

Lemma bump_no_wrap (p : Z) : (0 <= p)%Z -> (p + 1 < 2 ^ 32)%Z -> bump p = (p + 1)%Z.
Proof. intros H0 H1. unfold bump, u32. apply Z.mod_small. lia. Qed.

(** The sums the source accumulates over edges are the accumulated sums
    of their bounds. *)
Lemma fold_w_add_map {A : Type} (f : A -> weight_t) (l : list A) :
  forall acc,
    fold_left (fun a x => w_add a (f x)) l acc
    = fold_left w_add (List.map f l) acc.
Proof.
  induction l as [| x rest IH]; intros acc; simpl; [reflexivity | apply IH].
Qed.

Lemma minEdgeWeightSumOf_floatSum (preds : list flowList) :
  minEdgeWeightSumOf preds = floatSum (List.map flEdgeWeightMin preds).
Proof. apply (fold_w_add_map flEdgeWeightMin). Qed.

Lemma maxEdgeWeightSumOf_floatSum (preds : list flowList) :
  maxEdgeWeightSumOf preds = floatSum (List.map flEdgeWeightMax preds).
Proof. apply (fold_w_add_map flEdgeWeightMax). Qed.

Lemma checkIncoming_verdict (b : BasicBlock) (p : Z) :
  (0 <= p)%Z -> (p + 1 < 2 ^ 32)%Z ->
  (checkIncoming b p = p /\ bbPreds b <> [] /\ inFlowChecked b) \/
  (checkIncoming b p = (p + 1)%Z /\ ~ (bbPreds b <> [] /\ inFlowChecked b)).
Proof.
  intros H0 H1. unfold checkIncoming, inFlowChecked.
  rewrite (bump_no_wrap p H0 H1).
  rewrite <- minEdgeWeightSumOf_floatSum, <- maxEdgeWeightSumOf_floatSum.
  destruct (bbPreds b) as [| e rest] eqn:Hp.
  - right. split; [reflexivity |]. intros [H _]. apply H. reflexivity.
  - rewrite <- Hp in *.
    destruct (w_gt (minEdgeWeightSumOf (bbPreds b)) (maxEdgeWeightSumOf (bbPreds b)))
      eqn:E1;
      [| destruct (w_lt (bbWeight b) (minEdgeWeightSumOf (bbPreds b))) eqn:E2;
         [| destruct (w_gt (bbWeight b) (maxEdgeWeightSumOf (bbPreds b))) eqn:E3]];
      w_reflect.
    + right. split; [reflexivity |]. intros [_ [Ha Hb]]. lra.
    + right. split; [reflexivity |]. intros [_ [Ha Hb]]. lra.
    + right. split; [reflexivity |]. intros [_ [Ha Hb]]. lra.
    + left. split; [reflexivity |]. split; [rewrite Hp; discriminate |].
      split; lra.
Qed.

Lemma outgoingWeights_spec blocks i succs :
  forall m lo hi r,
    outgoingWeights blocks i succs (m, lo, hi) = Some r ->
    (m <= r.1.1)%Z /\
    (r.1.1 = m ->
     exists edges, succEdgesFound blocks i succs edges /\
       r.1.2 = fold_left w_add (List.map flEdgeWeightMin edges) lo /\
       r.2 = fold_left w_add (List.map flEdgeWeightMax edges) hi) /\
    (forall edges, succEdgesFound blocks i succs edges -> r.1.1 = m).
Proof.
  induction succs as [| s rest IH]; intros m lo hi r; simpl.
  - intros [= <-]. simpl. split; [lia |]. split.
    + intros _. exists []. split; [constructor |]. simpl. split; reflexivity.
    + intros edges _. reflexivity.
  - destruct (blocks !! s) as [succBlock |] eqn:Hs; simpl; [| discriminate].
    destruct (succEdgeOf (bbPreds succBlock) i) as [succEdge |] eqn:He; intros Hr.
    + destruct (IH _ _ _ _ Hr) as [Hle [Hfound Hall]].
      split; [exact Hle |]. split.
      * intros Hm. destruct (Hfound Hm) as [edges [HF [Hlo Hhi]]].
        exists (succEdge :: edges). split.
        { constructor; [| exact HF]. exists succBlock. split; assumption. }
        simpl. rewrite Hlo, Hhi. split; reflexivity.
      * intros edges HF. apply Forall2_cons_inv_l in HF.
        destruct HF as [e [edges' [_ [HF ->]]]]. exact (Hall edges' HF).
    + destruct (IH _ _ _ _ Hr) as [Hle [_ _]]. simpl in Hle.
      split; [lia |]. split.
      * intros Hm. lia.
      * intros edges HF. apply Forall2_cons_inv_l in HF.
        destruct HF as [e [edges' [[sb [Hsb Hedge]] _]]].
        rewrite Hs in Hsb. injection Hsb as <-. rewrite He in Hedge.
        discriminate.
Qed.

Lemma succEdgesFound_functional blocks i succs :
  forall edges1 edges2,
    succEdgesFound blocks i succs edges1 ->
    succEdgesFound blocks i succs edges2 -> edges1 = edges2.
Proof.
  induction succs as [| s rest IH]; intros edges1 edges2 H1 H2.
  - apply Forall2_nil_inv_l in H1, H2. congruence.
  - apply Forall2_cons_inv_l in H1, H2.
    destruct H1 as [e1 [r1 [[b1 [Hb1 He1]] [Hr1 ->]]]].
    destruct H2 as [e2 [r2 [[b2 [Hb2 He2]] [Hr2 ->]]]].
    f_equal; [congruence | exact (IH _ _ Hr1 Hr2)].
Qed.

Section ProfileCheckerFacts.
Variables hasEHBoundaryIn hasEHBoundaryOut : BasicBlock -> bool.
Variable successorsOf : nat -> BasicBlock -> list nat.

Local Abbreviation outgoingOK := (fun (blocks : list BasicBlock) (i : nat) (b : BasicBlock) =>
  successorsOf i b <> [] /\
  exists edges,
    succEdgesFound blocks i (successorsOf i b) edges /\
    floatSum (List.map flEdgeWeightMin edges) <= bbWeight b /\
    bbWeight b <= floatSum (List.map flEdgeWeightMax edges)).

Lemma checkOutgoing_verdict blocks i b p p' :
  (0 <= p)%Z -> (p + 2 < 2 ^ 32)%Z ->
  checkOutgoing successorsOf blocks i b p = Some p' ->
  (p' = p /\ outgoingOK blocks i b) \/
  ((p < p' <= p + 2)%Z /\ ~ outgoingOK blocks i b).
Proof.
  intros H0 H2. unfold checkOutgoing.
  destruct (successorsOf i b) as [| s rest] eqn:Hs.
  - intros [= <-]. rewrite bump_no_wrap by lia. right. split; [lia |].
    intros [H _]. apply H. reflexivity.
  - destruct (outgoingWeights blocks i (s :: rest) (0%Z, 0, 0))
      as [[[m lo] hi] |] eqn:Hout; [| discriminate].
    cbn [mbind option_bind].
    destruct (outgoingWeights_spec _ _ _ _ _ _ _ Hout) as [Hle [Hfound Hall]].
    simpl in Hle, Hfound, Hall.
    destruct (0 <? m)%Z eqn:Hm.
    + apply Z.ltb_lt in Hm.
      assert (Hno : ~ (s :: rest <> [] /\
                       exists edges,
                         succEdgesFound blocks i (s :: rest) edges /\
                         floatSum (List.map flEdgeWeightMin edges) <= bbWeight b /\
                         bbWeight b <= floatSum (List.map flEdgeWeightMax edges))).
      { intros [_ [edges [HF _]]]. specialize (Hall edges HF). lia. }
      rewrite (bump_no_wrap p) by lia.
      destruct (w_gt lo hi); [| destruct (w_lt (bbWeight b) lo);
                                [| destruct (w_gt (bbWeight b) hi)]];
        intros [= <-]; rewrite ?bump_no_wrap by lia; right;
        (split; [lia | exact Hno]).
    + apply Z.ltb_ge in Hm.
      destruct (Hfound ltac:(lia)) as [edges [HF [Hlo Hhi]]].
      assert (Hno : lo > hi \/ bbWeight b < lo \/ hi < bbWeight b ->
                    ~ (s :: rest <> [] /\
                       exists edges,
                         succEdgesFound blocks i (s :: rest) edges /\
                         floatSum (List.map flEdgeWeightMin edges) <= bbWeight b /\
                         bbWeight b <= floatSum (List.map flEdgeWeightMax edges))).
      { intros Hbad [_ [edges' [HF' [Ha Hb]]]].
        rewrite (succEdgesFound_functional _ _ _ _ _ HF' HF) in Ha, Hb.
        unfold floatSum in Ha, Hb. rewrite <- Hlo in Ha. rewrite <- Hhi in Hb.
        lra. }
      destruct (w_gt lo hi) eqn:E1; [| destruct (w_lt (bbWeight b) lo) eqn:E2;
                                [| destruct (w_gt (bbWeight b) hi) eqn:E3]];
        intros [= <-]; w_reflect; rewrite ?bump_no_wrap by lia.
      * right. split; [lia |]. apply Hno. left. exact E1.
      * right. split; [lia |]. apply Hno. right. left. exact E2.
      * right. split; [lia |]. apply Hno. right. right. exact E3.
      * left. split; [reflexivity |]. split; [discriminate |].
        exists edges. split; [exact HF |]. unfold floatSum.
        rewrite <- Hlo, <- Hhi. split; lra.
Qed.

(** One block of the checker: the problem count grows by at most three
    and stays exactly when the block passes; the entry and exit
    book-keeping follows the block. *)
Lemma checkBlock_verdict blocks i b st st' :
  blocks !! i = Some b ->
  (0 <= pc_problemBlocks st)%Z -> (pc_problemBlocks st + 3 < 2 ^ 32)%Z ->
  checkBlock hasEHBoundaryIn hasEHBoundaryOut successorsOf blocks i st
  = Continue st' ->
  (pc_problemBlocks st <= pc_problemBlocks st' <= pc_problemBlocks st + 3)%Z /\
  (pc_problemBlocks st' = pc_problemBlocks st <->
   blockConsistent hasEHBoundaryIn hasEHBoundaryOut successorsOf blocks i b) /\
  pc_exitWeight st' = addReturnWeight (pc_exitWeight st) b /\
  pc_exitProfiled st'
  = pc_exitProfiled st || (hasProfileWeight b && isReturnOrThrow b) /\
  pc_entryWeight st'
  = (if (i =? 0)%nat && hasProfileWeight b
     then w_add (pc_entryWeight st) (bbWeight b) else pc_entryWeight st) /\
  pc_entryProfiled st'
  = pc_entryProfiled st || ((i =? 0)%nat && hasProfileWeight b).
Proof.
  intros Hb H0 H3. unfold checkBlock, blockConsistent, addReturnWeight.
  rewrite Hb.
  destruct (hasProfileWeight b) eqn:Hprof; cbn [negb andb].
  2: { intros [= <-]. simpl. rewrite andb_false_r, !orb_false_r.
       split; [lia |]. split; [split; [discriminate | reflexivity] |].
       repeat split. }
  set (p := pc_problemBlocks st) in *.
  set (p1 := if negb (i =? 0)%nat && negb (hasEHBoundaryIn b)
             then checkIncoming b p else p).
  assert (Hin : (p1 = p /\
                 (i <> 0%nat -> hasEHBoundaryIn b = false ->
                  bbPreds b <> [] /\ inFlowChecked b)) \/
                (p1 = (p + 1)%Z /\
                 ~ (i <> 0%nat -> hasEHBoundaryIn b = false ->
                    bbPreds b <> [] /\ inFlowChecked b))).
  { unfold p1. destruct (Nat.eqb_spec i 0) as [Ei | Ei]; cbn [negb andb].
    - left. split; [reflexivity |]. intros H. contradiction.
    - destruct (hasEHBoundaryIn b); cbn [negb].
      + left. split; [reflexivity |]. intros _ H. discriminate.
      + destruct (checkIncoming_verdict b p ltac:(lia) ltac:(lia))
          as [[-> Hok] | [-> Hbad]].
        * left. split; [reflexivity |]. intros _ _. exact Hok.
        * right. split; [reflexivity |]. intros H. apply Hbad.
          apply H; [exact Ei | reflexivity]. }
  assert (Hout : forall p2,
             (if negb (isReturnOrThrow b) && negb (hasEHBoundaryOut b)
              then checkOutgoing successorsOf blocks i b p1 else Some p1)
             = Some p2 ->
             (p2 = p1 /\
              (isReturnOrThrow b = false -> hasEHBoundaryOut b = false ->
               outgoingOK blocks i b)) \/
             ((p1 < p2 <= p1 + 2)%Z /\
              ~ (isReturnOrThrow b = false -> hasEHBoundaryOut b = false ->
                 outgoingOK blocks i b))).
  { intros p2. destruct (isReturnOrThrow b); cbn [negb andb].
    - intros [= <-]. left. split; [reflexivity |]. intros H. discriminate.
    - destruct (hasEHBoundaryOut b); cbn [negb].
      + intros [= <-]. left. split; [reflexivity |]. intros _ H. discriminate.
      + intros Hc.
        destruct (checkOutgoing_verdict blocks i b p1 p2
                    ltac:(destruct Hin as [[-> _] | [-> _]]; lia)
                    ltac:(destruct Hin as [[-> _] | [-> _]]; lia) Hc)
          as [[-> Hok] | [Hlt Hbad]].
        * left. split; [reflexivity |]. intros _ _. exact Hok.
        * right. split; [exact Hlt |]. intros H. apply Hbad.
          apply H; reflexivity. }
  fold p1.
  destruct (if negb (isReturnOrThrow b) && negb (hasEHBoundaryOut b)
            then checkOutgoing successorsOf blocks i b p1 else Some p1)
    as [p2 |] eqn:Hc; [| discriminate].
  specialize (Hout p2 eq_refl).
  intros [= <-]. cbn [pc_problemBlocks pc_exitWeight pc_exitProfiled
                      pc_entryWeight pc_entryProfiled].
  rewrite !andb_true_r.
  split; [destruct Hin as [[-> _] | [-> _]], Hout as [[-> _] | [? _]]; lia |].
  split.
  - split.
    + intros Hsame _.
      destruct Hin as [[E1 Hi] | [E1 _]], Hout as [[E2 Ho] | [E2 _]]; try lia.
      split; [exact Hi | exact Ho].
    + intros Hcons. destruct (Hcons eq_refl) as [Hi Ho].
      destruct Hin as [[E1 _] | [_ Hbad]]; [| contradiction].
      destruct Hout as [[E2 _] | [_ Hbad]]; [| contradiction]. lia.
  - split; [destruct (isReturnOrThrow b); reflexivity |].
    split; [destruct (isReturnOrThrow b), (pc_exitProfiled st); reflexivity |].
    split; [reflexivity |].
    destruct (i =? 0)%nat, (pc_entryProfiled st); reflexivity.
Qed.
End ProfileCheckerFacts.

Section ProfileCheckerVerdict.
Variables hasEHBoundaryIn hasEHBoundaryOut : BasicBlock -> bool.
Variable successorsOf : nat -> BasicBlock -> list nat.
Variable fgComputePredsDone : bool.
Variable JitProfileChecks : Z.

Local Abbreviation checkBlock' :=
  (checkBlock hasEHBoundaryIn hasEHBoundaryOut successorsOf).
Local Abbreviation blockConsistent' :=
  (blockConsistent hasEHBoundaryIn hasEHBoundaryOut successorsOf).
Local Abbreviation isProfiledExit :=
  (fun b : BasicBlock => hasProfileWeight b && isReturnOrThrow b).

(** The block loop of the checker from position [k] on. *)
Lemma checkPhase_verdict blocks n :
  forall k st st',
    (0 <= pc_problemBlocks st)%Z ->
    (pc_problemBlocks st + 3 * Z.of_nat n < 2 ^ 32)%Z ->
    forEach (checkBlock' blocks) (seq k n) st = Continue st' ->
    (pc_problemBlocks st <= pc_problemBlocks st'
     <= pc_problemBlocks st + 3 * Z.of_nat n)%Z /\
    (pc_problemBlocks st' = pc_problemBlocks st <->
     forall j b, (k <= j < k + n)%nat -> blocks !! j = Some b ->
       blockConsistent' blocks j b) /\
    pc_exitWeight st'
    = fold_left addReturnWeight (take n (drop k blocks)) (pc_exitWeight st) /\
    pc_exitProfiled st'
    = pc_exitProfiled st || existsb isProfiledExit (take n (drop k blocks)) /\
    (k <> 0%nat ->
     pc_entryWeight st' = pc_entryWeight st /\
     pc_entryProfiled st' = pc_entryProfiled st).
Proof.
  induction n as [| n IH]; intros k st st' H0 Hroom; simpl.
  - intros [= <-]. split; [lia |]. split; [split; [intros _ j b Hj; lia | reflexivity] |].
    rewrite orb_false_r. repeat split.
  - destruct (checkBlock' blocks k st) as [st1 | st1 |] eqn:Hk; try discriminate.
    intros Hrest.
    assert (Hb : exists b, blocks !! k = Some b).
    { unfold checkBlock in Hk. destruct (blocks !! k) as [b |];
        [eexists; reflexivity | discriminate]. }
    destruct Hb as [b Hb].
    destruct (checkBlock_verdict hasEHBoundaryIn hasEHBoundaryOut successorsOf
                blocks k b st st1 Hb H0 ltac:(lia) Hk)
      as [Hp1 [Hiff1 [Hew1 [Hep1 [Hnw1 Hnp1]]]]].
    destruct (IH (S k) st1 st' ltac:(lia) ltac:(lia) Hrest)
      as [Hp [Hiff [Hew [Hep Hentry]]]].
    split; [lia |]. split; [| split; [| split]].
    + split.
      * intros Hsame j bj Hj Hbj.
        destruct (Nat.eq_dec j k) as [-> | Hne].
        -- assert (bj = b) as -> by congruence. apply Hiff1. lia.
        -- apply (proj1 Hiff); [lia | lia | exact Hbj].
      * intros Hall.
        assert (E1 : pc_problemBlocks st1 = pc_problemBlocks st).
        { apply Hiff1. apply Hall; [lia | exact Hb]. }
        assert (E2 : pc_problemBlocks st' = pc_problemBlocks st1).
        { apply Hiff. intros j bj Hj Hbj. apply Hall; [lia | exact Hbj]. }
        lia.
    + rewrite Hew, Hew1, (drop_S _ _ _ Hb). reflexivity.
    + rewrite Hep, Hep1, (drop_S _ _ _ Hb). simpl. rewrite orb_assoc. reflexivity.
    + intros Hk0. destruct (Hentry ltac:(lia)) as [-> ->].
      rewrite Hnw1, Hnp1. destruct (Nat.eqb_spec k 0) as [E | _]; [contradiction |].
      simpl. rewrite orb_false_r. split; reflexivity.
Qed.

Lemma existsb_lookup {A : Type} (f : A -> bool) (l : list A) :
  existsb f l = true <-> exists i x, l !! i = Some x /\ f x = true.
Proof.
  rewrite existsb_exists. split.
  - intros [x [Hin Hf]]. apply list_elem_of_In, list_elem_of_lookup in Hin.
    destruct Hin as [i Hi]. exists i, x. split; assumption.
  - intros [i [x [Hi Hf]]]. exists x. split; [| exact Hf].
    apply list_elem_of_In. eapply list_elem_of_lookup_2. exact Hi.
Qed.

(** X21.  The verdict of the checker.  On a method of fewer than about
    [2^32 / 3] blocks, when [fgDebugCheckProfileData] returns, it reports
    zero problems exactly when the profile is self-consistent: every
    profiled block has its weight within the range sums of its
    predecessor edges (unless it is the method entry or a handler entry)
    and of the successor edges found for it (unless it returns, throws or
    is a handler exit), and the weight of a profiled entry equals the
    summed weight of the profiled return and throw blocks, if any.  All
    these sums are the [float] sums the checker accumulates: from zero,
    in list order, every partial sum rounded.  With [JitProfileChecks]
    set to 2 it returns only when it found no problem. *)
Theorem fgDebugCheckProfileData_verdict (c : Compiler) (st : ProfileCheckState) :
  (3 * Z.of_nat (length (fgBBs c)) + 1 < 2 ^ 32)%Z ->
  fgDebugCheckProfileData hasEHBoundaryIn hasEHBoundaryOut successorsOf
    fgComputePredsDone JitProfileChecks c = Continue st ->
  (pc_problemBlocks st = 0%Z <->
   profileConsistent hasEHBoundaryIn hasEHBoundaryOut successorsOf (fgBBs c)) /\
  (JitProfileChecks = 2%Z -> pc_problemBlocks st = 0%Z).
Proof.
  intros Hsmall. unfold fgDebugCheckProfileData, profileConsistent.
  destruct fgComputePredsDone; cbn [negb]; [| discriminate].
  set (blocks := fgBBs c) in *.
  set (st0 := mkProfileCheckState 0 0 0 false false 0 0).
  destruct (forEach (checkBlock' blocks) (blockIndices blocks) st0)
    as [st1 | st1 |] eqn:Hrun; try discriminate.
  destruct (checkPhase_verdict blocks (length blocks) 0 st0 st1
              ltac:(simpl; lia) ltac:(simpl; lia) Hrun)
    as [Hp [Hiff [Hew [Hep _]]]].
  simpl in Hp, Hiff, Hew, Hep. rewrite drop_0, firstn_all in Hew, Hep.
  fold (returnWeightOf blocks) in Hew.
  (* the entry book-keeping *)
  assert (Hentry : match blocks !! 0%nat with
                   | Some b0 =>
                       pc_entryProfiled st1 = hasProfileWeight b0 /\
                       (hasProfileWeight b0 = true ->
                        pc_entryWeight st1 = w_add 0 (bbWeight b0))
                   | None => pc_entryProfiled st1 = false
                   end).
  { unfold blockIndices in Hrun.
    destruct blocks as [| b0 rest] eqn:Hblocks; simpl in Hrun.
    - injection Hrun as <-. reflexivity.
    - destruct (checkBlock' (b0 :: rest) 0 st0) as [s1 | s1 |] eqn:H0;
        try discriminate.
      destruct (checkBlock_verdict hasEHBoundaryIn hasEHBoundaryOut
                  successorsOf (b0 :: rest) 0 b0 st0 s1 eq_refl
                  ltac:(simpl; lia) ltac:(simpl; lia) H0)
        as [_ [_ [_ [_ [Hnw Hnp]]]]].
      destruct (checkPhase_verdict (b0 :: rest) (length rest) 1 s1 st1)
        as [_ [_ [_ [_ Hkeep]]]].
      + destruct (checkBlock_verdict hasEHBoundaryIn hasEHBoundaryOut
                    successorsOf (b0 :: rest) 0 b0 st0 s1 eq_refl
                    ltac:(simpl; lia) ltac:(simpl; lia) H0) as [Hb _].
        simpl in Hb. lia.
      + destruct (checkBlock_verdict hasEHBoundaryIn hasEHBoundaryOut
                    successorsOf (b0 :: rest) 0 b0 st0 s1 eq_refl
                    ltac:(simpl; lia) ltac:(simpl; lia) H0) as [Hb _].
        simpl in Hb. simpl length in Hsmall. lia.
      + exact Hrun.
      + destruct (Hkeep ltac:(lia)) as [-> ->]. simpl. rewrite Hnw, Hnp. simpl.
        split; [reflexivity |]. intros ->. reflexivity. }
  set (mismatch := pc_entryProfiled st1 && pc_exitProfiled st1
                   && w_ne (pc_entryWeight st1) (pc_exitWeight st1)).
  destruct (negb _ && (JitProfileChecks =? 2)%Z) eqn:Hassert; [discriminate |].
  intros [= <-]. cbn [pc_problemBlocks].
  split.
  2: { intros ->. rewrite Z.eqb_refl, andb_true_r in Hassert.
       apply negb_false_iff, Z.eqb_eq in Hassert. exact Hassert. }
  clear Hassert.
  assert (Hbal : mismatch = false <->
            forall b0, blocks !! 0%nat = Some b0 -> hasProfileWeight b0 = true ->
              (exists i b, blocks !! i = Some b /\ hasProfileWeight b = true /\
                           isReturnOrThrow b = true) ->
              floatSum [bbWeight b0] == returnWeightOf blocks).
  { unfold mismatch. rewrite Hep, Hew. simpl.
    destruct (blocks !! 0%nat) as [b0 |] eqn:Hb0.
    - destruct Hentry as [-> Hw].
      destruct (hasProfileWeight b0) eqn:Hprof; simpl.
      + rewrite (Hw eq_refl).
        destruct (existsb isProfiledExit blocks) eqn:Hex; simpl.
        * split.
          -- intros Hne b0' [= <-] _ _. apply w_ne_false in Hne.
             unfold floatSum. simpl. lra.
          -- intros H. apply w_ne_false.
             assert (Hexit : exists i b, blocks !! i = Some b /\
                               hasProfileWeight b = true /\
                               isReturnOrThrow b = true).
             { apply existsb_lookup in Hex. destruct Hex as [i [b [Hi Hf]]].
               apply andb_true_iff in Hf. exists i, b. tauto. }
             specialize (H b0 eq_refl Hprof Hexit).
             unfold floatSum in H. simpl in H. lra.
        * split; [| reflexivity]. intros _ b0' [= <-] _ [i [b [Hi [Hp' Hr]]]].
          assert (Hex' : existsb isProfiledExit blocks = true).
          { apply existsb_lookup. exists i, b. split; [exact Hi |].
            rewrite Hp', Hr. reflexivity. }
          rewrite Hex in Hex'. discriminate.
      + split; [| reflexivity]. intros _ b0' [= <-] H. rewrite Hprof in H.
        discriminate.
    - rewrite Hentry. simpl. split; [| reflexivity]. intros _ b0' H. discriminate. }
  destruct mismatch.
  - rewrite bump_no_wrap by lia. split; [lia |].
    intros [_ H]. apply Hbal in H. discriminate.
  - split.
    + intros Hz. split.
      * intros i b Hi. apply (proj1 Hiff Hz i b); [| exact Hi].
        split; [lia |]. apply lookup_lt_is_Some. eexists. exact Hi.
      * apply Hbal. reflexivity.
    + intros [Hall _]. apply Hiff. intros j b _ Hj. exact (Hall j b Hj).
Qed.
End ProfileCheckerVerdict.

Lemma fgDebugCheckProfileData_verdict_witness :
  let c := compilerOf roundingReturnSolved 16777216 in
  exists st,
    (3 * Z.of_nat (length (fgBBs c)) + 1 < 2 ^ 32)%Z /\
    fgDebugCheckProfileData noEHBoundary noEHBoundary plainSuccessorsOf true 2 c
    = Continue st /\
    pc_problemBlocks st = 0%Z /\
    (pc_problemBlocks st = 0%Z <->
     profileConsistent noEHBoundary noEHBoundary plainSuccessorsOf (fgBBs c)) /\
    (2%Z = 2%Z -> pc_problemBlocks st = 0%Z).
Proof.
  intros c.
  pose (st := match fgDebugCheckProfileData noEHBoundary noEHBoundary
                      plainSuccessorsOf true 2 c with
              | Continue x => x
              | _ => mkProfileCheckState 1 0 0 false false 0 0
              end).
  exists st.
  assert (Hsmall : (3 * Z.of_nat (length (fgBBs c)) + 1 < 2 ^ 32)%Z)
    by (vm_compute; reflexivity).
  assert (Hrun : fgDebugCheckProfileData noEHBoundary noEHBoundary
                   plainSuccessorsOf true 2 c = Continue st)
    by (vm_compute; reflexivity).
  split; [exact Hsmall |]. split; [exact Hrun |].
  split; [vm_compute; reflexivity |].
  exact (fgDebugCheckProfileData_verdict noEHBoundary noEHBoundary
           plainSuccessorsOf true 2 c st Hsmall Hrun).
Defined.

Lemma fgInstrumentMethod_prejit_entry_callback_witness :
  let c := prejitCompiler propagationBlocks in
  let schema := List.map blockCounterEntry propagationBlocks in
  compIsForInlining c = false /\ JIT_FLAG_PREJIT c = true /\
  Forall (fun b => BBF_HAS_CLASS_PROFILE (bbFlags b) = false) (fgBBs c) /\
  buildSchema 2147483648 1073741824 8 (fun il => il) (fgBBs c) [] 0
  = Some (schema, 3%Z) /\
  countedBlocks (fgBBs c) <> [] /\
  exists blocks',
    fgInstrumentMethod_allocating c
    = ([schema],
       addMethodEntryCallback 102 (fun c => c) gtNewIconNode gtNewIconNode
         (0 + 4096)%Z (set_lvaCount (lvaCount c) (set_fgBBs blocks' c))) /\
    Forall2 (instrumentedBlock (fillOffsets 0 schema) 4096) (fgBBs c) blocks'.
Proof.
  intros c schema.
  assert (Hnone : Forall (fun b => BBF_HAS_CLASS_PROFILE (bbFlags b) = false)
                    (fgBBs c)) by (repeat constructor).
  assert (Hbuild :
            buildSchema 2147483648 1073741824 8 (fun il => il) (fgBBs c) [] 0
            = Some (schema, 3%Z)) by (vm_compute; reflexivity).
  assert (Hcounted : countedBlocks (fgBBs c) <> []) by (vm_compute; discriminate).
  assert (Hfilled : Forall2 hostFilled schema (fillOffsets 0 schema))
    by (repeat constructor).
  assert (Hnz : (0 + 4096)%Z <> 0%Z) by lia.
  split; [reflexivity |]. split; [reflexivity |]. split; [exact Hnone |].
  split; [exact Hbuild |]. split; [exact Hcounted |].
  exact (fgInstrumentMethod_prejit_entry_callback 2147483648 1073741824 8 101
           102 (fun il => il) hostAllocating (fun c => c) gtNewIconNode
           gtNewIconNode c schema (fillOffsets 0 schema)
           (List.tl (fillOffsets 0 schema))
           (mkSchema 0 BasicBlockIntCount 0 1 0) 3%Z 0%Z 4096%Z
           eq_refl eq_refl Hnone eq_refl Hbuild eq_refl eq_refl eq_refl Hfilled
           Hcounted eq_refl Hnz).
Defined.

(** ** EdgeSolver: without slop the ranges only narrow *)

Lemma edgesNarrowed_refl blocks : edgesNarrowed blocks blocks.
Proof.
  split; [reflexivity |]. intros i b b' H H'.
  assert (b' = b) as -> by congruence.
  split; [reflexivity | apply Forall2_refl_rel, narrows_refl].
Qed.

Lemma edgesNarrowed_trans l1 l2 l3 :
  edgesNarrowed l1 l2 -> edgesNarrowed l2 l3 -> edgesNarrowed l1 l3.
Proof.
  intros [Hlen1 H1] [Hlen2 H2]. split; [congruence |].
  intros i b b' Hb Hb'.
  destruct (lookup_lt_is_Some_2 l2 i) as [b2 Hb2].
  { rewrite Hlen1. apply lookup_lt_is_Some. eexists. exact Hb. }
  destruct (H1 i b b2 Hb Hb2) as [F1 E1].
  destruct (H2 i b2 b' Hb2 Hb') as [F2 E2].
  split; [congruence |].
  exact (Forall2_trans_rel _ narrows_trans _ _ _ E1 E2).
Qed.

Lemma edgesNarrowed_insert blocks i b p :
  blocks !! i = Some b -> Forall2 narrows (bbPreds b) p ->
  edgesNarrowed blocks (<[i := set_bbPreds p b]> blocks).
Proof.
  intros Hi Hp. split; [apply length_insert |].
  intros j bj bj' Hj Hj'.
  destruct (decide (i = j)) as [<- | Hne].
  - rewrite list_lookup_insert_eq in Hj' by (apply lookup_lt_Some in Hi; exact Hi).
    injection Hj' as <-. assert (bj = b) as -> by congruence.
    split; [reflexivity | exact Hp].
  - rewrite list_lookup_insert_ne in Hj' by exact Hne.
    assert (bj' = bj) as -> by congruence.
    split; [reflexivity | apply Forall2_refl_rel, narrows_refl].
Qed.

Lemma edgesNarrowed_setEdge blocks i k e e' :
  getEdge blocks i k = Some e -> narrows e e' ->
  edgesNarrowed blocks (setEdge blocks i k e').
Proof.
  unfold getEdge, setEdge. intros Hget Hr.
  destruct (blocks !! i) as [b |] eqn:Hi; [| discriminate]. simpl in Hget.
  apply edgesNarrowed_insert; [exact Hi |].
  rewrite <- (list_insert_id (bbPreds b) k e Hget) at 1.
  apply Forall2_insert; [apply Forall2_refl_rel, narrows_refl | exact Hr].
Qed.

Lemma edgesNarrowed_profiled before after :
  edgesNarrowed before after ->
  Forall (fun b => hasProfileWeight b = true) before ->
  Forall (fun b => hasProfileWeight b = true) after.
Proof.
  intros [Hlen Hrel] Hall. apply Forall_lookup. intros i b' Hb'.
  destruct (lookup_lt_is_Some_2 before i) as [b Hb].
  { rewrite <- Hlen. apply lookup_lt_is_Some. eexists. exact Hb'. }
  destruct (Hrel i b b' Hb Hb') as [Hf _].
  change (hasProfileWeight (blockFrame b') = true). rewrite Hf.
  exact (proj1 (Forall_lookup _ _) Hall i b Hb).
Qed.

(** An edge loop whose every step relates the edge before and after by a
    reflexive [R] whenever the accumulator ends [good], however the loop
    ends. *)
Lemma forEdges_good {A : Type} (good : A -> Prop)
    (R : flowList -> flowList -> Prop)
    (body : flowList -> A -> Flow (flowList * A)) :
  (forall e, R e e) ->
  (forall e a e' a', flow_state (body e a) = Some (e', a') -> good a' ->
     good a /\ R e e') ->
  forall preds a preds' a',
    flow_state (forEdges body preds a) = Some (preds', a') -> good a' ->
    good a /\ Forall2 R preds preds'.
Proof.
  intros Hrefl Hbody. induction preds as [| e rest IH]; simpl;
    intros a preds' a' H Hg.
  - injection H as <- <-. split; [exact Hg | constructor].
  - destruct (body e a) as [[e1 a1] | [e1 a1] |] eqn:Hb; simpl in H;
      [| | discriminate].
    + destruct (forEdges body rest a1) as [[rest1 a2] | [rest1 a2] |] eqn:Hr;
        simpl in H; try discriminate; injection H as <- <-;
        (destruct (IH a1 rest1 a2 ltac:(rewrite Hr; reflexivity) Hg)
           as [Hg1 HF]);
        (destruct (Hbody e a e1 a1 ltac:(rewrite Hb; reflexivity) Hg1)
           as [Hg0 HR]);
        (split; [exact Hg0 | constructor; assumption]).
    + injection H as <- <-.
      destruct (Hbody e a e1 a1 ltac:(rewrite Hb; reflexivity) Hg) as [Hg0 HR].
      split; [exact Hg0 |].
      constructor; [exact HR | apply Forall2_refl_rel, Hrefl].
Qed.

(** A block loop whose every step keeps [Inv] and relates the states by a
    reflexive and transitive [T] whenever the state ends [good], however
    the loop ends. *)
Lemma forEach_good {S : Type} (good Inv : S -> Prop) (T : S -> S -> Prop)
    (body : nat -> S -> Flow S) :
  (forall s, T s s) ->
  (forall s1 s2 s3, T s1 s2 -> T s2 s3 -> T s1 s3) ->
  (forall i s s', Inv s -> flow_state (body i s) = Some s' -> Inv s') ->
  (forall i s s', Inv s -> flow_state (body i s) = Some s' -> good s' ->
     good s /\ T s s') ->
  forall idxs s s',
    Inv s -> flow_state (forEach body idxs s) = Some s' -> good s' ->
    good s /\ T s s'.
Proof.
  intros Hrefl Htrans Hkeep Hbody.
  induction idxs as [| i rest IH]; simpl; intros s s' Hs H Hg.
  - injection H as <-. split; [exact Hg | apply Hrefl].
  - destruct (body i s) as [s1 | s1 |] eqn:Hb; simpl in H; [| | discriminate].
    + assert (Hs1 : Inv s1) by (apply (Hkeep i s); [exact Hs | rewrite Hb; reflexivity]).
      destruct (IH s1 s' Hs1 H Hg) as [Hg1 HT1].
      destruct (Hbody i s s1 Hs ltac:(rewrite Hb; reflexivity) Hg1) as [Hg0 HT0].
      split; [exact Hg0 | exact (Htrans _ _ _ HT0 HT1)].
    + injection H as <-.
      apply (Hbody i); [exact Hs | rewrite Hb; reflexivity | exact Hg].
Qed.

Section EdgeSolverNarrowing.
Variable GetSlopFraction : BasicBlock -> BasicBlock -> weight_t.
Variable calledCount : weight_t.

Local Abbreviation noSlop := (fun s : EdgeWeightsState => ew_usedSlop s = false).
Local Abbreviation allProfiled :=
  (fun s : EdgeWeightsState =>
     Forall (fun b => hasProfileWeight b = true) (ew_blocks s)).
Local Abbreviation narrowed :=
  (fun s s' : EdgeWeightsState => edgesNarrowed (ew_blocks s) (ew_blocks s')).

Lemma initEdgeBySource_narrows slop bSrc e us r :
  initEdgeBySource slop bSrc e us = Some r -> r.2 = false ->
  us = false /\ narrows e r.1.2.
Proof.
  unfold initEdgeBySource. intros H Hus.
  destruct (setEdgeWeightMinChecked e (bbWeight bSrc) slop us)
    as [[ok1 e1] us1] eqn:H1.
  destruct (setEdgeWeightMaxChecked e1 (bbWeight bSrc) slop us1)
    as [[ok2 e2] us2] eqn:H2.
  assert (Hexact : r = (ok1 && ok2, e2, us2) -> us = false /\ narrows e r.1.2).
  { intros ->. simpl in *.
    destruct (setEdgeWeightMaxChecked_narrows _ _ _ _ _ _ _ H2 Hus) as [Hu1 N2].
    destruct (setEdgeWeightMinChecked_narrows _ _ _ _ _ _ _ H1 Hu1) as [Hu N1].
    split; [exact Hu | exact (narrows_trans _ _ _ N1 N2)]. }
  assert (Hupper :
            (if w_gt (edgeWeightMax e) (bbWeight bSrc)
             then Some (setEdgeWeightMaxChecked e (bbWeight bSrc) slop us)
             else Some (true, e, us)) = Some r ->
            us = false /\ narrows e r.1.2).
  { destruct (w_gt (edgeWeightMax e) (bbWeight bSrc)); intros [= <-].
    - destruct (setEdgeWeightMaxChecked e (bbWeight bSrc) slop us)
        as [[ok e'] us'] eqn:H3.
      exact (setEdgeWeightMaxChecked_narrows _ _ _ _ _ _ _ H3 Hus).
    - split; [exact Hus | apply narrows_refl]. }
  destruct (bbJumpKind bSrc); try discriminate H;
    try (injection H as H; exact (Hexact (eq_sym H)));
    exact (Hupper H).
Qed.

Lemma capEdgeByDest_narrows slop bDstWeight e us r :
  capEdgeByDest slop bDstWeight e us = r -> r.2 = false ->
  us = false /\ narrows e r.1.2.
Proof.
  unfold capEdgeByDest. intros <- Hus.
  destruct (w_gt (edgeWeightMax e) bDstWeight).
  - destruct (setEdgeWeightMaxChecked e bDstWeight slop us)
      as [[ok e'] us'] eqn:H.
    exact (setEdgeWeightMaxChecked_narrows _ _ _ _ _ _ _ H Hus).
  - split; [exact Hus | apply narrows_refl].
Qed.

Lemma initEdge_narrows bSrc bDst bDstWeight e acc e' acc' :
  hasProfileWeight bSrc = true -> hasProfileWeight bDst = true ->
  flow_state (initEdge GetSlopFraction bSrc bDst bDstWeight e acc)
  = Some (e', acc') ->
  acc'.1 = false -> acc.1 = false /\ narrows e e'.
Proof.
  intros Hs Hd. unfold initEdge, resetUnprofiledEdge. rewrite Hs, Hd.
  cbn [negb orb].
  destruct (initEdgeBySource _ bSrc e acc.1) as [[[ok1 e1] us1] |] eqn:Hsrc;
    [| discriminate].
  destruct (capEdgeByDest _ bDstWeight e1 us1) as [[ok2 e2] us2] eqn:Hcap.
  intros H Hus.
  assert (Hus2 : us2 = false /\ e' = e2).
  { destruct (ok1 && ok2); simpl in H; injection H as <- <-; split; auto. }
  destruct Hus2 as [-> ->].
  destruct (capEdgeByDest_narrows _ _ _ _ _ Hcap eq_refl) as [Hu1 N2].
  simpl in Hu1, N2. subst us1.
  destruct (initEdgeBySource_narrows _ _ _ _ _ Hsrc eq_refl) as [Hu N1].
  split; [exact Hu | exact (narrows_trans _ _ _ N1 N2)].
Qed.

Lemma initBlock_narrows i st st' :
  allProfiled st ->
  flow_state (initBlock GetSlopFraction calledCount i st) = Some st' ->
  noSlop st' -> noSlop st /\ narrowed st st'.
Proof.
  intros Hall. unfold initBlock.
  destruct (ew_blocks st !! i) as [bDst |] eqn:Hi; [| discriminate].
  assert (HbDst : hasProfileWeight bDst = true)
    by exact (proj1 (Forall_lookup _ _) Hall i bDst Hi).
  assert (Hedges : forall preds' acc',
             flow_state
               (forEdges
                  (withSource (ew_blocks st)
                     (fun bSrc => initEdge GetSlopFraction bSrc bDst
                                    (bDstWeightOf calledCount i bDst)))
                  (bbPreds bDst) (ew_usedSlop st, ew_numEdges st))
             = Some (preds', acc') ->
             acc'.1 = false ->
             ew_usedSlop st = false /\ Forall2 narrows (bbPreds bDst) preds').
  { intros preds' acc' H Hus.
    refine (forEdges_good (fun a : bool * nat => a.1 = false) narrows _
              narrows_refl _ _ _ _ _ H Hus).
    intros e a e' a'. unfold withSource.
    destruct (ew_blocks st !! flBlock e) as [bSrc |] eqn:Hsrc; [| discriminate].
    apply initEdge_narrows; [| exact HbDst].
    exact (proj1 (Forall_lookup _ _) Hall _ bSrc Hsrc). }
  destruct (forEdges _ (bbPreds bDst) _)
    as [[preds' acc'] | [preds' acc'] |] eqn:Hloop; simpl;
    try discriminate; intros [= <-]; simpl; intros Hus;
    destruct (Hedges preds' acc' eq_refl Hus) as [Hu HF];
    (split; [exact Hu |]); apply edgesNarrowed_insert; assumption.
Qed.

Lemma applySetter_narrows st i k setter ok st' :
  (forall e us ok e' us', setter e us = (ok, e', us') -> us' = false ->
     us = false /\ narrows e e') ->
  applySetter st i k setter = Some (ok, st') ->
  noSlop st' -> noSlop st /\ narrowed st st'.
Proof.
  intros Hset. unfold applySetter.
  destruct (getEdge (ew_blocks st) i k) as [e |] eqn:Hget; [| discriminate].
  simpl. destruct (setter e (ew_usedSlop st)) as [[ok' e'] us'] eqn:Hs.
  intros [= <- <-]. simpl. intros Hus.
  destruct (Hset _ _ _ _ _ Hs Hus) as [Hu N].
  split; [exact Hu | exact (edgesNarrowed_setEdge _ _ _ _ _ Hget N)].
Qed.

Lemma adjustMinUpOrMaxDown_narrows slop weight raise lower st ok st' :
  adjustMinUpOrMaxDown slop weight raise lower st = Some (ok, st') ->
  noSlop st' -> noSlop st /\ narrowed st st'.
Proof.
  unfold adjustMinUpOrMaxDown.
  destruct (getEdge (ew_blocks st) raise.1 raise.2) as [raiseEdge |];
    [| discriminate].
  destruct (getEdge (ew_blocks st) lower.1 lower.2) as [lowerEdge |];
    [| discriminate].
  simpl. destruct (w_gt _ 0); [| destruct (w_lt _ 0)].
  - apply applySetter_narrows. intros e us ok' e' us'.
    apply setEdgeWeightMinChecked_narrows.
  - apply applySetter_narrows. intros e us ok' e' us'.
    apply setEdgeWeightMaxChecked_narrows.
  - intros [= <- <-] Hus. split; [exact Hus | apply edgesNarrowed_refl].
Qed.

Lemma condEdge_narrows i k st st' :
  flow_state (condEdge GetSlopFraction i k st) = Some st' ->
  noSlop st' -> noSlop st /\ narrowed st st'.
Proof.
  unfold condEdge.
  destruct (ew_blocks st !! i) as [bDst |]; [| discriminate].
  destruct (bbPreds bDst !! k) as [edge |]; [| discriminate].
  destruct (ew_blocks st !! flBlock edge) as [bSrc |]; [| discriminate].
  destruct (bbJumpKind bSrc);
    try (simpl; intros [= <-] Hus; split; [exact Hus | apply edgesNarrowed_refl]).
  destruct (otherEdgeOf _ _ _ _) as [other |]; [| discriminate].
  destruct (getEdge _ other.1 other.2) as [otherEdge |]; [| discriminate].
  destruct (negb _ || negb _); [discriminate |].
  destruct (adjustMinUpOrMaxDown _ _ (i, k) other st) as [[ok1 st1] |] eqn:H1;
    [| discriminate].
  destruct (adjustMinUpOrMaxDown _ _ other (i, k) st1) as [[ok2 st2] |] eqn:H2;
    [| discriminate].
  intros H Hus.
  assert (st' = st2) as -> by (destruct (ok1 && ok2); simpl in H; congruence).
  destruct (adjustMinUpOrMaxDown_narrows _ _ _ _ _ _ _ H2 Hus) as [Hu1 N2].
  destruct (adjustMinUpOrMaxDown_narrows _ _ _ _ _ _ _ H1 Hu1) as [Hu N1].
  split; [exact Hu | exact (edgesNarrowed_trans _ _ _ N1 N2)].
Qed.

Lemma narrowed_trans s1 s2 s3 : narrowed s1 s2 -> narrowed s2 s3 -> narrowed s1 s3.
Proof. apply edgesNarrowed_trans. Qed.

Lemma condBlock_narrows i st st' :
  flow_state (condBlock GetSlopFraction i st) = Some st' ->
  noSlop st' -> noSlop st /\ narrowed st st'.
Proof.
  unfold condBlock.
  destruct (ew_blocks st !! i) as [bDst |]; [| discriminate].
  apply (forEach_good (fun s => noSlop s) (fun _ => True)
           (fun s s' => narrowed s s') (condEdge GetSlopFraction i));
    [intros s; apply edgesNarrowed_refl | exact narrowed_trans | auto | | exact I].
  intros k s s' _. apply condEdge_narrows.
Qed.

Lemma raiseMinByOthers_narrows slop bDstWeight otherMax e us r :
  raiseMinByOthers slop bDstWeight otherMax e us = r -> r.2 = false ->
  us = false /\ narrows e r.1.2.
Proof.
  unfold raiseMinByOthers. intros <- Hus.
  destruct (w_ge bDstWeight otherMax);
    [| split; [exact Hus | apply narrows_refl]].
  destruct (w_gt _ (edgeWeightMin e));
    [| split; [exact Hus | apply narrows_refl]].
  destruct (setEdgeWeightMinChecked e (w_sub bDstWeight otherMax) slop us)
    as [[ok e'] us'] eqn:H.
  exact (setEdgeWeightMinChecked_narrows _ _ _ _ _ _ _ H Hus).
Qed.

Lemma lowerMaxByOthers_narrows slop bDstWeight otherMin e us r :
  lowerMaxByOthers slop bDstWeight otherMin e us = r -> r.2 = false ->
  us = false /\ narrows e r.1.2.
Proof.
  unfold lowerMaxByOthers. intros <- Hus.
  destruct (w_ge bDstWeight otherMin);
    [| split; [exact Hus | apply narrows_refl]].
  destruct (w_lt _ (edgeWeightMax e));
    [| split; [exact Hus | apply narrows_refl]].
  destruct (setEdgeWeightMaxChecked e (w_sub bDstWeight otherMin) slop us)
    as [[ok e'] us'] eqn:H.
  exact (setEdgeWeightMaxChecked_narrows _ _ _ _ _ _ _ H Hus).
Qed.

Lemma balanceEdge_narrows bDst bDstWeight maxSum minSum bSrc e acc e' acc' :
  flow_state (balanceEdge GetSlopFraction bDst bDstWeight maxSum minSum bSrc e acc)
  = Some (e', acc') ->
  acc'.1.1 = false -> acc.1.1 = false /\ narrows e e'.
Proof.
  unfold balanceEdge.
  destruct (negb (w_ge maxSum (edgeWeightMax e))); [discriminate |].
  destruct (negb (w_ge minSum (edgeWeightMin e))); [discriminate |].
  destruct (raiseMinByOthers _ bDstWeight _ e acc.1.1) as [[ok1 e1] us1] eqn:H1.
  destruct (lowerMaxByOthers _ bDstWeight _ e1 us1) as [[ok2 e2] us2] eqn:H2.
  intros H Hus.
  assert (Hr : us2 = false /\ e' = e2).
  { destruct (negb (ok1 && ok2)); [| destruct (w_eq _ _)]; simpl in H;
      injection H as <- <-; split; auto. }
  destruct Hr as [-> ->].
  destruct (lowerMaxByOthers_narrows _ _ _ _ _ _ H2 eq_refl) as [Hu1 N2].
  simpl in Hu1, N2. subst us1.
  destruct (raiseMinByOthers_narrows _ _ _ _ _ _ H1 eq_refl) as [Hu N1].
  split; [exact Hu | exact (narrows_trans _ _ _ N1 N2)].
Qed.

Lemma balanceBlock_narrows i st st' :
  flow_state (balanceBlock GetSlopFraction calledCount i st) = Some st' ->
  noSlop st' -> noSlop st /\ narrowed st st'.
Proof.
  unfold balanceBlock.
  destruct (ew_blocks st !! i) as [bDst |] eqn:Hi; [| discriminate].
  destruct (w_eq (bbWeight bDst) BB_MAX_WEIGHT);
    [simpl; intros [= <-] Hus; split; [exact Hus | apply edgesNarrowed_refl] |].
  assert (Hedges : forall preds' acc',
             flow_state
               (forEdges
                  (withSource (ew_blocks st)
                     (balanceEdge GetSlopFraction bDst
                        (bDstWeightOf calledCount i bDst)
                        (maxEdgeWeightSumOf (bbPreds bDst))
                        (minEdgeWeightSumOf (bbPreds bDst))))
                  (bbPreds bDst)
                  (ew_usedSlop st, ew_goodEdgeCountCurrent st,
                   ew_hasIncompleteEdgeWeights st))
             = Some (preds', acc') ->
             acc'.1.1 = false ->
             ew_usedSlop st = false /\ Forall2 narrows (bbPreds bDst) preds').
  { intros preds' acc' H Hus.
    refine (forEdges_good (fun a : bool * nat * bool => a.1.1 = false) narrows _
              narrows_refl _ _ _ _ _ H Hus).
    intros e a e' a'. unfold withSource.
    destruct (ew_blocks st !! flBlock e) as [bSrc |]; [| discriminate].
    apply balanceEdge_narrows. }
  destruct (forEdges _ (bbPreds bDst) _)
    as [[preds' acc'] | [preds' acc'] |] eqn:Hloop; simpl;
    try discriminate; intros [= <-]; simpl; intros Hus;
    destruct (Hedges preds' acc' eq_refl Hus) as [Hu HF];
    (split; [exact Hu |]); apply edgesNarrowed_insert; assumption.
Qed.

Lemma refineOnce_narrows st st' :
  flow_state (refineOnce GetSlopFraction calledCount st) = Some st' ->
  noSlop st' -> noSlop st /\ narrowed st st'.
Proof.
  unfold refineOnce.
  set (st0 := mkEdgeWeightsState _ _ _ 0 false).
  assert (Hcond : forall s, flow_state
            (forEach (condBlock GetSlopFraction) (blockIndices (ew_blocks st0)) st0)
            = Some s -> noSlop s -> noSlop st /\ narrowed st s).
  { intros s H Hus.
    exact (forEach_good (fun s => noSlop s) (fun _ => True)
             (fun s s' => narrowed s s') (condBlock GetSlopFraction)
             (fun s => edgesNarrowed_refl _) narrowed_trans
             (fun _ _ _ _ _ => I)
             (fun i s s' _ => condBlock_narrows i s s')
             (blockIndices (ew_blocks st0)) st0 s I H Hus). }
  destruct (forEach (condBlock GetSlopFraction) _ st0) as [st1 | st1 |] eqn:Hc;
    simpl; try discriminate.
  - intros Hb Hus.
    destruct (forEach_good (fun s => noSlop s) (fun _ => True)
                (fun s s' => narrowed s s')
                (balanceBlock GetSlopFraction calledCount)
                (fun s => edgesNarrowed_refl _) narrowed_trans
                (fun _ _ _ _ _ => I)
                (fun i s s' _ => balanceBlock_narrows i s s')
                (blockIndices (ew_blocks st1)) st1 st' I Hb Hus) as [Hu1 N2].
    destruct (Hcond st1 eq_refl Hu1) as [Hu N1].
    split; [exact Hu | exact (edgesNarrowed_trans _ _ _ N1 N2)].
  - intros [= <-] Hus. exact (Hcond st1 eq_refl Hus).
Qed.

Lemma refineLoop_narrows fuel :
  forall iterations st st',
    flow_state (refineLoop GetSlopFraction calledCount fuel iterations st)
    = Some st' ->
    noSlop st' -> noSlop st /\ narrowed st st'.
Proof.
  induction fuel as [| fuel IH]; simpl; intros iterations st st'.
  - intros [= <-] Hus. split; [exact Hus | apply edgesNarrowed_refl].
  - destruct (refineOnce GetSlopFraction calledCount st) as [st1 | st1 |] eqn:Honce;
      simpl; try discriminate.
    + assert (H1 : noSlop st1 -> noSlop st /\ narrowed st st1)
        by (apply refineOnce_narrows; rewrite Honce; reflexivity).
      destruct (ew_numEdges st1 =? ew_goodEdgeCountCurrent st1)%nat.
      * destruct (ew_hasIncompleteEdgeWeights st1); simpl; [discriminate |].
        intros [= <-]. exact H1.
      * destruct (ew_hasIncompleteEdgeWeights st1 && _ && _).
        -- intros H Hus. destruct (IH _ _ _ H Hus) as [Hu1 N2].
           destruct (H1 Hu1) as [Hu N1].
           split; [exact Hu | exact (edgesNarrowed_trans _ _ _ N1 N2)].
        -- simpl. intros [= <-]. exact H1.
    + intros [= <-]. apply refineOnce_narrows. rewrite Honce. reflexivity.
Qed.

Lemma initPhase_narrows idxs st st' :
  allProfiled st ->
  flow_state (forEach (initBlock GetSlopFraction calledCount) idxs st) = Some st' ->
  noSlop st' -> noSlop st /\ narrowed st st'.
Proof.
  apply (forEach_good (fun s => noSlop s) (fun s => allProfiled s)
           (fun s s' => narrowed s s') (initBlock GetSlopFraction calledCount)).
  - intros s. apply edgesNarrowed_refl.
  - exact narrowed_trans.
  - intros i s s' Hall H. apply Forall_lookup. intros j b' Hb'.
    pose proof (initBlock_updated GetSlopFraction calledCount i s s' H)
      as [Hlen Hrel].
    destruct (lookup_lt_is_Some_2 (ew_blocks s) j) as [b Hb].
    { rewrite <- Hlen. apply lookup_lt_is_Some. eexists. exact Hb'. }
    destruct (Hrel j b b' Hb Hb') as [Hf _].
    change (hasProfileWeight (blockFrame b') = true). rewrite Hf.
    exact (proj1 (Forall_lookup _ _) Hall j b Hb).
  - intros i s s'. apply initBlock_narrows.
Qed.
End EdgeSolverNarrowing.

(** X23.  Without slop the solver only narrows.  When every block
    carries a profile weight and [fgComputeEdgeWeights] ends without
    having used slop, whether it found the profile data consistent or
    not, the range of every edge lies within the range the edge had
    before: its minimum was not lowered and its maximum was not raised. *)
Theorem fgComputeEdgeWeights_narrows_without_slop
    (GetSlopFraction : BasicBlock -> BasicBlock -> weight_t) (c c' : Compiler) :
  Forall (fun b => hasProfileWeight b = true) (fgBBs c) ->
  fgComputeEdgeWeights GetSlopFraction c = Continue c' ->
  OptimizationEnabled c = true -> fgIsUsingProfileWeights c = true ->
  fgSlopUsedInEdgeWeights c' = false ->
  edgesNarrowed (fgBBs c) (fgBBs c').
Proof.
  intros Hall Hrun Ho Hu. unfold fgComputeEdgeWeights in Hrun.
  rewrite Ho, Hu in Hrun. cbn [negb orb] in Hrun.
  destruct (forEach (initBlock GetSlopFraction (fgCalledCount c)) _ _)
    as [st | st |] eqn:Hinit; try discriminate.
  - destruct (refineLoop GetSlopFraction (fgCalledCount c) 8 0 st)
      as [st' | st' |] eqn:Hloop; try discriminate;
      injection Hrun as <-; simpl; intros Hus;
      (destruct (refineLoop_narrows GetSlopFraction (fgCalledCount c) 8 0 st st'
                   ltac:(rewrite Hloop; reflexivity) Hus) as [Hu1 N2]);
      (destruct (initPhase_narrows GetSlopFraction (fgCalledCount c)
                   (blockIndices (fgBBs c))
                   (mkEdgeWeightsState (fgBBs c) false 0 0 false) st Hall
                   ltac:(rewrite Hinit; reflexivity) Hu1) as [_ N1]);
      exact (edgesNarrowed_trans _ _ _ N1 N2).
  - injection Hrun as <-. simpl. intros Hus.
    exact (proj2 (initPhase_narrows GetSlopFraction (fgCalledCount c)
                    (blockIndices (fgBBs c))
                    (mkEdgeWeightsState (fgBBs c) false 0 0 false) st Hall
                    ltac:(rewrite Hinit; reflexivity) Hus)).
Qed.

Lemma fgComputeEdgeWeights_narrows_without_slop_witness :
  let c := compilerOf (diamondBlocks 30 70) 100 in
  exists c',
    Forall (fun b => hasProfileWeight b = true) (fgBBs c) /\
    fgComputeEdgeWeights zeroSlopFraction c = Continue c' /\
    OptimizationEnabled c = true /\ fgIsUsingProfileWeights c = true /\
    fgSlopUsedInEdgeWeights c' = false /\
    edgesNarrowed (fgBBs c) (fgBBs c').
Proof.
  intros c.
  pose (c' := match fgComputeEdgeWeights zeroSlopFraction c with
              | Continue x => x
              | _ => c
              end).
  exists c'.
  assert (Hall : Forall (fun b => hasProfileWeight b = true) (fgBBs c))
    by (repeat constructor).
  assert (Hrun : fgComputeEdgeWeights zeroSlopFraction c = Continue c')
    by (vm_compute; reflexivity).
  assert (Hslop : fgSlopUsedInEdgeWeights c' = false) by (vm_compute; reflexivity).
  split; [exact Hall |]. split; [exact Hrun |]. split; [reflexivity |].
  split; [reflexivity |]. split; [exact Hslop |].
  exact (fgComputeEdgeWeights_narrows_without_slop zeroSlopFraction c c'
           Hall Hrun eq_refl eq_refl Hslop).
Defined.
